(** * A shallow embedding of the chess engine of [src/services/chessEngine.ts]

    The engine is a set of JavaScript functions over a board of type
    [(Piece | null)[][]].  The embedding keeps the code's data as the
    JavaScript run time has it:

    - coordinates are integers ([Z]); nothing in the code restricts them to
      the range 0..7;
    - a row is a JavaScript array: indexed elements, plus the properties a
      write at a negative index creates; a read outside the elements yields
      [undefined], a write past the end extends the array;
    - reading [board[r][c]] when [board[r]] is [undefined] raises a
      [TypeError]: every function returns an [outcome];
    - a cell holds [null], a [Piece], or the object [{ hasMoved: true }]
      that [applyMove] builds from the spread of [null] when it is given an
      empty origin or a castling without a rook;
    - numbers of the search are integers extended with the infinities and
      [NaN].

    The second part of the file models [cloneBoard] and [applyMove] over an
    explicit store of arrays and objects, where aliasing and in-place writes
    are visible, and relates that model to the value-level one. *)

From Stdlib Require Import ZArith Lia Bool String DecimalString Permutation.
From stdpp Require Import base option list gmap strings.

#[local] Open Scope Z_scope.

(** ** Outcomes *)

(** The result of running a piece of the engine: a value, a [TypeError]
    raised by reading or writing a property of [undefined], or the
    exhaustion of the step budget that the embedding gives to the [while]
    loops. *)
Inductive outcome (A : Type) : Type :=
| Ret (a : A)
| TypeError
| OutOfFuel.
Arguments Ret {A} a.
Arguments TypeError {A}.
Arguments OutOfFuel {A}.

Definition obind {A B : Type} (m : outcome A) (f : A -> outcome B) : outcome B :=
  match m with
  | Ret a => f a
  | TypeError => TypeError
  | OutOfFuel => OutOfFuel
  end.

Notation "'let*' x ':=' m 'in' k" := (obind m (fun x => k))
  (at level 10, x name, m at level 100, k at level 200).

(** [a || b] on outcomes, evaluated left to right like the early
    [return true] of the loops. *)
Definition orM (a b : outcome bool) : outcome bool :=
  let* x := a in if x then Ret true else b.

(** A loop body run over a list of indices until it answers [true]. *)
Fixpoint anyM {A : Type} (f : A -> outcome bool) (l : list A) : outcome bool :=
  match l with
  | [] => Ret false
  | x :: l' => orM (f x) (anyM f l')
  end.

(** The integers [lo, lo+1, ..., hi] of a [for (i = lo; i <= hi; i++)]. *)
Definition zrange (lo hi : Z) : list Z :=
  map (fun i => lo + Z.of_nat i) (seq 0 (Z.to_nat (hi - lo + 1))).

(** ** Data model ([src/types.ts]) *)

Inductive Color : Type := white | black.

(** The letters ['k'], ['q'], ['r'], ['b'], ['n'] and ['p']. *)
Inductive PieceType : Type := King | Queen | Rook | Bishop | Knight | Pawn.

Definition Color_eqb (a b : Color) : bool :=
  match a, b with
  | white, white | black, black => true
  | _, _ => false
  end.

Definition PieceType_eqb (a b : PieceType) : bool :=
  match a, b with
  | King, King | Queen, Queen | Rook, Rook
  | Bishop, Bishop | Knight, Knight | Pawn, Pawn => true
  | _, _ => false
  end.

(** The interface [Piece]; [hasMoved] is optional there. *)
Record Piece : Type := mkPiece {
  type : PieceType;
  color : Color;
  hasMoved : option bool
}.

(** What a read of an array element can give.  [Bare] is the object
    [{ hasMoved: true }], with no [type] and no [color]: the only object
    outside the interface that the engine creates (lines 219-224 and
    233-234, from the spread of [null] or of such an object). *)
Inductive cell : Type :=
| Undefined
| Null
| Obj (p : Piece)
| Bare.

(** A JavaScript array: its elements, and the properties with a negative
    key.  The type of the elements is a parameter: a row of a board holds
    cells, a row in the store of the second part holds references. *)
Record JSArray (A : Type) : Type := mkRow {
  elems : list A;
  props : gmap Z A
}.
Arguments mkRow {A} elems props.
Arguments elems {A} _.
Arguments props {A} _.

(** The value [undefined] among the elements. *)
Class Undef (A : Type) : Type := undef : A.
#[global] Instance cell_undef : Undef cell := Undefined.

Abbreviation Row := (JSArray cell).

(** [Board] is [(Piece | null)[][]]: the list of the row arrays. *)
Abbreviation Board := (list Row).

(** [Position] has the fields [r] and [c], here [pos_r] and [pos_c]; the
    parameters [from] and [to] of the functions are named [a] and [b], the
    names [from] and [to] being the fields of [Move]. *)
Record Position : Type := mkPos { pos_r : Z; pos_c : Z }.
Record Move : Type := mkMove { from : Position; to : Position }.

(** [p.color === col], [p.type === t] and [!p.hasMoved]. *)
Definition color_is (p : Piece) (col : Color) : bool := Color_eqb (color p) col.
Definition type_is (p : Piece) (t : PieceType) : bool := PieceType_eqb (type p) t.
Definition moved (p : Piece) : bool :=
  match hasMoved p with Some b => b | None => false end.

(** [p && p.color === col && p.type === t]. *)
Definition is_piece (x : cell) (col : Color) (t : PieceType) : bool :=
  match x with
  | Obj p => color_is p col && type_is p t
  | _ => false
  end.

(** Truthiness of a cell: [if (p)]. *)
Definition truthy (x : cell) : bool :=
  match x with Obj _ | Bare => true | _ => false end.

(** ** Arrays *)

(** [row[i]]. *)
Definition arr_get {A : Type} `{Undef A} (row : JSArray A) (i : Z) : A :=
  if i <? 0 then default undef (props row !! i)
  else default undef (elems row !! Z.to_nat i).

(** [row[i] = v]: inside the elements it replaces, past the end it extends
    the array over a run of holes, at a negative index it sets a property. *)
Definition arr_set {A : Type} `{Undef A} (row : JSArray A) (i : Z) (v : A) : JSArray A :=
  if i <? 0 then mkRow (elems row) (<[i := v]> (props row))
  else if i <? Z.of_nat (length (elems row))
       then mkRow (<[Z.to_nat i := v]> (elems row)) (props row)
       else mkRow (elems row ++ replicate (Z.to_nat i - length (elems row)) undef ++ [v])
                  (props row).

(** [board[r]], [None] standing for [undefined]. *)
Definition row_at {A : Type} (board : list (JSArray A)) (r : Z) : option (JSArray A) :=
  if r <? 0 then None else board !! Z.to_nat r.

(** [board[r][c]]. *)
Definition get {A : Type} `{Undef A} (board : list (JSArray A)) (r c : Z) : outcome A :=
  match row_at board r with
  | Some row => Ret (arr_get row c)
  | None => TypeError
  end.

(** [board[r][c] = v]. *)
Definition set {A : Type} `{Undef A} (board : list (JSArray A)) (r c : Z) (v : A)
  : outcome (list (JSArray A)) :=
  match row_at board r with
  | Some row => Ret (<[Z.to_nat r := arr_set row c v]> board)
  | None => TypeError
  end.

(** Line 23: [board.map(row => [...row])].  The spread copies the indexed
    elements only. *)
Definition cloneBoard {A : Type} (board : list (JSArray A)) : list (JSArray A) :=
  map (fun row => mkRow (elems row) ∅) board.

(** Lines 5-21. *)
Definition mk (t : PieceType) (col : Color) : cell :=
  Obj (mkPiece t col (Some false)).

Definition rowOf (l : list cell) : Row := mkRow l ∅.

Definition backRow (col : Color) : Row :=
  rowOf [mk Rook col; mk Knight col; mk Bishop col; mk Queen col;
         mk King col; mk Bishop col; mk Knight col; mk Rook col].

Definition getInitialBoard : Board :=
  [ backRow black;
    rowOf (replicate 8 (mk Pawn black));
    rowOf (replicate 8 Null);
    rowOf (replicate 8 Null);
    rowOf (replicate 8 Null);
    rowOf (replicate 8 Null);
    rowOf (replicate 8 (mk Pawn white));
    backRow white ].

(** ** Path clearance (lines 25-37) *)

(** The [while] loop, with a step budget. *)
Fixpoint isPathClear_loop (fuel : nat) (board : Board) (dr dc r c : Z) (target : Position)
  : outcome bool :=
  if negb (r =? pos_r target) || negb (c =? pos_c target) then
    match fuel with
    | O => OutOfFuel
    | S fuel' =>
        let* x := get board r c in
        if truthy x then Ret false
        else isPathClear_loop fuel' board dr dc (r + dr) (c + dc) target
    end
  else Ret true.

(** Enough steps for every call: a walk that does not reach [to] leaves the
    rows of the board. *)
Definition isPathClear_fuel (board : Board) (a b : Position) : nat :=
  (Z.to_nat (Z.abs (pos_r b - pos_r a)) + Z.to_nat (Z.abs (pos_c b - pos_c a))
   + length board + 2)%nat.

Definition isPathClear (board : Board) (a b : Position) : outcome bool :=
  let dr := Z.sgn (pos_r b - pos_r a) in
  let dc := Z.sgn (pos_c b - pos_c a) in
  isPathClear_loop (isPathClear_fuel board a b) board dr dc (pos_r a + dr) (pos_c a + dc) b.

(** ** Attack detection (lines 40-116) *)

Definition opponentOf (col : Color) : Color :=
  match col with white => black | black => white end.

Definition inBoard (r c : Z) : bool :=
  (0 <=? r) && (r <? 8) && (0 <=? c) && (c <? 8).

(** Part 1: the two squares a pawn of the attacker would stand on. *)
Definition pawnAttack (board : Board) (pos : Position) (attackerColor : Color) : outcome bool :=
  let pawnRow := pos_r pos + (if Color_eqb attackerColor white then 1 else -1) in
  if (0 <=? pawnRow) && (pawnRow <? 8) then
    orM (if 0 <=? pos_c pos - 1 then
           let* p := get board pawnRow (pos_c pos - 1) in
           Ret (is_piece p attackerColor Pawn)
         else Ret false)
        (if pos_c pos + 1 <? 8 then
           let* p := get board pawnRow (pos_c pos + 1) in
           Ret (is_piece p attackerColor Pawn)
         else Ret false)
  else Ret false.

(** Part 2: the eight knight offsets, in the order of the array literal. *)
Definition knightMoves (pos : Position) : list Position :=
  [ mkPos (pos_r pos - 2) (pos_c pos - 1); mkPos (pos_r pos - 2) (pos_c pos + 1);
    mkPos (pos_r pos - 1) (pos_c pos - 2); mkPos (pos_r pos - 1) (pos_c pos + 2);
    mkPos (pos_r pos + 1) (pos_c pos - 2); mkPos (pos_r pos + 1) (pos_c pos + 2);
    mkPos (pos_r pos + 2) (pos_c pos - 1); mkPos (pos_r pos + 2) (pos_c pos + 1) ].

Definition knightAttack (board : Board) (pos : Position) (attackerColor : Color) : outcome bool :=
  anyM (fun m =>
          if inBoard (pos_r m) (pos_c m) then
            let* p := get board (pos_r m) (pos_c m) in
            Ret (is_piece p attackerColor Knight)
          else Ret false)
       (knightMoves pos).

(** Part 3: the adjacent squares, clipped to the board. *)
Definition kingAttack (board : Board) (pos : Position) (attackerColor : Color) : outcome bool :=
  anyM (fun r =>
    anyM (fun c =>
      if (r =? pos_r pos) && (c =? pos_c pos) then Ret false
      else
        let* p := get board r c in
        Ret (is_piece p attackerColor King))
      (zrange (Z.max 0 (pos_c pos - 1)) (Z.min 7 (pos_c pos + 1))))
    (zrange (Z.max 0 (pos_r pos - 1)) (Z.min 7 (pos_r pos + 1))).

(** Part 4: one ray.  [types] is the pair of slider types of the
    direction. *)
Definition includes (types : list PieceType) (p : Piece) : bool :=
  existsb (type_is p) types.

Fixpoint ray (fuel : nat) (board : Board) (attackerColor : Color)
    (dr dc : Z) (types : list PieceType) (r c : Z) : outcome bool :=
  if inBoard r c then
    match fuel with
    | O => OutOfFuel
    | S fuel' =>
        let* x := get board r c in
        match x with
        | Obj p => Ret (color_is p attackerColor && includes types p)
        | Bare => Ret false
        | _ => ray fuel' board attackerColor dr dc types (r + dr) (c + dc)
        end
    end
  else Ret false.

Definition directions : list (Z * Z * list PieceType) :=
  [ (-1, 0, [Rook; Queen]); (1, 0, [Rook; Queen]);
    (0, -1, [Rook; Queen]); (0, 1, [Rook; Queen]);
    (-1, -1, [Bishop; Queen]); (-1, 1, [Bishop; Queen]);
    (1, -1, [Bishop; Queen]); (1, 1, [Bishop; Queen]) ].

Definition slidingAttack (board : Board) (pos : Position) (attackerColor : Color) : outcome bool :=
  anyM (fun d =>
          let '(dr, dc, types) := d in
          ray 8 board attackerColor dr dc types (pos_r pos + dr) (pos_c pos + dc))
       directions.

Definition isSquareUnderAttack (board : Board) (pos : Position) (attackerColor : Color)
  : outcome bool :=
  orM (pawnAttack board pos attackerColor)
   (orM (knightAttack board pos attackerColor)
     (orM (kingAttack board pos attackerColor)
          (slidingAttack board pos attackerColor))).

(** ** Applying a move (lines 216-249) *)

(** [p = { ...x }; p.hasMoved = true]: a copy of the piece marked as
    moved; the spread of [null], of [undefined] and of [{ hasMoved: true }]
    has no other field. *)
Definition setMoved (p : Piece) : Piece := mkPiece (type p) (color p) (Some true).
Definition movedCopy (x : cell) : cell :=
  match x with
  | Obj p => Obj (setMoved p)
  | _ => Bare
  end.

Definition setType (p : Piece) (t : PieceType) : Piece := mkPiece t (color p) (hasMoved p).

Definition cell_type_is (x : cell) (t : PieceType) : bool :=
  match x with Obj p => type_is p t | _ => false end.

(** Lines 243-246, on the copy [p]: [p.type = promoteTo || 'q']. *)
Definition promote (x : cell) (move : Move) (promoteTo : option PieceType) : cell :=
  match x with
  | Obj p =>
      if type_is p Pawn && ((pos_r (to move) =? 0) || (pos_r (to move) =? 7))
      then Obj (setType p (default Queen promoteTo))
      else x
  | _ => x
  end.

(** The source writes the copy [p] to the destination, clears the origin and
    only then changes [p.type]; the destination cell aliases [p], so the
    board returned holds the promoted piece.  Here the piece is promoted
    before it is written; [applyMove_run] below shows that the store
    model, which follows the source order, gives the same board.  The test
    [if (!p)] of line 221 never succeeds, [p] being an object. *)
Definition applyMove (board : Board) (move : Move) (promoteTo : option PieceType)
  : outcome Board :=
  let newBoard := cloneBoard board in
  let* x := get newBoard (pos_r (from move)) (pos_c (from move)) in
  let p := movedCopy x in
  let* newBoard :=
    (if cell_type_is p King && (Z.abs (pos_c (to move) - pos_c (from move)) =? 2) then
       let row := pos_r (from move) in
       let isKingSide := pos_c (from move) <? pos_c (to move) in
       let rookFromCol := if isKingSide then 7 else 0 in
       let rookToCol := if isKingSide then 5 else 3 in
       let* y := get newBoard row rookFromCol in
       let rook := movedCopy y in
       let* b1 := set newBoard row rookToCol rook in
       set b1 row rookFromCol Null
     else Ret newBoard) in
  let* b2 := set newBoard (pos_r (to move)) (pos_c (to move)) (promote p move promoteTo) in
  set b2 (pos_r (from move)) (pos_c (from move)) Null.

(** ** Check detection (lines 251-268) *)

(** The inner [for] over the columns of row [r]: the first king of the
    color, where the [break] leaves the loop. *)
Fixpoint findKingInRow (board : Board) (col : Color) (r : Z) (cs : list Z)
  : outcome (option Position) :=
  match cs with
  | [] => Ret None
  | c :: cs' =>
      let* p := get board r c in
      if is_piece p col King then Ret (Some (mkPos r c))
      else findKingInRow board col r cs'
  end.

(** The outer [for]: [break] does not leave it, so a king found in a later
    row replaces [kPos]. *)
Fixpoint findKing (board : Board) (col : Color) (kPos : option Position) (rs : list Z)
  : outcome (option Position) :=
  match rs with
  | [] => Ret kPos
  | r :: rs' =>
      let* found := findKingInRow board col r (zrange 0 7) in
      findKing board col (match found with Some k => Some k | None => kPos end) rs'
  end.

Definition isInCheck (board : Board) (col : Color) : outcome bool :=
  let* kPos := findKing board col None (zrange 0 7) in
  match kPos with
  | None => Ret true
  | Some k => isSquareUnderAttack board k (opponentOf col)
  end.

(** ** Move validation (lines 118-197) *)

(** The pawn case: three [if]s in a row, each able to set [valid]. *)
Definition pawnValid (board : Board) (p : Piece) (a b : Position) (target : cell)
  : outcome bool :=
  let dx := Z.abs (pos_c b - pos_c a) in
  let dir := if color_is p white then -1 else 1 in
  let startRow := if color_is p white then 6 else 1 in
  let v1 := (pos_c a =? pos_c b) && (pos_r b =? pos_r a + dir) && negb (truthy target) in
  let* v2 :=
    (if (pos_c a =? pos_c b) && (pos_r b =? pos_r a + 2 * dir) && (pos_r a =? startRow)
        && negb (truthy target)
     then let* mid := get board (pos_r a + dir) (pos_c a) in Ret (negb (truthy mid))
     else Ret false) in
  let v3 := (dx =? 1) && (pos_r b =? pos_r a + dir) && truthy target in
  Ret (v1 || v2 || v3).

(** [g && isPathClear(board, from, to)]. *)
Definition andPath (g : bool) (board : Board) (a b : Position) : outcome bool :=
  if g then isPathClear board a b else Ret false.

(** The king case.  [inl v] is the value left in [valid] at the [break];
    [inr tt] is one of the two [return false] inside the castling branch. *)
Definition kingValid (board : Board) (p : Piece) (a b : Position) (turn : Color)
    (checkSafety : bool) : outcome (bool + unit) :=
  let dx := Z.abs (pos_c b - pos_c a) in
  let dy := Z.abs (pos_r b - pos_r a) in
  if (dx <=? 1) && (dy <=? 1) then Ret (inl true)
  else if (dy =? 0) && (dx =? 2) && negb (moved p) then
    let* chk := (if checkSafety then isInCheck board turn else Ret false) in
    if chk then Ret (inr tt)
    else
      let row := pos_r a in
      let isKingSide := pos_c a <? pos_c b in
      let rookCol := if isKingSide then 7 else 0 in
      let* rook := get board row rookCol in
      match rook with
      | Obj rk =>
          if type_is rk Rook && color_is rk turn && negb (moved rk) then
            let* clear := isPathClear board a (mkPos row rookCol) in
            if clear then
              let midCol := pos_c a + (if isKingSide then 1 else -1) in
              let* att := (if checkSafety
                           then isSquareUnderAttack board (mkPos row midCol) (opponentOf turn)
                           else Ret false) in
              if att then Ret (inr tt) else Ret (inl true)
            else Ret (inl false)
          else Ret (inl false)
      | _ => Ret (inl false)
      end
  else Ret (inl false).

(** The [switch] on [p.type]. *)
Definition geometry (board : Board) (p : Piece) (a b : Position) (target : cell)
    (turn : Color) (checkSafety : bool) : outcome (bool + unit) :=
  let dx := Z.abs (pos_c b - pos_c a) in
  let dy := Z.abs (pos_r b - pos_r a) in
  match type p with
  | Pawn => let* v := pawnValid board p a b target in Ret (inl v)
  | Rook => let* v := andPath ((dx =? 0) || (dy =? 0)) board a b in Ret (inl v)
  | Knight => Ret (inl (((dx =? 2) && (dy =? 1)) || ((dx =? 1) && (dy =? 2))))
  | Bishop => let* v := andPath (dx =? dy) board a b in Ret (inl v)
  | Queen =>
      let* v := andPath ((dx =? 0) || (dy =? 0) || (dx =? dy)) board a b in Ret (inl v)
  | King => kingValid board p a b turn checkSafety
  end.

Definition isValidMove (board : Board) (a b : Position) (turn : Color) (checkSafety : bool)
  : outcome bool :=
  let* x := get board (pos_r a) (pos_c a) in
  let* target := get board (pos_r b) (pos_c b) in
  match x with
  | Obj p =>
      if negb (color_is p turn) then Ret false
      else if (match target with
               | Obj t => Color_eqb (color t) (color p)
               | _ => false
               end) then Ret false
      else
        let* g := geometry board p a b target turn checkSafety in
        match g with
        | inr _ => Ret false
        | inl valid =>
            if valid && checkSafety then
              let* newBoard := applyMove board (mkMove a b) None in
              let* chk := isInCheck newBoard turn in
              if chk then Ret false else Ret valid
            else Ret valid
        end
  | _ => Ret false
  end.

(** Lines 200-214. *)
Definition allSquares : list Position :=
  flat_map (fun r => map (fun c => mkPos r c) (zrange 0 7)) (zrange 0 7).

Fixpoint filterM {A : Type} (f : A -> outcome bool) (l : list A) : outcome (list A) :=
  match l with
  | [] => Ret []
  | x :: l' =>
      let* keep := f x in
      let* rest := filterM f l' in
      Ret (if keep then x :: rest else rest)
  end.

(** [p.color] is [undefined] for the object [{ hasMoved: true }]: the
    validator then answers [false] at every square (the friendly-fire test
    or the empty [switch]), after reading the destination. *)
Definition getValidMoves (board : Board) (a : Position) : outcome (list Position) :=
  let* x := get board (pos_r a) (pos_c a) in
  match x with
  | Obj p => filterM (fun b => isValidMove board a b (color p) true) allSquares
  | Bare => filterM (fun b => let* _ := get board (pos_r b) (pos_c b) in Ret false) allSquares
  | _ => Ret []
  end.

(** ** Move generation (lines 283-299) *)

Fixpoint flatMapM {A B : Type} (f : A -> outcome (list B)) (l : list A) : outcome (list B) :=
  match l with
  | [] => Ret []
  | x :: l' =>
      let* ys := f x in
      let* rest := flatMapM f l' in
      Ret (ys ++ rest)
  end.

(** [board[r][c]?.color === color]. *)
Definition cell_color_is (x : cell) (col : Color) : bool :=
  match x with Obj p => color_is p col | _ => false end.

(** The two inner loops, for one origin. *)
Definition movesFrom (board : Board) (col : Color) (a : Position) : outcome (list Move) :=
  let* x := get board (pos_r a) (pos_c a) in
  if cell_color_is x col then
    let* targets := filterM (fun b => isValidMove board a b col true) allSquares in
    Ret (map (mkMove a) targets)
  else Ret [].

Definition getAllMoves (board : Board) (col : Color) : outcome (list Move) :=
  flatMapM (movesFrom board col) allSquares.

(** ** Numbers of the search *)

(** The values a JavaScript number takes in the evaluator and the search. *)
Inductive num : Type :=
| NaN
| NegInf
| Fin (z : Z)
| PosInf.

(** [a + b] (never applied to two infinities of opposite sign here, which
    would give [NaN] as well). *)
Definition num_add (a b : num) : num :=
  match a, b with
  | NaN, _ | _, NaN => NaN
  | Fin x, Fin y => Fin (x + y)
  | NegInf, PosInf | PosInf, NegInf => NaN
  | NegInf, _ | _, NegInf => NegInf
  | PosInf, _ | _, PosInf => PosInf
  end.

(** [a <= b]; every comparison with [NaN] is false. *)
Definition num_le (a b : num) : bool :=
  match a, b with
  | NaN, _ | _, NaN => false
  | NegInf, _ => true
  | _, PosInf => true
  | Fin x, Fin y => x <=? y
  | _, _ => false
  end.

(** [a > b]. *)
Definition num_gt (a b : num) : bool :=
  match a, b with
  | NaN, _ | _, NaN => false
  | _, _ => negb (num_le a b)
  end.

(** [Math.max(a, b)] and [Math.min(a, b)]: [NaN] if one argument is. *)
Definition num_max (a b : num) : num :=
  match a, b with
  | NaN, _ | _, NaN => NaN
  | _, _ => if num_le a b then b else a
  end.

Definition num_min (a b : num) : num :=
  match a, b with
  | NaN, _ | _, NaN => NaN
  | _, _ => if num_le a b then a else b
  end.

(** ** Evaluation (lines 3 and 270-281) *)

Definition VALS (t : PieceType) : Z :=
  match t with
  | Pawn => 10 | Knight => 30 | Bishop => 30 | Rook => 50 | Queen => 90 | King => 900
  end.

(** The term one cell adds to [score]; [VALS[undefined]] is [undefined],
    and its product is [NaN]. *)
Definition cellScore (x : cell) : num :=
  match x with
  | Obj p => Fin ((if color_is p black then 1 else -1) * VALS (type p))
  | Bare => NaN
  | _ => Fin 0
  end.

Fixpoint evaluateLoop (board : Board) (score : num) (sqs : list Position) : outcome num :=
  match sqs with
  | [] => Ret score
  | s :: sqs' =>
      let* x := get board (pos_r s) (pos_c s) in
      evaluateLoop board (if truthy x then num_add score (cellScore x) else score) sqs'
  end.

Definition evaluateBoard (board : Board) : outcome num :=
  evaluateLoop board (Fin 0) allSquares.

(** ** Search (lines 302-363) *)

Section Search.

(** The recursive call, at the depth below. *)
Variable rec : Board -> num -> num -> outcome num.

(** The [for] loop of a maximizing node, from the state [maxEval],
    [alpha]. *)
Fixpoint maxLoop (board : Board) (moves : list Move) (maxEval alpha beta : num)
  : outcome num :=
  match moves with
  | [] => Ret maxEval
  | move :: rest =>
      let* nextBoard := applyMove board move None in
      let* evalVal := rec nextBoard alpha beta in
      let maxEval := num_max maxEval evalVal in
      let alpha := num_max alpha evalVal in
      if num_le beta alpha then Ret maxEval
      else maxLoop board rest maxEval alpha beta
  end.

(** The [for] loop of a minimizing node. *)
Fixpoint minLoop (board : Board) (moves : list Move) (minEval alpha beta : num)
  : outcome num :=
  match moves with
  | [] => Ret minEval
  | move :: rest =>
      let* nextBoard := applyMove board move None in
      let* evalVal := rec nextBoard alpha beta in
      let minEval := num_min minEval evalVal in
      let beta := num_min beta evalVal in
      if num_le beta alpha then Ret minEval
      else minLoop board rest minEval alpha beta
  end.

(** The [for] loop of [getBestMove], from the state [bestMove], [maxVal],
    [alpha]; [beta] is the constant [Infinity]. *)
Fixpoint bestLoop (board : Board) (moves : list Move) (bestMove : option Move)
    (maxVal alpha : num) : outcome (option Move) :=
  match moves with
  | [] => Ret bestMove
  | move :: rest =>
      let* nextBoard := applyMove board move None in
      let* val := rec nextBoard alpha PosInf in
      let better := num_gt val maxVal in
      let maxVal := if better then val else maxVal in
      let bestMove := if better then Some move else bestMove in
      let alpha := num_max alpha val in
      if num_le PosInf alpha then Ret bestMove
      else bestLoop board rest bestMove maxVal alpha
  end.

End Search.

(** [depth] counts the plies left; the source tests [depth === 0] and
    recurses on [depth - 1]. *)
Fixpoint minimax (board : Board) (depth : nat) (alpha beta : num) (isMaximizing : bool)
  : outcome num :=
  match depth with
  | O => evaluateBoard board
  | S d =>
      let col := if isMaximizing then black else white in
      let* moves := getAllMoves board col in
      match moves with
      | [] =>
          let* chk := isInCheck board col in
          if chk then Ret (if isMaximizing then Fin (-9999) else Fin 9999)
          else Ret (Fin 0)
      | _ =>
          if isMaximizing
          then maxLoop (fun b al be => minimax b d al be false) board moves NegInf alpha beta
          else minLoop (fun b al be => minimax b d al be true) board moves PosInf alpha beta
      end
  end.

(** [shuffle] is what [moves.sort(() => Math.random() - 0.5)] leaves in the
    array.  At [depth = 0] the source would call [minimax] with [-1], which
    [depth === 0] never stops: only depths from 1 on are embedded. *)
Definition getBestMove (shuffle : list Move -> list Move) (board : Board) (depth : nat)
  : outcome (option Move) :=
  let* moves := getAllMoves board black in
  match moves with
  | [] => Ret None
  | _ =>
      match depth with
      | O => OutOfFuel
      | S d =>
          bestLoop (fun b al be => minimax b d al be false) board (shuffle moves)
                   None NegInf NegInf
      end
  end.

(** ** Notation (lines 365-450) *)

#[local] Open Scope string_scope.
#[local] Open Scope Z_scope.

(** [['a', ..., 'h'][c]] inside a template or a concatenation: an index
    outside the array prints as [undefined]. *)
Definition fileName (c : Z) : string :=
  if c <? 0 then "undefined"
  else default "undefined" (["a"; "b"; "c"; "d"; "e"; "f"; "g"; "h"] !! Z.to_nat c).

(** The decimal text of an integer. *)
Definition showZ (z : Z) : string := NilZero.string_of_int (Z.to_int z).

(** [t.toUpperCase()]. *)
Definition upper (t : PieceType) : string :=
  match t with
  | King => "K" | Queen => "Q" | Rook => "R" | Bishop => "B" | Knight => "N" | Pawn => "P"
  end.

(** The check and mate suffix (lines 378-381 and 438-447). *)
Definition checkSuffix (nextBoard : Board) (opponent : Color) : outcome string :=
  let* chk := isInCheck nextBoard opponent in
  if chk then
    let* moves := getAllMoves nextBoard opponent in
    Ret (match moves with [] => "#" | _ => "+" end)
  else Ret "".

(** The disambiguation scan (lines 402-413): the other squares holding a
    piece of the same type and color that may move to the destination. *)
Definition others (prevBoard : Board) (piece : Piece) (move : Move) : outcome (list Position) :=
  filterM (fun s =>
             if (pos_r s =? pos_r (from move)) && (pos_c s =? pos_c (from move)) then Ret false
             else
               let* p := get prevBoard (pos_r s) (pos_c s) in
               if is_piece p (color piece) (type piece)
               then isValidMove prevBoard s (to move) (color piece) true
               else Ret false)
          allSquares.

(** Lines 415-431. *)
Definition disambiguation (os : list Position) (move : Move) : string :=
  match os with
  | [] => ""
  | _ =>
      let fileMatch := existsb (fun o => pos_c o =? pos_c (from move)) os in
      let rankMatch := existsb (fun o => pos_r o =? pos_r (from move)) os in
      if negb fileMatch then fileName (pos_c (from move))
      else if negb rankMatch then showZ (8 - pos_r (from move))
      else fileName (pos_c (from move)) +:+ showZ (8 - pos_r (from move))
  end.

Definition getSan (prevBoard nextBoard : Board) (move : Move) (promoteTo : option PieceType)
  : outcome string :=
  let* x := get prevBoard (pos_r (from move)) (pos_c (from move)) in
  match x with
  | Undefined | Null => Ret ""
  | Bare =>
      (* no castling, no pawn: [piece.type.toUpperCase()] on [undefined],
         after the read of the destination *)
      let* _ := get prevBoard (pos_r (to move)) (pos_c (to move)) in
      TypeError
  | Obj piece =>
      let fromFile := fileName (pos_c (from move)) in
      let toFile := fileName (pos_c (to move)) in
      let toRank := 8 - pos_r (to move) in
      let dest := toFile +:+ showZ toRank in
      let opponent := opponentOf (color piece) in
      if type_is piece King && (Z.abs (pos_c (to move) - pos_c (from move)) =? 2) then
        let san := if pos_c (from move) <? pos_c (to move) then "O-O" else "O-O-O" in
        let* suffix := checkSuffix nextBoard opponent in
        Ret (san +:+ suffix)
      else
        let* target := get prevBoard (pos_r (to move)) (pos_c (to move)) in
        let isCapture := match target with Null => false | _ => true end in
        let* san :=
          (if type_is piece Pawn then
             let san := if isCapture then fromFile +:+ "x" +:+ dest else dest in
             Ret (match promoteTo with
                  | Some t => san +:+ "=" +:+ upper t
                  | None => san
                  end)
           else
             let* os := others prevBoard piece move in
             Ret (upper (type piece) +:+ disambiguation os move
                  +:+ (if isCapture then "x" else "") +:+ dest)) in
        let* suffix := checkSuffix nextBoard opponent in
        Ret (san +:+ suffix)
  end.

#[local] Close Scope string_scope.

(** * The store model of [cloneBoard] and [applyMove]

    Arrays and objects live in a store and are named by their location, so
    that two cells may hold the same object and a write is seen through
    every reference.  [applyMove] is embedded statement by statement. *)

Abbreviation loc := nat.

(** What an array element holds in the store. *)
Inductive hval : Type :=
| HUndef
| HNull
| HRef (l : loc).

#[global] Instance hval_undef : Undef hval := HUndef.

(** An object: the three fields the engine reads and writes, each present
    or absent. *)
Record HObj : Type := mkObj {
  o_type : option PieceType;
  o_color : option Color;
  o_hasMoved : option bool
}.

(** The store: the objects, the row arrays, and the outer arrays (each the
    list of the locations of its rows).  A location is an index; an
    allocation appends. *)
Record heap : Type := mkHeap {
  objs : list HObj;
  rows : list (JSArray hval);
  outers : list (list loc)
}.

(** A computation on the store that returns a value or raises. *)
Definition M (A : Type) : Type := heap -> heap * outcome A.

Definition sret {A : Type} (a : A) : M A := fun h => (h, Ret a).
Definition sthrow {A : Type} : M A := fun h => (h, TypeError).
Definition sbind {A B : Type} (m : M A) (f : A -> M B) : M B :=
  fun h =>
    match m h with
    | (h', Ret a) => f a h'
    | (h', TypeError) => (h', TypeError)
    | (h', OutOfFuel) => (h', OutOfFuel)
    end.

Notation "'let+' x ':=' m 'in' k" := (sbind m (fun x => k))
  (at level 10, x name, m at level 100, k at level 200).

Module Store.

Definition allocObj (o : HObj) : M loc :=
  fun h => (mkHeap (objs h ++ [o]) (rows h) (outers h), Ret (length (objs h))).

Definition readObj (l : loc) : M HObj :=
  fun h => (h, match objs h !! l with Some o => Ret o | None => TypeError end).

Definition writeObj (l : loc) (o : HObj) : M unit :=
  fun h => (mkHeap (<[l := o]> (objs h)) (rows h) (outers h), Ret tt).

Definition allocRow (row : JSArray hval) : M loc :=
  fun h => (mkHeap (objs h) (rows h ++ [row]) (outers h), Ret (length (rows h))).

Definition readRow (l : loc) : M (JSArray hval) :=
  fun h => (h, match rows h !! l with Some row => Ret row | None => TypeError end).

Definition writeRow (l : loc) (row : JSArray hval) : M unit :=
  fun h => (mkHeap (objs h) (<[l := row]> (rows h)) (outers h), Ret tt).

Definition allocOuter (outer : list loc) : M loc :=
  fun h => (mkHeap (objs h) (rows h) (outers h ++ [outer]), Ret (length (outers h))).

Definition readOuter (l : loc) : M (list loc) :=
  fun h => (h, match outers h !! l with Some outer => Ret outer | None => TypeError end).

(** [board.map(row => [...row])]: a new array for every row, then a new
    outer array. *)
Fixpoint cloneRows (rls : list loc) : M (list loc) :=
  match rls with
  | [] => sret []
  | rl :: rest =>
      let+ row := readRow rl in
      let+ l := allocRow (mkRow (elems row) ∅) in
      let+ ls := cloneRows rest in
      sret (l :: ls)
  end.

Definition cloneBoard (board : loc) : M loc :=
  let+ outer := readOuter board in
  let+ newRows := cloneRows outer in
  allocOuter newRows.

(** [board[r]]: the location of the row, or a [TypeError] for the later
    access to [undefined]. *)
Definition rowOfBoard (board : loc) (r : Z) : M loc :=
  let+ outer := readOuter board in
  match (if r <? 0 then None else outer !! Z.to_nat r) with
  | Some rl => sret rl
  | None => sthrow
  end.

(** [board[r][c]]. *)
Definition get (board : loc) (r c : Z) : M hval :=
  let+ rl := rowOfBoard board r in
  let+ row := readRow rl in
  sret (arr_get row c).

(** [board[r][c] = v]. *)
Definition set (board : loc) (r c : Z) (v : hval) : M unit :=
  let+ rl := rowOfBoard board r in
  let+ row := readRow rl in
  writeRow rl (arr_set row c v).

(** [{ ...x }]: a new object with the fields of [x], none for [null] and
    [undefined]. *)
Definition spread (x : hval) : M loc :=
  match x with
  | HRef l => let+ o := readObj l in allocObj o
  | _ => allocObj (mkObj None None None)
  end.

(** [p.hasMoved = true]. *)
Definition setHasMoved (l : loc) : M unit :=
  let+ o := readObj l in writeObj l (mkObj (o_type o) (o_color o) (Some true)).

(** [p.type]. *)
Definition typeOf (l : loc) : M (option PieceType) :=
  let+ o := readObj l in sret (o_type o).

(** [p.type = t]. *)
Definition setTypeOf (l : loc) (t : PieceType) : M unit :=
  let+ o := readObj l in writeObj l (mkObj (Some t) (o_color o) (o_hasMoved o)).

Definition isType (t : option PieceType) (u : PieceType) : bool :=
  match t with Some x => PieceType_eqb x u | None => false end.

(** Lines 216-249, in the order of the source.  [p] is an object, so the
    test of line 221 fails. *)
Definition applyMove (board : loc) (move : Move) (promoteTo : option PieceType) : M loc :=
  let+ newBoard := cloneBoard board in
  let+ x := get newBoard (pos_r (from move)) (pos_c (from move)) in
  let+ p := spread x in
  let+ _ := setHasMoved p in
  let+ t := typeOf p in
  let+ _ :=
    (if isType t King && (Z.abs (pos_c (to move) - pos_c (from move)) =? 2) then
       let row := pos_r (from move) in
       let isKingSide := pos_c (from move) <? pos_c (to move) in
       let rookFromCol := if isKingSide then 7 else 0 in
       let rookToCol := if isKingSide then 5 else 3 in
       let+ y := get newBoard row rookFromCol in
       let+ rook := spread y in
       let+ _ := setHasMoved rook in
       let+ _ := set newBoard row rookToCol (HRef rook) in
       set newBoard row rookFromCol HNull
     else sret tt) in
  let+ _ := set newBoard (pos_r (to move)) (pos_c (to move)) (HRef p) in
  let+ _ := set newBoard (pos_r (from move)) (pos_c (from move)) HNull in
  let+ t := typeOf p in
  let+ _ :=
    (if isType t Pawn && ((pos_r (to move) =? 0) || (pos_r (to move) =? 7))
     then setTypeOf p (default Queen promoteTo)
     else sret tt) in
  sret newBoard.

End Store.

(** ** Reading a board out of the store *)

(** The cell an object stands for: a piece when it has a type and a color,
    and [{ hasMoved: true }] otherwise (the only other object of a
    well-formed store, see [shaped]). *)
Definition obj_cell (o : HObj) : cell :=
  match o_type o, o_color o with
  | Some t, Some c => Obj (mkPiece t c (o_hasMoved o))
  | _, _ => Bare
  end.

Definition reify_val (objects : list HObj) (v : hval) : cell :=
  match v with
  | HUndef => Undefined
  | HNull => Null
  | HRef l => match objects !! l with Some o => obj_cell o | None => Undefined end
  end.

Definition arr_map {A B : Type} (f : A -> B) (row : JSArray A) : JSArray B :=
  mkRow (f <$> elems row) (f <$> props row).

(** The rows of the board at [b], as arrays of references. *)
Definition content (h : heap) (b : loc) : list (JSArray hval) :=
  match outers h !! b with
  | Some outer => (fun rl => default (mkRow [] ∅) (rows h !! rl)) <$> outer
  | None => []
  end.

(** The structure of the board at [b]: what the engine reads through it. *)
Definition reify (h : heap) (b : loc) : Board :=
  arr_map (reify_val (objs h)) <$> content h b.

(** The objects of a well-formed store: pieces, and [{ hasMoved: true }]. *)
Definition shaped (o : HObj) : Prop :=
  (is_Some (o_type o) /\ is_Some (o_color o)) \/ o = mkObj None None (Some true).

Definition val_ok (objects : list HObj) (v : hval) : Prop :=
  match v with
  | HRef l => exists o, objects !! l = Some o /\ shaped o
  | _ => True
  end.

Definition row_ok (objects : list HObj) (row : JSArray hval) : Prop :=
  Forall (val_ok objects) (elems row) /\
  forall i v, props row !! i = Some v -> val_ok objects v.

(** [b] is a board of the store: its rows and the objects in them exist. *)
Definition board_ok (h : heap) (b : loc) : Prop :=
  exists outer, outers h !! b = Some outer /\
    Forall (fun rl => exists row, rows h !! rl = Some row /\ row_ok (objs h) row) outer.

(** Everything allocated in [h] is in [h'], unchanged. *)
Definition heap_le (h h' : heap) : Prop :=
  objs h `prefix_of` objs h' /\ rows h `prefix_of` rows h' /\ outers h `prefix_of` outers h'.

(** A board written into a store, for the examples: one object per piece. *)
Definition loadCell (x : cell) : M hval :=
  match x with
  | Undefined => sret HUndef
  | Null => sret HNull
  | Obj p => let+ l := Store.allocObj (mkObj (Some (type p)) (Some (color p)) (hasMoved p)) in
             sret (HRef l)
  | Bare => let+ l := Store.allocObj (mkObj None None (Some true)) in sret (HRef l)
  end.

Fixpoint loadCells (xs : list cell) : M (list hval) :=
  match xs with
  | [] => sret []
  | x :: xs' => let+ v := loadCell x in let+ vs := loadCells xs' in sret (v :: vs)
  end.

Fixpoint loadRows (board : Board) : M (list loc) :=
  match board with
  | [] => sret []
  | row :: board' =>
      let+ vs := loadCells (elems row) in
      let+ l := Store.allocRow (mkRow vs ∅) in
      let+ ls := loadRows board' in
      sret (l :: ls)
  end.

Definition loadBoard (board : Board) : M loc :=
  let+ ls := loadRows board in Store.allocOuter ls.

(** The store [h] after the allocation of the objects [fresh], of the rows
    [newRows] and of an outer array over these rows. *)
Definition ext (h : heap) (fresh : list HObj) (newRows : list (JSArray hval)) : heap :=
  mkHeap (objs h ++ fresh) (rows h ++ newRows)
         (outers h ++ [seq (length (rows h)) (length newRows)]).

(** The fields that [{ ...x }] copies. *)
Definition spreadObj (objects : list HObj) (x : hval) : HObj :=
  match x with
  | HRef l => default (mkObj None None None) (objects !! l)
  | _ => mkObj None None None
  end.

(** The object after [hasMoved = true]. *)
Definition markMoved (o : HObj) : HObj := mkObj (o_type o) (o_color o) (Some true).

(** The object after lines 244-246. *)
Definition promoteObj (o : HObj) (move : Move) (promoteTo : option PieceType) : HObj :=
  if Store.isType (o_type o) Pawn && ((pos_r (to move) =? 0) || (pos_r (to move) =? 7))
  then mkObj (Some (default Queen promoteTo)) (o_color o) (o_hasMoved o)
  else o.

(** [f] applied to the value of an outcome. *)
Definition omap {A B : Type} (f : A -> B) (o : outcome A) : outcome B :=
  match o with
  | Ret a => Ret (f a)
  | TypeError => TypeError
  | OutOfFuel => OutOfFuel
  end.

(** ** Definitions used in the proofs *)

(** The number of squares a ray may still visit from [(r, c)]. *)
Definition rayRoom (dr dc r c : Z) : Z :=
  if dr =? 1 then 8 - r
  else if dr =? -1 then r + 1
  else if dc =? 1 then 8 - c
  else c + 1.

Definition isStep (dr dc : Z) : Prop :=
  -1 <= dr <= 1 /\ -1 <= dc <= 1 /\ (dr <> 0 \/ dc <> 0).

(** The number of rows of the board that a walk may still read, going down
    ([dr = 1]) or up ([dr = -1]) from row [r]. *)
Definition rowsAhead (board : Board) (dr r : Z) : Z :=
  if dr =? 1 then (if r <? 0 then 0 else Z.max 0 (Z.of_nat (length board) - r))
  else (if Z.of_nat (length board) <=? r then 0 else Z.max 0 (r + 1)).

(** The castling test of [applyMove], on the board. *)
Definition isCastling (board : Board) (m : Move) : bool :=
  match get (cloneBoard board) (pos_r (from m)) (pos_c (from m)) with
  | Ret x => cell_type_is (movedCopy x) King && (Z.abs (pos_c (to m) - pos_c (from m)) =? 2)
  | _ => false
  end.

(** An integer, among the numbers. *)
Definition isFin (x : num) : Prop := exists z, x = Fin z.

(** Every move of the list can be applied, and the search below returns
    an integer. *)
Definition childrenFin (rec : Board -> num -> num -> outcome num) (board : Board)
    (moves : list Move) : Prop :=
  forall m, m ∈ moves ->
    exists nb, applyMove board m None = Ret nb /\
               forall al be, exists z, rec nb al be = Ret (Fin z).

(** [board_ok], as a test. *)
Definition shapedb (o : HObj) : bool :=
  match o_type o, o_color o, o_hasMoved o with
  | Some _, Some _, _ => true
  | None, None, Some true => true
  | _, _, _ => false
  end.

Definition val_okb (objects : list HObj) (v : hval) : bool :=
  match v with
  | HRef l => match objects !! l with Some o => shapedb o | None => false end
  | _ => true
  end.

Definition row_okb (objects : list HObj) (row : JSArray hval) : bool :=
  forallb (val_okb objects) (elems row)
  && forallb (fun iv => val_okb objects (snd iv)) (map_to_list (props row)).

Definition board_okb (h : heap) (b : loc) : bool :=
  match outers h !! b with
  | Some outer =>
      forallb (fun rl => match rows h !! rl with
                         | Some row => row_okb (objs h) row
                         | None => false
                         end) outer
  | None => false
  end.

(** ** Predicates used in the statements *)

(** The board has the eight rows the loops read. *)
Definition readable (board : Board) : Prop := (8 <= length board)%nat.

(** A king of the color stands on the square. *)
Definition isKingAt (board : Board) (col : Color) (r c : Z) : bool :=
  match get board r c with
  | Ret x => is_piece x col King
  | _ => false
  end.

Definition atMostOneKing (board : Board) (col : Color) : Prop :=
  forall r c r' c', 0 <= r < 8 -> 0 <= c < 8 -> 0 <= r' < 8 -> 0 <= c' < 8 ->
    isKingAt board col r c = true -> isKingAt board col r' c' = true ->
    r = r' /\ c = c'.

(** No square of the board holds the object [{ hasMoved: true }]: the
    cells are of the type [Piece | null]. *)
Definition noBare (board : Board) : Prop :=
  forall r c, 0 <= r < 8 -> 0 <= c < 8 -> get board r c <> Ret Bare.

Definition kingSquares (board : Board) (col : Color) : list Position :=
  filter (fun p => isKingAt board col (pos_r p) (pos_c p) = true) allSquares.

(** The shape of a move of each piece in section 4.2 of the specification,
    without the conditions on the squares crossed or reached: a pawn
    advances one square, or two from its home rank, or steps one square
    forward on a diagonal; rook, bishop and queen move on lines; a knight
    makes its L; a king moves to an adjacent square or two columns aside. *)
Definition specGeometry (p : Piece) (a b : Position) : bool :=
  let dx := Z.abs (pos_c b - pos_c a) in
  let dy := Z.abs (pos_r b - pos_r a) in
  match type p with
  | Pawn =>
      let dir := match color p with white => -1 | black => 1 end in
      let home := match color p with white => 6 | black => 1 end in
      ((dx =? 0) && ((pos_r b =? pos_r a + dir)
                     || ((pos_r b =? pos_r a + 2 * dir) && (pos_r a =? home))))
      || ((dx =? 1) && (pos_r b =? pos_r a + dir))
  | Rook => (dx =? 0) || (dy =? 0)
  | Bishop => dx =? dy
  | Queen => (dx =? 0) || (dy =? 0) || (dx =? dy)
  | Knight => ((dx =? 2) && (dy =? 1)) || ((dx =? 1) && (dy =? 2))
  | King => ((dx <=? 1) && (dy <=? 1)) || ((dy =? 0) && (dx =? 2))
  end.


(** ** Positions used as examples *)

Definition emptyBoard : Board := replicate 8 (rowOf (replicate 8 Null)).

(** The board with the listed cells written on the empty board. *)
Fixpoint place (l : list (Z * Z * cell)) (board : Board) : Board :=
  match l with
  | [] => board
  | (r, c, x) :: l' =>
      match set board r c x with
      | Ret b => place l' b
      | _ => place l' board
      end
  end.

(** The moves of a game, applied in turn. *)
Fixpoint play (board : Board) (ms : list Move) : outcome Board :=
  match ms with
  | [] => Ret board
  | m :: ms' => let* b := applyMove board m None in play b ms'
  end.

Definition mv (r c r' c' : Z) : Move := mkMove (mkPos r c) (mkPos r' c').

(** After 1. f3 e5 2. g4 Qh4: white is mated. *)
Definition foolsMate : outcome Board :=
  play getInitialBoard [mv 6 5 5 5; mv 1 4 3 4; mv 6 6 4 6; mv 0 3 4 7].

(** Black king a8, white queen b6, white king h1: black has no move and is
    not in check. *)
Definition stalemateBoard : Board :=
  place [(0, 0, mk King black); (2, 1, mk Queen white); (7, 7, mk King white)] emptyBoard.

(** Black king a8, white queen b7, white king c6: black is mated. *)
Definition matedBoard : Board :=
  place [(0, 0, mk King black); (1, 1, mk Queen white); (2, 2, mk King white)] emptyBoard.

(** White king e1 and rook h1 on their squares, black king e8. *)
Definition castleBoard : Board :=
  place [(7, 4, mk King white); (7, 7, mk Rook white); (0, 4, mk King black)] emptyBoard.

(** Two white kings, a1 and e1, the rook h1; a black rook e8 attacks e1;
    black king a8. *)
Definition twoKingsBoard : Board :=
  place [(7, 0, mk King white); (7, 4, mk King white); (7, 7, mk Rook white);
         (0, 4, mk Rook black); (0, 0, mk King black)] emptyBoard.


(** A white pawn on a7, white king e1, black king h6. *)
Definition promotionBoard : Board :=
  place [(1, 0, mk Pawn white); (7, 4, mk King white); (2, 7, mk King black)] emptyBoard.

(** Two stores holding the board [castleBoard]: alone at location 0, and
    at location 1 after the initial board. *)
Definition emptyHeap : heap := mkHeap [] [] [].
Definition store1 : heap := fst (loadBoard castleBoard emptyHeap).
Definition store2 : heap := fst (loadBoard castleBoard (fst (loadBoard getInitialBoard emptyHeap))).

(** The moves of white on the initial board, in the order of generation. *)
Definition initialWhiteMoves : list Move :=
  Eval vm_compute in
    match getAllMoves getInitialBoard white with Ret l => l | _ => [] end.

(** * Definitions for the further properties *)

(** ** The search without cuts

    The reference for the pruning of [minimax]: the same search where the
    test [if (beta <= alpha) break] is left out, so that every move of
    every node is tried. *)

Section FullSearch.

Variable rec : Board -> outcome num.

Fixpoint fullMax (board : Board) (moves : list Move) (maxEval : num) : outcome num :=
  match moves with
  | [] => Ret maxEval
  | move :: rest =>
      let* nextBoard := applyMove board move None in
      let* evalVal := rec nextBoard in
      fullMax board rest (num_max maxEval evalVal)
  end.

Fixpoint fullMin (board : Board) (moves : list Move) (minEval : num) : outcome num :=
  match moves with
  | [] => Ret minEval
  | move :: rest =>
      let* nextBoard := applyMove board move None in
      let* evalVal := rec nextBoard in
      fullMin board rest (num_min minEval evalVal)
  end.

End FullSearch.

Fixpoint searchValue (board : Board) (depth : nat) (isMaximizing : bool) : outcome num :=
  match depth with
  | O => evaluateBoard board
  | S d =>
      let col := if isMaximizing then black else white in
      let* moves := getAllMoves board col in
      match moves with
      | [] =>
          let* chk := isInCheck board col in
          if chk then Ret (if isMaximizing then Fin (-9999) else Fin 9999)
          else Ret (Fin 0)
      | _ =>
          if isMaximizing
          then fullMax (fun b => searchValue b d false) board moves NegInf
          else fullMin (fun b => searchValue b d true) board moves PosInf
      end
  end.

(** The value of a move of black at the root: the search without cuts, at
    the depth below, on the board after the move. *)
Definition moveValue (board : Board) (d : nat) (m : Move) : outcome num :=
  let* nextBoard := applyMove board m None in
  searchValue nextBoard d false.

(** What a search with the window [alpha], [beta] tells about the value
    [v] without cuts, when it returns [r]: an upper bound at or below
    [alpha], a lower bound at or above [beta], the value itself in
    between. *)
Definition bound (alpha beta v r : num) : Prop :=
  (num_le r alpha = true -> num_le v r = true) /\
  (num_le beta r = true -> num_le r v = true) /\
  (num_le r alpha = false -> num_le beta r = false -> v = r).

(** Every move of the list can be applied; below it the search without
    cuts returns an integer and the search with cuts an integer within the
    bounds of its window. *)
Definition childrenExact (rec : Board -> num -> num -> outcome num)
    (recF : Board -> outcome num) (board : Board) (moves : list Move) : Prop :=
  forall m, m ∈ moves ->
    exists nb v, applyMove board m None = Ret nb /\ recF nb = Ret (Fin v) /\
      forall al be, al <> NaN -> be <> NaN -> num_le be al = false ->
        exists r, rec nb al be = Ret (Fin r) /\ bound al be (Fin v) (Fin r).

(** ** Predicates on squares and boards *)

(** Every square strictly between [s] and [pos], on their line, reads as
    empty. *)
Definition clearLine (board : Board) (s pos : Position) : Prop :=
  forall i, 1 <= i < Z.max (Z.abs (pos_c pos - pos_c s)) (Z.abs (pos_r pos - pos_r s)) ->
    exists x, get board (pos_r s + i * Z.sgn (pos_r pos - pos_r s))
                        (pos_c s + i * Z.sgn (pos_c pos - pos_c s)) = Ret x /\
              truthy x = false.

(** The piece [p], standing on [s], bears on the square [pos]: a pawn one
    step ahead on a diagonal, a knight at its L, a king next to it, a rook,
    bishop or queen on a line with nothing in between. *)
Definition bearsOn (board : Board) (p : Piece) (s pos : Position) : Prop :=
  let dx := Z.abs (pos_c pos - pos_c s) in
  let dy := Z.abs (pos_r pos - pos_r s) in
  match type p with
  | Pawn => dx = 1 /\ pos_r pos = pos_r s + (match color p with white => -1 | black => 1 end)
  | Knight => (dx = 2 /\ dy = 1) \/ (dx = 1 /\ dy = 2)
  | King => dx <= 1 /\ dy <= 1 /\ (dx <> 0 \/ dy <> 0)
  | Rook => (dx = 0 \/ dy = 0) /\ (dx <> 0 \/ dy <> 0) /\ clearLine board s pos
  | Bishop => dx = dy /\ dx <> 0 /\ clearLine board s pos
  | Queen => (dx = 0 \/ dy = 0 \/ dx = dy) /\ (dx <> 0 \/ dy <> 0) /\ clearLine board s pos
  end.

(** A board as [getInitialBoard] builds it: eight rows, each a plain array
    of eight cells that hold a piece or [null]. *)
Definition plainCell (x : cell) : Prop := x = Null \/ exists p, x = Obj p.

Definition standardRow (row : Row) : Prop :=
  length (elems row) = 8%nat /\ props row = ∅ /\ Forall plainCell (elems row).

Definition standardBoard (board : Board) : Prop :=
  length board = 8%nat /\ Forall standardRow board.

(** The moves of black on [castleBoard], in the order of generation. *)
Definition castleBlackMoves : list Move :=
  Eval vm_compute in
    match getAllMoves castleBoard black with Ret l => l | _ => [] end.

(** * The game state of [src/App.tsx]

    The component keeps one [GameState] and changes it through updater
    functions; the updaters that call the engine are embedded here as
    functions on the state.  Sounds, notifications, the local storage and
    the rendering are left out; [loadGame], which replaces the state by
    whatever was stored, is not embedded. *)

Inductive GameMode : Type := AI | Human.

(** The interface [MoveRecord].  [piece] is [undefined] when the origin
    held an object with no [type]. *)
Record MoveRecord : Type := mkRecord {
  rec_from : Position;
  rec_to : Position;
  rec_color : Color;
  rec_piece : option PieceType;
  rec_promotion : option PieceType;
  rec_san : string
}.

Inductive Winner : Type := Won (c : Color) | Draw.

(** The interface [GameState]; the fields [board] and [turn] are named
    [st_board] and [st_turn], [timers] maps a color to its seconds, and the
    lists of captured types may hold [undefined]. *)
Record GameState : Type := mkState {
  st_board : Board;
  st_turn : Color;
  selected : option Position;
  validMoves : list Position;
  lastMove : option Move;
  lastCapture : option Position;
  lastCapturedPiece : cell;
  history : list MoveRecord;
  timers : Color -> Z;
  gameOver : bool;
  winner : option Winner;
  statusMessage : string;
  isAiThinking : bool;
  promotionPending : option Move;
  capturedByWhite : list (option PieceType);
  capturedByBlack : list (option PieceType);
  gameMode : GameMode
}.

(** [x.type], [undefined] when the cell holds no piece. *)
Definition cell_type (x : cell) : option PieceType :=
  match x with Obj p => Some (type p) | _ => None end.

(** [x !== null]. *)
Definition notNull (x : cell) : bool :=
  match x with Null => false | _ => true end.

Definition turnMessage (col : Color) : string :=
  match col with white => "White's Turn" | black => "Black's Turn" end.

Section App.

(** What [list.sort((a, b) => PIECE_VALUES[a] - PIECE_VALUES[b])] leaves
    in the array. *)
Variable sortCaptured : list (option PieceType) -> list (option PieceType).

(** Lines 341-395: the updater of [handleMove]. *)
Definition handleMove (a b : Position) (isAi : bool) (promoteTo : option PieceType)
    (prev : GameState) : outcome GameState :=
  if isAi && negb (isAiThinking prev) then Ret prev
  else
    let* piece := get (st_board prev) (pos_r a) (pos_c a) in
    let* targetPiece := get (st_board prev) (pos_r b) (pos_c b) in
    let isCapture := notNull targetPiece in
    let* newBoard := applyMove (st_board prev) (mkMove a b) promoteTo in
    let* san := getSan (st_board prev) newBoard (mkMove a b) promoteTo in
    let newHistoryRecord :=
      mkRecord a b (st_turn prev) (if truthy piece then cell_type piece else Some Pawn)
               promoteTo san in
    let captures := isCapture && truthy targetPiece in
    let nextCapturedWhite :=
      if captures && Color_eqb (st_turn prev) white
      then sortCaptured (capturedByWhite prev ++ [cell_type targetPiece])
      else capturedByWhite prev in
    let nextCapturedBlack :=
      if captures && negb (Color_eqb (st_turn prev) white)
      then sortCaptured (capturedByBlack prev ++ [cell_type targetPiece])
      else capturedByBlack prev in
    let nextTurn := opponentOf (st_turn prev) in
    let nextStatus :=
      match gameMode prev with
      | AI => if isAi then "Your Turn"%string else "Waiting for AI..."%string
      | Human => turnMessage nextTurn
      end in
    Ret {| st_board := newBoard;
           st_turn := nextTurn;
           selected := None;
           validMoves := [];
           lastMove := Some (mkMove a b);
           lastCapture := if isCapture then Some b else None;
           lastCapturedPiece := if isCapture then targetPiece else Null;
           history := history prev ++ [newHistoryRecord];
           timers := timers prev;
           gameOver := gameOver prev;
           winner := winner prev;
           statusMessage := nextStatus;
           isAiThinking := false;
           promotionPending := None;
           capturedByWhite := nextCapturedWhite;
           capturedByBlack := nextCapturedBlack;
           gameMode := gameMode prev |}.

(** The variables of the replay loop of [undoMove] (lines 153-159). *)
Record Replay : Type := mkReplay {
  replayBoard : Board;
  replayTurn : Color;
  replayCapturedWhite : list (option PieceType);
  replayCapturedBlack : list (option PieceType);
  replayLastMove : option Move;
  replayLastCapture : option Position;
  replayLastCapturedPiece : cell
}.

Definition replayStart : Replay :=
  mkReplay getInitialBoard white [] [] None None Null.

(** One turn of the loop (lines 161-180). *)
Definition replayStep (st : Replay) (record : MoveRecord) : outcome Replay :=
  let a := rec_from record in
  let b := rec_to record in
  let* target := get (replayBoard st) (pos_r b) (pos_c b) in
  let capW :=
    if truthy target && Color_eqb (replayTurn st) white
    then sortCaptured (replayCapturedWhite st ++ [cell_type target])
    else replayCapturedWhite st in
  let capB :=
    if truthy target && negb (Color_eqb (replayTurn st) white)
    then sortCaptured (replayCapturedBlack st ++ [cell_type target])
    else replayCapturedBlack st in
  let* nb := applyMove (replayBoard st) (mkMove a b) (rec_promotion record) in
  Ret (mkReplay nb (opponentOf (replayTurn st)) capW capB (Some (mkMove a b))
                (if truthy target then Some b else None)
                (if truthy target then target else Null)).

Fixpoint replayLoop (st : Replay) (records : list MoveRecord) : outcome Replay :=
  match records with
  | [] => Ret st
  | record :: rest => let* st' := replayStep st record in replayLoop st' rest
  end.

(** Lines 139-148. *)
Definition undoSteps (s : GameState) : nat :=
  match gameMode s with
  | AI =>
      match last (history s) with
      | Some record =>
          match rec_color record with
          | black => if (length (history s) <? 2)%nat then 1%nat else 2%nat
          | white => 1%nat
          end
      | None => 1%nat
      end
  | Human => 1%nat
  end.

(** Lines 135-201; the state read by the handler and the state given to
    the updater are taken to be the same. *)
Definition undoMove (s : GameState) : outcome GameState :=
  if isAiThinking s || (length (history s) =? 0)%nat then Ret s
  else
    let newHistory := take (length (history s) - undoSteps s) (history s) in
    let* r := replayLoop replayStart newHistory in
    Ret {| st_board := replayBoard r;
           st_turn := replayTurn r;
           selected := None;
           validMoves := [];
           lastMove := replayLastMove r;
           lastCapture := replayLastCapture r;
           lastCapturedPiece := replayLastCapturedPiece r;
           history := newHistory;
           timers := timers s;
           gameOver := false;
           winner := None;
           statusMessage :=
             match gameMode s with
             | AI => "Your Turn"%string
             | Human => turnMessage (replayTurn r)
             end;
           isAiThinking := isAiThinking s;
           promotionPending := None;
           capturedByWhite := replayCapturedWhite r;
           capturedByBlack := replayCapturedBlack r;
           gameMode := gameMode s |}.

End App.

(** Lines 26-44: the state the component starts with. *)
Definition initialState (mode : GameMode) : GameState :=
  {| st_board := getInitialBoard;
     st_turn := white;
     selected := None;
     validMoves := [];
     lastMove := None;
     lastCapture := None;
     lastCapturedPiece := Null;
     history := [];
     timers := fun _ => 600;
     gameOver := false;
     winner := None;
     statusMessage := "Your Turn"%string;
     isAiThinking := false;
     promotionPending := None;
     capturedByWhite := [];
     capturedByBlack := [];
     gameMode := mode |}.

(** Lines 403-430. *)
Definition resetGame (mode : option GameMode) (s : GameState) : GameState :=
  let targetMode := default (gameMode s) mode in
  {| st_board := getInitialBoard;
     st_turn := white;
     selected := None;
     validMoves := [];
     lastMove := None;
     lastCapture := None;
     lastCapturedPiece := Null;
     history := [];
     timers := fun _ => 600;
     gameOver := false;
     winner := None;
     statusMessage :=
       match targetMode with AI => "Your Turn"%string | Human => "White's Turn"%string end;
     isAiThinking := false;
     promotionPending := None;
     capturedByWhite := [];
     capturedByBlack := [];
     gameMode := targetMode |}.

(** Lines 208-221: the updater run every second. *)
Definition tick (prev : GameState) : GameState :=
  if timers prev (st_turn prev) <=? 0 then
    {| st_board := st_board prev;
       st_turn := st_turn prev;
       selected := selected prev;
       validMoves := validMoves prev;
       lastMove := lastMove prev;
       lastCapture := lastCapture prev;
       lastCapturedPiece := lastCapturedPiece prev;
       history := history prev;
       timers := timers prev;
       gameOver := true;
       winner := Some (Won (opponentOf (st_turn prev)));
       statusMessage := "Time Up!"%string;
       isAiThinking := isAiThinking prev;
       promotionPending := promotionPending prev;
       capturedByWhite := capturedByWhite prev;
       capturedByBlack := capturedByBlack prev;
       gameMode := gameMode prev |}
  else
    {| st_board := st_board prev;
       st_turn := st_turn prev;
       selected := selected prev;
       validMoves := validMoves prev;
       lastMove := lastMove prev;
       lastCapture := lastCapture prev;
       lastCapturedPiece := lastCapturedPiece prev;
       history := history prev;
       timers := fun col => if Color_eqb col (st_turn prev)
                            then timers prev col - 1 else timers prev col;
       gameOver := gameOver prev;
       winner := winner prev;
       statusMessage := statusMessage prev;
       isAiThinking := isAiThinking prev;
       promotionPending := promotionPending prev;
       capturedByWhite := capturedByWhite prev;
       capturedByBlack := capturedByBlack prev;
       gameMode := gameMode prev |}.

(** The state replays: the replay of the history gives the board, the
    turn, the last move and the captured pieces of the state. *)
Definition replays (sortCaptured : list (option PieceType) -> list (option PieceType))
    (s : GameState) : Prop :=
  exists r, replayLoop sortCaptured replayStart (history s) = Ret r /\
            replayBoard r = st_board s /\ replayTurn r = st_turn s /\
            replayLastMove r = lastMove s /\
            replayCapturedWhite r = capturedByWhite s /\
            replayCapturedBlack r = capturedByBlack s.

(** An update that leaves the board, the turn, the history, the last
    move, the captured pieces and the clocks as they are: the selection of
    a square, the promotion dialog, the flag of the thinking engine, the end
    of the game. *)
Definition sameGame (s s' : GameState) : Prop :=
  st_board s' = st_board s /\ st_turn s' = st_turn s /\ history s' = history s /\
  lastMove s' = lastMove s /\ capturedByWhite s' = capturedByWhite s /\
  capturedByBlack s' = capturedByBlack s /\ timers s' = timers s.

(** The states of a game: from the first state or a new game, by moves, undos, ticks of the
    clock and the updates that leave the game as it is. *)
Inductive reachable (sortCaptured : list (option PieceType) -> list (option PieceType))
  : GameState -> Prop :=
| reach_init mode : reachable sortCaptured (initialState mode)
| reach_reset mode s : reachable sortCaptured (resetGame mode s)
| reach_move a b isAi promoteTo s s' :
    reachable sortCaptured s ->
    handleMove sortCaptured a b isAi promoteTo s = Ret s' ->
    reachable sortCaptured s'
| reach_undo s s' :
    reachable sortCaptured s -> undoMove sortCaptured s = Ret s' ->
    reachable sortCaptured s'
| reach_tick s : reachable sortCaptured s -> reachable sortCaptured (tick s)
| reach_other s s' : reachable sortCaptured s -> sameGame s s' -> reachable sortCaptured s'.

(** ** The handlers of the board

    The handlers read the state of the last rendering and then update the
    state; here the state read and the state updated are the same. *)

(** [{ ...prev, selected, validMoves }]. *)
Definition withSelection (sel : option Position) (moves : list Position) (prev : GameState)
  : GameState :=
  {| st_board := st_board prev; st_turn := st_turn prev;
     selected := sel; validMoves := moves;
     lastMove := lastMove prev; lastCapture := lastCapture prev;
     lastCapturedPiece := lastCapturedPiece prev; history := history prev;
     timers := timers prev; gameOver := gameOver prev; winner := winner prev;
     statusMessage := statusMessage prev; isAiThinking := isAiThinking prev;
     promotionPending := promotionPending prev;
     capturedByWhite := capturedByWhite prev; capturedByBlack := capturedByBlack prev;
     gameMode := gameMode prev |}.

(** [{ ...prev, promotionPending }]. *)
Definition withPromotion (pending : option Move) (prev : GameState) : GameState :=
  {| st_board := st_board prev; st_turn := st_turn prev;
     selected := selected prev; validMoves := validMoves prev;
     lastMove := lastMove prev; lastCapture := lastCapture prev;
     lastCapturedPiece := lastCapturedPiece prev; history := history prev;
     timers := timers prev; gameOver := gameOver prev; winner := winner prev;
     statusMessage := statusMessage prev; isAiThinking := isAiThinking prev;
     promotionPending := pending;
     capturedByWhite := capturedByWhite prev; capturedByBlack := capturedByBlack prev;
     gameMode := gameMode prev |}.

(** [{ ...prev, gameOver, winner, statusMessage, isAiThinking }]. *)
Definition withStatus (over : bool) (w : option Winner) (msg : string) (thinking : bool)
    (prev : GameState) : GameState :=
  {| st_board := st_board prev; st_turn := st_turn prev;
     selected := selected prev; validMoves := validMoves prev;
     lastMove := lastMove prev; lastCapture := lastCapture prev;
     lastCapturedPiece := lastCapturedPiece prev; history := history prev;
     timers := timers prev; gameOver := over; winner := w;
     statusMessage := msg; isAiThinking := thinking;
     promotionPending := promotionPending prev;
     capturedByWhite := capturedByWhite prev; capturedByBlack := capturedByBlack prev;
     gameMode := gameMode prev |}.

Definition isSome {A : Type} (o : option A) : bool :=
  match o with Some _ => true | None => false end.

Definition GameMode_eqb (a b : GameMode) : bool :=
  match a, b with AI, AI | Human, Human => true | _, _ => false end.

(** [validMoves.some(m => m.r === r && m.c === c)]. *)
Definition isTarget (moves : list Position) (r c : Z) : bool :=
  existsb (fun m => (pos_r m =? r) && (pos_c m =? c)) moves.

Section Handlers.

Variable sortCaptured : list (option PieceType) -> list (option PieceType).
Variable shuffle : list Move -> list Move.

(** Lines 300-339. *)
Definition handleSquareClick (r c : Z) (s : GameState) : outcome GameState :=
  if gameOver s || isSome (promotionPending s) then Ret s
  else if isAiThinking s then Ret s
  else if GameMode_eqb (gameMode s) AI && Color_eqb (st_turn s) black then Ret s
  else
    let clickedPos := mkPos r c in
    let* piece := get (st_board s) r c in
    match selected s with
    | None =>
        if cell_color_is piece (st_turn s) then
          let* moves := getValidMoves (st_board s) clickedPos in
          Ret (withSelection (Some clickedPos) moves s)
        else Ret s
    | Some sel =>
        if (pos_r sel =? r) && (pos_c sel =? c) then Ret (withSelection None [] s)
        else if cell_color_is piece (st_turn s) then
          let* moves := getValidMoves (st_board s) clickedPos in
          Ret (withSelection (Some clickedPos) moves s)
        else if isTarget (validMoves s) r c then
          let* sourcePiece := get (st_board s) (pos_r sel) (pos_c sel) in
          let isPawn := cell_type_is sourcePiece Pawn in
          let isPromotionRow := (r =? 0) || (r =? 7) in
          if isPawn && isPromotionRow
          then Ret (withPromotion (Some (mkMove sel clickedPos)) s)
          else handleMove sortCaptured sel clickedPos false None s
        else Ret (withSelection None [] s)
    end.

(** Lines 397-401. *)
Definition confirmPromotion (t : PieceType) (s : GameState) : outcome GameState :=
  match promotionPending s with
  | Some pending => handleMove sortCaptured (from pending) (to pending) false (Some t) s
  | None => Ret s
  end.

(** Lines 246-248: the engine is asked for a move. *)
Definition aiStart (s : GameState) : GameState :=
  if GameMode_eqb (gameMode s) AI && negb (gameOver s) && Color_eqb (st_turn s) black
     && negb (isAiThinking s) && negb (isSome (promotionPending s))
  then withStatus (gameOver s) (winner s) "AI Thinking..." true s
  else s.

(** Lines 249-268: the reply of the engine; what it raises is caught. *)
Definition aiReply (difficulty : nat) (s : GameState) : outcome GameState :=
  match getBestMove shuffle (st_board s) difficulty with
  | Ret (Some bestMove) => handleMove sortCaptured (from bestMove) (to bestMove) true None s
  | Ret None =>
      match isInCheck (st_board s) black with
      | Ret inCheck =>
          Ret (withStatus true (Some (if inCheck then Won white else Draw))
                 (if inCheck then "Checkmate! You Win!" else "Stalemate! It's a Draw.")
                 false s)
      | _ => Ret (withStatus (gameOver s) (winner s) "AI Error - Please try moving again" false s)
      end
  | _ => Ret (withStatus (gameOver s) (winner s) "AI Error - Please try moving again" false s)
  end.

(** Lines 274-294: the end of the game. *)
Definition detectEnd (s : GameState) : outcome GameState :=
  if negb (gameOver s)
     && (GameMode_eqb (gameMode s) Human || Color_eqb (st_turn s) white) then
    let* moves := getAllMoves (st_board s) (st_turn s) in
    match moves with
    | [] =>
        let* inCheck := isInCheck (st_board s) (st_turn s) in
        let w := if inCheck then Won (opponentOf (st_turn s)) else Draw in
        let msg :=
          if negb inCheck then "Stalemate! It's a Draw."
          else if GameMode_eqb (gameMode s) AI then "Checkmate! You Lost."
          else match opponentOf (st_turn s) with
               | white => "Checkmate! White Wins!"
               | black => "Checkmate! Black Wins!"
               end in
        Ret (withStatus true (Some w) msg (isAiThinking s) s)
    | _ => Ret s
    end
  else Ret s.

(** Lines 78-82: the engine never thinks in a game of two players. *)
Definition failsafe (s : GameState) : GameState :=
  if GameMode_eqb (gameMode s) Human && isAiThinking s
  then withStatus (gameOver s) (winner s) "Black's Turn" false s
  else s.

(** What happens to a game: every updater of the state but the loading of
    a saved game, which installs whatever the storage holds. *)
Inductive Event : Type :=
| Click (r c : Z)
| Promote (t : PieceType)
| AiStart
| AiReply (difficulty : nat)
| DetectEnd
| Undo
| Tick
| Failsafe
| NewGame (mode : option GameMode).

Definition dispatch (e : Event) (s : GameState) : outcome GameState :=
  match e with
  | Click r c => handleSquareClick r c s
  | Promote t => confirmPromotion t s
  | AiStart => Ret (aiStart s)
  | AiReply difficulty => aiReply difficulty s
  | DetectEnd => detectEnd s
  | Undo => undoMove sortCaptured s
  | Tick => Ret (tick s)
  | Failsafe => Ret (failsafe s)
  | NewGame mode => Ret (resetGame mode s)
  end.

End Handlers.

(** An event as the interface produces it: a click on one of the 64
    squares, a level of the engine from 1 on. *)
Definition produced (e : Event) : Prop :=
  match e with
  | Click r c => 0 <= r < 8 /\ 0 <= c < 8
  | AiReply difficulty => (1 <= difficulty)%nat
  | _ => True
  end.

(** Every move of the history was accepted by the validator, for the
    side to move, on the board of the standard shape that the moves before
    it replay to. *)
Definition legalHistory (sortCaptured : list (option PieceType) -> list (option PieceType))
    (records : list MoveRecord) : Prop :=
  forall n record, records !! n = Some record ->
    exists r, replayLoop sortCaptured replayStart (take n records) = Ret r /\
              standardBoard (replayBoard r) /\
              rec_color record = replayTurn r /\
              isValidMove (replayBoard r) (rec_from record) (rec_to record) (replayTurn r) true
              = Ret true.

(** The state of a game in progress: the board has the standard shape and
    is what the history replays to; the history holds legal moves; the
    selected square holds a piece of the side to move and comes with its
    valid moves; a pending promotion is one of these moves; the engine
    thinks on the turn of black only. *)
Definition wellFormed (sortCaptured : list (option PieceType) -> list (option PieceType))
    (s : GameState) : Prop :=
  standardBoard (st_board s) /\
  replays sortCaptured s /\
  legalHistory sortCaptured (history s) /\
  (forall a, selected s = Some a ->
     0 <= pos_r a < 8 /\ 0 <= pos_c a < 8 /\
     exists p, get (st_board s) (pos_r a) (pos_c a) = Ret (Obj p) /\ color p = st_turn s /\
               getValidMoves (st_board s) a = Ret (validMoves s)) /\
  (forall m, promotionPending s = Some m ->
     selected s = Some (from m) /\ to m ∈ validMoves s) /\
  (isAiThinking s = true -> st_turn s = black).

(** The events of a game, handled in turn. *)
Fixpoint run (sortCaptured : list (option PieceType) -> list (option PieceType))
    (shuffle : list Move -> list Move) (events : list Event) (s : GameState)
  : outcome GameState :=
  match events with
  | [] => Ret s
  | e :: rest =>
      let* s' := dispatch sortCaptured shuffle e s in
      run sortCaptured shuffle rest s'
  end.

(** ** Material *)

(** The value of a cell for the evaluator: the value of the piece, counted
    for black and against white. *)
Definition cellValue (x : cell) : Z :=
  match x with
  | Obj p => (if color_is p black then 1 else -1) * VALS (type p)
  | _ => 0
  end.

(** The cell of a square, and the sum of the values over a list of squares. *)
Definition cellAt (board : Board) (s : Position) : cell :=
  match get board (pos_r s) (pos_c s) with
  | Ret x => x
  | _ => Undefined
  end.

Definition material (board : Board) (sqs : list Position) : Z :=
  foldr (fun s acc => cellValue (cellAt board s) + acc) 0 sqs.

(** After 1. e4 d5: the pawn of e4 can take on d5. *)
Definition exchangeBoard : Board :=
  Eval vm_compute in
    match play getInitialBoard [mv 6 4 4 4; mv 1 3 3 3] with
    | Ret b => b
    | _ => getInitialBoard
    end.

(** The board after the capture. *)
Definition exchangedBoard : Board :=
  Eval vm_compute in
    match applyMove exchangeBoard (mv 4 4 3 3) None with
    | Ret b => b
    | _ => exchangeBoard
    end.

(** A piece whose [hasMoved] is not set stands where [getInitialBoard] puts
    it. *)
Definition unmovedAtHome (board : Board) : Prop :=
  forall r c p, 0 <= r < 8 -> 0 <= c < 8 ->
    get board r c = Ret (Obj p) -> moved p = false ->
    get getInitialBoard r c = Ret (Obj p).

(** The state after the clicks on e2 and e4, against the engine. *)
Definition openingState : GameState :=
  match run (fun l => l) (@rev Move) [Click 6 4; Click 4 4] (initialState AI) with
  | Ret s => s
  | _ => initialState AI
  end.

(** ** The sound of a move (lines 228-237 of [src/App.tsx]) *)

Inductive Sound : Type :=
| SoundNotify
| SoundPromote
| SoundCapture
| SoundCastle
| SoundMove.

(** [s.includes(sub)]. *)
Fixpoint str_includes (sub s : string) : bool :=
  String.prefix sub s
  || match s with
     | EmptyString => false
     | String _ s' => str_includes sub s'
     end.

(** The sound that the effect plays for the notation of the last move. *)
Definition sanSound (san : string) : Sound :=
  if str_includes "#" san || str_includes "+" san then SoundNotify
  else if str_includes "=" san then SoundPromote
  else if str_includes "x" san then SoundCapture
  else if str_includes "O-O" san then SoundCastle
  else SoundMove.

(** The characters that the effect looks for. *)
Module Marks.
Import Stdlib.Strings.Ascii.
Definition mate : ascii := "#"%char.
Definition check : ascii := "+"%char.
Definition promotion : ascii := "="%char.
Definition takes : ascii := "x"%char.
Definition castles : ascii := "O"%char.
End Marks.

(** The character [c] occurs in [s]. *)
Fixpoint has (c : Ascii.ascii) (s : string) : bool :=
  match s with
  | EmptyString => false
  | String c' s' => (if Ascii.ascii_dec c c' then true else false) || has c s'
  end.

(** None of the characters that the effect looks for occurs in [s]. *)
Definition plain (s : string) : Prop :=
  has Marks.mate s = false /\ has Marks.check s = false /\ has Marks.promotion s = false /\
  has Marks.takes s = false /\ has Marks.castles s = false.

(** * Properties of the value model *)

(** ** Outcomes and loops *)

Lemma obind_Ret {A B : Type} (m : outcome A) (f : A -> outcome B) (b : B) :
  obind m f = Ret b -> exists a, m = Ret a /\ f a = Ret b.
Proof. destruct m as [a| |]; simpl; intros H; [eauto | discriminate | discriminate]. Qed.

Lemma filterM_cons_Ret {A : Type} (f : A -> outcome bool) (y : A) (l ys : list A) :
  filterM f (y :: l) = Ret ys ->
  exists keep rest, f y = Ret keep /\ filterM f l = Ret rest /\
                    ys = if keep then y :: rest else rest.
Proof.
  simpl. intros H.
  apply obind_Ret in H as (keep & Hk & H).
  apply obind_Ret in H as (rest & Hr & H).
  injection H as <-. eauto.
Qed.

Lemma filterM_elem {A : Type} (f : A -> outcome bool) (l ys : list A) (x : A) :
  filterM f l = Ret ys -> x ∈ ys -> x ∈ l /\ f x = Ret true.
Proof.
  revert ys. induction l as [|y l IH]; intros ys H Hin.
  - injection H as <-. inversion Hin.
  - apply filterM_cons_Ret in H as (keep & rest & Hk & Hr & ->).
    destruct keep.
    + apply elem_of_cons in Hin as [-> | Hin].
      * split; [left | assumption].
      * destruct (IH _ Hr Hin) as [? ?]. split; [right|]; assumption.
    + destruct (IH _ Hr Hin) as [? ?]. split; [right|]; assumption.
Qed.

Lemma filterM_keeps {A : Type} (f : A -> outcome bool) (l ys : list A) (x : A) :
  filterM f l = Ret ys -> x ∈ l -> f x = Ret true -> x ∈ ys.
Proof.
  revert ys. induction l as [|y l IH]; intros ys H Hin Hf.
  - inversion Hin.
  - apply filterM_cons_Ret in H as (keep & rest & Hk & Hr & ->).
    apply elem_of_cons in Hin as [-> | Hin].
    + rewrite Hf in Hk. injection Hk as <-. left.
    + specialize (IH _ Hr Hin Hf). destruct keep; [right|]; assumption.
Qed.

Lemma filterM_total {A : Type} (f : A -> outcome bool) (l : list A) :
  (forall x, x ∈ l -> exists b, f x = Ret b) -> exists ys, filterM f l = Ret ys.
Proof.
  induction l as [|y l IH]; simpl; intros H; [eauto|].
  destruct (H y) as [b Hb]; [left|]. rewrite Hb. simpl.
  destruct IH as [ys Hys]; [intros x Hx; apply H; right; assumption|].
  rewrite Hys. simpl. eauto.
Qed.

Lemma flatMapM_cons_Ret {A B : Type} (f : A -> outcome (list B)) (x : A) (l : list A)
    (ys : list B) :
  flatMapM f (x :: l) = Ret ys ->
  exists zs rest, f x = Ret zs /\ flatMapM f l = Ret rest /\ ys = zs ++ rest.
Proof.
  simpl. intros H.
  apply obind_Ret in H as (zs & Hz & H).
  apply obind_Ret in H as (rest & Hr & H).
  injection H as <-. eauto.
Qed.

Lemma flatMapM_elem {A B : Type} (f : A -> outcome (list B)) (l : list A) (ys : list B) (y : B) :
  flatMapM f l = Ret ys -> y ∈ ys -> exists x zs, x ∈ l /\ f x = Ret zs /\ y ∈ zs.
Proof.
  revert ys. induction l as [|x l IH]; intros ys H Hin.
  - injection H as <-. inversion Hin.
  - apply flatMapM_cons_Ret in H as (zs & rest & Hz & Hr & ->).
    apply elem_of_app in Hin as [Hin | Hin].
    + exists x, zs. split; [left | auto].
    + destruct (IH _ Hr Hin) as (x' & zs' & ? & ? & ?).
      exists x', zs'. split; [right|]; auto.
Qed.

Lemma flatMapM_keeps {A B : Type} (f : A -> outcome (list B)) (l : list A)
    (ys zs : list B) (x : A) (y : B) :
  flatMapM f l = Ret ys -> x ∈ l -> f x = Ret zs -> y ∈ zs -> y ∈ ys.
Proof.
  revert ys. induction l as [|x' l IH]; intros ys H Hin Hf Hy.
  - inversion Hin.
  - apply flatMapM_cons_Ret in H as (zs' & rest & Hz & Hr & ->).
    apply elem_of_app. apply elem_of_cons in Hin as [-> | Hin].
    + left. rewrite Hf in Hz. injection Hz as <-. assumption.
    + right. eapply IH; eauto.
Qed.

Lemma flatMapM_total {A B : Type} (f : A -> outcome (list B)) (l : list A) :
  (forall x, x ∈ l -> exists ys, f x = Ret ys) -> exists ys, flatMapM f l = Ret ys.
Proof.
  induction l as [|y l IH]; simpl; intros H; [eauto|].
  destruct (H y) as [b Hb]; [left|]. rewrite Hb. simpl.
  destruct IH as [ys Hys]; [intros x Hx; apply H; right; assumption|].
  rewrite Hys. simpl. eauto.
Qed.

(** ** Generated moves *)

(** A move kept by the generator passed the validator with the safety
    check on, and leaves from a square of the color. *)
Lemma getAllMoves_elem (board : Board) (col : Color) (ms : list Move) (m : Move) :
  getAllMoves board col = Ret ms -> m ∈ ms ->
  isValidMove board (from m) (to m) col true = Ret true /\
  from m ∈ allSquares /\ to m ∈ allSquares /\
  exists x, get board (pos_r (from m)) (pos_c (from m)) = Ret x /\ cell_color_is x col = true.
Proof.
  unfold getAllMoves. intros H Hin.
  destruct (flatMapM_elem _ _ _ _ H Hin) as (a & zs & Ha & Hf & Hm).
  unfold movesFrom in Hf.
  apply obind_Ret in Hf as (x & Hx & Hf).
  destruct (cell_color_is x col) eqn:Hc.
  - apply obind_Ret in Hf as (targets & Ht & Hf). injection Hf as <-.
    apply list_elem_of_fmap in Hm as (b & -> & Hb).
    destruct (filterM_elem _ _ _ _ Ht Hb) as [Hsq Hv]. simpl.
    repeat split; auto. exists x. auto.
  - injection Hf as <-. inversion Hm.
Qed.

(** The last step of the validator: a move accepted with the safety check
    on was applied to a copy of the board, and the mover's king is not in
    check there. *)
Lemma isValidMove_safe (board : Board) (a b : Position) (turn : Color) :
  isValidMove board a b turn true = Ret true ->
  exists newBoard, applyMove board (mkMove a b) None = Ret newBoard /\
                   isInCheck newBoard turn = Ret false.
Proof.
  unfold isValidMove. intros H.
  apply obind_Ret in H as (x & Hx & H).
  apply obind_Ret in H as (target & Ht & H).
  destruct x as [| |p|]; try discriminate.
  destruct (negb (color_is p turn)); try discriminate.
  destruct (match target with Obj t => _ | _ => false end); try discriminate.
  apply obind_Ret in H as (g & Hg & H).
  destruct g as [valid|[]]; try discriminate.
  destruct valid; simpl in H; try discriminate.
  apply obind_Ret in H as (newBoard & Hn & H).
  apply obind_Ret in H as (chk & Hc & H).
  exists newBoard. split; [assumption|].
  destruct chk; [discriminate | assumption].
Qed.

(** C3. Every move returned by [getAllMoves board col], applied with
    [applyMove], gives a board on which [isInCheck] answers [false] for
    [col]: no generated move leaves the mover's own king under attack. *)
Theorem getAllMoves_king_safe (board : Board) (col : Color) (ms : list Move) (m : Move) :
  getAllMoves board col = Ret ms -> m ∈ ms ->
  exists newBoard, applyMove board m None = Ret newBoard /\
                   isInCheck newBoard col = Ret false.
Proof.
  intros H Hin. destruct (getAllMoves_elem _ _ _ _ H Hin) as (Hv & _).
  destruct m as [a b]. apply isValidMove_safe. exact Hv.
Qed.

(** ** Check detection *)

Lemma elem_of_zrange (lo hi x : Z) : x ∈ zrange lo hi <-> lo <= x <= hi.
Proof.
  unfold zrange. rewrite list_elem_of_fmap. split.
  - intros (i & -> & Hi). apply elem_of_seq in Hi. lia.
  - intros H. exists (Z.to_nat (x - lo)). split; [lia|]. apply elem_of_seq. lia.
Qed.

Lemma row_at_readable (board : Board) (r : Z) :
  readable board -> 0 <= r < 8 -> exists row, row_at board r = Some row.
Proof.
  unfold readable, row_at. intros Hlen Hr.
  destruct (r <? 0) eqn:E; [lia|].
  apply lookup_lt_is_Some_2. lia.
Qed.

Lemma get_readable (board : Board) (r c : Z) :
  readable board -> 0 <= r < 8 -> exists x, get board r c = Ret x.
Proof.
  intros Hb Hr. unfold get. destruct (row_at_readable board r Hb Hr) as [row ->]. eauto.
Qed.

Lemma isKingAt_get (board : Board) (col : Color) (r c : Z) (x : cell) :
  get board r c = Ret x -> isKingAt board col r c = is_piece x col King.
Proof. unfold isKingAt. intros ->. reflexivity. Qed.

(** The scan of one row stops at the first king of the color. *)
Lemma findKingInRow_spec (board : Board) (col : Color) (r : Z) (cs : list Z) :
  readable board -> 0 <= r < 8 ->
  (findKingInRow board col r cs = Ret None /\
   forall c, c ∈ cs -> isKingAt board col r c = false) \/
  (exists c, findKingInRow board col r cs = Ret (Some (mkPos r c)) /\
             c ∈ cs /\ isKingAt board col r c = true).
Proof.
  intros Hb Hr. induction cs as [|c cs IH]; simpl.
  - left. split; [reflexivity|]. intros c Hc. inversion Hc.
  - destruct (get_readable board r c Hb Hr) as [x Hx]. rewrite Hx. simpl.
    rewrite <- (isKingAt_get _ _ _ _ _ Hx).
    destruct (isKingAt board col r c) eqn:Hk.
    + right. exists c. split; [reflexivity|]. split; [left | assumption].
    + destruct IH as [[-> Hno] | (c' & -> & Hin & Hk')].
      * left. split; [reflexivity|]. intros c' Hc'.
        apply elem_of_cons in Hc' as [-> | Hc']; auto.
      * right. exists c'. split; [reflexivity|]. split; [right|]; assumption.
Qed.

(** The scan of the rows keeps the king found in the last row that has
    one. *)
Lemma findKing_spec (board : Board) (col : Color) (k0 : option Position) (rs : list Z) :
  readable board -> (forall r, r ∈ rs -> 0 <= r < 8) ->
  (findKing board col k0 rs = Ret k0 /\
   forall r c, r ∈ rs -> c ∈ zrange 0 7 -> isKingAt board col r c = false) \/
  (exists r c, findKing board col k0 rs = Ret (Some (mkPos r c)) /\
               r ∈ rs /\ c ∈ zrange 0 7 /\ isKingAt board col r c = true).
Proof.
  intros Hb. revert k0. induction rs as [|r rs IH]; intros k0 Hrs.
  - left. split; [reflexivity|]. intros r c Hr. inversion Hr.
  - assert (Hr : 0 <= r < 8) by (apply Hrs; left).
    assert (Hrs' : forall r', r' ∈ rs -> 0 <= r' < 8) by (intros r' ?; apply Hrs; right; assumption).
    cbn [findKing].
    destruct (findKingInRow_spec board col r (zrange 0 7) Hb Hr)
      as [[Hf Hno] | (c & Hf & Hc & Hk)]; rewrite Hf; cbn [obind].
    + destruct (IH k0 Hrs') as [[-> Hno'] | (r' & c' & -> & Hin & Hc' & Hk')].
      * left. split; [reflexivity|]. intros r' c' Hr' Hc'.
        apply elem_of_cons in Hr' as [-> | Hr']; auto.
      * right. exists r', c'. split; [reflexivity|]. split; [right; assumption | auto].
    + destruct (IH (Some (mkPos r c)) Hrs') as [[-> Hno'] | (r' & c' & -> & Hin & Hc' & Hk')].
      * right. exists r, c. split; [reflexivity|]. split; [left | auto].
      * right. exists r', c'. split; [reflexivity|]. split; [right; assumption | auto].
Qed.

(** C8. On a board with its eight rows, [isInCheck board col] answers [true]
    when no king of the color stands on the board; when a king of the color
    stands on a square and the color has at most one king, it answers what
    [isSquareUnderAttack] answers for that square and the opponent. *)
Theorem isInCheck_spec (board : Board) (col : Color) :
  readable board ->
  ((forall r c, 0 <= r < 8 -> 0 <= c < 8 -> isKingAt board col r c = false) ->
   isInCheck board col = Ret true) /\
  (forall kr kc, 0 <= kr < 8 -> 0 <= kc < 8 ->
     isKingAt board col kr kc = true -> atMostOneKing board col ->
     isInCheck board col = isSquareUnderAttack board (mkPos kr kc) (opponentOf col)).
Proof.
  intros Hb.
  assert (Hrs : forall r, r ∈ zrange 0 7 -> 0 <= r < 8)
    by (intros r Hr; apply elem_of_zrange in Hr; lia).
  unfold isInCheck.
  destruct (findKing_spec board col None (zrange 0 7) Hb Hrs)
    as [[Hf Hno] | (r & c & Hf & Hr & Hc & Hk)]; rewrite Hf; cbn [obind]; split.
  - reflexivity.
  - intros kr kc Hkr Hkc Hk _.
    rewrite Hno in Hk; [discriminate | apply elem_of_zrange; lia | apply elem_of_zrange; lia].
  - intros Hno. apply elem_of_zrange in Hr, Hc.
    rewrite Hno in Hk; [discriminate | lia | lia].
  - intros kr kc Hkr Hkc Hk' Huniq. apply elem_of_zrange in Hr, Hc.
    destruct (Huniq r c kr kc) as [-> ->]; auto; lia.
Qed.

Lemma elem_of_allSquares (r c : Z) :
  mkPos r c ∈ allSquares <-> 0 <= r < 8 /\ 0 <= c < 8.
Proof.
  unfold allSquares. rewrite list_elem_of_In, in_flat_map. split.
  - intros (r' & Hr & Hin). apply list_elem_of_In, elem_of_zrange in Hr.
    apply list_elem_of_In, list_elem_of_fmap in Hin as (c' & Heq & Hc).
    apply elem_of_zrange in Hc. injection Heq as -> ->. lia.
  - intros [Hr Hc]. exists r. split.
    + apply list_elem_of_In, elem_of_zrange. lia.
    + apply list_elem_of_In, list_elem_of_fmap. exists c. split; [reflexivity|].
      apply elem_of_zrange. lia.
Qed.

(** Counting the kings decides [atMostOneKing]. *)
Lemma atMostOneKing_count (board : Board) (col : Color) :
  (length (kingSquares board col) <= 1)%nat -> atMostOneKing board col.
Proof.
  unfold kingSquares. intros Hlen r c r' c' Hr Hc Hr' Hc' Hk Hk'.
  assert (H1 : mkPos r c ∈ filter (fun p => isKingAt board col (pos_r p) (pos_c p) = true) allSquares)
    by (apply list_elem_of_filter; split; [exact Hk | apply elem_of_allSquares; lia]).
  assert (H2 : mkPos r' c' ∈ filter (fun p => isKingAt board col (pos_r p) (pos_c p) = true) allSquares)
    by (apply list_elem_of_filter; split; [exact Hk' | apply elem_of_allSquares; lia]).
  destruct (filter _ allSquares) as [|x [|y l]]; simpl in Hlen; [inversion H1 | | lia].
  apply list_elem_of_singleton in H1, H2. rewrite <- H2 in H1. injection H1 as -> ->. auto.
Qed.

Lemma isInCheck_spec_witness :
  isInCheck getInitialBoard white = isSquareUnderAttack getInitialBoard (mkPos 7 4) black.
Proof.
  apply (proj2 (isInCheck_spec getInitialBoard white ltac:(unfold readable; simpl; lia)) 7 4);
    [lia | lia | reflexivity | apply atMostOneKing_count; vm_compute; lia].
Defined.

Lemma getAllMoves_king_safe_witness :
  exists newBoard, applyMove getInitialBoard (mv 6 4 4 4) None = Ret newBoard /\
                   isInCheck newBoard white = Ret false.
Proof.
  assert (E : getAllMoves getInitialBoard white = Ret initialWhiteMoves)
    by (vm_compute; reflexivity).
  assert (Hin : mv 6 4 4 4 ∈ initialWhiteMoves)
    by (vm_compute; do 8 right; left).
  exact (getAllMoves_king_safe getInitialBoard white initialWhiteMoves (mv 6 4 4 4) E Hin).
Defined.

(** ** Search *)

(** The side whose moves a layer of the search generates. *)
Lemma minimax_unfold (board : Board) (d : nat) (alpha beta : num) (isMaximizing : bool) :
  minimax board (S d) alpha beta isMaximizing =
  let col := if isMaximizing then black else white in
  let* moves := getAllMoves board col in
  match moves with
  | [] =>
      let* chk := isInCheck board col in
      if chk then Ret (if isMaximizing then Fin (-9999) else Fin 9999)
      else Ret (Fin 0)
  | _ =>
      if isMaximizing
      then maxLoop (fun b al be => minimax b d al be false) board moves NegInf alpha beta
      else minLoop (fun b al be => minimax b d al be true) board moves PosInf alpha beta
  end.
Proof. reflexivity. Qed.

(** C5. [minimax] returns the evaluator's score at depth 0; at a positive
    depth, on a node where the side to move has no legal move, it returns
    -9999 (maximizing layer) or 9999 (minimizing layer) when that side is in
    check, and 0 when it is not. *)
Theorem minimax_leaves (board : Board) (depth : nat) (alpha beta : num) (isMaximizing : bool) :
  (depth = 0%nat -> minimax board depth alpha beta isMaximizing = evaluateBoard board) /\
  ((0 < depth)%nat ->
   getAllMoves board (if isMaximizing then black else white) = Ret [] ->
   (isInCheck board (if isMaximizing then black else white) = Ret true ->
    minimax board depth alpha beta isMaximizing
    = Ret (Fin (if isMaximizing then -9999 else 9999))) /\
   (isInCheck board (if isMaximizing then black else white) = Ret false ->
    minimax board depth alpha beta isMaximizing = Ret (Fin 0))).
Proof.
  split.
  - intros ->. reflexivity.
  - intros Hd Hmoves. destruct depth as [|d]; [lia|].
    rewrite minimax_unfold. cbn zeta. rewrite Hmoves. cbn [obind].
    split; intros ->; cbn [obind]; destruct isMaximizing; reflexivity.
Qed.

Lemma minimax_leaves_witness :
  minimax matedBoard 0 NegInf PosInf true = evaluateBoard matedBoard /\
  minimax matedBoard 2 NegInf PosInf true = Ret (Fin (-9999)) /\
  minimax stalemateBoard 2 NegInf PosInf true = Ret (Fin 0).
Proof.
  assert (M1 : getAllMoves matedBoard black = Ret []) by (vm_compute; reflexivity).
  assert (M2 : isInCheck matedBoard black = Ret true) by (vm_compute; reflexivity).
  assert (S1 : getAllMoves stalemateBoard black = Ret []) by (vm_compute; reflexivity).
  assert (S2 : isInCheck stalemateBoard black = Ret false) by (vm_compute; reflexivity).
  split; [|split].
  - exact (proj1 (minimax_leaves matedBoard 0 NegInf PosInf true) eq_refl).
  - exact (proj1 (proj2 (minimax_leaves matedBoard 2 NegInf PosInf true) ltac:(lia) M1) M2).
  - exact (proj2 (proj2 (minimax_leaves stalemateBoard 2 NegInf PosInf true) ltac:(lia) S1) S2).
Defined.

(** ** Totality on boards with eight rows *)

Lemma orM_total (a b : outcome bool) :
  (exists x, a = Ret x) -> (exists y, b = Ret y) -> exists z, orM a b = Ret z.
Proof. intros [x ->] [y ->]. unfold orM. simpl. destruct x; eauto. Qed.

Lemma anyM_total {A : Type} (f : A -> outcome bool) (l : list A) :
  (forall x, x ∈ l -> exists b, f x = Ret b) -> exists b, anyM f l = Ret b.
Proof.
  induction l as [|x l IH]; simpl; intros H; [eauto|].
  apply orM_total; [apply H; left | apply IH; intros y Hy; apply H; right; assumption].
Qed.

Lemma inBoard_spec (r c : Z) : inBoard r c = true <-> 0 <= r < 8 /\ 0 <= c < 8.
Proof. unfold inBoard. rewrite !andb_true_iff. lia. Qed.

(** A ray never runs out of steps: every step moves towards an edge. *)
Lemma ray_total (board : Board) (col : Color) (dr dc : Z) (types : list PieceType) :
  readable board -> isStep dr dc ->
  forall (fuel : nat) (r c : Z),
    (inBoard r c = true -> rayRoom dr dc r c <= Z.of_nat fuel) ->
    exists v, ray fuel board col dr dc types r c = Ret v.
Proof.
  intros Hb (Hdr & Hdc & Hne). induction fuel as [|fuel IH]; intros r c Hroom; simpl.
  - destruct (inBoard r c) eqn:Hin; [|eauto].
    specialize (Hroom eq_refl). apply inBoard_spec in Hin. unfold rayRoom in Hroom.
    destruct (dr =? 1) eqn:E1; [lia|]. destruct (dr =? -1) eqn:E2; [lia|].
    destruct (dc =? 1) eqn:E3; lia.
  - destruct (inBoard r c) eqn:Hin; [|eauto].
    specialize (Hroom eq_refl). apply inBoard_spec in Hin.
    destruct (get_readable board r c Hb (proj1 Hin)) as [x ->]. simpl.
    destruct x; eauto; apply IH; intros _; unfold rayRoom in *;
      destruct (dr =? 1) eqn:E1; try lia; destruct (dr =? -1) eqn:E2; try lia;
      destruct (dc =? 1) eqn:E3; lia.
Qed.

Lemma directions_steps (dr dc : Z) (types : list PieceType) :
  (dr, dc, types) ∈ directions -> isStep dr dc.
Proof.
  unfold directions, isStep. intros H.
  repeat (apply elem_of_cons in H as [H | H]; [injection H as -> -> ->; lia|]).
  inversion H.
Qed.

Lemma isSquareUnderAttack_total (board : Board) (pos : Position) (col : Color) :
  readable board -> exists v, isSquareUnderAttack board pos col = Ret v.
Proof.
  intros Hb. unfold isSquareUnderAttack.
  apply orM_total; [|apply orM_total; [|apply orM_total]].
  - unfold pawnAttack.
    destruct ((0 <=? _) && (_ <? 8)) eqn:Hrow; [|eauto].
    apply andb_true_iff in Hrow as [H1 H2]. apply Z.leb_le in H1. apply Z.ltb_lt in H2.
    apply orM_total.
    + destruct (0 <=? pos_c pos - 1); [|eauto].
      destruct (get_readable board _ (pos_c pos - 1) Hb (conj H1 H2)) as [x ->]. simpl. eauto.
    + destruct (pos_c pos + 1 <? 8); [|eauto].
      destruct (get_readable board _ (pos_c pos + 1) Hb (conj H1 H2)) as [x ->]. simpl. eauto.
  - unfold knightAttack. apply anyM_total. intros m _.
    destruct (inBoard (pos_r m) (pos_c m)) eqn:Hin; [|eauto].
    apply inBoard_spec in Hin.
    destruct (get_readable board (pos_r m) (pos_c m) Hb (proj1 Hin)) as [x ->]. simpl. eauto.
  - unfold kingAttack. apply anyM_total. intros r Hr. apply elem_of_zrange in Hr.
    apply anyM_total. intros c _.
    destruct ((r =? pos_r pos) && (c =? pos_c pos)); [eauto|].
    destruct (get_readable board r c Hb ltac:(lia)) as [x ->]. simpl. eauto.
  - unfold slidingAttack. apply anyM_total. intros [[dr dc] types] Hd.
    apply ray_total; [assumption | eapply directions_steps; eassumption |].
    intros Hin. apply inBoard_spec in Hin.
    apply directions_steps in Hd as (Hdr & Hdc & Hne). unfold rayRoom.
    destruct (dr =? 1) eqn:E1; [|destruct (dr =? -1) eqn:E2; [|destruct (dc =? 1) eqn:E3]]; lia.
Qed.

Lemma isInCheck_total (board : Board) (col : Color) :
  readable board -> exists v, isInCheck board col = Ret v.
Proof.
  intros Hb. unfold isInCheck.
  assert (Hrs : forall r, r ∈ zrange 0 7 -> 0 <= r < 8)
    by (intros r Hr; apply elem_of_zrange in Hr; lia).
  destruct (findKing_spec board col None (zrange 0 7) Hb Hrs)
    as [[-> _] | (r & c & -> & _)]; cbn [obind]; [eauto|].
  apply isSquareUnderAttack_total. assumption.
Qed.

Lemma length_cloneBoard (board : Board) : length (cloneBoard board) = length board.
Proof. unfold cloneBoard. apply length_map. Qed.

Lemma readable_cloneBoard (board : Board) : readable board -> readable (cloneBoard board).
Proof. unfold readable. rewrite length_cloneBoard. auto. Qed.

Lemma set_total (board : Board) (r c : Z) (v : cell) :
  readable board -> 0 <= r < 8 ->
  exists b, set board r c v = Ret b /\ length b = length board.
Proof.
  intros Hb Hr. unfold set. destruct (row_at_readable board r Hb Hr) as [row ->].
  eexists. split; [reflexivity|]. apply length_insert.
Qed.

Lemma set_length (board b : Board) (r c : Z) (v : cell) :
  set board r c v = Ret b -> length b = length board.
Proof.
  unfold set. destruct (row_at board r); [|discriminate].
  intros H. injection H as <-. apply length_insert.
Qed.

(** [applyMove] keeps the number of rows. *)
Lemma applyMove_length (board b : Board) (m : Move) (promoteTo : option PieceType) :
  applyMove board m promoteTo = Ret b -> length b = length board.
Proof.
  unfold applyMove. intros H.
  apply obind_Ret in H as (x & Hx & H).
  apply obind_Ret in H as (nb & Hnb & H).
  apply obind_Ret in H as (b2 & Hb2 & H).
  apply set_length in H, Hb2. rewrite H, Hb2.
  destruct (cell_type_is (movedCopy x) King && _).
  - apply obind_Ret in Hnb as (y & Hy & Hnb).
    apply obind_Ret in Hnb as (b1 & Hb1 & Hnb).
    apply set_length in Hnb, Hb1. rewrite Hnb, Hb1. apply length_cloneBoard.
  - injection Hnb as <-. apply length_cloneBoard.
Qed.

Lemma applyMove_total (board : Board) (m : Move) (promoteTo : option PieceType) :
  readable board -> 0 <= pos_r (from m) < 8 -> 0 <= pos_r (to m) < 8 ->
  exists b, applyMove board m promoteTo = Ret b /\ readable b.
Proof.
  intros Hb Hf Ht.
  assert (exists b, applyMove board m promoteTo = Ret b) as [b Hab].
  { unfold applyMove.
    pose proof (readable_cloneBoard board Hb) as Hc.
    destruct (get_readable (cloneBoard board) (pos_r (from m)) (pos_c (from m)) Hc Hf) as [x ->].
    cbn [obind].
    assert (exists nb, (if cell_type_is (movedCopy x) King
                           && (Z.abs (pos_c (to m) - pos_c (from m)) =? 2)
             then
               let* y := get (cloneBoard board) (pos_r (from m))
                             (if pos_c (from m) <? pos_c (to m) then 7 else 0) in
               let* b1 := set (cloneBoard board) (pos_r (from m))
                              (if pos_c (from m) <? pos_c (to m) then 5 else 3) (movedCopy y) in
               set b1 (pos_r (from m)) (if pos_c (from m) <? pos_c (to m) then 7 else 0) Null
             else Ret (cloneBoard board)) = Ret nb /\ readable nb) as (nb & -> & Hnb).
    { destruct (cell_type_is (movedCopy x) King && _); [|eauto].
      destruct (get_readable (cloneBoard board) (pos_r (from m))
                  (if pos_c (from m) <? pos_c (to m) then 7 else 0) Hc Hf) as [y ->].
      cbn [obind].
      destruct (set_total (cloneBoard board) (pos_r (from m))
                  (if pos_c (from m) <? pos_c (to m) then 5 else 3) (movedCopy y) Hc Hf)
        as (b1 & -> & Hl1).
      cbn [obind].
      assert (Hr1 : readable b1) by (unfold readable in *; lia).
      destruct (set_total b1 (pos_r (from m))
                  (if pos_c (from m) <? pos_c (to m) then 7 else 0) Null Hr1 Hf)
        as (b2 & -> & Hl2).
      exists b2. split; [reflexivity|]. unfold readable in *. lia. }
    cbn [obind].
    destruct (set_total nb (pos_r (to m)) (pos_c (to m))
                (promote (movedCopy x) m promoteTo) Hnb Ht) as (b2 & -> & Hl2).
    cbn [obind].
    assert (Hr2 : readable b2) by (unfold readable in *; lia).
    destruct (set_total b2 (pos_r (from m)) (pos_c (from m)) Null Hr2 Hf) as (b3 & -> & _).
    eauto. }
  exists b. split; [assumption|].
  apply applyMove_length in Hab. unfold readable in *. lia.
Qed.

(** The walk of [isPathClear] towards a square it reaches in [n] steps,
    along rows of the board. *)
Lemma isPathClear_loop_total (board : Board) (dr dc : Z) (target : Position) :
  readable board ->
  forall (n fuel : nat) (r c : Z),
    (n <= fuel)%nat ->
    pos_r target = r + Z.of_nat n * dr ->
    pos_c target = c + Z.of_nat n * dc ->
    (dr <> 0 \/ dc <> 0) ->
    (forall i, 0 <= i < Z.of_nat n -> 0 <= r + i * dr < 8) ->
    exists v, isPathClear_loop fuel board dr dc r c target = Ret v.
Proof.
  intros Hb. induction n as [|n IH]; intros fuel r c Hfuel Hr Hc Hne Hrows.
  - destruct fuel; simpl;
      replace (r =? pos_r target) with true by (symmetry; apply Z.eqb_eq; lia);
      replace (c =? pos_c target) with true by (symmetry; apply Z.eqb_eq; lia);
      simpl; eauto.
  - destruct fuel as [|fuel]; [lia|]. simpl.
    assert (Hcond : negb (r =? pos_r target) || negb (c =? pos_c target) = true).
    { apply orb_true_iff. destruct Hne as [Hne | Hne]; [left | right];
        apply negb_true_iff, Z.eqb_neq; nia. }
    rewrite Hcond.
    destruct (get_readable board r c Hb) as [x ->].
    { specialize (Hrows 0). lia. }
    cbn [obind]. destruct (truthy x); [eauto|].
    apply IH; [lia | lia | lia | assumption |].
    intros i Hi. specialize (Hrows (i + 1)). lia.
Qed.

Lemma isPathClear_total (board : Board) (a b : Position) :
  readable board ->
  0 <= pos_r a < 8 -> 0 <= pos_r b < 8 ->
  (pos_c b - pos_c a = 0 \/ pos_r b - pos_r a = 0 \/
   Z.abs (pos_c b - pos_c a) = Z.abs (pos_r b - pos_r a)) ->
  exists v, isPathClear board a b = Ret v.
Proof.
  intros Hb Ha Hbr Hal. unfold isPathClear.
  destruct (Z.eq_dec (pos_r b) (pos_r a)) as [Er | Er];
    [destruct (Z.eq_dec (pos_c b) (pos_c a)) as [Ec | Ec]|].
  - (* the same square: the loop is not entered *)
    replace (pos_r b - pos_r a) with 0 by lia. replace (pos_c b - pos_c a) with 0 by lia.
    simpl Z.sgn. unfold isPathClear_fuel.
    destruct (_ + _ + length board + 2)%nat; simpl;
      replace (pos_r a + 0 =? pos_r b) with true by (symmetry; apply Z.eqb_eq; lia);
      replace (pos_c a + 0 =? pos_c b) with true by (symmetry; apply Z.eqb_eq; lia);
      simpl; eauto.
  - apply (isPathClear_loop_total board _ _ b Hb
             (Z.to_nat (Z.abs (pos_c b - pos_c a) - 1))); unfold isPathClear_fuel; lia.
  - apply (isPathClear_loop_total board _ _ b Hb
             (Z.to_nat (Z.abs (pos_r b - pos_r a) - 1))); unfold isPathClear_fuel; try lia.
Qed.

Lemma pawnValid_total (board : Board) (p : Piece) (a b : Position) (target : cell) :
  readable board -> 0 <= pos_r a < 8 ->
  exists v, pawnValid board p a b target = Ret v /\
            (type p = Pawn -> specGeometry p a b = false -> v = false).
Proof.
  intros Hb Ha. unfold pawnValid.
  set (dir := if color_is p white then -1 else 1).
  set (startRow := if color_is p white then 6 else 1).
  assert (exists v2,
    (if (pos_c a =? pos_c b) && (pos_r b =? pos_r a + 2 * dir) && (pos_r a =? startRow)
        && negb (truthy target)
     then let* mid := get board (pos_r a + dir) (pos_c a) in Ret (negb (truthy mid))
     else Ret false) = Ret v2 /\
    (v2 = true -> pos_c a = pos_c b /\ pos_r b = pos_r a + 2 * dir /\ pos_r a = startRow))
    as (v2 & -> & Hv2).
  { destruct ((pos_c a =? pos_c b) && (pos_r b =? pos_r a + 2 * dir) && (pos_r a =? startRow)
              && negb (truthy target)) eqn:E.
    - apply andb_true_iff in E as [E _]. apply andb_true_iff in E as [E E3].
      apply andb_true_iff in E as [E1 E2].
      apply Z.eqb_eq in E1, E2, E3.
      destruct (get_readable board (pos_r a + dir) (pos_c a) Hb) as [mid ->].
      { subst dir startRow. destruct (color_is p white); lia. }
      cbn [obind]. eexists. split; [reflexivity | auto].
    - exists false. split; [reflexivity | discriminate]. }
  cbn [obind]. eexists. split; [reflexivity|].
  intros Hty Hg. unfold specGeometry in Hg. rewrite Hty in Hg.
  unfold color_is in dir, startRow. subst dir startRow.
  destruct (color p); simpl in *;
    destruct v2; [destruct Hv2 as (? & ? & ?); [reflexivity|] | | destruct Hv2 as (? & ? & ?); [reflexivity|] | ];
    repeat match goal with
      | |- context [?x =? ?y] => destruct (Z.eqb_spec x y)
      | H : context [?x =? ?y] |- _ => destruct (Z.eqb_spec x y)
      end; simpl in *; try reflexivity; try discriminate; try lia.
Qed.

Lemma andPath_total (g : bool) (board : Board) (a b : Position) :
  readable board -> 0 <= pos_r a < 8 -> 0 <= pos_r b < 8 ->
  (g = true ->
   pos_c b - pos_c a = 0 \/ pos_r b - pos_r a = 0 \/
   Z.abs (pos_c b - pos_c a) = Z.abs (pos_r b - pos_r a)) ->
  exists v, andPath g board a b = Ret v /\ (g = false -> v = false).
Proof.
  intros Hb Ha Hbr Hal. unfold andPath. destruct g.
  - destruct (isPathClear_total board a b Hb Ha Hbr (Hal eq_refl)) as [v ->].
    exists v. split; [reflexivity | discriminate].
  - exists false. auto.
Qed.

Lemma kingValid_total (board : Board) (p : Piece) (a b : Position) (turn : Color)
    (checkSafety : bool) :
  readable board -> 0 <= pos_r a < 8 ->
  exists g, kingValid board p a b turn checkSafety = Ret g /\
            (type p = King -> specGeometry p a b = false -> g <> inl true).
Proof.
  intros Hb Ha. unfold kingValid, specGeometry.
  destruct ((Z.abs (pos_c b - pos_c a) <=? 1) && (Z.abs (pos_r b - pos_r a) <=? 1)) eqn:E1.
  { eexists. split; [reflexivity|]. intros ->. simpl. discriminate. }
  destruct ((Z.abs (pos_r b - pos_r a) =? 0) && (Z.abs (pos_c b - pos_c a) =? 2)) eqn:E2;
    cbn [andb];
    [|eexists; split; [destruct (moved p); reflexivity | intros _ _; destruct (moved p); discriminate]].
  destruct (negb (moved p)); cbn [andb]; [|eexists; split; [reflexivity | discriminate]].
  assert (exists chk, (if checkSafety then isInCheck board turn else Ret false) = Ret chk)
    as [chk ->] by (destruct checkSafety; [apply isInCheck_total; assumption | eauto]).
  cbn [obind]. destruct chk.
  { eexists. split; [reflexivity | discriminate]. }
  destruct (get_readable board (pos_r a) (if pos_c a <? pos_c b then 7 else 0) Hb Ha) as [rook ->].
  cbn [obind].
  destruct rook as [| |rk|]; try (eexists; split; [reflexivity | discriminate]).
  destruct (type_is rk Rook && color_is rk turn && negb (moved rk));
    [|eexists; split; [reflexivity | discriminate]].
  destruct (isPathClear_total board a (mkPos (pos_r a) (if pos_c a <? pos_c b then 7 else 0))
              Hb Ha Ha) as [clear ->]; [simpl; lia|].
  cbn [obind]. destruct clear; [|eexists; split; [reflexivity | discriminate]].
  assert (exists att,
    (if checkSafety
     then isSquareUnderAttack board
            (mkPos (pos_r a) (pos_c a + (if pos_c a <? pos_c b then 1 else -1))) (opponentOf turn)
     else Ret false) = Ret att)
    as [att ->] by (destruct checkSafety; [apply isSquareUnderAttack_total; assumption | eauto]).
  cbn [obind]. destruct att; eexists; (split; [reflexivity|]).
  - discriminate.
  - intros ->. simpl. discriminate.
Qed.

Lemma geometry_total (board : Board) (p : Piece) (a b : Position) (target : cell)
    (turn : Color) (checkSafety : bool) :
  readable board -> 0 <= pos_r a < 8 -> 0 <= pos_r b < 8 ->
  exists g, geometry board p a b target turn checkSafety = Ret g /\
            (specGeometry p a b = false -> g <> inl true).
Proof.
  intros Hb Ha Hbr. unfold geometry.
  destruct (type p) eqn:Hty.
  - destruct (kingValid_total board p a b turn checkSafety Hb Ha) as (g & -> & Hg).
    exists g. split; [reflexivity | auto].
  - destruct (andPath_total ((Z.abs (pos_c b - pos_c a) =? 0) || (Z.abs (pos_r b - pos_r a) =? 0)
                             || (Z.abs (pos_c b - pos_c a) =? Z.abs (pos_r b - pos_r a)))
                board a b Hb Ha Hbr) as (v & -> & Hv).
    { intros H. repeat (apply orb_true_iff in H as [H | H]); apply Z.eqb_eq in H; lia. }
    cbn [obind]. eexists. split; [reflexivity|].
    unfold specGeometry. rewrite Hty. intros H. rewrite (Hv H). discriminate.
  - destruct (andPath_total ((Z.abs (pos_c b - pos_c a) =? 0) || (Z.abs (pos_r b - pos_r a) =? 0))
                board a b Hb Ha Hbr) as (v & -> & Hv).
    { intros H. repeat (apply orb_true_iff in H as [H | H]); apply Z.eqb_eq in H; lia. }
    cbn [obind]. eexists. split; [reflexivity|].
    unfold specGeometry. rewrite Hty. intros H. rewrite (Hv H). discriminate.
  - destruct (andPath_total (Z.abs (pos_c b - pos_c a) =? Z.abs (pos_r b - pos_r a))
                board a b Hb Ha Hbr) as (v & -> & Hv).
    { intros H. apply Z.eqb_eq in H. lia. }
    cbn [obind]. eexists. split; [reflexivity|].
    unfold specGeometry. rewrite Hty. intros H. rewrite (Hv H). discriminate.
  - eexists. split; [reflexivity|].
    unfold specGeometry. rewrite Hty. intros ->. discriminate.
  - destruct (pawnValid_total board p a b target Hb Ha) as (v & -> & Hv).
    cbn [obind]. eexists. split; [reflexivity|].
    intros H. rewrite (Hv Hty H). discriminate.
Qed.

(** On a board with its eight rows the validator returns, for squares on
    rows of the board. *)
Lemma isValidMove_total (board : Board) (a b : Position) (turn : Color) (checkSafety : bool) :
  readable board -> 0 <= pos_r a < 8 -> 0 <= pos_r b < 8 ->
  exists v, isValidMove board a b turn checkSafety = Ret v.
Proof.
  intros Hb Ha Hbr. unfold isValidMove.
  destruct (get_readable board (pos_r a) (pos_c a) Hb Ha) as [x ->].
  destruct (get_readable board (pos_r b) (pos_c b) Hb Hbr) as [target ->].
  cbn [obind].
  destruct x as [| |p|]; eauto.
  destruct (negb (color_is p turn)); eauto.
  destruct (match target with Obj t => _ | _ => false end); eauto.
  destruct (geometry_total board p a b target turn checkSafety Hb Ha Hbr) as (g & -> & _).
  cbn [obind].
  destruct g as [valid|[]]; eauto.
  destruct (valid && checkSafety); eauto.
  destruct (applyMove_total board (mkMove a b) None Hb Ha Hbr) as (nb & -> & Hnb).
  cbn [obind].
  destruct (isInCheck_total nb turn Hnb) as [chk ->]. cbn [obind].
  destruct chk; eauto.
Qed.




(** ** Reading a board after a write *)

Lemma arr_get_set (row : Row) (i j : Z) (v : cell) :
  arr_get (arr_set row i v) j = if i =? j then v else arr_get row j.
Proof.
  unfold arr_get, arr_set.
  destruct (Z.ltb_spec i 0) as [Hi | Hi]; cbn [elems props].
  - destruct (Z.eqb_spec i j) as [<- | Hne].
    + destruct (Z.ltb_spec i 0); [|lia]. rewrite lookup_insert_eq. reflexivity.
    + destruct (j <? 0); [|reflexivity].
      rewrite lookup_insert_ne by assumption. reflexivity.
  - destruct (Z.ltb_spec i (Z.of_nat (length (elems row)))) as [Hl | Hl]; cbn [elems props];
      destruct (Z.ltb_spec j 0) as [Hj | Hj];
      destruct (Z.eqb_spec i j) as [<- | Hne]; try reflexivity; try lia.
    + rewrite list_lookup_insert_eq by lia. reflexivity.
    + rewrite list_lookup_insert_ne by lia. reflexivity.
    + rewrite lookup_app_r by lia. rewrite lookup_app_r by (rewrite length_replicate; lia).
      rewrite length_replicate.
      replace (Z.to_nat i - length (elems row) - (Z.to_nat i - length (elems row)))%nat
        with 0%nat by lia.
      reflexivity.
    + destruct (Z.ltb_spec j (Z.of_nat (length (elems row)))) as [Hjl | Hjl].
      * rewrite lookup_app_l by lia. reflexivity.
      * rewrite lookup_app_r by lia.
        rewrite (lookup_ge_None_2 (elems row)) by lia.
        destruct (Z.ltb_spec j i) as [Hji | Hji].
        -- rewrite lookup_app_l by (rewrite length_replicate; lia).
           rewrite lookup_replicate_2 by lia. reflexivity.
        -- rewrite lookup_app_r by (rewrite length_replicate; lia).
           rewrite length_replicate.
           rewrite lookup_ge_None_2 by (simpl; lia). reflexivity.
Qed.

Lemma get_set (board b : Board) (r c r' c' : Z) (v : cell) :
  set board r c v = Ret b ->
  get b r' c' = if (r =? r') && (c =? c') then Ret v else get board r' c'.
Proof.
  unfold set, get, row_at. intros H.
  destruct (r <? 0) eqn:Er; [discriminate|].
  destruct (board !! Z.to_nat r) as [row|] eqn:Hrow; [|discriminate].
  injection H as <-.
  destruct (r' <? 0) eqn:Er'.
  - replace (r =? r') with false by (symmetry; apply Z.eqb_neq; lia). reflexivity.
  - destruct (Z.eqb_spec r r') as [<- | Hne]; cbn [andb].
    + rewrite list_lookup_insert_eq by (apply lookup_lt_Some in Hrow; assumption).
      rewrite arr_get_set, Hrow. destruct (c =? c'); reflexivity.
    + rewrite list_lookup_insert_ne by lia. reflexivity.
Qed.

(** A copy reads like the original at the indexed elements. *)
Lemma get_cloneBoard (board : Board) (r c : Z) :
  0 <= c -> get (cloneBoard board) r c = get board r c.
Proof.
  intros Hc. unfold get, row_at, cloneBoard. destruct (r <? 0); [reflexivity|].
  rewrite list_lookup_fmap. destruct (board !! Z.to_nat r) as [row|]; [|reflexivity].
  simpl. unfold arr_get. simpl. destruct (c <? 0) eqn:E; [lia | reflexivity].
Qed.

Lemma applyMove_get (board nb : Board) (m : Move) (promoteTo : option PieceType) (r c : Z) :
  applyMove board m promoteTo = Ret nb ->
  exists x, get (cloneBoard board) (pos_r (from m)) (pos_c (from m)) = Ret x /\
  get nb r c =
    if (pos_r (from m) =? r) && (pos_c (from m) =? c) then Ret Null
    else if (pos_r (to m) =? r) && (pos_c (to m) =? c)
         then Ret (promote (movedCopy x) m promoteTo)
    else if isCastling board m && (pos_r (from m) =? r)
            && ((if pos_c (from m) <? pos_c (to m) then 7 else 0) =? c)
         then Ret Null
    else if isCastling board m && (pos_r (from m) =? r)
            && ((if pos_c (from m) <? pos_c (to m) then 5 else 3) =? c)
         then let* y := get (cloneBoard board) (pos_r (from m))
                            (if pos_c (from m) <? pos_c (to m) then 7 else 0) in
              Ret (movedCopy y)
    else get (cloneBoard board) r c.
Proof.
  unfold applyMove, isCastling. intros H.
  apply obind_Ret in H as (x & Hx & H). exists x. split; [assumption|]. rewrite Hx.
  apply obind_Ret in H as (b1 & Hb1 & H).
  apply obind_Ret in H as (b2 & Hb2 & H).
  rewrite (get_set _ _ _ _ r c _ H).
  destruct ((pos_r (from m) =? r) && (pos_c (from m) =? c)); [reflexivity|].
  rewrite (get_set _ _ _ _ r c _ Hb2).
  destruct ((pos_r (to m) =? r) && (pos_c (to m) =? c)); [reflexivity|].
  destruct (cell_type_is (movedCopy x) King && _); cbn [andb].
  - apply obind_Ret in Hb1 as (y & Hy & Hb1).
    apply obind_Ret in Hb1 as (b0 & Hb0 & Hb1).
    rewrite (get_set _ _ _ _ r c _ Hb1).
    destruct ((pos_r (from m) =? r) && _); [reflexivity|].
    rewrite (get_set _ _ _ _ r c _ Hb0).
    destruct ((pos_r (from m) =? r) && _); [|reflexivity].
    rewrite Hy. reflexivity.
  - injection Hb1 as <-. reflexivity.
Qed.

(** ** Castling *)

(** A walk that answers [true] met no piece before its target. *)
Lemma isPathClear_loop_clear (board : Board) (dr dc : Z) (target : Position) :
  dr <> 0 \/ dc <> 0 ->
  forall (n fuel : nat) (r c : Z),
    pos_r target = r + Z.of_nat n * dr ->
    pos_c target = c + Z.of_nat n * dc ->
    isPathClear_loop fuel board dr dc r c target = Ret true ->
    forall i, 0 <= i < Z.of_nat n ->
      exists x, get board (r + i * dr) (c + i * dc) = Ret x /\ truthy x = false.
Proof.
  intros Hne. induction n as [|n IH]; intros fuel r c Hr Hc Hloop i Hi; [lia|].
  assert (Hcond : negb (r =? pos_r target) || negb (c =? pos_c target) = true).
  { apply orb_true_iff. destruct Hne as [Hne | Hne]; [left | right];
      apply negb_true_iff, Z.eqb_neq; nia. }
  destruct fuel as [|fuel]; simpl in Hloop; rewrite Hcond in Hloop; [discriminate|].
  apply obind_Ret in Hloop as (x & Hx & Hloop).
  destruct (truthy x) eqn:Htx; [discriminate|].
  destruct (Z.eq_dec i 0) as [-> | Hi0].
  - exists x. rewrite !Z.mul_0_l, !Z.add_0_r. auto.
  - destruct (IH fuel (r + dr) (c + dc) ltac:(lia) ltac:(lia) Hloop (i - 1) ltac:(lia))
      as (y & Hy & Hty).
    exists y. split; [|assumption]. rewrite <- Hy. f_equal; lia.
Qed.

(** On one row: the squares strictly between the two ends are empty. *)
Lemma isPathClear_row (board : Board) (a : Position) (k : Z) :
  isPathClear board a (mkPos (pos_r a) k) = Ret true ->
  forall c, pos_c a < c < k \/ k < c < pos_c a ->
    exists x, get board (pos_r a) c = Ret x /\ truthy x = false.
Proof.
  unfold isPathClear. cbn [pos_r pos_c]. rewrite Z.sub_diag. simpl Z.sgn.
  intros Hloop c Hc.
  assert (Hne : 0 <> 0 \/ Z.sgn (k - pos_c a) <> 0) by (right; lia).
  pose proof (isPathClear_loop_clear board 0 (Z.sgn (k - pos_c a)) (mkPos (pos_r a) k) Hne
                (Z.to_nat (Z.abs (k - pos_c a) - 1))
                (isPathClear_fuel board a (mkPos (pos_r a) k))
                (pos_r a + 0) (pos_c a + Z.sgn (k - pos_c a))) as H.
  cbn [pos_r pos_c] in H.
  specialize (H ltac:(lia) ltac:(lia) Hloop (Z.abs (c - pos_c a) - 1)).
  destruct H as (x & Hx & Htx); [lia|].
  exists x. split; [|assumption]. rewrite <- Hx. f_equal; lia.
Qed.

(** When [isInCheck] answers [false], the scan found a king of the color,
    and that king's square is not attacked. *)
Lemma isInCheck_false_inv (board : Board) (col : Color) :
  readable board -> isInCheck board col = Ret false ->
  exists r c, 0 <= r < 8 /\ 0 <= c < 8 /\ isKingAt board col r c = true /\
              isSquareUnderAttack board (mkPos r c) (opponentOf col) = Ret false.
Proof.
  intros Hb. unfold isInCheck.
  assert (Hrs : forall r, r ∈ zrange 0 7 -> 0 <= r < 8)
    by (intros r Hr; apply elem_of_zrange in Hr; lia).
  destruct (findKing_spec board col None (zrange 0 7) Hb Hrs)
    as [[-> _] | (r & c & -> & Hr & Hc & Hk)]; cbn [obind]; [discriminate|].
  intros H. apply elem_of_zrange in Hr, Hc. exists r, c. repeat split; auto; lia.
Qed.

(** The castling branch of the validator, when it leaves [valid] true for a
    king that moves two squares. *)
Lemma kingValid_castling (board : Board) (p : Piece) (a b : Position) (turn : Color) :
  Z.abs (pos_c b - pos_c a) = 2 \/ Z.abs (pos_r b - pos_r a) = 2 ->
  kingValid board p a b turn true = Ret (inl true) ->
  pos_r b = pos_r a /\ Z.abs (pos_c b - pos_c a) = 2 /\ moved p = false /\
  isInCheck board turn = Ret false /\
  (exists rk, get board (pos_r a) (if pos_c a <? pos_c b then 7 else 0) = Ret (Obj rk) /\
              type rk = Rook /\ color rk = turn /\ moved rk = false) /\
  isPathClear board a (mkPos (pos_r a) (if pos_c a <? pos_c b then 7 else 0)) = Ret true /\
  isSquareUnderAttack board
    (mkPos (pos_r a) (pos_c a + (if pos_c a <? pos_c b then 1 else -1))) (opponentOf turn)
  = Ret false.
Proof.
  intros Htwo. unfold kingValid.
  replace ((Z.abs (pos_c b - pos_c a) <=? 1) && (Z.abs (pos_r b - pos_r a) <=? 1)) with false
    by (symmetry; apply andb_false_iff; rewrite !Z.leb_gt; lia).
  destruct (Z.eqb_spec (Z.abs (pos_r b - pos_r a)) 0) as [Hdy | Hdy]; cbn [andb]; [|discriminate].
  destruct (Z.eqb_spec (Z.abs (pos_c b - pos_c a)) 2) as [Hdx | Hdx]; cbn [andb]; [|discriminate].
  destruct (moved p) eqn:Hmv; cbn [negb]; [discriminate|].
  intros H. apply obind_Ret in H as (chk & Hchk & H).
  destruct chk; [discriminate|].
  apply obind_Ret in H as (rook & Hrook & H).
  destruct rook as [| |rk|]; try discriminate.
  destruct (type_is rk Rook && color_is rk turn && negb (moved rk)) eqn:Hrk; [|discriminate].
  apply andb_true_iff in Hrk as [Hrk Hrm]. apply andb_true_iff in Hrk as [Hrt Hrc].
  apply obind_Ret in H as (clear & Hclear & H).
  destruct clear; [|discriminate].
  apply obind_Ret in H as (att & Hatt & H).
  destruct att; [discriminate|].
  repeat split; auto; try lia.
  exists rk. repeat split; auto.
  - unfold type_is in Hrt. destruct (type rk); simpl in Hrt; congruence.
  - unfold color_is in Hrc. destruct (color rk), turn; simpl in Hrc; congruence.
  - apply negb_true_iff in Hrm. assumption.
Qed.

Lemma color_is_eq (p : Piece) (col : Color) : color_is p col = true <-> color p = col.
Proof. unfold color_is. destruct (color p), col; simpl; split; congruence. Qed.

Lemma type_is_eq (p : Piece) (t : PieceType) : type_is p t = true <-> type p = t.
Proof. unfold type_is. destruct (type p), t; simpl; split; congruence. Qed.

(** After a castling the only king of the color stands on the destination. *)
Lemma castled_king_unique (board nb : Board) (a b : Position) (turn : Color) (p rk : Piece) :
  applyMove board (mkMove a b) None = Ret nb ->
  0 <= pos_r a < 8 -> 0 <= pos_c a < 8 ->
  get board (pos_r a) (pos_c a) = Ret (Obj p) -> type p = King -> color p = turn ->
  Z.abs (pos_c b - pos_c a) = 2 ->
  get board (pos_r a) (if pos_c a <? pos_c b then 7 else 0) = Ret (Obj rk) -> type rk = Rook ->
  atMostOneKing board turn ->
  forall r c, 0 <= r < 8 -> 0 <= c < 8 -> isKingAt nb turn r c = true ->
    r = pos_r b /\ c = pos_c b.
Proof.
  intros Happ Har Hac Hp Hty Hcol Hdx Hrook Hrty Huniq r c Hr Hc Hk.
  destruct (applyMove_get board nb (mkMove a b) None r c Happ) as (x & Hx & Hget).
  cbn [from to] in *.
  rewrite get_cloneBoard in Hx by lia. rewrite Hp in Hx. injection Hx as <-.
  assert (Hcast : isCastling board (mkMove a b) = true).
  { unfold isCastling. cbn [from to]. rewrite get_cloneBoard by lia. rewrite Hp.
    simpl. rewrite (proj2 (type_is_eq (setMoved p) King) Hty), Hdx. reflexivity. }
  rewrite Hcast in Hget. cbn [andb] in Hget.
  unfold isKingAt in Hk.
  destruct ((pos_r a =? r) && (pos_c a =? c)) eqn:Efrom;
    [rewrite Hget in Hk; discriminate|].
  destruct ((pos_r b =? r) && (pos_c b =? c)) eqn:Eto.
  { apply andb_true_iff in Eto as [E1 E2]. apply Z.eqb_eq in E1, E2. auto. }
  destruct ((pos_r a =? r) && ((if pos_c a <? pos_c b then 7 else 0) =? c)) eqn:Erf;
    [rewrite Hget in Hk; discriminate|].
  destruct ((pos_r a =? r) && ((if pos_c a <? pos_c b then 5 else 3) =? c)) eqn:Ert.
  { rewrite get_cloneBoard in Hget by (destruct (pos_c a <? pos_c b); lia).
    rewrite Hrook in Hget. cbn [obind movedCopy] in Hget. rewrite Hget in Hk.
    simpl in Hk. apply andb_true_iff in Hk as [_ Hk].
    apply type_is_eq in Hk. simpl in Hk. congruence. }
  rewrite get_cloneBoard in Hget by lia. rewrite Hget in Hk.
  assert (Hka : isKingAt board turn (pos_r a) (pos_c a) = true).
  { unfold isKingAt. rewrite Hp. simpl.
    rewrite (proj2 (color_is_eq p turn) Hcol), (proj2 (type_is_eq p King) Hty). reflexivity. }
  destruct (Huniq r c (pos_r a) (pos_c a) Hr Hc Har Hac Hk Hka) as [-> ->].
  rewrite !Z.eqb_refl in Efrom. discriminate.
Qed.

(** A scan for the king that returns has read the eight rows. *)
Lemma findKing_rows (board : Board) (col : Color) (rs : list Z) :
  forall k0 k, findKing board col k0 rs = Ret k ->
    forall r, r ∈ rs -> is_Some (row_at board r).
Proof.
  induction rs as [|r0 rs IH]; intros k0 k H r Hr; [inversion Hr|].
  cbn [findKing] in H. apply obind_Ret in H as (found & Hfound & H).
  apply elem_of_cons in Hr as [-> | Hr]; [|exact (IH _ _ H r Hr)].
  change (zrange 0 7) with (0 :: zrange 1 7) in Hfound. cbn [findKingInRow] in Hfound.
  apply obind_Ret in Hfound as (x & Hx & _). unfold get in Hx.
  destruct (row_at board r0); [eauto | discriminate].
Qed.

Lemma isInCheck_readable (board : Board) (col : Color) (v : bool) :
  isInCheck board col = Ret v -> readable board.
Proof.
  unfold isInCheck. intros H. apply obind_Ret in H as (k & Hk & _).
  destruct (findKing_rows board col _ _ _ Hk 7) as [row Hrow].
  - apply elem_of_zrange. lia.
  - unfold row_at in Hrow. simpl in Hrow. apply lookup_lt_Some in Hrow.
    unfold readable. simpl in Hrow. lia.
Qed.

(** The two boards of a castling and the square the king reaches. *)

Lemma orM_false (x y : outcome bool) :
  orM x y = Ret false <-> x = Ret false /\ y = Ret false.
Proof.
  unfold orM. split.
  - destruct x as [[]| |]; simpl; intros H; try discriminate. auto.
  - intros [-> ->]. reflexivity.
Qed.

Lemma anyM_false {A : Type} (f : A -> outcome bool) (l : list A) :
  anyM f l = Ret false <-> forall x, x ∈ l -> f x = Ret false.
Proof.
  induction l as [|y l IH]; simpl.
  - split; [intros _ x Hx; inversion Hx | reflexivity].
  - rewrite orM_false, IH. split.
    + intros [H1 H2] x Hx. apply elem_of_cons in Hx as [-> | Hx]; auto.
    + intros H. split; [apply H; left | intros x Hx; apply H; right; assumption].
Qed.

Lemma anyM_ext {A : Type} (f g : A -> outcome bool) (l : list A) :
  (forall x, x ∈ l -> f x = g x) -> anyM f l = anyM g l.
Proof.
  induction l as [|y l IH]; simpl; intros H; [reflexivity|].
  rewrite (H y) by left. rewrite IH; [reflexivity|].
  intros x Hx. apply H. right. assumption.
Qed.

Section OffRow.
Variables (b1 b2 : Board) (col : Color) (pos : Position).
Hypothesis same : forall r c, r <> pos_r pos -> 0 <= c -> get b1 r c = get b2 r c.

Lemma pawnAttack_off_row : 0 <= pos_c pos -> pawnAttack b1 pos col = pawnAttack b2 pos col.
Proof.
  intros Hc. unfold pawnAttack.
  destruct (_ && _); [|reflexivity].
  rewrite (same _ (pos_c pos + 1)) by (destruct (Color_eqb col white); lia).
  destruct (Z.leb_spec 0 (pos_c pos - 1)); [|reflexivity].
  rewrite (same _ (pos_c pos - 1)) by (destruct (Color_eqb col white); lia).
  reflexivity.
Qed.

Lemma knightAttack_off_row : knightAttack b1 pos col = knightAttack b2 pos col.
Proof.
  unfold knightAttack. apply anyM_ext. intros m Hm.
  destruct (inBoard (pos_r m) (pos_c m)) eqn:Hin; [|reflexivity].
  apply inBoard_spec in Hin. rewrite same; [reflexivity | | lia].
  unfold knightMoves in Hm.
  repeat (apply elem_of_cons in Hm as [-> | Hm]; [simpl; lia|]).
  inversion Hm.
Qed.

Lemma kingAttack_off_row :
  (forall c, 0 <= c < 8 -> c <> pos_c pos ->
     exists x y, get b1 (pos_r pos) c = Ret x /\ get b2 (pos_r pos) c = Ret y /\
                 is_piece x col King = is_piece y col King) ->
  kingAttack b1 pos col = kingAttack b2 pos col.
Proof.
  intros Hrow. unfold kingAttack. apply anyM_ext. intros r _.
  apply anyM_ext. intros c Hc. apply elem_of_zrange in Hc.
  destruct (Z.eqb_spec r (pos_r pos)) as [-> | Hr]; cbn [andb].
  - destruct (Z.eqb_spec c (pos_c pos)) as [-> | Hne]; [reflexivity|].
    destruct (Hrow c ltac:(lia) Hne) as (x & y & -> & -> & E). simpl. rewrite E. reflexivity.
  - rewrite same by lia. reflexivity.
Qed.

(** A ray that leaves the row of its start reads the other rows only. *)
Lemma ray_off_row (dr dc : Z) (types : list PieceType) (fuel : nat) :
  forall r c, 0 < (r - pos_r pos) * dr ->
    ray fuel b1 col dr dc types r c = ray fuel b2 col dr dc types r c.
Proof.
  induction fuel as [|fuel IH]; intros r c Hside; simpl; [reflexivity|].
  destruct (inBoard r c) eqn:Hin; [|reflexivity].
  apply inBoard_spec in Hin. rewrite same by nia.
  destruct (get b2 r c) as [x| |]; simpl; try reflexivity.
  destruct x; try reflexivity; apply IH; nia.
Qed.

End OffRow.

(** Along a row, a ray that meets empty squares and then a piece of the
    other color finds no attacker. *)
Lemma ray_blocked (board : Board) (col : Color) (dc : Z) (types : list PieceType)
    (row : Z) (q : Piece) :
  color q <> col ->
  forall (n fuel : nat) (c : Z), (n < fuel)%nat ->
    (forall i, 0 <= i < Z.of_nat n ->
       exists x, get board row (c + i * dc) = Ret x /\ truthy x = false) ->
    get board row (c + Z.of_nat n * dc) = Ret (Obj q) ->
    ray fuel board col 0 dc types row c = Ret false.
Proof.
  intros Hq. induction n as [|n IH]; intros fuel c Hf Hempty Hend;
    (destruct fuel as [|fuel]; [lia|]); simpl;
    (destruct (inBoard row c); [|reflexivity]).
  - rewrite Z.mul_0_l, Z.add_0_r in Hend. rewrite Hend. simpl.
    destruct (color_is q col) eqn:E; [|reflexivity].
    apply color_is_eq in E. contradiction.
  - destruct (Hempty 0 ltac:(lia)) as (x & Hx & Htx).
    rewrite Z.mul_0_l, Z.add_0_r in Hx. rewrite Hx. simpl.
    assert (Hnext : ray fuel board col 0 dc types (row + 0) (c + dc) = Ret false).
    { rewrite Z.add_0_r. apply IH; [lia | |].
      - intros i Hi. destruct (Hempty (i + 1) ltac:(lia)) as (y & Hy & Hty).
        exists y. split; [|assumption]. rewrite <- Hy. f_equal. lia.
      - rewrite <- Hend. f_equal. lia. }
    destruct x; try discriminate; assumption.
Qed.

Lemma isCastling_king (board : Board) (a b : Position) (p : Piece) :
  0 <= pos_c a -> get board (pos_r a) (pos_c a) = Ret (Obj p) -> type p = King ->
  Z.abs (pos_c b - pos_c a) = 2 -> isCastling board (mkMove a b) = true.
Proof.
  intros Hc Hp Hty Hdx. unfold isCastling. cbn [from to].
  rewrite get_cloneBoard by lia. rewrite Hp. simpl.
  rewrite (proj2 (type_is_eq (setMoved p) King) Hty), Hdx. reflexivity.
Qed.

Lemma opponentOf_neq (col : Color) : col <> opponentOf col.
Proof. destruct col; discriminate. Qed.

Lemma is_piece_own (p : Piece) (col : Color) (t : PieceType) :
  color p = col -> is_piece (Obj p) (opponentOf col) t = false.
Proof.
  intros <-. simpl. destruct (color_is p (opponentOf (color p))) eqn:E; [|reflexivity].
  apply color_is_eq in E. destruct (opponentOf_neq _ E).
Qed.

Lemma is_piece_empty (x : cell) (col : Color) (t : PieceType) :
  truthy x = false -> is_piece x col t = false.
Proof. destruct x; simpl; congruence. Qed.

(** What attacks the square a castling king reaches, before the move,
    attacks it after the move. *)
Lemma castling_destination (board nb : Board) (a b : Position) (turn : Color) (p rk : Piece) :
  readable board ->
  applyMove board (mkMove a b) None = Ret nb ->
  0 <= pos_r a < 8 -> 0 <= pos_c a < 8 ->
  pos_r b = pos_r a -> Z.abs (pos_c b - pos_c a) = 2 ->
  get board (pos_r a) (pos_c a) = Ret (Obj p) -> type p = King -> color p = turn ->
  get board (pos_r a) (if pos_c a <? pos_c b then 7 else 0) = Ret (Obj rk) ->
  color rk = turn ->
  0 < pos_c b < 7 ->
  (forall c, pos_c a < c < (if pos_c a <? pos_c b then 7 else 0)
             \/ (if pos_c a <? pos_c b then 7 else 0) < c < pos_c a ->
     exists x, get board (pos_r a) c = Ret x /\ truthy x = false) ->
  isSquareUnderAttack nb b (opponentOf turn) = Ret false ->
  isSquareUnderAttack board b (opponentOf turn) = Ret false.
Proof.
  intros Hb Happ Har Hac Hrow Hdx Hp Hty Hcol Hrk Hrcol Hbc Hclear Hatt.
  assert (Hcast : isCastling board (mkMove a b) = true)
    by (apply (isCastling_king board a b p); auto; lia).
  assert (Hsame : forall r c, r <> pos_r b -> 0 <= c -> get board r c = get nb r c).
  { intros r c Hr Hc.
    destruct (applyMove_get board nb (mkMove a b) None r c Happ) as (x & _ & ->).
    cbn [from to]. rewrite Hrow.
    rewrite (proj2 (Z.eqb_neq (pos_r a) r)) by lia.
    rewrite !andb_false_r. cbn [andb]. rewrite get_cloneBoard by lia. reflexivity. }
  assert (Hking : forall c, 0 <= c < 8 -> c <> pos_c b ->
            exists x y, get board (pos_r b) c = Ret x /\ get nb (pos_r b) c = Ret y /\
                        is_piece x (opponentOf turn) King = is_piece y (opponentOf turn) King).
  { intros c Hc Hne.
    destruct (applyMove_get board nb (mkMove a b) None (pos_r b) c Happ) as (x & Hx & Hget).
    cbn [from to] in Hx, Hget. rewrite Hcast, Hrow, Z.eqb_refl in Hget. cbn [andb] in Hget.
    rewrite (proj2 (Z.eqb_neq (pos_c b) c)) in Hget by lia. rewrite Hrow.
    destruct (Z.eqb_spec (pos_c a) c) as [<- | Hna].
    { exists (Obj p), Null. repeat split; auto. apply is_piece_own. assumption. }
    destruct (Z.eqb_spec (if pos_c a <? pos_c b then 7 else 0) c) as [<- | Hnr].
    { exists (Obj rk), Null. repeat split; auto. apply is_piece_own. assumption. }
    destruct (Z.eqb_spec (if pos_c a <? pos_c b then 5 else 3) c) as [<- | Hnt].
    - rewrite get_cloneBoard in Hget by (destruct (pos_c a <? pos_c b); lia).
      rewrite Hrk in Hget. cbn [obind movedCopy] in Hget.
      destruct (Hclear (if pos_c a <? pos_c b then 5 else 3)) as (x0 & Hx0 & Htx0).
      { destruct (Z.ltb_spec (pos_c a) (pos_c b)); lia. }
      exists x0, (Obj (setMoved rk)). repeat split; auto.
      rewrite (is_piece_empty x0) by assumption. symmetry. apply is_piece_own. assumption.
    - rewrite get_cloneBoard in Hget by lia.
      destruct (get_readable board (pos_r a) c Hb Har) as [x0 Hx0].
      exists x0, x0. rewrite Hget. auto. }
  unfold isSquareUnderAttack in *.
  apply orM_false in Hatt as [Hpawn Hatt]. apply orM_false in Hatt as [Hknight Hatt].
  apply orM_false in Hatt as [Hadj Hslide].
  rewrite (pawnAttack_off_row board nb _ b Hsame), Hpawn by lia.
  rewrite (knightAttack_off_row board nb _ b Hsame), Hknight.
  rewrite (kingAttack_off_row board nb _ b Hsame Hking), Hadj.
  cbn [orM obind].
  unfold slidingAttack in *. rewrite anyM_false in Hslide. apply anyM_false.
  intros d Hd. specialize (Hslide d Hd). unfold directions in Hd.
  assert (Hown : forall q, color q = turn -> color q <> opponentOf turn)
    by (intros q <-; apply opponentOf_neq).
  repeat (apply elem_of_cons in Hd as [-> | Hd]);
    try (rewrite (ray_off_row board nb _ b Hsame) by lia; exact Hslide);
    [ | | inversion Hd ]; rewrite Z.add_0_r, Hrow.
  - (* towards column 0 *)
    destruct (Z.ltb_spec (pos_c a) (pos_c b)) as [Hks | Hqs].
    + apply (ray_blocked board _ (-1) _ (pos_r a) p (Hown p Hcol) 1); [lia | |].
      * intros i Hi. apply Hclear. lia.
      * rewrite <- Hp. f_equal. lia.
    + apply (ray_blocked board _ (-1) _ (pos_r a) rk (Hown rk Hrcol)
               (Z.to_nat (pos_c b - 1))); [lia | |].
      * intros i Hi. apply Hclear. lia.
      * rewrite <- Hrk. f_equal. lia.
  - (* towards column 7 *)
    destruct (Z.ltb_spec (pos_c a) (pos_c b)) as [Hks | Hqs].
    + apply (ray_blocked board _ 1 _ (pos_r a) rk (Hown rk Hrcol)
               (Z.to_nat (6 - pos_c b))); [lia | |].
      * intros i Hi. apply Hclear. lia.
      * rewrite <- Hrk. f_equal. lia.
    + apply (ray_blocked board _ 1 _ (pos_r a) p (Hown p Hcol) 1); [lia | |].
      * intros i Hi. apply Hclear. lia.
      * rewrite <- Hp. f_equal. lia.
Qed.

(** C6, as amended. [isValidMove], with the safety check on, accepts a move of a king
    over two squares only along its row and two columns aside, when the
    king has not moved, the rook of the side exists with the king's color
    and has not moved, the squares strictly between king and rook are
    empty, and the opponent attacks neither the king's square, nor the
    square it passes, nor the square it reaches, be it on the board
    before the move or on the board after it.  The king stands on one of
    the 64 squares and is the only king of its color there. *)
Theorem castling_accepted_only_if (board : Board) (a b : Position) (turn : Color) (p : Piece) :
  atMostOneKing board turn ->
  0 <= pos_r a < 8 -> 0 <= pos_c a < 8 ->
  get board (pos_r a) (pos_c a) = Ret (Obj p) -> type p = King ->
  Z.abs (pos_c b - pos_c a) = 2 \/ Z.abs (pos_r b - pos_r a) = 2 ->
  isValidMove board a b turn true = Ret true ->
  let rookCol := if pos_c a <? pos_c b then 7 else 0 in
  let midCol := pos_c a + (if pos_c a <? pos_c b then 1 else -1) in
  pos_r b = pos_r a /\ Z.abs (pos_c b - pos_c a) = 2 /\
  moved p = false /\
  (exists rk, get board (pos_r a) rookCol = Ret (Obj rk) /\
              type rk = Rook /\ color rk = color p /\ moved rk = false) /\
  (forall c, pos_c a < c < rookCol \/ rookCol < c < pos_c a ->
     exists x, get board (pos_r a) c = Ret x /\ truthy x = false) /\
  isSquareUnderAttack board a (opponentOf turn) = Ret false /\
  isSquareUnderAttack board (mkPos (pos_r a) midCol) (opponentOf turn) = Ret false /\
  isSquareUnderAttack board b (opponentOf turn) = Ret false /\
  (exists nb, applyMove board (mkMove a b) None = Ret nb /\
              isSquareUnderAttack nb b (opponentOf turn) = Ret false).
Proof.
  intros Huniq Har Hac Hp Hty Htwo Hvalid rookCol midCol.
  destruct (isValidMove_safe board a b turn Hvalid) as (nb & Happ & Hsafe).
  unfold isValidMove in Hvalid. rewrite Hp in Hvalid. cbn [obind] in Hvalid.
  apply obind_Ret in Hvalid as (target & Ht & Hvalid).
  destruct (color_is p turn) eqn:Hcol; cbn [negb] in Hvalid; [|discriminate].
  apply color_is_eq in Hcol.
  destruct (match target with Obj t => _ | _ => false end) eqn:Hfriend; [discriminate|].
  apply obind_Ret in Hvalid as (g & Hg & Hvalid).
  unfold geometry in Hg. rewrite Hty in Hg.
  destruct g as [valid|[]]; [|discriminate].
  destruct valid; [|discriminate].
  destruct (kingValid_castling board p a b turn Htwo Hg)
    as (Hrow & Hdx & Hmv & Hchk & (rk & Hrk & Hrty & Hrcol & Hrmv) & Hclear & Hmid).
  assert (Hb : readable board) by (apply (isInCheck_readable board turn false Hchk)).
  assert (Hnb : readable nb)
    by (apply applyMove_length in Happ; unfold readable in *; lia).
  destruct (isInCheck_false_inv nb turn Hnb Hsafe) as (r' & c' & Hr' & Hc' & Hk' & Hatt').
  destruct (castled_king_unique board nb a b turn p rk Happ Har Hac Hp Hty Hcol Hdx
              Hrk Hrty Huniq r' c' Hr' Hc' Hk') as [-> ->].
  assert (Hdest : isSquareUnderAttack nb b (opponentOf turn) = Ret false)
    by (destruct b; assumption).
  assert (Hbc : 0 < pos_c b < 7).
  { destruct (Z.eq_dec (pos_c b) rookCol) as [E | E]; subst rookCol.
    - exfalso. rewrite Hrow, E, Hrk in Ht. injection Ht as <-.
      rewrite Hrcol, Hcol in Hfriend. destruct turn; discriminate.
    - destruct (Z.ltb_spec (pos_c a) (pos_c b)); lia. }
  pose proof (isPathClear_row board a _ Hclear) as Hempty.
  repeat split; auto.
  - exists rk. repeat split; auto. congruence.
  - destruct (isInCheck_false_inv board turn Hb Hchk) as (r & c & Hr & Hc & Hk & Hatt).
    assert (Hka : isKingAt board turn (pos_r a) (pos_c a) = true).
    { unfold isKingAt. rewrite Hp. simpl.
      rewrite (proj2 (color_is_eq p turn) Hcol), (proj2 (type_is_eq p King) Hty). reflexivity. }
    destruct (Huniq r c (pos_r a) (pos_c a) Hr Hc Har Hac Hk Hka) as [-> ->].
    destruct a. assumption.
  - apply (castling_destination board nb a b turn p rk); auto.
  - exists nb. auto.
Qed.

Lemma castling_accepted_only_if_witness :
  pos_r (mkPos 7 6) = pos_r (mkPos 7 4) /\
  isSquareUnderAttack castleBoard (mkPos 7 4) black = Ret false /\
  isSquareUnderAttack castleBoard (mkPos 7 5) black = Ret false /\
  isSquareUnderAttack castleBoard (mkPos 7 6) black = Ret false.
Proof.
  assert (Hu : atMostOneKing castleBoard white)
    by (apply atMostOneKing_count; vm_compute; lia).
  assert (Hv : isValidMove castleBoard (mkPos 7 4) (mkPos 7 6) white true = Ret true)
    by (vm_compute; reflexivity).
  pose proof (castling_accepted_only_if castleBoard (mkPos 7 4) (mkPos 7 6) white
                (mkPiece King white (Some false)) Hu ltac:(simpl; lia) ltac:(simpl; lia)
                eq_refl eq_refl ltac:(left; reflexivity) Hv) as H.
  cbv zeta in H. destruct H as (H1 & _ & _ & _ & _ & H2 & H3 & H4 & _).
  exact (conj H1 (conj H2 (conj H3 H4))).
Defined.

(** C6, as stated for every board, fails when the color has two kings:
    [isInCheck] looks at the king it finds, here the one on a1, and the
    king on e1 castles out of the check given by the rook on e8. *)
Lemma castling_two_kings :
  isValidMove twoKingsBoard (mkPos 7 4) (mkPos 7 6) white true = Ret true /\
  isSquareUnderAttack twoKingsBoard (mkPos 7 4) black = Ret true.
Proof. split; vm_compute; reflexivity. Qed.

(** ** Search: the move returned *)

Lemma getAllMoves_total (board : Board) (col : Color) :
  readable board -> exists ms, getAllMoves board col = Ret ms.
Proof.
  intros Hb. unfold getAllMoves. apply flatMapM_total. intros [r c] Ha.
  apply elem_of_allSquares in Ha as [Hr Hc]. unfold movesFrom. cbn [pos_r pos_c].
  destruct (get_readable board r c Hb Hr) as [x ->]. cbn [obind].
  destruct (cell_color_is x col); [|eauto].
  destruct (filterM_total (fun b => isValidMove board (mkPos r c) b col true) allSquares)
    as [targets ->]; [|cbn [obind]; eauto].
  intros [r' c'] Hb'. apply elem_of_allSquares in Hb' as [Hr' Hc'].
  apply isValidMove_total; assumption.
Qed.

Lemma evaluateLoop_fin (board : Board) (sqs : list Position) :
  readable board -> noBare board ->
  (forall s, s ∈ sqs -> 0 <= pos_r s < 8 /\ 0 <= pos_c s < 8) ->
  forall z, exists z', evaluateLoop board (Fin z) sqs = Ret (Fin z').
Proof.
  intros Hb Hnb. induction sqs as [|s sqs IH]; intros Hin z; simpl; [eauto|].
  destruct (Hin s ltac:(left)) as [Hr Hc].
  destruct (get_readable board (pos_r s) (pos_c s) Hb Hr) as [x Hx]. rewrite Hx. cbn [obind].
  assert (Hin' : forall s', s' ∈ sqs -> 0 <= pos_r s' < 8 /\ 0 <= pos_c s' < 8)
    by (intros s' Hs'; apply Hin; right; assumption).
  destruct x as [| |p|]; simpl; try apply (IH Hin').
  exfalso. exact (Hnb _ _ Hr Hc Hx).
Qed.

Lemma evaluateBoard_fin (board : Board) :
  readable board -> noBare board -> exists z, evaluateBoard board = Ret (Fin z).
Proof.
  intros Hb Hnb. apply evaluateLoop_fin; try assumption.
  intros [r c] Hs. apply elem_of_allSquares in Hs. exact Hs.
Qed.

(** The origin of an accepted move holds a piece of the color. *)
Lemma isValidMove_origin (board : Board) (a b : Position) (turn : Color) (cs : bool) :
  isValidMove board a b turn cs = Ret true ->
  exists p, get board (pos_r a) (pos_c a) = Ret (Obj p) /\ color p = turn.
Proof.
  unfold isValidMove. intros H.
  apply obind_Ret in H as (x & Hx & H).
  apply obind_Ret in H as (target & Ht & H).
  destruct x as [| |p|]; try discriminate.
  destruct (color_is p turn) eqn:Hc; [|discriminate].
  exists p. split; [assumption | apply color_is_eq; assumption].
Qed.

(** The geometry step of an accepted move. *)
Lemma isValidMove_geometry (board : Board) (a b : Position) (turn : Color) (cs : bool) (p : Piece) :
  get board (pos_r a) (pos_c a) = Ret (Obj p) ->
  isValidMove board a b turn cs = Ret true ->
  exists target, geometry board p a b target turn cs = Ret (inl true).
Proof.
  unfold isValidMove. intros Hp H. rewrite Hp in H. cbn [obind] in H.
  apply obind_Ret in H as (target & Ht & H).
  destruct (negb (color_is p turn)); [discriminate|].
  destruct (match target with Obj t => _ | _ => false end); [discriminate|].
  apply obind_Ret in H as (g & Hg & H).
  exists target. rewrite Hg. destruct g as [[|]|[]]; try discriminate. reflexivity.
Qed.

(** A move accepted by the validator leaves no object outside the
    interface on the board. *)
Lemma applyMove_noBare (board nb : Board) (a b : Position) (turn : Color) :
  noBare board ->
  0 <= pos_r a < 8 -> 0 <= pos_c a < 8 ->
  isValidMove board a b turn true = Ret true ->
  applyMove board (mkMove a b) None = Ret nb ->
  noBare nb.
Proof.
  intros Hnb Har Hac Hv Happ r c Hr Hc Hget.
  destruct (isValidMove_origin _ _ _ _ _ Hv) as (p & Hp & Hcol).
  destruct (isValidMove_geometry _ _ _ _ _ _ Hp Hv) as (target & Hg).
  destruct (applyMove_get board nb (mkMove a b) None r c Happ) as (x & Hx & Hcell).
  cbn [from to] in *.
  rewrite get_cloneBoard in Hx by lia. rewrite Hp in Hx. injection Hx as <-.
  rewrite Hget in Hcell.
  destruct ((pos_r a =? r) && (pos_c a =? c)); [discriminate|].
  destruct ((pos_r b =? r) && (pos_c b =? c)).
  { simpl in Hcell. destruct (type_is (setMoved p) Pawn && _); discriminate. }
  unfold isCastling in Hcell. cbn [from to] in Hcell.
  rewrite get_cloneBoard in Hcell by lia. rewrite Hp in Hcell.
  destruct (cell_type_is (movedCopy (Obj p)) King && (Z.abs (pos_c b - pos_c a) =? 2)) eqn:Hcast;
    cbn [andb] in Hcell.
  - apply andb_true_iff in Hcast as [Hk Hdx]. simpl in Hk.
    apply type_is_eq in Hk. simpl in Hk. apply Z.eqb_eq in Hdx.
    unfold geometry in Hg. rewrite Hk in Hg.
    destruct (kingValid_castling board p a b turn (or_introl Hdx) Hg)
      as (_ & _ & _ & _ & (rk & Hrk & _) & _).
    destruct ((pos_r a =? r) && ((if pos_c a <? pos_c b then 7 else 0) =? c)); [discriminate|].
    destruct ((pos_r a =? r) && ((if pos_c a <? pos_c b then 5 else 3) =? c)).
    + rewrite get_cloneBoard in Hcell by (destruct (pos_c a <? pos_c b); lia).
      rewrite Hrk in Hcell. discriminate.
    + rewrite get_cloneBoard in Hcell by lia. exact (Hnb _ _ Hr Hc (eq_sym Hcell)).
  - rewrite get_cloneBoard in Hcell by lia. exact (Hnb _ _ Hr Hc (eq_sym Hcell)).
Qed.

Lemma num_max_fin (a b : num) : a = NegInf \/ isFin a -> isFin b -> isFin (num_max a b).
Proof.
  intros [-> | [x ->]] [y ->]; simpl; [exists y; reflexivity|].
  destruct (x <=? y); eexists; reflexivity.
Qed.

Lemma num_min_fin (a b : num) : a = PosInf \/ isFin a -> isFin b -> isFin (num_min a b).
Proof.
  intros [-> | [x ->]] [y ->]; simpl; [exists y; reflexivity|].
  destruct (x <=? y); eexists; reflexivity.
Qed.

Section SearchLoops.

Variable rec : Board -> num -> num -> outcome num.
Variable board : Board.

Lemma childrenFin_cons (m : Move) (moves : list Move) :
  childrenFin rec board (m :: moves) ->
  (exists nb, applyMove board m None = Ret nb /\
              forall al be, exists z, rec nb al be = Ret (Fin z)) /\
  childrenFin rec board moves.
Proof.
  intros H. split; [apply H; left|]. intros m' Hm'. apply H. right. assumption.
Qed.

Lemma maxLoop_fin (moves : list Move) :
  childrenFin rec board moves ->
  forall maxEval alpha beta,
    maxEval = NegInf \/ isFin maxEval ->
    exists res, maxLoop rec board moves maxEval alpha beta = Ret res /\
                (moves <> [] \/ isFin maxEval -> isFin res).
Proof.
  induction moves as [|m moves IH]; intros Hch maxEval alpha beta Hmax; cbn [maxLoop].
  - exists maxEval. split; [reflexivity|]. intros [H | H]; [congruence | assumption].
  - apply childrenFin_cons in Hch as [(nb & -> & Hrec) Hch]. cbn [obind].
    destruct (Hrec alpha beta) as [z ->]. cbn [obind]. cbv zeta.
    assert (Hfin : isFin (num_max maxEval (Fin z)))
      by (apply num_max_fin; [assumption | exists z; reflexivity]).
    destruct (num_le beta (num_max alpha (Fin z))).
    + eexists. split; [reflexivity | auto].
    + destruct (IH Hch (num_max maxEval (Fin z)) (num_max alpha (Fin z)) beta (or_intror Hfin))
        as (res & -> & Hres).
      exists res. split; [reflexivity | auto].
Qed.

Lemma minLoop_fin (moves : list Move) :
  childrenFin rec board moves ->
  forall minEval alpha beta,
    minEval = PosInf \/ isFin minEval ->
    exists res, minLoop rec board moves minEval alpha beta = Ret res /\
                (moves <> [] \/ isFin minEval -> isFin res).
Proof.
  induction moves as [|m moves IH]; intros Hch minEval alpha beta Hmin; cbn [minLoop].
  - exists minEval. split; [reflexivity|]. intros [H | H]; [congruence | assumption].
  - apply childrenFin_cons in Hch as [(nb & -> & Hrec) Hch]. cbn [obind].
    destruct (Hrec alpha beta) as [z ->]. cbn [obind]. cbv zeta.
    assert (Hfin : isFin (num_min minEval (Fin z)))
      by (apply num_min_fin; [assumption | exists z; reflexivity]).
    destruct (num_le (num_min beta (Fin z)) alpha).
    + eexists. split; [reflexivity | auto].
    + destruct (IH Hch (num_min minEval (Fin z)) alpha (num_min beta (Fin z)) (or_intror Hfin))
        as (res & -> & Hres).
      exists res. split; [reflexivity | auto].
Qed.

(** The move returned by the loop of [getBestMove] is one of the moves it
    ran over, or the one it started with. *)
Lemma bestLoop_elem (moves : list Move) :
  forall bestMove maxVal alpha m,
    bestLoop rec board moves bestMove maxVal alpha = Ret (Some m) ->
    m ∈ moves \/ bestMove = Some m.
Proof.
  induction moves as [|m0 moves IH]; intros bestMove maxVal alpha m H; cbn [bestLoop] in H.
  - injection H as ->. right. reflexivity.
  - apply obind_Ret in H as (nb & Hnb & H).
    apply obind_Ret in H as (val & Hval & H). cbv zeta in H.
    destruct (num_le PosInf (num_max alpha val)).
    + injection H as H. destruct (num_gt val maxVal).
      * injection H as ->. left. left.
      * right. assumption.
    + apply IH in H as [H | H]; [left; right; assumption|].
      destruct (num_gt val maxVal); [injection H as ->; left; left | right; assumption].
Qed.

(** With integer scores below, the loop never stops early and returns a
    move as soon as the list has one. *)
Lemma bestLoop_some (moves : list Move) :
  childrenFin rec board moves ->
  forall bestMove maxVal alpha,
    (bestMove = None /\ maxVal = NegInf /\ alpha = NegInf) \/
    (is_Some bestMove /\ isFin maxVal /\ isFin alpha) ->
    exists res, bestLoop rec board moves bestMove maxVal alpha = Ret res /\
                (moves <> [] \/ is_Some bestMove -> is_Some res).
Proof.
  induction moves as [|m moves IH]; intros Hch bestMove maxVal alpha Hst; cbn [bestLoop].
  - exists bestMove. split; [reflexivity|]. intros [H | H]; [congruence | assumption].
  - apply childrenFin_cons in Hch as [(nb & -> & Hrec) Hch]. cbn [obind].
    destruct (Hrec alpha PosInf) as [z ->]. cbn [obind]. cbv zeta.
    assert (Hal : isFin (num_max alpha (Fin z))).
    { apply num_max_fin; [|exists z; reflexivity].
      destruct Hst as [(_ & _ & ->) | (_ & _ & H)]; auto. }
    destruct Hal as [z' Hal]. rewrite Hal. cbn [num_le].
    destruct (IH Hch (if num_gt (Fin z) maxVal then Some m else bestMove)
                (if num_gt (Fin z) maxVal then Fin z else maxVal) (Fin z'))
      as (res & -> & Hres).
    + right. destruct Hst as [(-> & -> & _) | (Hs & Hm & _)].
      * simpl. repeat split; eexists; reflexivity.
      * destruct (num_gt (Fin z) maxVal); repeat split; eauto; eexists; reflexivity.
    + exists res. split; [reflexivity|]. intros _. apply Hres. right.
      destruct Hst as [(-> & -> & _) | (Hs & _ & _)].
      * simpl. eexists; reflexivity.
      * destruct (num_gt (Fin z) maxVal); [eexists; reflexivity | assumption].
Qed.

End SearchLoops.

(** The moves of the generator can be applied, and keep the board within
    the data model. *)
Lemma getAllMoves_children (board : Board) (col : Color) (ms : list Move) (m : Move) :
  readable board -> noBare board ->
  getAllMoves board col = Ret ms -> m ∈ ms ->
  exists nb, applyMove board m None = Ret nb /\ readable nb /\ noBare nb.
Proof.
  intros Hb Hnb Hms Hm.
  destruct (getAllMoves_elem _ _ _ _ Hms Hm) as (Hv & Hfrom & Hto & _).
  destruct m as [[r c] [r' c']]. cbn [from to] in *.
  apply elem_of_allSquares in Hfrom as [Hr Hc]. apply elem_of_allSquares in Hto as [Hr' Hc'].
  destruct (applyMove_total board (mkMove (mkPos r c) (mkPos r' c')) None Hb Hr Hr')
    as (nb & Happ & Hrd).
  exists nb. repeat split; try assumption.
  eapply (applyMove_noBare board nb (mkPos r c) (mkPos r' c') col); eauto.
Qed.

(** On a board of the data model the search returns an integer. *)
Lemma minimax_fin (depth : nat) :
  forall (board : Board) (alpha beta : num) (isMaximizing : bool),
    readable board -> noBare board ->
    exists z, minimax board depth alpha beta isMaximizing = Ret (Fin z).
Proof.
  induction depth as [|d IH]; intros board alpha beta isMaximizing Hb Hnb.
  - simpl. apply evaluateBoard_fin; assumption.
  - rewrite minimax_unfold. cbv zeta.
    destruct (getAllMoves_total board (if isMaximizing then black else white) Hb) as [ms Hms].
    rewrite Hms. cbn [obind].
    assert (Hch : forall b', childrenFin (fun b al be => minimax b d al be b') board ms).
    { intros b' m Hm.
      destruct (getAllMoves_children board _ ms m Hb Hnb Hms Hm) as (nb & Happ & Hrd & Hnb').
      exists nb. split; [assumption|]. intros al be. apply IH; assumption. }
    destruct ms as [|m ms].
    + destruct (isInCheck_total board (if isMaximizing then black else white) Hb) as [chk ->].
      cbn [obind]. destruct chk, isMaximizing; eexists; reflexivity.
    + destruct isMaximizing.
      * destruct (maxLoop_fin _ board (m :: ms) (Hch false) NegInf alpha beta (or_introl eq_refl))
          as (res & -> & Hres).
        destruct Hres as [z ->]; [left; discriminate|]. eauto.
      * destruct (minLoop_fin _ board (m :: ms) (Hch true) PosInf alpha beta (or_introl eq_refl))
          as (res & -> & Hres).
        destruct Hres as [z ->]; [left; discriminate|]. eauto.
Qed.

Lemma cell_color_is_Obj (x : cell) (col : Color) :
  cell_color_is x col = true -> exists p, x = Obj p /\ color p = col.
Proof.
  destruct x as [| |p|]; simpl; try discriminate.
  intros H. exists p. split; [reflexivity | apply color_is_eq; assumption].
Qed.

(** Checking the sixty-four squares decides [noBare]. *)
Lemma noBare_check (board : Board) :
  forallb (fun s => match get board (pos_r s) (pos_c s) with
                    | Ret Bare => false
                    | _ => true
                    end) allSquares = true ->
  noBare board.
Proof.
  intros H r c Hr Hc Hget. rewrite forallb_forall in H.
  specialize (H (mkPos r c)). cbn [pos_r pos_c] in H. rewrite Hget in H.
  assert (false = true); [|discriminate].
  apply H. apply list_elem_of_In, elem_of_allSquares. auto.
Qed.

Section BestMove.

(** The order in which the random comparator leaves the moves. *)
Variable shuffle : list Move -> list Move.
Hypothesis shuffle_perm : forall l, Permutation l (shuffle l).

Lemma shuffle_elem (l : list Move) (m : Move) : m ∈ shuffle l -> m ∈ l.
Proof.
  intros H. apply list_elem_of_In. apply list_elem_of_In in H.
  revert H. apply Permutation_in. symmetry. apply shuffle_perm.
Qed.

Lemma getBestMove_unfold (board : Board) (d : nat) :
  getBestMove shuffle board (S d) =
  let* moves := getAllMoves board black in
  match moves with
  | [] => Ret None
  | _ => bestLoop (fun b al be => minimax b d al be false) board (shuffle moves)
                  None NegInf NegInf
  end.
Proof. reflexivity. Qed.

(** C4. On a board of the data model and for every depth from 1 on,
    [getBestMove] returns none exactly when black has no legal move, and
    otherwise returns a move of the list [getAllMoves board black],
    whatever the order the shuffle leaves. *)
Theorem getBestMove_none_iff_no_move (board : Board) (depth : nat) :
  readable board -> noBare board -> (1 <= depth)%nat ->
  exists moves res,
    getAllMoves board black = Ret moves /\
    getBestMove shuffle board depth = Ret res /\
    (res = None <-> moves = []) /\
    (forall m, res = Some m -> m ∈ moves).
Proof.
  intros Hb Hnb Hd. destruct depth as [|d]; [lia|].
  destruct (getAllMoves_total board black Hb) as [moves Hms].
  exists moves. rewrite getBestMove_unfold, Hms. cbn [obind].
  destruct moves as [|m0 moves].
  { exists None. repeat split; auto. discriminate. }
  assert (Hch : childrenFin (fun b al be => minimax b d al be false) board
                  (shuffle (m0 :: moves))).
  { intros m Hm. apply shuffle_elem in Hm.
    destruct (getAllMoves_children board black _ m Hb Hnb Hms Hm) as (nb & Happ & Hrd & Hnb').
    exists nb. split; [assumption|]. intros al be. apply minimax_fin; assumption. }
  destruct (bestLoop_some _ board _ Hch None NegInf NegInf) as (res & Hres & Hsome);
    [left; auto|].
  exists res. split; [reflexivity|]. split; [assumption|].
  assert (Hne : shuffle (m0 :: moves) <> []).
  { intros E. pose proof (shuffle_perm (m0 :: moves)) as Hp. rewrite E in Hp.
    apply Permutation_sym, Permutation_nil in Hp. discriminate. }
  split.
  - split; [|discriminate]. intros ->.
    destruct (Hsome (or_introl Hne)) as [? ?]. discriminate.
  - intros m ->. apply bestLoop_elem in Hres as [Hin | ?]; [|discriminate].
    apply shuffle_elem. assumption.
Qed.


End BestMove.

Lemma getBestMove_none_iff_no_move_witness :
  exists moves res,
    getAllMoves stalemateBoard black = Ret moves /\
    getBestMove (@rev Move) stalemateBoard 2 = Ret res /\
    (res = None <-> moves = []) /\
    (forall m, res = Some m -> m ∈ moves).
Proof.
  apply (getBestMove_none_iff_no_move (@rev Move) (@Permutation_rev Move) stalemateBoard 2).
  - unfold readable. simpl. lia.
  - apply noBare_check. vm_compute. reflexivity.
  - lia.
Defined.


(** ** Castling and promotion applied *)

Lemma checkSuffix_total (board : Board) (col : Color) :
  readable board ->
  exists suffix, checkSuffix board col = Ret suffix /\
                 (suffix = "" \/ suffix = "+" \/ suffix = "#")%string /\
                 (isInCheck board col = Ret false -> suffix = ""%string).
Proof.
  intros Hb. unfold checkSuffix.
  destruct (isInCheck_total board col Hb) as [chk ->]. cbn [obind]. destruct chk.
  - destruct (getAllMoves_total board col Hb) as [ms ->]. cbn [obind].
    destruct ms; eexists; (split; [reflexivity|]); split; auto; discriminate.
  - eexists. split; [reflexivity|]. auto.
Qed.





(** A pawn that reaches row 0 or row 7 without a promotion type becomes a
    queen. *)
Lemma applyMove_promotes_to_queen (board nb : Board) (a b : Position) (p : Piece) :
  get board (pos_r a) (pos_c a) = Ret (Obj p) -> type p = Pawn -> 0 <= pos_c a ->
  pos_r b = 0 \/ pos_r b = 7 ->
  pos_r a <> pos_r b \/ pos_c a <> pos_c b ->
  applyMove board (mkMove a b) None = Ret nb ->
  get nb (pos_r b) (pos_c b) = Ret (Obj (mkPiece Queen (color p) (Some true))).
Proof.
  intros Hp Hty Hc Hlast Hne Happ.
  destruct (applyMove_get board nb (mkMove a b) None (pos_r b) (pos_c b) Happ) as (x & Hx & ->).
  cbn [from to] in *. rewrite get_cloneBoard in Hx by lia. rewrite Hp in Hx. injection Hx as <-.
  replace ((pos_r a =? pos_r b) && (pos_c a =? pos_c b)) with false
    by (symmetry; apply andb_false_iff; rewrite !Z.eqb_neq; assumption).
  rewrite !Z.eqb_refl. cbn [andb movedCopy promote to].
  rewrite (proj2 (type_is_eq p Pawn) Hty : type_is (setMoved p) Pawn = true).
  replace ((pos_r b =? 0) || (pos_r b =? 7)) with true
    by (symmetry; apply orb_true_iff; rewrite !Z.eqb_eq; assumption).
  reflexivity.
Qed.

(** C2 on the code: the white pawn of a7 moves to a8 with no promotion
    type; [applyMove] puts a queen on a8, and [getSan] writes [a8], with no
    [=Q]. *)
Theorem getSan_default_promotion_unmarked :
  exists nb, applyMove promotionBoard (mv 1 0 0 0) None = Ret nb /\
             get nb 0 0 = Ret (Obj (mkPiece Queen white (Some true))) /\
             getSan promotionBoard nb (mv 1 0 0 0) None = Ret "a8"%string /\
             getSan promotionBoard nb (mv 1 0 0 0) (Some Queen) = Ret "a8=Q"%string.
Proof.
  destruct (applyMove promotionBoard (mv 1 0 0 0) None) as [nb| |] eqn:E;
    [|vm_compute in E; discriminate E..].
  exists nb. split; [reflexivity|].
  vm_compute in E. injection E as <-.
  repeat split; vm_compute; reflexivity.
Qed.

(** * Properties of the store model *)

(** ** Arrays under a map of their elements *)

Lemma arr_map_get {A B : Type} `{Undef A} `{Undef B} (f : A -> B) (row : JSArray A) (i : Z) :
  f undef = undef -> arr_get (arr_map f row) i = f (arr_get row i).
Proof.
  intros Hf. unfold arr_get, arr_map. cbn [elems props].
  destruct (i <? 0).
  - rewrite lookup_fmap. destruct (props row !! i); simpl; congruence.
  - rewrite list_lookup_fmap. destruct (elems row !! Z.to_nat i); simpl; congruence.
Qed.

Lemma arr_map_set {A B : Type} `{Undef A} `{Undef B} (f : A -> B) (row : JSArray A)
    (i : Z) (v : A) :
  f undef = undef -> arr_map f (arr_set row i v) = arr_set (arr_map f row) i (f v).
Proof.
  intros Hf. unfold arr_set, arr_map. cbn [elems props]. rewrite length_fmap.
  destruct (i <? 0); cbn [elems props].
  - rewrite fmap_insert. reflexivity.
  - destruct (i <? Z.of_nat (length (elems row))); cbn [elems props].
    + rewrite list_fmap_insert. reflexivity.
    + rewrite !fmap_app, fmap_replicate, Hf. reflexivity.
Qed.

Lemma row_at_fmap {A B : Type} (g : JSArray A -> JSArray B) (board : list (JSArray A)) (r : Z) :
  row_at (g <$> board) r = g <$> row_at board r.
Proof. unfold row_at. destruct (r <? 0); [reflexivity | apply list_lookup_fmap]. Qed.

Lemma get_fmap {A B : Type} `{Undef A} `{Undef B} (f : A -> B) (board : list (JSArray A))
    (r c : Z) :
  f undef = undef -> get (arr_map f <$> board) r c = omap f (get board r c).
Proof.
  intros Hf. unfold get. rewrite row_at_fmap.
  destruct (row_at board r); simpl; [|reflexivity]. rewrite arr_map_get by assumption. reflexivity.
Qed.

Lemma set_fmap {A B : Type} `{Undef A} `{Undef B} (f : A -> B) (board : list (JSArray A))
    (r c : Z) (v : A) :
  f undef = undef ->
  set (arr_map f <$> board) r c (f v) = omap (fmap (arr_map f)) (set board r c v).
Proof.
  intros Hf. unfold set. rewrite row_at_fmap.
  destruct (row_at board r); simpl; [|reflexivity].
  rewrite list_fmap_insert, arr_map_set by assumption. reflexivity.
Qed.

Lemma cloneBoard_fmap {A B : Type} (f : A -> B) (board : list (JSArray A)) :
  cloneBoard (arr_map f <$> board) = arr_map f <$> cloneBoard board.
Proof.
  unfold cloneBoard. rewrite <- !list_fmap_compose.
  apply list_fmap_ext. intros i row _. unfold arr_map. simpl. rewrite fmap_empty. reflexivity.
Qed.

(** ** The store after allocations *)

Lemma content_ext (h : heap) (fresh : list HObj) (newRows : list (JSArray hval)) :
  content (ext h fresh newRows) (length (outers h)) = newRows.
Proof.
  unfold content, ext. cbn [outers rows].
  rewrite lookup_app_r by lia. rewrite Nat.sub_diag. cbn [lookup list_lookup].
  apply list_eq. intros i. rewrite list_lookup_fmap.
  destruct (newRows !! i) as [row|] eqn:Hi.
  - rewrite (lookup_seq_lt _ _ _ (lookup_lt_Some _ _ _ Hi)). simpl.
    rewrite lookup_app_r by lia.
    replace (length (rows h) + i - length (rows h))%nat with i by lia.
    rewrite Hi. reflexivity.
  - rewrite lookup_seq_ge by (apply lookup_ge_None; assumption). reflexivity.
Qed.

Lemma reify_ext (h : heap) (fresh : list HObj) (newRows : list (JSArray hval)) :
  reify (ext h fresh newRows) (length (outers h))
  = arr_map (reify_val (objs h ++ fresh)) <$> newRows.
Proof. unfold reify. rewrite content_ext. reflexivity. Qed.

Lemma heap_le_ext (h : heap) (fresh : list HObj) (newRows : list (JSArray hval)) :
  heap_le h (ext h fresh newRows).
Proof. unfold heap_le, ext. cbn. repeat split; apply prefix_app_r; reflexivity. Qed.

Lemma rowOfBoard_ext (h : heap) (fresh : list HObj) (newRows : list (JSArray hval)) (r : Z) :
  Store.rowOfBoard (length (outers h)) r (ext h fresh newRows)
  = (ext h fresh newRows,
     match row_at newRows r with
     | Some _ => Ret (length (rows h) + Z.to_nat r)%nat
     | None => TypeError
     end).
Proof.
  unfold Store.rowOfBoard, Store.readOuter, sbind, sret, sthrow, row_at.
  replace (outers (ext h fresh newRows) !! length (outers h))
    with (Some (seq (length (rows h)) (length newRows)))
    by (unfold ext; cbn [outers]; rewrite lookup_app_r by lia;
        rewrite Nat.sub_diag; reflexivity).
  destruct (r <? 0); [reflexivity|].
  destruct (newRows !! Z.to_nat r) as [row|] eqn:Hr.
  - rewrite (lookup_seq_lt _ _ _ (lookup_lt_Some _ _ _ Hr)). reflexivity.
  - rewrite lookup_seq_ge by (apply lookup_ge_None; assumption). reflexivity.
Qed.

Lemma rows_ext_new (h : heap) (fresh : list HObj) (newRows : list (JSArray hval)) (i : nat) :
  rows (ext h fresh newRows) !! (length (rows h) + i)%nat = newRows !! i.
Proof.
  unfold ext. cbn [rows]. rewrite lookup_app_r by lia. f_equal. lia.
Qed.

Lemma get_ext (h : heap) (fresh : list HObj) (newRows : list (JSArray hval)) (r c : Z) :
  Store.get (length (outers h)) r c (ext h fresh newRows)
  = (ext h fresh newRows, get newRows r c).
Proof.
  unfold Store.get, sbind. rewrite rowOfBoard_ext. unfold get.
  destruct (row_at newRows r) as [row|] eqn:Hr; [|reflexivity].
  unfold Store.readRow, sret. rewrite rows_ext_new.
  unfold row_at in Hr. destruct (r <? 0); [discriminate|]. rewrite Hr. reflexivity.
Qed.

Lemma set_ext (h : heap) (fresh : list HObj) (newRows : list (JSArray hval)) (r c : Z)
    (v : hval) :
  Store.set (length (outers h)) r c v (ext h fresh newRows)
  = match set newRows r c v with
    | Ret newRows' => (ext h fresh newRows', Ret tt)
    | _ => (ext h fresh newRows, TypeError)
    end.
Proof.
  unfold Store.set, sbind. rewrite rowOfBoard_ext. unfold set.
  destruct (row_at newRows r) as [row|] eqn:Hr; [|reflexivity].
  unfold Store.readRow. rewrite rows_ext_new.
  unfold row_at in Hr. destruct (r <? 0); [discriminate|]. rewrite Hr.
  unfold Store.writeRow, ext. cbn [objs rows outers]. f_equal.
  rewrite length_insert. f_equal.
  rewrite insert_app_r_alt by lia. f_equal. f_equal. lia.
Qed.

Lemma allocObj_ext (h : heap) (fresh : list HObj) (newRows : list (JSArray hval)) (o : HObj) :
  Store.allocObj o (ext h fresh newRows)
  = (ext h (fresh ++ [o]) newRows, Ret (length (objs h) + length fresh)%nat).
Proof.
  unfold Store.allocObj, ext. cbn [objs rows outers].
  rewrite length_app, app_assoc. reflexivity.
Qed.

Lemma readObj_ext_old (h : heap) (fresh : list HObj) (newRows : list (JSArray hval))
    (l : loc) (o : HObj) :
  objs h !! l = Some o ->
  Store.readObj l (ext h fresh newRows) = (ext h fresh newRows, Ret o).
Proof.
  intros Hl. unfold Store.readObj, ext. cbn [objs].
  rewrite (lookup_app_l_Some _ _ _ _ Hl). reflexivity.
Qed.

Lemma readObj_ext_new (h : heap) (fresh : list HObj) (newRows : list (JSArray hval))
    (i : nat) (o : HObj) :
  fresh !! i = Some o ->
  Store.readObj (length (objs h) + i) (ext h fresh newRows) = (ext h fresh newRows, Ret o).
Proof.
  intros Hi. unfold Store.readObj, ext. cbn [objs].
  rewrite lookup_app_r by lia.
  replace (length (objs h) + i - length (objs h))%nat with i by lia.
  rewrite Hi. reflexivity.
Qed.

Lemma writeObj_ext (h : heap) (fresh : list HObj) (newRows : list (JSArray hval))
    (i : nat) (o : HObj) :
  Store.writeObj (length (objs h) + i) o (ext h fresh newRows)
  = (ext h (<[i := o]> fresh) newRows, Ret tt).
Proof.
  unfold Store.writeObj, ext. cbn [objs rows outers]. f_equal. f_equal.
  rewrite insert_app_r_alt by lia. f_equal. f_equal. lia.
Qed.

(** The copies of the rows, appended to the rows of the store. *)
Lemma cloneRows_run (h : heap) (rls : list loc) :
  Forall (fun rl => is_Some (rows h !! rl)) rls ->
  forall acc : list (JSArray hval),
    Store.cloneRows rls (mkHeap (objs h) (rows h ++ acc) (outers h))
    = (mkHeap (objs h)
         (rows h ++ acc
          ++ cloneBoard ((fun rl => default (mkRow [] ∅) (rows h !! rl)) <$> rls))
         (outers h),
       Ret (seq (length (rows h) + length acc) (length rls))).
Proof.
  induction 1 as [|rl rls [row Hrow] _ IH]; intros acc.
  - simpl. unfold sret. rewrite app_nil_r. reflexivity.
  - cbn [Store.cloneRows]. unfold sbind at 1. unfold Store.readRow at 1. cbn [rows].
    rewrite (lookup_app_l_Some _ _ _ _ Hrow).
    unfold sbind at 1. unfold Store.allocRow at 1. cbn [objs rows outers].
    unfold sbind at 1.
    rewrite <- (app_assoc (rows h) acc [mkRow (elems row) ∅]).
    rewrite (IH (acc ++ [mkRow (elems row) ∅])).
    unfold sret. cbn [fmap list_fmap cloneBoard map length seq]. rewrite Hrow. cbn [default].
    rewrite !length_app. cbn [length].
    rewrite <- !app_assoc. cbn [app].
    replace (length (rows h) + (length acc + 1))%nat with (S (length (rows h) + length acc)) by lia.
    reflexivity.
Qed.

Lemma cloneBoard_run (h : heap) (b : loc) :
  board_ok h b ->
  Store.cloneBoard b h = (ext h [] (cloneBoard (content h b)), Ret (length (outers h))).
Proof.
  intros (outer & Hout & Hrows).
  unfold Store.cloneBoard, sbind. unfold Store.readOuter. rewrite Hout.
  assert (Hsome : Forall (fun rl => is_Some (rows h !! rl)) outer).
  { eapply Forall_impl; [exact Hrows|]. intros rl (row & -> & _). eauto. }
  pose proof (cloneRows_run h outer Hsome []) as Hrun.
  rewrite app_nil_r in Hrun. destruct h as [O R U]. cbn [objs rows outers] in *.
  rewrite Hrun. unfold Store.allocOuter, ext, content. cbn [objs rows outers].
  rewrite Hout. rewrite app_nil_r. cbn [app length]. rewrite Nat.add_0_r.
  unfold cloneBoard. rewrite length_map, length_fmap. reflexivity.
Qed.

Lemma spread_run (h : heap) (fresh : list HObj) (newRows : list (JSArray hval)) (x : hval) :
  val_ok (objs h) x ->
  Store.spread x (ext h fresh newRows)
  = (ext h (fresh ++ [spreadObj (objs h) x]) newRows,
     Ret (length (objs h) + length fresh)%nat).
Proof.
  intros Hx. destruct x as [| |l]; cbn [Store.spread spreadObj]; try apply allocObj_ext.
  destruct Hx as (o & Hl & _). unfold sbind.
  rewrite (readObj_ext_old _ _ _ _ _ Hl), Hl. apply allocObj_ext.
Qed.

Lemma setHasMoved_run (h : heap) (fresh : list HObj) (newRows : list (JSArray hval))
    (i : nat) (o : HObj) :
  fresh !! i = Some o ->
  Store.setHasMoved (length (objs h) + i) (ext h fresh newRows)
  = (ext h (<[i := markMoved o]> fresh) newRows, Ret tt).
Proof.
  intros Hi. unfold Store.setHasMoved, sbind.
  rewrite (readObj_ext_new _ _ _ _ _ Hi). apply writeObj_ext.
Qed.

Lemma typeOf_run (h : heap) (fresh : list HObj) (newRows : list (JSArray hval))
    (i : nat) (o : HObj) :
  fresh !! i = Some o ->
  Store.typeOf (length (objs h) + i) (ext h fresh newRows)
  = (ext h fresh newRows, Ret (o_type o)).
Proof.
  intros Hi. unfold Store.typeOf, sbind. rewrite (readObj_ext_new _ _ _ _ _ Hi). reflexivity.
Qed.

Lemma setTypeOf_run (h : heap) (fresh : list HObj) (newRows : list (JSArray hval))
    (i : nat) (o : HObj) (t : PieceType) :
  fresh !! i = Some o ->
  Store.setTypeOf (length (objs h) + i) t (ext h fresh newRows)
  = (ext h (<[i := mkObj (Some t) (o_color o) (o_hasMoved o)]> fresh) newRows, Ret tt).
Proof.
  intros Hi. unfold Store.setTypeOf, sbind.
  rewrite (readObj_ext_new _ _ _ _ _ Hi). apply writeObj_ext.
Qed.

(** ** Objects and the cells they stand for *)

Lemma shaped_spreadObj (objects : list HObj) (x : hval) :
  val_ok objects x ->
  (is_Some (o_type (spreadObj objects x)) /\ is_Some (o_color (spreadObj objects x))) \/
  (o_type (spreadObj objects x) = None /\ o_color (spreadObj objects x) = None).
Proof.
  destruct x as [| |l]; simpl; auto.
  intros (o & -> & [Hs | ->]); simpl; auto.
Qed.

Lemma obj_cell_moved (objects : list HObj) (x : hval) :
  val_ok objects x ->
  obj_cell (markMoved (spreadObj objects x)) = movedCopy (reify_val objects x).
Proof.
  destruct x as [| |l]; simpl; try reflexivity.
  intros (o & -> & [[[t Ht] [c Hc]] | ->]); simpl; [|reflexivity].
  unfold obj_cell, markMoved. simpl. rewrite Ht, Hc. reflexivity.
Qed.

Lemma isType_moved (objects : list HObj) (x : hval) (t : PieceType) :
  val_ok objects x ->
  Store.isType (o_type (markMoved (spreadObj objects x))) t
  = cell_type_is (movedCopy (reify_val objects x)) t.
Proof.
  intros Hx. rewrite <- (obj_cell_moved _ _ Hx).
  destruct (shaped_spreadObj _ _ Hx) as [[[u Hu] [c Hc]] | [Hu Hc]];
    unfold obj_cell, markMoved; simpl; rewrite Hu; try rewrite Hc; reflexivity.
Qed.

Lemma obj_cell_promote (objects : list HObj) (x : hval) (m : Move)
    (promoteTo : option PieceType) :
  val_ok objects x ->
  obj_cell (promoteObj (markMoved (spreadObj objects x)) m promoteTo)
  = promote (movedCopy (reify_val objects x)) m promoteTo.
Proof.
  intros Hx. rewrite <- (obj_cell_moved _ _ Hx). unfold promoteObj.
  destruct (shaped_spreadObj _ _ Hx) as [[[u Hu] [c Hc]] | [Hu Hc]];
    unfold obj_cell, markMoved; simpl; rewrite Hu; try rewrite Hc; simpl; [|reflexivity].
  unfold type_is. simpl.
  destruct (PieceType_eqb u Pawn && ((pos_r (to m) =? 0) || (pos_r (to m) =? 7)));
    reflexivity.
Qed.

Lemma reify_val_app (objects fresh : list HObj) (x : hval) :
  val_ok objects x -> reify_val (objects ++ fresh) x = reify_val objects x.
Proof.
  destruct x as [| |l]; simpl; try reflexivity.
  intros (o & Hl & _). rewrite (lookup_app_l_Some _ _ _ _ Hl), Hl. reflexivity.
Qed.

Lemma reify_val_fresh (objects fresh : list HObj) (i : nat) (o : HObj) :
  fresh !! i = Some o ->
  reify_val (objects ++ fresh) (HRef (length objects + i)) = obj_cell o.
Proof.
  intros Hi. simpl. rewrite lookup_app_r by lia.
  replace (length objects + i - length objects)%nat with i by lia.
  rewrite Hi. reflexivity.
Qed.

Lemma arr_get_ok (objects : list HObj) (row : JSArray hval) (i : Z) :
  row_ok objects row -> val_ok objects (arr_get row i).
Proof.
  intros [He Hp]. unfold arr_get. destruct (i <? 0).
  - destruct (props row !! i) as [v|] eqn:Hv; simpl; [eapply Hp; eassumption | exact I].
  - destruct (elems row !! Z.to_nat i) as [v|] eqn:Hv; simpl; [|exact I].
    rewrite Forall_lookup in He. eapply He; eassumption.
Qed.

Lemma arr_map_ok (objects fresh : list HObj) (row : JSArray hval) :
  row_ok objects row ->
  arr_map (reify_val (objects ++ fresh)) row = arr_map (reify_val objects) row.
Proof.
  intros [He Hp]. unfold arr_map. f_equal.
  - apply Forall_fmap_ext. eapply Forall_impl; [exact He|].
    intros v Hv. apply reify_val_app. assumption.
  - apply map_fmap_ext. intros i v Hv. apply reify_val_app. eapply Hp; eassumption.
Qed.

Lemma content_ok (h : heap) (b : loc) :
  board_ok h b -> Forall (row_ok (objs h)) (content h b).
Proof.
  intros (outer & Hout & Hrows). unfold content. rewrite Hout.
  apply Forall_fmap. eapply Forall_impl; [exact Hrows|].
  intros rl (row & Hrow & Hok). simpl. rewrite Hrow. exact Hok.
Qed.

Lemma cloneBoard_ok (objects : list HObj) (board : list (JSArray hval)) :
  Forall (row_ok objects) board -> Forall (row_ok objects) (cloneBoard board).
Proof.
  intros H. unfold cloneBoard. apply Forall_fmap. eapply Forall_impl; [exact H|].
  intros row [He _]. split; [exact He|]. simpl. intros i v Hv. rewrite lookup_empty in Hv.
  discriminate.
Qed.

Lemma get_ok (objects : list HObj) (board : list (JSArray hval)) (r c : Z) (x : hval) :
  Forall (row_ok objects) board -> get board r c = Ret x -> val_ok objects x.
Proof.
  intros Hb. unfold get, row_at. destruct (r <? 0); [discriminate|].
  destruct (board !! Z.to_nat r) as [row|] eqn:Hr; [|discriminate].
  intros H. injection H as <-. apply arr_get_ok.
  rewrite Forall_lookup in Hb. eapply Hb; eassumption.
Qed.

Lemma fmap_ok (objects fresh : list HObj) (board : list (JSArray hval)) :
  Forall (row_ok objects) board ->
  arr_map (reify_val (objects ++ fresh)) <$> board = arr_map (reify_val objects) <$> board.
Proof.
  intros H. apply Forall_fmap_ext. eapply Forall_impl; [exact H|].
  intros row Hrow. apply arr_map_ok. assumption.
Qed.

Lemma get_not_OutOfFuel {A : Type} `{Undef A} (board : list (JSArray A)) (r c : Z) :
  get board r c <> OutOfFuel.
Proof. unfold get. destruct (row_at board r); discriminate. Qed.

Lemma set_not_OutOfFuel {A : Type} `{Undef A} (board : list (JSArray A)) (r c : Z) (v : A) :
  set board r c v <> OutOfFuel.
Proof. unfold set. destruct (row_at board r); discriminate. Qed.

Lemma reify_val_undef (objects : list HObj) : reify_val objects undef = undef.
Proof. reflexivity. Qed.

Lemma promoteObj_eq (o : HObj) (m : Move) (promoteTo : option PieceType) :
  (if Store.isType (o_type o) Pawn && ((pos_r (to m) =? 0) || (pos_r (to m) =? 7))
   then mkObj (Some (default Queen promoteTo)) (o_color o) (o_hasMoved o)
   else o) = promoteObj o m promoteTo.
Proof. reflexivity. Qed.

(** ** Boards of the store stay boards of the store *)

Lemma val_ok_le (objects objects' : list HObj) (v : hval) :
  objects `prefix_of` objects' -> val_ok objects v -> val_ok objects' v.
Proof.
  intros Hle. destruct v as [| |l]; simpl; auto.
  intros (o & Hl & Hs). exists o. split; [|assumption].
  eapply prefix_lookup_Some; eassumption.
Qed.

Lemma row_ok_le (objects objects' : list HObj) (row : JSArray hval) :
  objects `prefix_of` objects' -> row_ok objects row -> row_ok objects' row.
Proof.
  intros Hle [He Hp]. split.
  - eapply Forall_impl; [exact He|]. intros v. apply val_ok_le. assumption.
  - intros i v Hv. eapply val_ok_le; [eassumption|]. eapply Hp; eassumption.
Qed.

Lemma arr_set_ok (objects : list HObj) (row : JSArray hval) (i : Z) (v : hval) :
  row_ok objects row -> val_ok objects v -> row_ok objects (arr_set row i v).
Proof.
  intros [He Hp] Hv. unfold arr_set.
  destruct (i <? 0); [|destruct (i <? Z.of_nat (length (elems row)))]; split; cbn [elems props];
    try assumption.
  - intros j w Hw. destruct (Z.eq_dec i j) as [<- | Hne].
    + rewrite lookup_insert_eq in Hw. injection Hw as <-. assumption.
    + rewrite lookup_insert_ne in Hw by assumption. eapply Hp; eassumption.
  - apply Forall_insert; assumption.
  - apply Forall_app. split; [assumption|]. apply Forall_app. split.
    + apply Forall_replicate. exact I.
    + apply Forall_singleton. assumption.
Qed.

Lemma set_ok (objects : list HObj) (board board' : list (JSArray hval)) (r c : Z) (v : hval) :
  Forall (row_ok objects) board -> val_ok objects v ->
  set board r c v = Ret board' -> Forall (row_ok objects) board'.
Proof.
  intros Hb Hv. unfold set, row_at. destruct (r <? 0); [discriminate|].
  destruct (board !! Z.to_nat r) as [row|] eqn:Hrow; [|discriminate].
  intros H. injection H as <-. apply Forall_insert; [assumption|].
  apply arr_set_ok; [|assumption]. rewrite Forall_lookup in Hb. eapply Hb; eassumption.
Qed.

Lemma shaped_markMoved (objects : list HObj) (x : hval) :
  val_ok objects x -> shaped (markMoved (spreadObj objects x)).
Proof.
  intros Hx. destruct (shaped_spreadObj _ _ Hx) as [[Ht Hc] | [Ht Hc]].
  - left. split; assumption.
  - right. unfold markMoved. rewrite Ht, Hc. reflexivity.
Qed.

Lemma shaped_promoteObj (o : HObj) (m : Move) (promoteTo : option PieceType) :
  shaped o -> shaped (promoteObj o m promoteTo).
Proof.
  intros Hs. unfold promoteObj.
  destruct (Store.isType (o_type o) Pawn && _) eqn:E; [|assumption].
  apply andb_true_iff in E as [E _]. left. simpl. split; [eexists; reflexivity|].
  destruct Hs as [[_ Hc] | ->]; [assumption | discriminate].
Qed.

Lemma val_ok_fresh (objects fresh : list HObj) (i : nat) (o : HObj) :
  fresh !! i = Some o -> shaped o -> val_ok (objects ++ fresh) (HRef (length objects + i)).
Proof.
  intros Hi Hs. exists o. split; [|assumption].
  rewrite lookup_app_r by lia.
  replace (length objects + i - length objects)%nat with i by lia. assumption.
Qed.

Lemma board_ok_ext (h : heap) (fresh : list HObj) (newRows : list (JSArray hval)) :
  Forall (row_ok (objs h ++ fresh)) newRows ->
  board_ok (ext h fresh newRows) (length (outers h)).
Proof.
  intros Hrows. exists (seq (length (rows h)) (length newRows)). split.
  - unfold ext. cbn [outers]. rewrite lookup_app_r by lia. rewrite Nat.sub_diag. reflexivity.
  - apply Forall_forall. intros rl Hrl. apply elem_of_seq in Hrl.
    destruct (lookup_lt_is_Some_2 newRows (rl - length (rows h))) as [row Hrow]; [lia|].
    exists row. split.
    + rewrite <- Hrow, <- (rows_ext_new h fresh newRows). f_equal. lia.
    + unfold ext. cbn [objs]. rewrite Forall_lookup in Hrows. eapply Hrows; eassumption.
Qed.

(** ** The run of [applyMove] in the store *)

(** The last statements of [applyMove]: the two writes and the promotion,
    in a store where [p] is the first of the fresh objects. *)
Lemma applyMove_tail (h : heap) (m : Move) (promoteTo : option PieceType)
    (o : HObj) (rest : list HObj) (newRows : list (JSArray hval)) :
  let p := (length (objs h) + 0)%nat in
  let nb := length (outers h) in
  let final := promoteObj o m promoteTo :: rest in
  shaped o -> Forall (row_ok (objs h ++ final)) newRows ->
  exists (newRows' : list (JSArray hval)) (r : bool),
    (let+ _ := Store.set nb (pos_r (to m)) (pos_c (to m)) (HRef p) in
     let+ _ := Store.set nb (pos_r (from m)) (pos_c (from m)) HNull in
     let+ t := Store.typeOf p in
     let+ _ :=
       (if Store.isType t Pawn && ((pos_r (to m) =? 0) || (pos_r (to m) =? 7))
        then Store.setTypeOf p (default Queen promoteTo)
        else sret tt) in
     sret nb) (ext h (o :: rest) newRows)
    = (ext h (if r then final else o :: rest) newRows', if r then Ret nb else TypeError) /\
    (let* b2 := set (arr_map (reify_val (objs h ++ final)) <$> newRows)
                    (pos_r (to m)) (pos_c (to m)) (obj_cell (promoteObj o m promoteTo)) in
     set b2 (pos_r (from m)) (pos_c (from m)) Null)
    = (if r then Ret (arr_map (reify_val (objs h ++ final)) <$> newRows') else TypeError) /\
    (r = true -> Forall (row_ok (objs h ++ final)) newRows').
Proof.
  cbv zeta. intros Hso Hrows.
  remember (promoteObj o m promoteTo :: rest) as final eqn:Hfinal.
  assert (Hp : val_ok (objs h ++ final) (HRef (length (objs h) + 0))).
  { subst final. apply (val_ok_fresh (objs h) _ 0 (promoteObj o m promoteTo));
      [reflexivity | apply shaped_promoteObj; assumption]. }
  replace (obj_cell (promoteObj o m promoteTo))
    with (reify_val (objs h ++ final) (HRef (length (objs h) + 0)))
    by (subst final; apply (reify_val_fresh (objs h) _ 0); reflexivity).
  rewrite set_fmap by reflexivity.
  unfold sbind at 1. rewrite set_ext.
  destruct (set newRows (pos_r (to m)) (pos_c (to m)) (HRef (length (objs h) + 0)))
    as [nr1| |] eqn:H1;
    [|exists newRows, false; repeat split; discriminate
     |destruct (set_not_OutOfFuel _ _ _ _ H1)].
  cbn [omap obind].
  change Null with (reify_val (objs h ++ final) HNull).
  rewrite set_fmap by reflexivity.
  unfold sbind at 1. rewrite set_ext.
  destruct (set nr1 (pos_r (from m)) (pos_c (from m)) HNull) as [nr2| |] eqn:H2;
    [|exists nr1, false; repeat split; discriminate
     |destruct (set_not_OutOfFuel _ _ _ _ H2)].
  cbn [omap].
  unfold sbind at 1. rewrite (typeOf_run h (o :: rest) nr2 0 o eq_refl).
  exists nr2, true. split; [|split; [reflexivity|]].
  - unfold sbind at 1. subst final. unfold promoteObj.
    destruct (Store.isType (o_type o) Pawn && ((pos_r (to m) =? 0) || (pos_r (to m) =? 7))).
    + rewrite (setTypeOf_run h (o :: rest) nr2 0 o _ eq_refl). reflexivity.
    + reflexivity.
  - intros _. eapply set_ok; [| |exact H2]; [|exact I].
    eapply set_ok; [| |exact H1]; assumption.
Qed.

(** One run of the store model of [applyMove] on a board of the store: the
    store only grows, by the objects [fresh] and the rows [newRows]; the
    board returned is a board of the new store, and reads as the board that
    the value model computes from the reading of the argument. *)
Lemma applyMove_run (h : heap) (b : loc) (m : Move) (promoteTo : option PieceType) :
  board_ok h b ->
  exists fresh newRows (ok : bool),
    Store.applyMove b m promoteTo h
    = (ext h fresh newRows, if ok then Ret (length (outers h)) else TypeError) /\
    applyMove (reify h b) m promoteTo
    = (if ok then Ret (arr_map (reify_val (objs h ++ fresh)) <$> newRows) else TypeError) /\
    (ok = true -> board_ok (ext h fresh newRows) (length (outers h))).
Proof.
  intros Hok.
  pose proof (cloneBoard_ok _ _ (content_ok h b Hok)) as Hc.
  unfold Store.applyMove, applyMove, reify. rewrite !cloneBoard_fmap.
  unfold sbind at 1. rewrite (cloneBoard_run h b Hok).
  unfold sbind at 1. rewrite get_ext.
  rewrite get_fmap by reflexivity.
  destruct (get (cloneBoard (content h b)) (pos_r (from m)) (pos_c (from m))) as [x| |] eqn:Hx;
    [|exists [], (cloneBoard (content h b)), false; repeat split; discriminate
     |destruct (get_not_OutOfFuel _ _ _ Hx)].
  pose proof (get_ok _ _ _ _ _ Hc Hx) as Hxok.
  cbn [omap obind].
  unfold sbind at 1. rewrite (spread_run h [] _ x Hxok). cbn [app length].
  unfold sbind at 1. rewrite (setHasMoved_run h [spreadObj (objs h) x] _ 0 _ eq_refl).
  cbn [insert list_insert].
  unfold sbind at 1. rewrite (typeOf_run h [markMoved (spreadObj (objs h) x)] _ 0 _ eq_refl).
  rewrite (isType_moved _ _ King Hxok).
  rewrite <- (obj_cell_promote _ _ m promoteTo Hxok).
  pose proof (shaped_markMoved _ _ Hxok) as Hso.
  set (o := markMoved (spreadObj (objs h) x)) in *.
  destruct (cell_type_is (movedCopy (reify_val (objs h) x)) King
            && (Z.abs (pos_c (to m) - pos_c (from m)) =? 2)).
  - (* castling *)
    set (rfc := if pos_c (from m) <? pos_c (to m) then 7 else 0).
    set (rtc := if pos_c (from m) <? pos_c (to m) then 5 else 3).
    unfold sbind at 1. unfold sbind at 1. rewrite get_ext.
    rewrite get_fmap by reflexivity.
    destruct (get (cloneBoard (content h b)) (pos_r (from m)) rfc) as [y| |] eqn:Hy;
      [|exists [o], (cloneBoard (content h b)), false; repeat split; discriminate
       |destruct (get_not_OutOfFuel _ _ _ Hy)].
    pose proof (get_ok _ _ _ _ _ Hc Hy) as Hyok.
    cbn [omap obind].
    unfold sbind at 1. rewrite (spread_run h [o] _ y Hyok). cbn [app length].
    unfold sbind at 1. rewrite (setHasMoved_run h [o; spreadObj (objs h) y] _ 1 _ eq_refl).
    cbn [insert list_insert].
    pose proof (shaped_markMoved _ _ Hyok) as Hsr.
    set (rook := markMoved (spreadObj (objs h) y)) in *.
    set (final := [promoteObj o m promoteTo; rook]).
    assert (Hc' : Forall (row_ok (objs h ++ final)) (cloneBoard (content h b))).
    { eapply Forall_impl; [exact Hc|]. intros row. apply row_ok_le.
      apply prefix_app_r. reflexivity. }
    assert (Hrk : val_ok (objs h ++ final) (HRef (length (objs h) + 1)))
      by (apply (val_ok_fresh (objs h) final 1 rook); [reflexivity | assumption]).
    rewrite <- (fmap_ok (objs h) final _ Hc).
    rewrite <- (obj_cell_moved _ _ Hyok). fold rook.
    replace (obj_cell rook) with (reify_val (objs h ++ final) (HRef (length (objs h) + 1)))
      by (apply (reify_val_fresh (objs h) _ 1); reflexivity).
    rewrite set_fmap by reflexivity.
    unfold sbind at 1. rewrite set_ext.
    destruct (set (cloneBoard (content h b)) (pos_r (from m)) rtc (HRef (length (objs h) + 1)))
      as [nr1| |] eqn:H1;
      [|exists [o; rook], (cloneBoard (content h b)), false; repeat split; discriminate
       |destruct (set_not_OutOfFuel _ _ _ _ H1)].
    cbn [omap obind].
    change Null with (reify_val (objs h ++ final) HNull) at 1.
    rewrite set_fmap by reflexivity.
    rewrite set_ext.
    destruct (set nr1 (pos_r (from m)) rfc HNull) as [nr2| |] eqn:H2;
      [|exists [o; rook], nr1, false; repeat split; discriminate
       |destruct (set_not_OutOfFuel _ _ _ _ H2)].
    cbn [omap obind].
    assert (Hnr2 : Forall (row_ok (objs h ++ final)) nr2).
    { eapply set_ok; [| |exact H2]; [|exact I]. eapply set_ok; [| |exact H1]; assumption. }
    subst final.
    destruct (applyMove_tail h m promoteTo o [rook] nr2 Hso Hnr2)
      as (nr & ok & Hrun & Hval & Hrows).
    rewrite Hval. exists (if ok then [promoteObj o m promoteTo; rook] else [o; rook]), nr, ok.
    split; [exact Hrun|]. split; [destruct ok; reflexivity|].
    intros ->. apply board_ok_ext. apply Hrows. reflexivity.
  - (* no castling *)
    unfold sbind at 1. unfold sret at 1. cbn [obind].
    set (final := [promoteObj o m promoteTo]).
    assert (Hc' : Forall (row_ok (objs h ++ final)) (cloneBoard (content h b))).
    { eapply Forall_impl; [exact Hc|]. intros row. apply row_ok_le.
      apply prefix_app_r. reflexivity. }
    rewrite <- (fmap_ok (objs h) final _ Hc).
    subst final.
    destruct (applyMove_tail h m promoteTo o [] (cloneBoard (content h b)) Hso Hc')
      as (nr & ok & Hrun & Hval & Hrows).
    rewrite Hval. exists (if ok then [promoteObj o m promoteTo] else [o]), nr, ok.
    split; [exact Hrun|]. split; [destruct ok; reflexivity|].
    intros ->. apply board_ok_ext. apply Hrows. reflexivity.
Qed.

(** ** Purity *)

(** A board of the store is still one, with the same reading, in every
    store that extends it. *)
Lemma board_ok_le (h h' : heap) (b : loc) :
  heap_le h h' -> board_ok h b -> board_ok h' b.
Proof.
  intros (Ho & Hr & Hu) (outer & Hout & Hrows). exists outer. split.
  - eapply prefix_lookup_Some; eassumption.
  - eapply Forall_impl; [exact Hrows|]. intros rl (row & Hrow & Hok).
    exists row. split; [eapply prefix_lookup_Some; eassumption|].
    eapply row_ok_le; eassumption.
Qed.

Lemma reify_le (h h' : heap) (b : loc) :
  heap_le h h' -> board_ok h b -> reify h' b = reify h b.
Proof.
  intros (Ho & Hr & Hu) (outer & Hout & Hrows). unfold reify, content.
  rewrite Hout, (prefix_lookup_Some _ _ _ _ Hout Hu).
  rewrite <- !list_fmap_compose. apply Forall_fmap_ext.
  eapply Forall_impl; [exact Hrows|]. intros rl (row & Hrow & Hok). simpl.
  rewrite Hrow, (prefix_lookup_Some _ _ _ _ Hrow Hr). simpl.
  destruct Ho as [fresh ->]. apply arr_map_ok. assumption.
Qed.

(** C9. [applyMove] is pure.  In the store model, where the board is made
    of arrays and objects reached through references: a call on a board of
    the store leaves every array and every object of the store as it was
    (the store after the call extends the store before), so the argument
    reads as before, square by square and piece by piece; and two calls
    with the same move and promotion type on two boards with the same
    reading, in the same store or in two stores, both raise or return
    boards of the store with the same reading, which is the board that the
    value model [applyMove] computes. *)
Theorem applyMove_pure (h1 h2 : heap) (b1 b2 : loc) (m : Move)
    (promoteTo : option PieceType) :
  board_ok h1 b1 -> board_ok h2 b2 -> reify h1 b1 = reify h2 b2 ->
  exists h1' h2' r1 r2,
    Store.applyMove b1 m promoteTo h1 = (h1', r1) /\
    Store.applyMove b2 m promoteTo h2 = (h2', r2) /\
    heap_le h1 h1' /\ heap_le h2 h2' /\
    reify h1' b1 = reify h1 b1 /\ reify h2' b2 = reify h2 b2 /\
    ((exists n1 n2, r1 = Ret n1 /\ r2 = Ret n2 /\
        board_ok h1' n1 /\ board_ok h2' n2 /\
        reify h1' n1 = reify h2' n2 /\
        applyMove (reify h1 b1) m promoteTo = Ret (reify h1' n1)) \/
     (r1 = TypeError /\ r2 = TypeError /\
      applyMove (reify h1 b1) m promoteTo = TypeError)).
Proof.
  intros Hok1 Hok2 Heq.
  destruct (applyMove_run h1 b1 m promoteTo Hok1) as (f1 & nr1 & ok1 & Hrun1 & Hval1 & Hb1).
  destruct (applyMove_run h2 b2 m promoteTo Hok2) as (f2 & nr2 & ok2 & Hrun2 & Hval2 & Hb2).
  exists (ext h1 f1 nr1), (ext h2 f2 nr2).
  exists (if ok1 then Ret (length (outers h1)) else TypeError),
         (if ok2 then Ret (length (outers h2)) else TypeError).
  pose proof (heap_le_ext h1 f1 nr1) as Hle1. pose proof (heap_le_ext h2 f2 nr2) as Hle2.
  repeat (split; [first [assumption | apply reify_le; assumption]|]).
  rewrite <- Heq in Hval2. rewrite Hval1 in Hval2.
  destruct ok1, ok2; try discriminate.
  - left. exists (length (outers h1)), (length (outers h2)).
    rewrite !reify_ext. injection Hval2 as Hval2. auto 10.
  - right. auto.
Qed.

Lemma shapedb_sound (o : HObj) : shapedb o = true -> shaped o.
Proof.
  destruct o as [[t|] [c|] [[|]|]]; simpl; try discriminate; intros _;
    try (left; split; eexists; reflexivity); right; reflexivity.
Qed.

Lemma val_okb_sound (objects : list HObj) (v : hval) :
  val_okb objects v = true -> val_ok objects v.
Proof.
  destruct v as [| |l]; simpl; auto.
  destruct (objects !! l) as [o|]; [|discriminate].
  intros H. exists o. split; [reflexivity | apply shapedb_sound; assumption].
Qed.

Lemma board_okb_sound (h : heap) (b : loc) : board_okb h b = true -> board_ok h b.
Proof.
  unfold board_okb, board_ok. destruct (outers h !! b) as [outer|]; [|discriminate].
  intros H. exists outer. split; [reflexivity|].
  rewrite forallb_forall in H. apply Forall_forall. intros rl Hrl.
  specialize (H rl (proj1 (list_elem_of_In _ _) Hrl)).
  destruct (rows h !! rl) as [row|]; [|discriminate].
  exists row. split; [reflexivity|].
  apply andb_true_iff in H as [He Hp]. rewrite forallb_forall in He, Hp. split.
  - apply Forall_forall. intros v Hv. apply val_okb_sound, He, list_elem_of_In, Hv.
  - intros i v Hv. apply val_okb_sound.
    apply (Hp (i, v)). apply list_elem_of_In, elem_of_map_to_list. exact Hv.
Qed.

Lemma applyMove_pure_witness :
  exists h1' h2' r1 r2,
    Store.applyMove 0%nat (mv 7 4 7 6) None store1 = (h1', r1) /\
    Store.applyMove 1%nat (mv 7 4 7 6) None store2 = (h2', r2) /\
    heap_le store1 h1' /\ heap_le store2 h2' /\
    reify h1' 0%nat = reify store1 0%nat /\ reify h2' 1%nat = reify store2 1%nat /\
    ((exists n1 n2, r1 = Ret n1 /\ r2 = Ret n2 /\
        board_ok h1' n1 /\ board_ok h2' n2 /\
        reify h1' n1 = reify h2' n2 /\
        applyMove (reify store1 0%nat) (mv 7 4 7 6) None = Ret (reify h1' n1)) \/
     (r1 = TypeError /\ r2 = TypeError /\
      applyMove (reify store1 0%nat) (mv 7 4 7 6) None = TypeError)).
Proof.
  apply (applyMove_pure store1 store2 0%nat 1%nat (mv 7 4 7 6) None).
  - apply board_okb_sound. vm_compute. reflexivity.
  - apply board_okb_sound. vm_compute. reflexivity.
  - vm_compute. reflexivity.
Defined.

(** * The step budgets are never exhausted

    The two [while] loops run on a budget of steps.  Whatever the board and
    the squares, the budget given suffices: each function returns or
    raises. *)

Lemma obind_fuel {A B : Type} (m : outcome A) (f : A -> outcome B) :
  m <> OutOfFuel -> (forall a, m = Ret a -> f a <> OutOfFuel) -> obind m f <> OutOfFuel.
Proof. destruct m as [a| |]; simpl; intros Hm Hf; [apply Hf; reflexivity | discriminate | congruence]. Qed.

Lemma orM_fuel (a b : outcome bool) :
  a <> OutOfFuel -> b <> OutOfFuel -> orM a b <> OutOfFuel.
Proof. intros Ha Hb. unfold orM. apply obind_fuel; [assumption|]. intros [|] _; [discriminate | assumption]. Qed.

Lemma anyM_fuel {A : Type} (f : A -> outcome bool) (l : list A) :
  (forall x, f x <> OutOfFuel) -> anyM f l <> OutOfFuel.
Proof.
  intros Hf. induction l as [|x l IH]; simpl; [discriminate|]. apply orM_fuel; auto.
Qed.

(** A walk that reaches its target in [n] steps needs [n] steps. *)
Lemma isPathClear_loop_reach (board : Board) (dr dc : Z) (target : Position) :
  forall (n fuel : nat) (r c : Z),
    (n <= fuel)%nat ->
    pos_r target = r + Z.of_nat n * dr ->
    pos_c target = c + Z.of_nat n * dc ->
    isPathClear_loop fuel board dr dc r c target <> OutOfFuel.
Proof.
  induction n as [|n IH]; intros fuel r c Hfuel Hr Hc.
  - destruct fuel; simpl;
      replace (r =? pos_r target) with true by (symmetry; apply Z.eqb_eq; lia);
      replace (c =? pos_c target) with true by (symmetry; apply Z.eqb_eq; lia);
      simpl; discriminate.
  - destruct fuel as [|fuel]; [lia|]. simpl.
    destruct (negb (r =? pos_r target) || negb (c =? pos_c target)); [|discriminate].
    apply obind_fuel; [apply get_not_OutOfFuel|].
    intros x _. destruct (truthy x); [discriminate|].
    apply IH; lia.
Qed.

(** A walk that changes row reads each row at most once, and raises when it
    leaves the board. *)
Lemma isPathClear_loop_rows (board : Board) (dr dc : Z) (target : Position) :
  dr = 1 \/ dr = -1 ->
  forall (fuel : nat) (r c : Z),
    rowsAhead board dr r < Z.of_nat fuel ->
    isPathClear_loop fuel board dr dc r c target <> OutOfFuel.
Proof.
  intros Hdr. induction fuel as [|fuel IH]; intros r c Hroom.
  - unfold rowsAhead in Hroom.
    destruct (dr =? 1);
      [destruct (Z.ltb_spec r 0) | destruct (Z.leb_spec (Z.of_nat (length board)) r)]; lia.
  - simpl. destruct (negb (r =? pos_r target) || negb (c =? pos_c target)); [|discriminate].
    unfold get, row_at.
    destruct (Z.ltb_spec r 0) as [Hneg | Hpos]; [simpl; discriminate|].
    destruct (board !! Z.to_nat r) as [row|] eqn:Hrow; [|simpl; discriminate].
    apply lookup_lt_Some in Hrow. cbn [obind].
    destruct (truthy (arr_get row c)); [discriminate|].
    apply IH. unfold rowsAhead in *.
    destruct Hdr as [-> | ->]; simpl in *.
    + destruct (Z.ltb_spec r 0); [lia|]. destruct (Z.ltb_spec (r + 1) 0); lia.
    + destruct (Z.leb_spec (Z.of_nat (length board)) r); [lia|].
      destruct (Z.leb_spec (Z.of_nat (length board)) (r + -1)); lia.
Qed.

Lemma isPathClear_not_OutOfFuel (board : Board) (a b : Position) :
  isPathClear board a b <> OutOfFuel.
Proof.
  unfold isPathClear.
  destruct (Z.eq_dec (pos_r b) (pos_r a)) as [Er | Er].
  - (* along the row: the target is reached *)
    apply (isPathClear_loop_reach board _ _ b (Z.to_nat (Z.abs (pos_c b - pos_c a) - 1)));
      unfold isPathClear_fuel; lia.
  - apply isPathClear_loop_rows; [lia|].
    unfold isPathClear_fuel, rowsAhead.
    destruct (Z.sgn (pos_r b - pos_r a) =? 1);
      [destruct (Z.ltb_spec (pos_r a + Z.sgn (pos_r b - pos_r a)) 0)
      |destruct (Z.leb_spec (Z.of_nat (length board)) (pos_r a + Z.sgn (pos_r b - pos_r a)))];
      lia.
Qed.

Lemma ray_not_OutOfFuel (board : Board) (col : Color) (dr dc : Z) (types : list PieceType) :
  isStep dr dc ->
  forall (fuel : nat) (r c : Z),
    (inBoard r c = true -> rayRoom dr dc r c <= Z.of_nat fuel) ->
    ray fuel board col dr dc types r c <> OutOfFuel.
Proof.
  intros (Hdr & Hdc & Hne). induction fuel as [|fuel IH]; intros r c Hroom; simpl.
  - destruct (inBoard r c) eqn:Hin; [|discriminate].
    specialize (Hroom eq_refl). apply inBoard_spec in Hin. unfold rayRoom in Hroom.
    destruct (dr =? 1) eqn:E1; [lia|]. destruct (dr =? -1) eqn:E2; [lia|].
    destruct (dc =? 1) eqn:E3; lia.
  - destruct (inBoard r c) eqn:Hin; [|discriminate].
    specialize (Hroom eq_refl). apply inBoard_spec in Hin.
    apply obind_fuel; [apply get_not_OutOfFuel|].
    intros x _. destruct x; try discriminate; apply IH; intros _; unfold rayRoom in *;
      destruct (dr =? 1) eqn:E1; try lia; destruct (dr =? -1) eqn:E2; try lia;
      destruct (dc =? 1) eqn:E3; lia.
Qed.

Lemma isSquareUnderAttack_not_OutOfFuel (board : Board) (pos : Position) (col : Color) :
  isSquareUnderAttack board pos col <> OutOfFuel.
Proof.
  unfold isSquareUnderAttack.
  apply orM_fuel; [|apply orM_fuel; [|apply orM_fuel]].
  - unfold pawnAttack. destruct ((0 <=? _) && (_ <? 8)); [|discriminate].
    apply orM_fuel.
    + destruct (0 <=? pos_c pos - 1); [|discriminate].
      apply obind_fuel; [apply get_not_OutOfFuel | discriminate].
    + destruct (pos_c pos + 1 <? 8); [|discriminate].
      apply obind_fuel; [apply get_not_OutOfFuel | discriminate].
  - unfold knightAttack. apply anyM_fuel. intros m.
    destruct (inBoard (pos_r m) (pos_c m)); [|discriminate].
    apply obind_fuel; [apply get_not_OutOfFuel | discriminate].
  - unfold kingAttack. apply anyM_fuel. intros r. apply anyM_fuel. intros c.
    destruct ((r =? pos_r pos) && (c =? pos_c pos)); [discriminate|].
    apply obind_fuel; [apply get_not_OutOfFuel | discriminate].
  - unfold slidingAttack, directions. cbn [anyM].
    repeat (apply orM_fuel;
            [apply ray_not_OutOfFuel;
             [unfold isStep; lia
             |intros Hin; apply inBoard_spec in Hin; unfold rayRoom; simpl; lia]|]).
    discriminate.
Qed.

Lemma findKingInRow_not_OutOfFuel (board : Board) (col : Color) (r : Z) (cs : list Z) :
  findKingInRow board col r cs <> OutOfFuel.
Proof.
  induction cs as [|c cs IH]; simpl; [discriminate|].
  apply obind_fuel; [apply get_not_OutOfFuel|].
  intros p _. destruct (is_piece p col King); [discriminate | assumption].
Qed.

Lemma findKing_not_OutOfFuel (board : Board) (col : Color) (rs : list Z) :
  forall kPos, findKing board col kPos rs <> OutOfFuel.
Proof.
  induction rs as [|r rs IH]; intros kPos; cbn [findKing]; [discriminate|].
  apply obind_fuel; [apply findKingInRow_not_OutOfFuel|]. intros found _. apply IH.
Qed.

Lemma isInCheck_not_OutOfFuel (board : Board) (col : Color) :
  isInCheck board col <> OutOfFuel.
Proof.
  unfold isInCheck. apply obind_fuel; [apply findKing_not_OutOfFuel|].
  intros [k|] _; [apply isSquareUnderAttack_not_OutOfFuel | discriminate].
Qed.

Lemma applyMove_not_OutOfFuel (board : Board) (m : Move) (promoteTo : option PieceType) :
  applyMove board m promoteTo <> OutOfFuel.
Proof.
  unfold applyMove. apply obind_fuel; [apply get_not_OutOfFuel|]. intros x _.
  apply obind_fuel.
  - destruct (cell_type_is (movedCopy x) King && _); [|discriminate].
    apply obind_fuel; [apply get_not_OutOfFuel|]. intros y _.
    apply obind_fuel; [apply set_not_OutOfFuel|]. intros b1 _. apply set_not_OutOfFuel.
  - intros nb _. apply obind_fuel; [apply set_not_OutOfFuel|]. intros b2 _.
    apply set_not_OutOfFuel.
Qed.

(** For every board, every pair of squares, every turn and every flag, the
    validator returns a boolean or raises a [TypeError]. *)
Lemma isValidMove_not_OutOfFuel (board : Board) (a b : Position) (turn : Color) (cs : bool) :
  isValidMove board a b turn cs <> OutOfFuel.
Proof.
  unfold isValidMove. apply obind_fuel; [apply get_not_OutOfFuel|]. intros x _.
  apply obind_fuel; [apply get_not_OutOfFuel|]. intros target _.
  destruct x as [| |p|]; try discriminate.
  destruct (negb (color_is p turn)); [discriminate|].
  destruct (match target with Obj t => _ | _ => false end); [discriminate|].
  apply obind_fuel.
  - unfold geometry. destruct (type p).
    + unfold kingValid. destruct ((_ <=? 1) && (_ <=? 1)); [discriminate|].
      destruct ((_ =? 0) && (_ =? 2) && negb (moved p)); [|discriminate].
      apply obind_fuel; [destruct cs; [apply isInCheck_not_OutOfFuel | discriminate]|].
      intros chk _. destruct chk; [discriminate|].
      apply obind_fuel; [apply get_not_OutOfFuel|]. intros rook _.
      destruct rook as [| |rk|]; try discriminate.
      destruct (type_is rk Rook && color_is rk turn && negb (moved rk)); [|discriminate].
      apply obind_fuel; [apply isPathClear_not_OutOfFuel|]. intros clear _.
      destruct clear; [|discriminate].
      apply obind_fuel;
        [destruct cs; [apply isSquareUnderAttack_not_OutOfFuel | discriminate]|].
      intros att _. destruct att; discriminate.
    + apply obind_fuel; [|discriminate]. unfold andPath.
      destruct (_ || _ || _); [apply isPathClear_not_OutOfFuel | discriminate].
    + apply obind_fuel; [|discriminate]. unfold andPath.
      destruct (_ || _); [apply isPathClear_not_OutOfFuel | discriminate].
    + apply obind_fuel; [|discriminate]. unfold andPath.
      destruct (_ =? _); [apply isPathClear_not_OutOfFuel | discriminate].
    + discriminate.
    + apply obind_fuel; [|discriminate]. unfold pawnValid.
      apply obind_fuel; [|discriminate].
      destruct (_ && _ && _ && _); [|discriminate].
      apply obind_fuel; [apply get_not_OutOfFuel | discriminate].
  - intros g _. destruct g as [valid|[]]; [|discriminate].
    destruct (valid && cs); [|discriminate].
    apply obind_fuel; [apply applyMove_not_OutOfFuel|]. intros nb _.
    apply obind_fuel; [apply isInCheck_not_OutOfFuel|]. intros chk _.
    destruct chk; discriminate.
Qed.

(** * Further properties of the engine *)

(** ** The generator and the validator *)

Lemma flatMapM_each {A B : Type} (f : A -> outcome (list B)) (l : list A) (ys : list B) :
  flatMapM f l = Ret ys -> forall x, x ∈ l -> exists zs, f x = Ret zs.
Proof.
  revert ys. induction l as [|y l IH]; intros ys H x Hx; [inversion Hx|].
  apply flatMapM_cons_Ret in H as (zs & rest & Hz & Hr & _).
  apply elem_of_cons in Hx as [-> | Hx]; [eauto | exact (IH _ Hr x Hx)].
Qed.

Lemma filterM_NoDup {A : Type} (f : A -> outcome bool) (l ys : list A) :
  filterM f l = Ret ys -> NoDup l -> NoDup ys.
Proof.
  revert ys. induction l as [|y l IH]; intros ys H Hnd.
  - injection H as <-. constructor.
  - apply filterM_cons_Ret in H as (keep & rest & Hk & Hr & ->).
    apply NoDup_cons in Hnd as [Hy Hnd]. specialize (IH _ Hr Hnd).
    destruct keep; [|assumption].
    apply NoDup_cons. split; [|assumption].
    intros Hin. apply Hy. exact (proj1 (filterM_elem _ _ _ _ Hr Hin)).
Qed.

Lemma zrange_NoDup (lo hi : Z) : NoDup (zrange lo hi).
Proof.
  unfold zrange. apply NoDup_fmap_2; [|apply NoDup_seq].
  intros i j E. lia.
Qed.

Lemma allSquares_NoDup : NoDup allSquares.
Proof.
  unfold allSquares.
  assert (H : forall cs rs, NoDup cs -> NoDup rs ->
            NoDup (flat_map (fun r => map (fun c => mkPos r c) cs) rs)).
  { intros cs. induction rs as [|r rs IH]; intros Hcs Hnd; cbn [flat_map]; [constructor|].
    apply NoDup_cons in Hnd as [Hr Hnd]. apply NoDup_app. repeat split.
    - apply NoDup_fmap_2; [|assumption]. intros c c' E. congruence.
    - intros s Hs Hs'. apply list_elem_of_fmap in Hs as (c & -> & _).
      apply list_elem_of_In, in_flat_map in Hs' as (r' & Hr' & Hs').
      apply in_map_iff in Hs' as (c' & E & _). injection E as -> _.
      apply Hr. apply list_elem_of_In. assumption.
    - apply IH; assumption. }
  apply H; apply zrange_NoDup.
Qed.

Lemma flatMapM_NoDup {A B : Type} (f : A -> outcome (list B)) (key : B -> A) (l : list A)
    (ys : list B) :
  (forall x zs, f x = Ret zs -> NoDup zs /\ forall y, y ∈ zs -> key y = x) ->
  flatMapM f l = Ret ys -> NoDup l -> NoDup ys /\ forall y, y ∈ ys -> key y ∈ l.
Proof.
  intros Hf. revert ys. induction l as [|x l IH]; intros ys H Hnd.
  - injection H as <-. split; [constructor | intros y Hy; inversion Hy].
  - apply flatMapM_cons_Ret in H as (zs & rest & Hz & Hr & ->).
    apply NoDup_cons in Hnd as [Hx Hnd].
    destruct (IH _ Hr Hnd) as [Hrest Hkeys]. destruct (Hf _ _ Hz) as [Hzs Hkey].
    split.
    + apply NoDup_app. repeat split; auto.
      intros y Hy Hy'. apply Hx. rewrite <- (Hkey y Hy). apply Hkeys. assumption.
    + intros y Hy. apply elem_of_app in Hy as [Hy | Hy].
      * rewrite (Hkey y Hy). left.
      * right. apply Hkeys. assumption.
Qed.

Lemma getAllMoves_iff (board : Board) (col : Color) (ms : list Move) (a b : Position) :
  getAllMoves board col = Ret ms ->
  mkMove a b ∈ ms <->
  (0 <= pos_r a < 8 /\ 0 <= pos_c a < 8 /\ 0 <= pos_r b < 8 /\ 0 <= pos_c b < 8 /\
   isValidMove board a b col true = Ret true).
Proof.
  intros H. split.
  - intros Hin. destruct (getAllMoves_elem _ _ _ _ H Hin) as (Hv & Ha & Hb & _).
    cbn [from to] in *. destruct a as [r c], b as [r' c'].
    apply elem_of_allSquares in Ha, Hb. cbn [pos_r pos_c]. tauto.
  - intros (Har & Hac & Hbr & Hbc & Hv).
    assert (Ha : a ∈ allSquares) by (destruct a; apply elem_of_allSquares; auto).
    assert (Hb : b ∈ allSquares) by (destruct b; apply elem_of_allSquares; auto).
    unfold getAllMoves in H.
    destruct (flatMapM_each _ _ _ H a Ha) as [zs Hz].
    apply (flatMapM_keeps _ _ _ _ a _ H Ha Hz).
    unfold movesFrom in Hz.
    destruct (isValidMove_origin _ _ _ _ _ Hv) as (p & Hp & Hcol).
    rewrite Hp in Hz. cbn [obind cell_color_is] in Hz.
    rewrite (proj2 (color_is_eq p col) Hcol) in Hz.
    apply obind_Ret in Hz as (targets & Ht & Hz). injection Hz as <-.
    apply list_elem_of_fmap. exists b. split; [reflexivity|].
    exact (filterM_keeps _ _ _ _ Ht Hb Hv).
Qed.

(** The moves generated for a color are the moves, between squares of the
    board, that the validator accepts with the safety check on; none is
    listed twice. *)
Theorem getAllMoves_complete (board : Board) (col : Color) (ms : list Move) :
  getAllMoves board col = Ret ms ->
  NoDup ms /\
  forall a b,
    mkMove a b ∈ ms <->
    (0 <= pos_r a < 8 /\ 0 <= pos_c a < 8 /\ 0 <= pos_r b < 8 /\ 0 <= pos_c b < 8 /\
     isValidMove board a b col true = Ret true).
Proof.
  intros H. split; [|intros a b; apply getAllMoves_iff; assumption].
  unfold getAllMoves in H.
  refine (proj1 (flatMapM_NoDup _ from _ _ _ H allSquares_NoDup)).
  intros a zs Hz. unfold movesFrom in Hz.
  apply obind_Ret in Hz as (x & _ & Hz).
  destruct (cell_color_is x col).
  - apply obind_Ret in Hz as (targets & Ht & Hz). injection Hz as <-. split.
    + apply NoDup_fmap_2; [intros b b' E; congruence|].
      exact (filterM_NoDup _ _ _ Ht allSquares_NoDup).
    + intros m Hm. apply list_elem_of_fmap in Hm as (b & -> & _). reflexivity.
  - injection Hz as <-. split; [constructor | intros m Hm; inversion Hm].
Qed.

Lemma getAllMoves_complete_witness :
  NoDup initialWhiteMoves /\ mv 6 4 4 4 ∈ initialWhiteMoves.
Proof.
  assert (H : getAllMoves getInitialBoard white = Ret initialWhiteMoves)
    by (vm_compute; reflexivity).
  pose proof (getAllMoves_complete getInitialBoard white initialWhiteMoves H) as [Hnd Hiff].
  split; [exact Hnd|].
  apply (Hiff (mkPos 6 4) (mkPos 4 4)). cbn [pos_r pos_c].
  repeat (split; [lia|]). vm_compute. reflexivity.
Defined.

(** The squares highlighted for a piece are the destinations of the moves
    generated for its color from its square. *)
Theorem getValidMoves_generated (board : Board) (a : Position) (p : Piece) (ms : list Move) :
  0 <= pos_r a < 8 -> 0 <= pos_c a < 8 ->
  get board (pos_r a) (pos_c a) = Ret (Obj p) ->
  getAllMoves board (color p) = Ret ms ->
  exists targets,
    getValidMoves board a = Ret targets /\ NoDup targets /\
    forall b, b ∈ targets <-> mkMove a b ∈ ms.
Proof.
  intros Har Hac Hp H.
  assert (Ha : a ∈ allSquares) by (destruct a; apply elem_of_allSquares; auto).
  pose proof H as H'. unfold getAllMoves in H'.
  destruct (flatMapM_each _ _ _ H' a Ha) as [zs Hz].
  pose proof Hz as Hz'. unfold movesFrom in Hz'. rewrite Hp in Hz'.
  cbn [obind cell_color_is] in Hz'.
  rewrite (proj2 (color_is_eq p (color p)) eq_refl) in Hz'.
  apply obind_Ret in Hz' as (targets & Ht & Hz'). injection Hz' as <-.
  exists targets. unfold getValidMoves. rewrite Hp. cbn [obind].
  split; [assumption|]. split; [exact (filterM_NoDup _ _ _ Ht allSquares_NoDup)|].
  intros b. split.
  - intros Hb. apply (flatMapM_keeps _ _ _ _ a _ H' Ha Hz).
    apply list_elem_of_fmap. eauto.
  - intros Hm. destruct (getAllMoves_elem _ _ _ _ H Hm) as (Hv & _ & Hb & _).
    exact (filterM_keeps _ _ _ _ Ht Hb Hv).
Qed.

Lemma getValidMoves_generated_witness :
  exists targets, getValidMoves getInitialBoard (mkPos 6 4) = Ret targets /\
                  mkPos 4 4 ∈ targets.
Proof.
  assert (H : getAllMoves getInitialBoard white = Ret initialWhiteMoves)
    by (vm_compute; reflexivity).
  destruct (getValidMoves_generated getInitialBoard (mkPos 6 4)
              (mkPiece Pawn white (Some false)) initialWhiteMoves
              ltac:(simpl; lia) ltac:(simpl; lia) eq_refl H) as (targets & Ht & _ & Hiff).
  exists targets. split; [exact Ht|].
  apply Hiff. vm_compute. apply list_elem_of_In. simpl. tauto.
Defined.

(** A move accepted with the safety check on is accepted without it. *)
Theorem isValidMove_without_safety (board : Board) (a b : Position) (turn : Color) :
  isValidMove board a b turn true = Ret true ->
  isValidMove board a b turn false = Ret true.
Proof.
  unfold isValidMove. intros H.
  apply obind_Ret in H as (x & -> & H). apply obind_Ret in H as (target & -> & H).
  cbn [obind]. destruct x as [| |p|]; try discriminate.
  destruct (negb (color_is p turn)); [discriminate|].
  destruct (match target with Obj t => _ | _ => false end); [discriminate|].
  apply obind_Ret in H as (g & Hg & H).
  destruct g as [valid|[]]; [|discriminate].
  destruct valid; [|discriminate]. clear H.
  assert (Hg' : geometry board p a b target turn false = Ret (inl true)).
  { unfold geometry in *. destruct (type p); try assumption.
    unfold kingValid in *.
    destruct ((_ <=? 1) && (_ <=? 1)); [assumption|].
    destruct ((_ =? 0) && (_ =? 2) && negb (moved p)); [|assumption].
    apply obind_Ret in Hg as (chk & _ & Hg). cbn [obind].
    destruct chk; [discriminate|].
    apply obind_Ret in Hg as (rook & -> & Hg). cbn [obind].
    destruct rook as [| |rk|]; try assumption.
    destruct (type_is rk Rook && color_is rk turn && negb (moved rk)); [|assumption].
    apply obind_Ret in Hg as (clear & -> & Hg). cbn [obind].
    destruct clear; [|assumption]. reflexivity. }
  rewrite Hg'. reflexivity.
Qed.

Lemma isValidMove_without_safety_witness :
  isValidMove getInitialBoard (mkPos 6 4) (mkPos 4 4) white false = Ret true.
Proof.
  apply isValidMove_without_safety. vm_compute. reflexivity.
Defined.

(** ** A side without its king *)

Lemma is_piece_moved (x : cell) (m : Move) (col : Color) :
  is_piece x col King = false ->
  is_piece (promote (movedCopy x) m None) col King = false.
Proof.
  destruct x as [| |p|]; try reflexivity. cbn [movedCopy promote].
  destruct (type_is (setMoved p) Pawn && _) eqn:E; [|intros H; exact H].
  intros _. cbn [is_piece]. apply andb_false_iff. right. reflexivity.
Qed.

Lemma is_piece_movedCopy (x : cell) (col : Color) (t : PieceType) :
  is_piece (movedCopy x) col t = is_piece x col t.
Proof. destruct x; reflexivity. Qed.

(** A move applied with no promotion type brings no king to the board. *)
Lemma applyMove_no_new_king (board nb : Board) (a b : Position) (col : Color) :
  applyMove board (mkMove a b) None = Ret nb ->
  0 <= pos_r a < 8 -> 0 <= pos_c a < 8 ->
  (forall r c, 0 <= r < 8 -> 0 <= c < 8 -> isKingAt board col r c = false) ->
  forall r c, 0 <= r < 8 -> 0 <= c < 8 -> isKingAt nb col r c = false.
Proof.
  intros Happ Har Hac Hno r c Hr Hc.
  destruct (applyMove_get board nb (mkMove a b) None r c Happ) as (x & Hx & Hget).
  cbn [from to] in Hx, Hget. rewrite get_cloneBoard in Hx by lia.
  unfold isKingAt. rewrite Hget.
  destruct (_ && _); [reflexivity|].
  destruct (_ && _).
  { apply is_piece_moved. rewrite <- (isKingAt_get board col _ _ x Hx). apply Hno; lia. }
  destruct (_ && _ && _); [reflexivity|].
  destruct (_ && _ && _) eqn:E.
  - apply andb_true_iff in E as [E _]. apply andb_true_iff in E as [_ E].
    apply Z.eqb_eq in E. subst r.
    rewrite get_cloneBoard by (destruct (pos_c a <? pos_c b); lia).
    specialize (Hno (pos_r a) (if pos_c a <? pos_c b then 7 else 0) Har
                  ltac:(destruct (pos_c a <? pos_c b); lia)).
    unfold isKingAt in Hno.
    destruct (get board (pos_r a) _) as [y| |]; cbn [obind]; try reflexivity.
    rewrite is_piece_movedCopy. assumption.
  - rewrite get_cloneBoard by lia. apply Hno; assumption.
Qed.

Lemma kingSquares_nil (board : Board) (col : Color) :
  kingSquares board col = [] ->
  forall r c, 0 <= r < 8 -> 0 <= c < 8 -> isKingAt board col r c = false.
Proof.
  intros H r c Hr Hc.
  destruct (isKingAt board col r c) eqn:E; [|reflexivity].
  assert (Hin : mkPos r c ∈ kingSquares board col).
  { unfold kingSquares. apply list_elem_of_filter. split; [exact E|].
    apply elem_of_allSquares. auto. }
  rewrite H in Hin. inversion Hin.
Qed.

(** A color with no king on the board has no legal move and is reported
    in check. *)
Theorem no_king_no_move (board : Board) (col : Color) :
  readable board ->
  (forall r c, 0 <= r < 8 -> 0 <= c < 8 -> isKingAt board col r c = false) ->
  getAllMoves board col = Ret [] /\ isInCheck board col = Ret true.
Proof.
  intros Hb Hno. split.
  - destruct (getAllMoves_total board col Hb) as [ms Hms]. rewrite Hms.
    destruct ms as [|m ms]; [reflexivity|]. exfalso.
    destruct (getAllMoves_elem _ _ _ m Hms ltac:(left)) as (Hv & Ha & Hto & _).
    destruct m as [[ar ac] b]. cbn [from to] in *.
    apply elem_of_allSquares in Ha as [Har Hac].
    destruct (isValidMove_safe _ _ _ _ Hv) as (nb & Happ & Hsafe).
    assert (Hnb : readable nb)
      by (apply applyMove_length in Happ; unfold readable in *; lia).
    destruct (isInCheck_false_inv nb col Hnb Hsafe) as (r & c & Hr & Hc & Hk & _).
    rewrite (applyMove_no_new_king board nb _ b col Happ Har Hac Hno r c Hr Hc) in Hk.
    discriminate.
  - destruct (isInCheck_total board col Hb) as [[] Hv]; [assumption|]. exfalso.
    destruct (isInCheck_false_inv board col Hb Hv) as (r & c & Hr & Hc & Hk & _).
    rewrite (Hno r c Hr Hc) in Hk. discriminate.
Qed.

Lemma no_king_no_move_witness :
  getAllMoves (place [(0, 0, mk King black); (7, 7, mk Rook white)] emptyBoard) white = Ret [] /\
  isInCheck (place [(0, 0, mk King black); (7, 7, mk Rook white)] emptyBoard) white = Ret true.
Proof.
  apply no_king_no_move.
  - unfold readable. simpl. lia.
  - apply kingSquares_nil. vm_compute. reflexivity.
Defined.

(** ** The walk between two squares *)

Lemma isPathClear_loop_true_inv (board : Board) (dr dc : Z) (target : Position) :
  forall (fuel : nat) (r c : Z),
    isPathClear_loop fuel board dr dc r c target = Ret true ->
    exists n : nat,
      pos_r target = r + Z.of_nat n * dr /\ pos_c target = c + Z.of_nat n * dc /\
      forall i, 0 <= i < Z.of_nat n ->
        exists x, get board (r + i * dr) (c + i * dc) = Ret x /\ truthy x = false.
Proof.
  induction fuel as [|fuel IH]; intros r c H; cbn [isPathClear_loop] in H;
    destruct (negb (r =? pos_r target) || negb (c =? pos_c target)) eqn:Hcond;
    try discriminate.
  1, 3: apply orb_false_iff in Hcond as [E1 E2];
        apply negb_false_iff, Z.eqb_eq in E1, E2;
        exists 0%nat; repeat split; [lia | lia | intros i Hi; lia].
  apply obind_Ret in H as (x & Hx & H).
  destruct (truthy x) eqn:Htx; [discriminate|].
  destruct (IH _ _ H) as (n & Hr & Hc & Hempty).
  exists (S n). repeat split; [lia | lia |].
  intros i Hi. destruct (Z.eq_dec i 0) as [-> | Hi0].
  - exists x. rewrite !Z.mul_0_l, !Z.add_0_r. auto.
  - destruct (Hempty (i - 1) ltac:(lia)) as (y & Hy & Hty).
    exists y. split; [|assumption]. rewrite <- Hy. f_equal; lia.
Qed.

Lemma isPathClear_loop_true (board : Board) (dr dc : Z) (target : Position) :
  dr <> 0 \/ dc <> 0 ->
  forall (n fuel : nat) (r c : Z),
    (n <= fuel)%nat ->
    pos_r target = r + Z.of_nat n * dr -> pos_c target = c + Z.of_nat n * dc ->
    (forall i, 0 <= i < Z.of_nat n ->
       exists x, get board (r + i * dr) (c + i * dc) = Ret x /\ truthy x = false) ->
    isPathClear_loop fuel board dr dc r c target = Ret true.
Proof.
  intros Hne. induction n as [|n IH]; intros fuel r c Hf Hr Hc Hempty.
  - assert (E : negb (r =? pos_r target) || negb (c =? pos_c target) = false).
    { apply orb_false_iff. split; apply negb_false_iff, Z.eqb_eq; lia. }
    destruct fuel; cbn [isPathClear_loop]; rewrite E; reflexivity.
  - assert (E : negb (r =? pos_r target) || negb (c =? pos_c target) = true).
    { apply orb_true_iff. destruct Hne as [Hne | Hne]; [left | right];
        apply negb_true_iff, Z.eqb_neq; nia. }
    destruct fuel as [|fuel]; [lia|]. cbn [isPathClear_loop]. rewrite E.
    destruct (Hempty 0 ltac:(lia)) as (x & Hx & Htx).
    rewrite !Z.mul_0_l, !Z.add_0_r in Hx. rewrite Hx. cbn [obind]. rewrite Htx.
    apply IH; [lia | lia | lia |].
    intros i Hi. destruct (Hempty (i + 1) ltac:(lia)) as (y & Hy & Hty).
    exists y. split; [|assumption]. rewrite <- Hy. f_equal; lia.
Qed.

Ltac sgn_lia :=
  repeat match goal with
         | H : context [Z.sgn ?e] |- _ =>
             let Hs := fresh "Hs" in
             destruct (Z.sgn_spec e) as [[? Hs] | [[? Hs] | [? Hs]]]; rewrite Hs in *; clear Hs
         | |- context [Z.sgn ?e] =>
             let Hs := fresh "Hs" in
             destruct (Z.sgn_spec e) as [[? Hs] | [[? Hs] | [? Hs]]]; rewrite Hs in *; clear Hs
         end; lia.

Lemma isPathClear_elim (board : Board) (a b : Position) :
  isPathClear board a b = Ret true ->
  (Z.abs (pos_c b - pos_c a) = 0 \/ Z.abs (pos_r b - pos_r a) = 0 \/
   Z.abs (pos_c b - pos_c a) = Z.abs (pos_r b - pos_r a)) /\
  clearLine board a b.
Proof.
  unfold isPathClear, clearLine.
  set (dx := Z.abs (pos_c b - pos_c a)). set (dy := Z.abs (pos_r b - pos_r a)).
  intros H. apply isPathClear_loop_true_inv in H as (n & Hr & Hc & Hempty).
  assert (Hdy : dy = 0 \/ dy = Z.of_nat n + 1) by (subst dy; clear Hc Hempty; sgn_lia).
  assert (Hdx : dx = 0 \/ dx = Z.of_nat n + 1) by (subst dx; clear Hr Hempty; sgn_lia).
  split; [lia|].
  intros i Hi. destruct (Hempty (i - 1) ltac:(lia)) as (x & Hx & Htx).
  exists x. split; [|assumption]. rewrite <- Hx. f_equal; lia.
Qed.

Lemma isPathClear_intro (board : Board) (a b : Position) :
  (Z.abs (pos_c b - pos_c a) = 0 \/ Z.abs (pos_r b - pos_r a) = 0 \/
   Z.abs (pos_c b - pos_c a) = Z.abs (pos_r b - pos_r a)) ->
  clearLine board a b ->
  isPathClear board a b = Ret true.
Proof.
  unfold isPathClear, clearLine.
  set (dx := Z.abs (pos_c b - pos_c a)). set (dy := Z.abs (pos_r b - pos_r a)).
  intros Hal Hempty.
  destruct (Z.eq_dec (Z.max dx dy) 0) as [E0 | Hpos].
  - assert (E1 : pos_r b - pos_r a = 0) by (subst dx dy; lia).
    assert (E2 : pos_c b - pos_c a = 0) by (subst dx dy; lia).
    rewrite E1, E2. simpl Z.sgn. rewrite !Z.add_0_r.
    assert (E : negb (pos_r a =? pos_r b) || negb (pos_c a =? pos_c b) = false).
    { apply orb_false_iff. split; apply negb_false_iff, Z.eqb_eq; lia. }
    destruct (isPathClear_fuel board a b); cbn [isPathClear_loop]; rewrite E; reflexivity.
  - assert (Hne : Z.sgn (pos_r b - pos_r a) <> 0 \/ Z.sgn (pos_c b - pos_c a) <> 0)
      by (subst dx dy; clear Hempty; sgn_lia).
    apply (isPathClear_loop_true board _ _ b Hne (Z.to_nat (Z.max dx dy - 1))).
    + unfold isPathClear_fuel. subst dx dy. lia.
    + subst dx dy. clear Hempty. sgn_lia.
    + subst dx dy. clear Hempty. sgn_lia.
    + intros i Hi. destruct (Hempty (i + 1) ltac:(lia)) as (x & Hx & Htx).
      exists x. split; [|assumption]. rewrite <- Hx. f_equal; lia.
Qed.

(** [isPathClear] answers [true] exactly when the two squares are on one
    row, one column or one diagonal and every square strictly between them
    reads as empty. *)
Theorem isPathClear_iff (board : Board) (a b : Position) :
  let dx := Z.abs (pos_c b - pos_c a) in
  let dy := Z.abs (pos_r b - pos_r a) in
  isPathClear board a b = Ret true <->
  (dx = 0 \/ dy = 0 \/ dx = dy) /\
  forall i, 1 <= i < Z.max dx dy ->
    exists x, get board (pos_r a + i * Z.sgn (pos_r b - pos_r a))
                        (pos_c a + i * Z.sgn (pos_c b - pos_c a)) = Ret x /\
              truthy x = false.
Proof.
  intros dx dy. split.
  - intros H. apply isPathClear_elim in H as [Hal Hline]. split; assumption.
  - intros [Hal Hline]. apply isPathClear_intro; assumption.
Qed.

(** ** Attack detection *)

Lemma orM_true (x y : outcome bool) :
  orM x y = Ret true -> x = Ret true \/ y = Ret true.
Proof. unfold orM. destruct x as [[]| |]; simpl; intros H; try discriminate; auto. Qed.

Lemma anyM_true {A : Type} (f : A -> outcome bool) (l : list A) :
  anyM f l = Ret true -> exists x, x ∈ l /\ f x = Ret true.
Proof.
  induction l as [|y l IH]; simpl; intros H; [discriminate|].
  apply orM_true in H as [H | H].
  - exists y. split; [left | assumption].
  - destruct (IH H) as (x & Hx & Hf). exists x. split; [right|]; assumption.
Qed.

Lemma is_piece_true (x : cell) (col : Color) (t : PieceType) :
  is_piece x col t = true -> exists p, x = Obj p /\ color p = col /\ type p = t.
Proof.
  destruct x as [| |p|]; simpl; try discriminate. intros H.
  apply andb_true_iff in H as [Hc Ht].
  apply color_is_eq in Hc. apply type_is_eq in Ht. eauto.
Qed.

(** A ray that answers [true] crossed empty squares of the board and met
    a piece of the color, of one of the types of the direction. *)
Lemma ray_true_inv (board : Board) (col : Color) (dr dc : Z) (types : list PieceType) :
  forall (fuel : nat) (r c : Z),
    ray fuel board col dr dc types r c = Ret true ->
    exists (n : nat) (p : Piece),
      (forall i, 0 <= i < Z.of_nat n ->
         exists x, get board (r + i * dr) (c + i * dc) = Ret x /\ truthy x = false) /\
      inBoard (r + Z.of_nat n * dr) (c + Z.of_nat n * dc) = true /\
      get board (r + Z.of_nat n * dr) (c + Z.of_nat n * dc) = Ret (Obj p) /\
      color p = col /\ includes types p = true.
Proof.
  induction fuel as [|fuel IH]; intros r c H; cbn [ray] in H;
    destruct (inBoard r c) eqn:Hin; try discriminate.
  apply obind_Ret in H as (x & Hx & H).
  assert (Hrec : truthy x = false ->
            ray fuel board col dr dc types (r + dr) (c + dc) = Ret true ->
            exists (n : nat) (p : Piece),
              (forall i, 0 <= i < Z.of_nat n ->
                 exists x, get board (r + i * dr) (c + i * dc) = Ret x /\ truthy x = false) /\
              inBoard (r + Z.of_nat n * dr) (c + Z.of_nat n * dc) = true /\
              get board (r + Z.of_nat n * dr) (c + Z.of_nat n * dc) = Ret (Obj p) /\
              color p = col /\ includes types p = true).
  { intros Htx Hray.
    destruct (IH _ _ Hray) as (n & p & Hempty & Hb & Hp & Hcol & Hty).
    exists (S n), p.
    replace (r + Z.of_nat (S n) * dr) with (r + dr + Z.of_nat n * dr) by lia.
    replace (c + Z.of_nat (S n) * dc) with (c + dc + Z.of_nat n * dc) by lia.
    repeat split; auto.
    intros i Hi. destruct (Z.eq_dec i 0) as [-> | Hi0].
    - rewrite !Z.mul_0_l, !Z.add_0_r. eauto.
    - destruct (Hempty (i - 1) ltac:(lia)) as (y & Hy & Hty').
      exists y. split; [rewrite <- Hy; f_equal; lia | assumption]. }
  destruct x as [| |q|]; try discriminate; try (apply Hrec; [reflexivity | assumption]).
  injection H as H. apply andb_true_iff in H as [Hc Ht]. apply color_is_eq in Hc.
  exists 0%nat, q. rewrite !Z.mul_0_l, !Z.add_0_r.
  repeat split; auto. intros i Hi. lia.
Qed.

(** A ray with steps to spare that crosses empty squares of the board and
    meets a piece answers for that piece. *)
Lemma ray_reach (board : Board) (col : Color) (dr dc : Z) (types : list PieceType) (p : Piece) :
  forall (n fuel : nat) (r c : Z),
    (n < fuel)%nat ->
    (forall i, 0 <= i <= Z.of_nat n -> inBoard (r + i * dr) (c + i * dc) = true) ->
    (forall i, 0 <= i < Z.of_nat n ->
       exists x, get board (r + i * dr) (c + i * dc) = Ret x /\ truthy x = false) ->
    get board (r + Z.of_nat n * dr) (c + Z.of_nat n * dc) = Ret (Obj p) ->
    ray fuel board col dr dc types r c = Ret (color_is p col && includes types p).
Proof.
  induction n as [|n IH]; intros fuel r c Hf Hin Hempty Hend;
    (destruct fuel as [|fuel]; [lia|]); cbn [ray];
    pose proof (Hin 0 ltac:(lia)) as Hin0; rewrite !Z.mul_0_l, !Z.add_0_r in Hin0;
    rewrite Hin0.
  - rewrite !Z.mul_0_l, !Z.add_0_r in Hend. rewrite Hend. reflexivity.
  - destruct (Hempty 0 ltac:(lia)) as (x & Hx & Htx).
    rewrite !Z.mul_0_l, !Z.add_0_r in Hx. rewrite Hx. cbn [obind].
    assert (Hnext : ray fuel board col dr dc types (r + dr) (c + dc)
                    = Ret (color_is p col && includes types p)).
    { apply IH; [lia | | |].
      - intros i Hi. rewrite <- (Hin (i + 1) ltac:(lia)). f_equal; lia.
      - intros i Hi. destruct (Hempty (i + 1) ltac:(lia)) as (y & Hy & Hty).
        exists y. split; [|assumption]. rewrite <- Hy. f_equal; lia.
      - rewrite <- Hend. f_equal; lia. }
    destruct x; try discriminate; assumption.
Qed.

Lemma knightMoves_spec (pos m : Position) :
  m ∈ knightMoves pos <->
  (Z.abs (pos_c pos - pos_c m) = 2 /\ Z.abs (pos_r pos - pos_r m) = 1) \/
  (Z.abs (pos_c pos - pos_c m) = 1 /\ Z.abs (pos_r pos - pos_r m) = 2).
Proof.
  split.
  - intros H. unfold knightMoves in H.
    repeat (apply elem_of_cons in H as [-> | H]; [cbn [pos_r pos_c]; lia|]).
    inversion H.
  - intros H. destruct m as [r c]. cbn [pos_r pos_c] in H.
    assert (E : (r = pos_r pos - 2 /\ c = pos_c pos - 1) \/ (r = pos_r pos - 2 /\ c = pos_c pos + 1)
             \/ (r = pos_r pos - 1 /\ c = pos_c pos - 2) \/ (r = pos_r pos - 1 /\ c = pos_c pos + 2)
             \/ (r = pos_r pos + 1 /\ c = pos_c pos - 2) \/ (r = pos_r pos + 1 /\ c = pos_c pos + 2)
             \/ (r = pos_r pos + 2 /\ c = pos_c pos - 1) \/ (r = pos_r pos + 2 /\ c = pos_c pos + 1))
      by lia.
    apply list_elem_of_In. unfold knightMoves. simpl.
    repeat (destruct E as [[-> ->] | E]; [tauto|]). destruct E as [-> ->]. tauto.
Qed.

Lemma includes_straight (p : Piece) :
  includes [Rook; Queen] p = true <-> type p = Rook \/ type p = Queen.
Proof. unfold includes, type_is. simpl. destruct (type p); simpl; intuition congruence. Qed.

Lemma includes_diagonal (p : Piece) :
  includes [Bishop; Queen] p = true <-> type p = Bishop \/ type p = Queen.
Proof. unfold includes, type_is. simpl. destruct (type p); simpl; intuition congruence. Qed.

(** The types listed with a direction are those of the pieces that slide
    along it. *)
Lemma directions_types (dr dc : Z) (types : list PieceType) (p : Piece) :
  (dr, dc, types) ∈ directions -> includes types p = true ->
  (dr = 0 \/ dc = 0) /\ (type p = Rook \/ type p = Queen) \/
  (dr <> 0 /\ dc <> 0) /\ (type p = Bishop \/ type p = Queen).
Proof.
  unfold directions. intros H Hty.
  repeat (apply elem_of_cons in H as [E | H];
          [injection E as -> -> ->;
           first [apply includes_straight in Hty; left; split; [lia | assumption]
                 | apply includes_diagonal in Hty; right; split; [lia | assumption]]|]).
  inversion H.
Qed.

(** What [isSquareUnderAttack] finds: a piece of the color that bears on
    the square. *)
Lemma isSquareUnderAttack_elim (board : Board) (pos : Position) (col : Color) :
  0 <= pos_r pos < 8 -> 0 <= pos_c pos < 8 ->
  isSquareUnderAttack board pos col = Ret true ->
  exists s p, 0 <= pos_r s < 8 /\ 0 <= pos_c s < 8 /\
              get board (pos_r s) (pos_c s) = Ret (Obj p) /\ color p = col /\
              bearsOn board p s pos.
Proof.
  intros Hr Hc H. unfold isSquareUnderAttack in H.
  apply orM_true in H as [H | H]; [|apply orM_true in H as [H | H];
                                     [|apply orM_true in H as [H | H]]].
  - (* a pawn *)
    unfold pawnAttack in H.
    destruct ((0 <=? _) && (_ <? 8)) eqn:Hrow; [|discriminate].
    apply andb_true_iff in Hrow as [Hr1 Hr2]. apply Z.leb_le in Hr1. apply Z.ltb_lt in Hr2.
    apply orM_true in H as [H | H].
    + destruct (Z.leb_spec 0 (pos_c pos - 1)); [|discriminate].
      apply obind_Ret in H as (x & Hx & H). injection H as H.
      apply is_piece_true in H as (p & -> & Hcol & Hty).
      exists (mkPos (pos_r pos + (if Color_eqb col white then 1 else -1)) (pos_c pos - 1)), p.
      cbn [pos_r pos_c]. repeat split; auto; try lia.
      unfold bearsOn. rewrite Hty, Hcol. cbn [pos_r pos_c]. destruct col; simpl; lia.
    + destruct (Z.ltb_spec (pos_c pos + 1) 8); [|discriminate].
      apply obind_Ret in H as (x & Hx & H). injection H as H.
      apply is_piece_true in H as (p & -> & Hcol & Hty).
      exists (mkPos (pos_r pos + (if Color_eqb col white then 1 else -1)) (pos_c pos + 1)), p.
      cbn [pos_r pos_c]. repeat split; auto; try lia.
      unfold bearsOn. rewrite Hty, Hcol. cbn [pos_r pos_c]. destruct col; simpl; lia.
  - (* a knight *)
    unfold knightAttack in H. apply anyM_true in H as (m & Hm & H).
    destruct (inBoard (pos_r m) (pos_c m)) eqn:Hin; [|discriminate].
    apply inBoard_spec in Hin.
    apply obind_Ret in H as (x & Hx & H). injection H as H.
    apply is_piece_true in H as (p & -> & Hcol & Hty).
    exists m, p. repeat split; auto; try lia.
    unfold bearsOn. rewrite Hty. apply knightMoves_spec. assumption.
  - (* a king *)
    unfold kingAttack in H. apply anyM_true in H as (r & Hr' & H).
    apply anyM_true in H as (c & Hc' & H).
    apply elem_of_zrange in Hr', Hc'.
    destruct ((r =? pos_r pos) && (c =? pos_c pos)) eqn:Hself; [discriminate|].
    apply obind_Ret in H as (x & Hx & H). injection H as H.
    apply is_piece_true in H as (p & -> & Hcol & Hty).
    exists (mkPos r c), p. cbn [pos_r pos_c]. repeat split; auto; try lia.
    unfold bearsOn. rewrite Hty. cbn [pos_r pos_c].
    apply andb_false_iff in Hself. rewrite !Z.eqb_neq in Hself. lia.
  - (* a rook, a bishop or a queen *)
    unfold slidingAttack in H. apply anyM_true in H as ([[dr dc] types] & Hd & H).
    apply ray_true_inv in H as (n & p & Hempty & Hin & Hp & Hcol & Hty).
    apply inBoard_spec in Hin.
    pose proof (directions_steps _ _ _ Hd) as (Hdr & Hdc & Hne).
    exists (mkPos (pos_r pos + dr + Z.of_nat n * dr) (pos_c pos + dc + Z.of_nat n * dc)), p.
    cbn [pos_r pos_c]. repeat split; auto; try lia.
    assert (Hline : clearLine board
              (mkPos (pos_r pos + dr + Z.of_nat n * dr) (pos_c pos + dc + Z.of_nat n * dc)) pos).
    { unfold clearLine. cbn [pos_r pos_c]. intros i Hi.
      destruct (Hempty (Z.of_nat n - i)) as (x & Hx & Htx); [nia|].
      exists x. split; [|assumption]. rewrite <- Hx.
      assert (E1 : Z.sgn (pos_r pos - (pos_r pos + dr + Z.of_nat n * dr)) = - dr).
      { replace (pos_r pos - (pos_r pos + dr + Z.of_nat n * dr)) with (- dr * (Z.of_nat n + 1))
          by lia.
        rewrite Z.sgn_mul, (Z.sgn_pos (Z.of_nat n + 1)) by lia.
        destruct (Z.sgn_spec (- dr)) as [[? ->] | [[? ->] | [? ->]]]; lia. }
      assert (E2 : Z.sgn (pos_c pos - (pos_c pos + dc + Z.of_nat n * dc)) = - dc).
      { replace (pos_c pos - (pos_c pos + dc + Z.of_nat n * dc)) with (- dc * (Z.of_nat n + 1))
          by lia.
        rewrite Z.sgn_mul, (Z.sgn_pos (Z.of_nat n + 1)) by lia.
        destruct (Z.sgn_spec (- dc)) as [[? ->] | [[? ->] | [? ->]]]; lia. }
      rewrite E1, E2. f_equal; lia. }
    unfold bearsOn. cbn [pos_r pos_c].
    destruct (directions_types _ _ _ p Hd Hty) as [[Hs [-> | ->]] | [[Hd1 Hd2] [-> | ->]]];
      (split; [nia | split; [nia | assumption]]).
Qed.

(** The ray cast from [pos] towards a piece on a clear line reaches it. *)
Lemma ray_slider (board : Board) (col : Color) (types : list PieceType) (p : Piece)
    (s pos : Position) :
  let dx := Z.abs (pos_c pos - pos_c s) in
  let dy := Z.abs (pos_r pos - pos_r s) in
  let dr := Z.sgn (pos_r s - pos_r pos) in
  let dc := Z.sgn (pos_c s - pos_c pos) in
  0 <= pos_r pos < 8 -> 0 <= pos_c pos < 8 -> 0 <= pos_r s < 8 -> 0 <= pos_c s < 8 ->
  get board (pos_r s) (pos_c s) = Ret (Obj p) ->
  dx = 0 \/ dy = 0 \/ dx = dy -> dx <> 0 \/ dy <> 0 -> clearLine board s pos ->
  ray 8 board col dr dc types (pos_r pos + dr) (pos_c pos + dc)
  = Ret (color_is p col && includes types p).
Proof.
  intros dx dy dr dc Hr Hc Hsr Hsc Hp Hal Hne Hline.
  apply (ray_reach board col dr dc types p (Z.to_nat (Z.max dx dy - 1))).
  - subst dx dy. lia.
  - intros i Hi. apply inBoard_spec. subst dx dy dr dc. clear Hline Hp. sgn_lia.
  - intros i Hi. destruct (Hline (Z.max dx dy - 1 - i)) as (x & Hx & Htx).
    { subst dx dy. lia. }
    exists x. split; [|assumption]. rewrite <- Hx.
    subst dx dy dr dc. clear Hline Hp Hx. f_equal; sgn_lia.
  - rewrite <- Hp. subst dx dy dr dc. clear Hline Hp. f_equal; sgn_lia.
Qed.

Lemma bearsOn_slider (board : Board) (p : Piece) (s pos : Position) :
  type p = Rook \/ type p = Bishop \/ type p = Queen ->
  bearsOn board p s pos ->
  let dx := Z.abs (pos_c pos - pos_c s) in
  let dy := Z.abs (pos_r pos - pos_r s) in
  (dx = 0 \/ dy = 0 \/ dx = dy) /\ (dx <> 0 \/ dy <> 0) /\ clearLine board s pos /\
  exists types,
    (Z.sgn (pos_r s - pos_r pos), Z.sgn (pos_c s - pos_c pos), types) ∈ directions /\
    includes types p = true.
Proof.
  intros Hty Hb dx dy. unfold bearsOn in Hb. fold dx dy in Hb.
  assert (H : (dx = 0 \/ dy = 0 \/ dx = dy) /\ (dx <> 0 \/ dy <> 0) /\ clearLine board s pos /\
              ((dx = 0 \/ dy = 0) /\ (type p = Rook \/ type p = Queen) \/
               (dx <> 0 /\ dy <> 0) /\ (type p = Bishop \/ type p = Queen))).
  { destruct Hty as [E | [E | E]]; rewrite E in Hb.
    - destruct Hb as (H1 & H2 & H3). repeat split; auto. lia.
    - destruct Hb as (H1 & H2 & H3). repeat split; auto; try lia. right. split; [lia | auto].
    - destruct Hb as (H1 & H2 & H3). repeat split; auto.
      destruct (Z.eq_dec dx 0); [left; split; auto|].
      destruct (Z.eq_dec dy 0); [left; split; auto|].
      right. split; auto. }
  destruct H as (Hal & Hne & Hline & Hkind). repeat split; auto.
  destruct Hkind as [[Hs Hk] | [Hd Hk]].
  - exists [Rook; Queen]. split; [|apply includes_straight; assumption].
    apply list_elem_of_In. unfold directions. subst dx dy. clear Hline Hb.
    destruct (Z.sgn_spec (pos_r s - pos_r pos)) as [[? ->] | [[? ->] | [? ->]]];
      destruct (Z.sgn_spec (pos_c s - pos_c pos)) as [[? ->] | [[? ->] | [? ->]]];
      try lia; simpl; tauto.
  - exists [Bishop; Queen]. split; [|apply includes_diagonal; assumption].
    apply list_elem_of_In. unfold directions. subst dx dy. clear Hline Hb.
    destruct (Z.sgn_spec (pos_r s - pos_r pos)) as [[? ->] | [[? ->] | [? ->]]];
      destruct (Z.sgn_spec (pos_c s - pos_c pos)) as [[? ->] | [[? ->] | [? ->]]];
      try lia; simpl; tauto.
Qed.

(** A piece of the color that bears on the square is found. *)
Lemma isSquareUnderAttack_intro (board : Board) (pos s : Position) (col : Color) (p : Piece) :
  readable board ->
  0 <= pos_r pos < 8 -> 0 <= pos_c pos < 8 -> 0 <= pos_r s < 8 -> 0 <= pos_c s < 8 ->
  get board (pos_r s) (pos_c s) = Ret (Obj p) -> color p = col ->
  bearsOn board p s pos ->
  isSquareUnderAttack board pos col = Ret true.
Proof.
  intros Hb Hr Hc Hsr Hsc Hp Hcol Hbears.
  destruct (isSquareUnderAttack_total board pos col Hb) as [[] Hv]; [assumption|]. exfalso.
  unfold isSquareUnderAttack in Hv.
  apply orM_false in Hv as [Hpawn Hv]. apply orM_false in Hv as [Hknight Hv].
  apply orM_false in Hv as [Hking Hslide].
  assert (Hcolb : color_is p col = true) by (apply color_is_eq; assumption).
  destruct (type p) eqn:Hty.
  - (* king *)
    unfold bearsOn in Hbears. rewrite Hty in Hbears.
    unfold kingAttack in Hking. rewrite anyM_false in Hking.
    specialize (Hking (pos_r s) ltac:(apply elem_of_zrange; lia)).
    rewrite anyM_false in Hking.
    specialize (Hking (pos_c s) ltac:(apply elem_of_zrange; lia)).
    replace ((pos_r s =? pos_r pos) && (pos_c s =? pos_c pos)) with false in Hking
      by (symmetry; apply andb_false_iff; rewrite !Z.eqb_neq; lia).
    rewrite Hp in Hking. cbn [obind is_piece] in Hking.
    rewrite Hcolb, (proj2 (type_is_eq p King) Hty) in Hking. discriminate.
  - (* queen *)
    destruct (bearsOn_slider board p s pos ltac:(auto) Hbears)
      as (Hal & Hne & Hline & types & Hd & Hinc).
    unfold slidingAttack in Hslide. rewrite anyM_false in Hslide.
    specialize (Hslide _ Hd). cbn beta iota in Hslide.
    rewrite (ray_slider board col types p s pos Hr Hc Hsr Hsc Hp Hal Hne Hline) in Hslide.
    rewrite Hcolb, Hinc in Hslide. discriminate.
  - (* rook *)
    destruct (bearsOn_slider board p s pos ltac:(auto) Hbears)
      as (Hal & Hne & Hline & types & Hd & Hinc).
    unfold slidingAttack in Hslide. rewrite anyM_false in Hslide.
    specialize (Hslide _ Hd). cbn beta iota in Hslide.
    rewrite (ray_slider board col types p s pos Hr Hc Hsr Hsc Hp Hal Hne Hline) in Hslide.
    rewrite Hcolb, Hinc in Hslide. discriminate.
  - (* bishop *)
    destruct (bearsOn_slider board p s pos ltac:(auto) Hbears)
      as (Hal & Hne & Hline & types & Hd & Hinc).
    unfold slidingAttack in Hslide. rewrite anyM_false in Hslide.
    specialize (Hslide _ Hd). cbn beta iota in Hslide.
    rewrite (ray_slider board col types p s pos Hr Hc Hsr Hsc Hp Hal Hne Hline) in Hslide.
    rewrite Hcolb, Hinc in Hslide. discriminate.
  - (* knight *)
    unfold bearsOn in Hbears. rewrite Hty in Hbears.
    unfold knightAttack in Hknight. rewrite anyM_false in Hknight.
    specialize (Hknight s (proj2 (knightMoves_spec pos s) Hbears)).
    rewrite (proj2 (inBoard_spec _ _) (conj Hsr Hsc)), Hp in Hknight.
    cbn [obind is_piece] in Hknight.
    rewrite Hcolb, (proj2 (type_is_eq p Knight) Hty) in Hknight. discriminate.
  - (* pawn *)
    unfold bearsOn in Hbears. rewrite Hty, Hcol in Hbears. destruct Hbears as [Hdx Hrow].
    unfold pawnAttack in Hpawn.
    assert (Erow : pos_r pos + (if Color_eqb col white then 1 else -1) = pos_r s)
      by (destruct col; simpl; lia).
    rewrite Erow in Hpawn.
    replace ((0 <=? pos_r s) && (pos_r s <? 8)) with true in Hpawn
      by (symmetry; apply andb_true_iff; rewrite Z.leb_le, Z.ltb_lt; lia).
    apply orM_false in Hpawn as [Hleft Hright].
    assert (Hside : pos_c s = pos_c pos - 1 \/ pos_c s = pos_c pos + 1) by lia.
    destruct Hside as [E | E]; rewrite <- E in *.
    + destruct (Z.leb_spec 0 (pos_c s)); [|lia].
      rewrite Hp in Hleft. cbn [obind is_piece] in Hleft.
      rewrite Hcolb, (proj2 (type_is_eq p Pawn) Hty) in Hleft. discriminate.
    + destruct (Z.ltb_spec (pos_c s) 8); [|lia].
      rewrite Hp in Hright. cbn [obind is_piece] in Hright.
      rewrite Hcolb, (proj2 (type_is_eq p Pawn) Hty) in Hright. discriminate.
Qed.

(** The declarative reading of [isSquareUnderAttack]: a square of the
    board is under attack exactly when a piece of the color, on the board,
    bears on it. *)
Theorem isSquareUnderAttack_iff (board : Board) (pos : Position) (col : Color) :
  readable board -> 0 <= pos_r pos < 8 -> 0 <= pos_c pos < 8 ->
  exists v, isSquareUnderAttack board pos col = Ret v /\
    (v = true <->
     exists s p, 0 <= pos_r s < 8 /\ 0 <= pos_c s < 8 /\
                 get board (pos_r s) (pos_c s) = Ret (Obj p) /\ color p = col /\
                 bearsOn board p s pos).
Proof.
  intros Hb Hr Hc.
  destruct (isSquareUnderAttack_total board pos col Hb) as [v Hv].
  exists v. split; [assumption|]. split.
  - intros ->. apply isSquareUnderAttack_elim; assumption.
  - intros (s & p & Hsr & Hsc & Hp & Hcol & Hbears).
    rewrite (isSquareUnderAttack_intro board pos s col p Hb Hr Hc Hsr Hsc Hp Hcol Hbears) in Hv.
    congruence.
Qed.

Lemma isSquareUnderAttack_iff_witness :
  exists v, isSquareUnderAttack matedBoard (mkPos 0 0) white = Ret v /\
    (v = true <->
     exists s p, 0 <= pos_r s < 8 /\ 0 <= pos_c s < 8 /\
                 get matedBoard (pos_r s) (pos_c s) = Ret (Obj p) /\ color p = white /\
                 bearsOn matedBoard p s (mkPos 0 0)).
Proof.
  apply isSquareUnderAttack_iff.
  - unfold readable. simpl. lia.
  - simpl. lia.
  - simpl. lia.
Defined.

(** A king does not castle onto a piece of the other color. *)
Lemma kingValid_capture (board : Board) (s pos : Position) (col : Color) (p t : Piece) :
  0 <= pos_c pos < 8 ->
  get board (pos_r pos) (pos_c pos) = Ret (Obj t) -> color t <> col ->
  kingValid board p s pos col false = Ret (inl true) ->
  Z.abs (pos_c pos - pos_c s) <= 1 /\ Z.abs (pos_r pos - pos_r s) <= 1.
Proof.
  intros Hc Ht Htcol. unfold kingValid.
  destruct (Z.leb_spec (Z.abs (pos_c pos - pos_c s)) 1) as [Hdx | Hdx];
    destruct (Z.leb_spec (Z.abs (pos_r pos - pos_r s)) 1) as [Hdy | Hdy]; cbn [andb];
    try (intros _; lia).
  all: destruct ((_ =? 0) && (_ =? 2) && negb (moved p)) eqn:Hcast; [|discriminate].
  all: apply andb_true_iff in Hcast as [Hcast _]; apply andb_true_iff in Hcast as [Hdy0 Hdx2].
  all: apply Z.eqb_eq in Hdy0, Hdx2.
  all: cbn [obind]; intros H; exfalso.
  all: apply obind_Ret in H as (rook & Hrook & H).
  all: destruct rook as [| |rk|]; try discriminate.
  all: destruct (type_is rk Rook && color_is rk col && negb (moved rk)) eqn:Hrk; [|discriminate].
  all: apply andb_true_iff in Hrk as [Hrk _]; apply andb_true_iff in Hrk as [_ Hrc].
  all: apply color_is_eq in Hrc.
  all: apply obind_Ret in H as (clear & Hclear & H).
  all: destruct clear; [|discriminate].
  all: assert (Hrow : pos_r pos = pos_r s) by lia.
  all: destruct (Z.eq_dec (pos_c pos) (if pos_c s <? pos_c pos then 7 else 0)) as [E | E];
    [ rewrite <- E, <- Hrow, Ht in Hrook; injection Hrook as <-; contradiction |].
  all: destruct (isPathClear_row board s _ Hclear (pos_c pos)) as (x & Hx & Htx);
    [ destruct (Z.ltb_spec (pos_c s) (pos_c pos)); lia |].
  all: rewrite <- Hrow, Ht in Hx; injection Hx as <-; discriminate.
Qed.

(** The validator, with the safety check off, accepts the capture of a
    piece of the other color exactly when the capturing piece bears on
    it. *)
Lemma isValidMove_bears (board : Board) (s pos : Position) (col : Color) (p t : Piece) :
  0 <= pos_c pos < 8 ->
  get board (pos_r s) (pos_c s) = Ret (Obj p) -> color p = col ->
  get board (pos_r pos) (pos_c pos) = Ret (Obj t) -> color t <> col ->
  isValidMove board s pos col false = Ret true <-> bearsOn board p s pos.
Proof.
  intros Hc Hp Hcol Ht Htcol.
  assert (Hne : Z.abs (pos_c pos - pos_c s) <> 0 \/ Z.abs (pos_r pos - pos_r s) <> 0).
  { destruct (Z.eq_dec (pos_c pos) (pos_c s)) as [E1 | E1]; [|lia].
    destruct (Z.eq_dec (pos_r pos) (pos_r s)) as [E2 | E2]; [|lia].
    rewrite E1, E2, Hp in Ht. injection Ht as <-. contradiction. }
  unfold isValidMove. rewrite Hp, Ht. cbn [obind].
  rewrite (proj2 (color_is_eq p col) Hcol). cbn [negb].
  replace (Color_eqb (color t) (color p)) with false
    by (rewrite Hcol; destruct (color t), col; simpl; congruence).
  unfold geometry, bearsOn. destruct (type p) eqn:Hty.
  - (* king *)
    split.
    + intros H. apply obind_Ret in H as (g & Hg & H).
      destruct g as [[]|[]]; try discriminate.
      destruct (kingValid_capture board s pos col p t Hc Ht Htcol Hg). lia.
    + intros (Hdx & Hdy & _). unfold kingValid.
      rewrite (proj2 (Z.leb_le _ _) Hdx), (proj2 (Z.leb_le _ _) Hdy). reflexivity.
  - (* queen *)
    unfold andPath.
    destruct ((_ =? 0) || (_ =? 0) || (_ =? _)) eqn:Hal; cbn [obind].
    + apply orb_true_iff in Hal. rewrite orb_true_iff, !Z.eqb_eq in Hal. split.
      * intros H. apply obind_Ret in H as (g & Hg & H).
        apply obind_Ret in Hg as (v & Hv & Hg). injection Hg as <-.
        destruct v; [|discriminate].
        apply isPathClear_elim in Hv as [_ Hline]. repeat split; [tauto | lia | assumption].
      * intros (_ & _ & Hline). rewrite (isPathClear_intro board s pos) by (tauto || assumption).
        reflexivity.
    + apply orb_false_iff in Hal as [Hal1 Hal3]. apply orb_false_iff in Hal1 as [Hal1 Hal2].
      rewrite Z.eqb_neq in Hal1, Hal2, Hal3.
      split; [discriminate | intros (? & _); lia].
  - (* rook *)
    unfold andPath.
    destruct ((_ =? 0) || (_ =? 0)) eqn:Hal; cbn [obind].
    + rewrite orb_true_iff, !Z.eqb_eq in Hal. split.
      * intros H. apply obind_Ret in H as (g & Hg & H).
        apply obind_Ret in Hg as (v & Hv & Hg). injection Hg as <-.
        destruct v; [|discriminate].
        apply isPathClear_elim in Hv as [_ Hline]. repeat split; [tauto | lia | assumption].
      * intros (_ & _ & Hline). rewrite (isPathClear_intro board s pos) by (tauto || assumption).
        reflexivity.
    + apply orb_false_iff in Hal as [Hal1 Hal2]. rewrite Z.eqb_neq in Hal1, Hal2.
      split; [discriminate | intros (? & _); lia].
  - (* bishop *)
    unfold andPath.
    destruct (Z.eqb_spec (Z.abs (pos_c pos - pos_c s)) (Z.abs (pos_r pos - pos_r s))) as [Hal | Hal];
      cbn [obind].
    + split.
      * intros H. apply obind_Ret in H as (g & Hg & H).
        apply obind_Ret in Hg as (v & Hv & Hg). injection Hg as <-.
        destruct v; [|discriminate].
        apply isPathClear_elim in Hv as [_ Hline]. repeat split; [assumption | lia | assumption].
      * intros (_ & _ & Hline). rewrite (isPathClear_intro board s pos) by (tauto || assumption).
        reflexivity.
    + split; [discriminate | intros (? & _); lia].
  - (* knight *)
    cbn [obind andb].
    destruct (((_ =? 2) && (_ =? 1)) || ((_ =? 1) && (_ =? 2))) eqn:Hk.
    + rewrite orb_true_iff, !andb_true_iff, !Z.eqb_eq in Hk. tauto.
    + rewrite orb_false_iff, !andb_false_iff, !Z.eqb_neq in Hk.
      split; [discriminate | intros H; lia].
  - (* pawn *)
    unfold pawnValid. cbn [truthy negb]. rewrite !andb_false_r. cbn [obind orb].
    rewrite !andb_true_r, andb_false_r. unfold color_is. rewrite Hcol.
    destruct (Z.eqb_spec (Z.abs (pos_c pos - pos_c s)) 1) as [Hdx | Hdx]; cbn [andb].
    + destruct col; cbn [Color_eqb];
        match goal with |- context [?a =? ?b] => destruct (Z.eqb_spec a b) end;
        (split; [intros H; first [split; [assumption | lia] | discriminate]
                | intros [_ H]; first [reflexivity | lia]]).
    + split; [discriminate | intros [? _]; lia].
Qed.

(** The attack detection agrees with the validator: a piece of the other
    color, on a square of the board, is under attack exactly when the
    validator, with the safety check off, lets a piece of the attacker
    capture it. *)
Theorem isSquareUnderAttack_capture (board : Board) (pos : Position) (col : Color) (t : Piece) :
  readable board -> 0 <= pos_r pos < 8 -> 0 <= pos_c pos < 8 ->
  get board (pos_r pos) (pos_c pos) = Ret (Obj t) -> color t <> col ->
  isSquareUnderAttack board pos col = Ret true <->
  exists s, 0 <= pos_r s < 8 /\ 0 <= pos_c s < 8 /\
            isValidMove board s pos col false = Ret true.
Proof.
  intros Hb Hr Hc Ht Htcol. split.
  - intros H. apply isSquareUnderAttack_elim in H as (s & p & Hsr & Hsc & Hp & Hcol & Hbears);
      try assumption.
    exists s. split; [assumption|]. split; [assumption|].
    apply (isValidMove_bears board s pos col p t); assumption.
  - intros (s & Hsr & Hsc & Hv).
    destruct (isValidMove_origin _ _ _ _ _ Hv) as (p & Hp & Hcol).
    apply (isSquareUnderAttack_intro board pos s col p); try assumption.
    apply (isValidMove_bears board s pos col p t); assumption.
Qed.

Lemma isSquareUnderAttack_capture_witness :
  isSquareUnderAttack matedBoard (mkPos 0 0) white = Ret true <->
  exists s, 0 <= pos_r s < 8 /\ 0 <= pos_c s < 8 /\
            isValidMove matedBoard s (mkPos 0 0) white false = Ret true.
Proof.
  apply (isSquareUnderAttack_capture matedBoard (mkPos 0 0) white (mkPiece King black (Some false))).
  - unfold readable. simpl. lia.
  - simpl. lia.
  - simpl. lia.
  - reflexivity.
  - discriminate.
Defined.

(** ** Pawns *)

(** What the validator accepts for a pawn: one square straight ahead onto
    an empty square; two squares from the home row over two empty squares;
    one square ahead on a diagonal onto a square that is occupied, and not
    by a piece of the mover.  There is no capture onto an empty square. *)
Theorem pawn_move_shape (board : Board) (a b : Position) (turn : Color) (cs : bool)
    (p : Piece) :
  get board (pos_r a) (pos_c a) = Ret (Obj p) -> type p = Pawn ->
  isValidMove board a b turn cs = Ret true ->
  let dir := match color p with white => -1 | black => 1 end in
  let home := match color p with white => 6 | black => 1 end in
  exists target,
    get board (pos_r b) (pos_c b) = Ret target /\
    ((pos_c b = pos_c a /\ pos_r b = pos_r a + dir /\ truthy target = false) \/
     (pos_c b = pos_c a /\ pos_r b = pos_r a + 2 * dir /\ pos_r a = home /\
      truthy target = false /\
      exists mid, get board (pos_r a + dir) (pos_c a) = Ret mid /\ truthy mid = false) \/
     (Z.abs (pos_c b - pos_c a) = 1 /\ pos_r b = pos_r a + dir /\
      truthy target = true /\ cell_color_is target turn = false)).
Proof.
  intros Hp Hty H dir home. unfold isValidMove in H. rewrite Hp in H. cbn [obind] in H.
  apply obind_Ret in H as (target & Ht & H). exists target. split; [assumption|].
  destruct (color_is p turn) eqn:Hcol; cbn [negb] in H; [|discriminate].
  apply color_is_eq in Hcol.
  destruct (match target with Obj t => _ | _ => false end) eqn:Hfriend; [discriminate|].
  assert (Hnot : cell_color_is target turn = false).
  { destruct target as [| |t|]; try reflexivity. cbn [cell_color_is]. unfold color_is.
    rewrite <- Hcol. assumption. }
  apply obind_Ret in H as (g & Hg & H).
  assert (Hvalid : g = inl true).
  { destruct g as [[]|[]]; try discriminate. reflexivity. }
  subst g. clear H. unfold geometry in Hg. rewrite Hty in Hg.
  apply obind_Ret in Hg as (v & Hv & Hg). injection Hg as ->.
  unfold pawnValid in Hv. apply obind_Ret in Hv as (v2 & Hv2 & Hv). injection Hv as Hv.
  assert (Edir : (if color_is p white then -1 else 1) = dir)
    by (unfold color_is; subst dir; destruct (color p); reflexivity).
  assert (Ehome : (if color_is p white then 6 else 1) = home)
    by (unfold color_is; subst home; destruct (color p); reflexivity).
  rewrite Edir in Hv, Hv2. rewrite Ehome in Hv2.
  apply orb_true_iff in Hv as [Hv | Hv]; [apply orb_true_iff in Hv as [Hv | Hv]|].
  - left. rewrite !andb_true_iff, !Z.eqb_eq, negb_true_iff in Hv.
    destruct Hv as [[? ?] ?]. auto.
  - right. left. subst v2.
    destruct (_ && _ && _ && _) eqn:Hcond; [|discriminate].
    rewrite !andb_true_iff, !Z.eqb_eq, negb_true_iff in Hcond.
    destruct Hcond as [[[? ?] ?] ?].
    apply obind_Ret in Hv2 as (mid & Hmid & Hv2). injection Hv2 as Hv2.
    apply negb_true_iff in Hv2. repeat split; auto. exists mid. auto.
  - right. right. rewrite !andb_true_iff, !Z.eqb_eq in Hv.
    destruct Hv as [[? ?] ?]. auto.
Qed.

Lemma pawn_move_shape_witness :
  exists target,
    get getInitialBoard 4 4 = Ret target /\
    ((4 = 4 /\ 4 = 6 + -1 /\ truthy target = false) \/
     (4 = 4 /\ 4 = 6 + 2 * -1 /\ 6 = 6 /\ truthy target = false /\
      exists mid, get getInitialBoard (6 + -1) 4 = Ret mid /\ truthy mid = false) \/
     (Z.abs (4 - 4) = 1 /\ 4 = 6 + -1 /\
      truthy target = true /\ cell_color_is target white = false)).
Proof.
  assert (Hv : isValidMove getInitialBoard (mkPos 6 4) (mkPos 4 4) white true = Ret true)
    by (vm_compute; reflexivity).
  exact (pawn_move_shape getInitialBoard (mkPos 6 4) (mkPos 4 4) white true
           (mkPiece Pawn white (Some false)) eq_refl eq_refl Hv).
Defined.

(** ** What a move changes *)

Lemma cell_type_is_movedCopy (x : cell) (t : PieceType) :
  cell_type_is (movedCopy x) t = cell_type_is x t.
Proof. destruct x; reflexivity. Qed.

(** A move that is no castling changes two squares only: the origin is
    emptied, and the destination receives the copy, marked as moved and
    promoted if it is a pawn on row 0 or 7, of what stood on the origin. *)
Theorem applyMove_two_squares (board nb : Board) (m : Move) (promoteTo : option PieceType)
    (x : cell) :
  applyMove board m promoteTo = Ret nb ->
  0 <= pos_c (from m) ->
  get board (pos_r (from m)) (pos_c (from m)) = Ret x ->
  cell_type_is x King && (Z.abs (pos_c (to m) - pos_c (from m)) =? 2) = false ->
  get nb (pos_r (from m)) (pos_c (from m)) = Ret Null /\
  (from m <> to m ->
   get nb (pos_r (to m)) (pos_c (to m)) = Ret (promote (movedCopy x) m promoteTo)) /\
  forall r c, 0 <= c ->
    (r <> pos_r (from m) \/ c <> pos_c (from m)) ->
    (r <> pos_r (to m) \/ c <> pos_c (to m)) ->
    get nb r c = get board r c.
Proof.
  intros Happ Hc Hx Hcast.
  assert (Hnc : isCastling board m = false).
  { unfold isCastling. rewrite get_cloneBoard by assumption. rewrite Hx.
    rewrite cell_type_is_movedCopy. assumption. }
  assert (Hget : forall r c,
            get nb r c =
            if (pos_r (from m) =? r) && (pos_c (from m) =? c) then Ret Null
            else if (pos_r (to m) =? r) && (pos_c (to m) =? c)
                 then Ret (promote (movedCopy x) m promoteTo)
                 else get (cloneBoard board) r c).
  { intros r c. destruct (applyMove_get board nb m promoteTo r c Happ) as (x' & Hx' & ->).
    rewrite get_cloneBoard, Hx in Hx' by assumption. injection Hx' as <-.
    rewrite Hnc. reflexivity. }
  repeat split.
  - rewrite Hget, !Z.eqb_refl. reflexivity.
  - intros Hne. rewrite Hget, !Z.eqb_refl. cbn [andb].
    destruct ((pos_r (from m) =? pos_r (to m)) && (pos_c (from m) =? pos_c (to m))) eqn:E;
      [|reflexivity].
    apply andb_true_iff in E as [E1 E2]. apply Z.eqb_eq in E1, E2.
    destruct (from m) as [r c], (to m) as [r' c']. cbn [pos_r pos_c] in *. congruence.
  - intros r c Hc' Hfrom Hto. rewrite Hget.
    replace ((pos_r (from m) =? r) && (pos_c (from m) =? c)) with false
      by (symmetry; apply andb_false_iff; rewrite !Z.eqb_neq; lia).
    replace ((pos_r (to m) =? r) && (pos_c (to m) =? c)) with false
      by (symmetry; apply andb_false_iff; rewrite !Z.eqb_neq; lia).
    apply get_cloneBoard. assumption.
Qed.

Lemma applyMove_two_squares_witness :
  exists nb, applyMove getInitialBoard (mv 6 4 4 4) None = Ret nb /\
             get nb 6 4 = Ret Null /\
             get nb 4 4 = Ret (Obj (mkPiece Pawn white (Some true))) /\
             get nb 7 4 = get getInitialBoard 7 4.
Proof.
  destruct (applyMove getInitialBoard (mv 6 4 4 4) None) as [nb| |] eqn:Happ;
    [|vm_compute in Happ; discriminate | vm_compute in Happ; discriminate].
  exists nb. split; [reflexivity|].
  destruct (applyMove_two_squares getInitialBoard nb (mv 6 4 4 4) None
              (Obj (mkPiece Pawn white (Some false))) Happ ltac:(simpl; lia) eq_refl eq_refl)
    as (H1 & H2 & H3).
  split; [exact H1|]. split; [exact (H2 ltac:(discriminate))|].
  apply H3; simpl; lia.
Defined.

(** ** A move from an empty square *)

Lemma num_add_NaN (x : num) : num_add NaN x = NaN.
Proof. reflexivity. Qed.

Lemma evaluateLoop_NaN (board : Board) (sqs : list Position) :
  readable board ->
  (forall s, s ∈ sqs -> 0 <= pos_r s < 8) ->
  evaluateLoop board NaN sqs = Ret NaN.
Proof.
  intros Hb. induction sqs as [|s sqs IH]; intros Hin; cbn [evaluateLoop]; [reflexivity|].
  destruct (get_readable board (pos_r s) (pos_c s) Hb (Hin s ltac:(left))) as [x ->].
  cbn [obind]. rewrite num_add_NaN.
  destruct (truthy x); apply IH; intros s' Hs'; apply Hin; right; assumption.
Qed.

Lemma evaluateLoop_Bare (board : Board) (sqs : list Position) (k : Position) :
  readable board ->
  (forall s, s ∈ sqs -> 0 <= pos_r s < 8) ->
  k ∈ sqs -> get board (pos_r k) (pos_c k) = Ret Bare ->
  forall score, evaluateLoop board score sqs = Ret NaN.
Proof.
  intros Hb. induction sqs as [|s sqs IH]; intros Hin Hk Hbare score; [inversion Hk|].
  cbn [evaluateLoop].
  assert (Hin' : forall s', s' ∈ sqs -> 0 <= pos_r s' < 8)
    by (intros s' Hs'; apply Hin; right; assumption).
  apply elem_of_cons in Hk as [<- | Hk].
  - rewrite Hbare. cbn [obind truthy cellScore].
    replace (num_add score NaN) with NaN by (destruct score; reflexivity).
    apply evaluateLoop_NaN; assumption.
  - destruct (get_readable board (pos_r s) (pos_c s) Hb (Hin s ltac:(left))) as [x ->].
    cbn [obind]. apply IH; assumption.
Qed.

(** The test [if (!p)] of [applyMove] never stops a move: from an empty
    origin, the destination receives an object with no type and no color,
    and the evaluator then answers [NaN]. *)
Theorem applyMove_empty_origin (board : Board) (m : Move) (promoteTo : option PieceType)
    (x : cell) :
  readable board ->
  0 <= pos_r (from m) < 8 -> 0 <= pos_c (from m) ->
  0 <= pos_r (to m) < 8 -> 0 <= pos_c (to m) < 8 ->
  from m <> to m ->
  get board (pos_r (from m)) (pos_c (from m)) = Ret x -> truthy x = false ->
  exists nb, applyMove board m promoteTo = Ret nb /\
             get nb (pos_r (to m)) (pos_c (to m)) = Ret Bare /\
             evaluateBoard nb = Ret NaN.
Proof.
  intros Hb Har Hac Hbr Hbc Hne Hx Htx.
  destruct (applyMove_total board m promoteTo Hb Har Hbr) as (nb & Happ & Hnb).
  exists nb. split; [assumption|].
  assert (Hto : get nb (pos_r (to m)) (pos_c (to m)) = Ret Bare).
  { destruct (applyMove_get board nb m promoteTo (pos_r (to m)) (pos_c (to m)) Happ)
      as (x' & Hx' & ->).
    rewrite get_cloneBoard, Hx in Hx' by assumption. injection Hx' as <-.
    replace ((pos_r (from m) =? pos_r (to m)) && (pos_c (from m) =? pos_c (to m))) with false.
    - rewrite !Z.eqb_refl. cbn [andb]. destruct x; try discriminate; reflexivity.
    - symmetry. apply andb_false_iff. rewrite !Z.eqb_neq.
      destruct (from m) as [r c], (to m) as [r' c']. cbn [pos_r pos_c] in *.
      destruct (Z.eq_dec r r'); [|auto]. right. congruence. }
  split; [assumption|].
  unfold evaluateBoard. apply (evaluateLoop_Bare nb allSquares (to m)); try assumption.
  - intros [r c] Hs. apply elem_of_allSquares in Hs. cbn [pos_r]. lia.
  - destruct (to m) as [r c]. apply elem_of_allSquares. auto.
Qed.

Lemma applyMove_empty_origin_witness :
  exists nb, applyMove getInitialBoard (mv 4 4 3 4) None = Ret nb /\
             get nb 3 4 = Ret Bare /\ evaluateBoard nb = Ret NaN.
Proof.
  apply (applyMove_empty_origin getInitialBoard (mv 4 4 3 4) None Null).
  - unfold readable. simpl. lia.
  - simpl. lia.
  - simpl. lia.
  - simpl. lia.
  - simpl. lia.
  - discriminate.
  - reflexivity.
  - reflexivity.
Defined.

(** ** The shape of the board *)

Lemma standardBoard_readable (board : Board) : standardBoard board -> readable board.
Proof. intros [Hlen _]. unfold readable. lia. Qed.

Lemma standardBoard_get (board : Board) (r c : Z) :
  standardBoard board -> 0 <= r < 8 -> 0 <= c < 8 ->
  exists x, get board r c = Ret x /\ plainCell x.
Proof.
  intros [Hlen Hrows] Hr Hc. unfold get, row_at.
  destruct (Z.ltb_spec r 0); [lia|].
  destruct (lookup_lt_is_Some_2 board (Z.to_nat r) ltac:(lia)) as [row Hrow].
  rewrite Hrow. rewrite Forall_lookup in Hrows.
  destruct (Hrows _ _ Hrow) as (Hl & _ & Hcells).
  unfold arr_get. destruct (Z.ltb_spec c 0); [lia|].
  destruct (lookup_lt_is_Some_2 (elems row) (Z.to_nat c) ltac:(lia)) as [x Hx].
  rewrite Hx. exists x. split; [reflexivity|].
  rewrite Forall_lookup in Hcells. exact (Hcells _ _ Hx).
Qed.

Lemma cloneBoard_standard (board : Board) :
  standardBoard board -> standardBoard (cloneBoard board).
Proof.
  intros [Hlen Hrows]. split; [rewrite length_cloneBoard; assumption|].
  unfold cloneBoard. apply Forall_fmap. eapply Forall_impl; [exact Hrows|].
  intros row (Hl & _ & Hcells). repeat split; assumption.
Qed.

Lemma set_standard (board : Board) (r c : Z) (v : cell) :
  standardBoard board -> 0 <= r < 8 -> 0 <= c < 8 -> plainCell v ->
  exists b, set board r c v = Ret b /\ standardBoard b.
Proof.
  intros [Hlen Hrows] Hr Hc Hv. unfold set, row_at.
  destruct (Z.ltb_spec r 0); [lia|].
  destruct (lookup_lt_is_Some_2 board (Z.to_nat r) ltac:(lia)) as [row Hrow].
  rewrite Hrow. eexists. split; [reflexivity|].
  split; [rewrite length_insert; assumption|].
  apply Forall_insert; [assumption|].
  rewrite Forall_lookup in Hrows. destruct (Hrows _ _ Hrow) as (Hl & Hp & Hcells).
  unfold arr_set. destruct (Z.ltb_spec c 0); [lia|].
  destruct (Z.ltb_spec c (Z.of_nat (length (elems row)))); [|lia].
  repeat split; cbn [elems props]; [rewrite length_insert; assumption | assumption |].
  apply Forall_insert; assumption.
Qed.

Lemma plainCell_moved (p : Piece) (m : Move) (promoteTo : option PieceType) :
  plainCell (promote (movedCopy (Obj p)) m promoteTo).
Proof.
  right. cbn [movedCopy promote]. destruct (_ && _); eauto.
Qed.

(** A move that the validator accepts, between squares of the board,
    leaves a board of the same shape. *)
Lemma applyMove_standard (board : Board) (a b : Position) (turn : Color)
    (promoteTo : option PieceType) :
  standardBoard board ->
  0 <= pos_r a < 8 -> 0 <= pos_c a < 8 -> 0 <= pos_r b < 8 -> 0 <= pos_c b < 8 ->
  isValidMove board a b turn true = Ret true ->
  exists nb, applyMove board (mkMove a b) promoteTo = Ret nb /\ standardBoard nb.
Proof.
  intros Hstd Har Hac Hbr Hbc Hv.
  destruct (isValidMove_origin _ _ _ _ _ Hv) as (p & Hp & Hcol).
  destruct (isValidMove_geometry _ _ _ _ _ p Hp Hv) as (target & Hg).
  pose proof (cloneBoard_standard board Hstd) as Hclone.
  unfold applyMove. cbn [from to]. rewrite get_cloneBoard by lia. rewrite Hp. cbn [obind].
  assert (Hcastle : exists b1,
            (if cell_type_is (movedCopy (Obj p)) King
                && (Z.abs (pos_c b - pos_c a) =? 2)
             then
               let* y := get (cloneBoard board) (pos_r a) (if pos_c a <? pos_c b then 7 else 0) in
               let* b1 := set (cloneBoard board) (pos_r a)
                              (if pos_c a <? pos_c b then 5 else 3) (movedCopy y) in
               set b1 (pos_r a) (if pos_c a <? pos_c b then 7 else 0) Null
             else Ret (cloneBoard board)) = Ret b1 /\ standardBoard b1).
  { destruct (cell_type_is (movedCopy (Obj p)) King && (Z.abs (pos_c b - pos_c a) =? 2)) eqn:Hc;
      [|eauto].
    apply andb_true_iff in Hc as [Hk Hdx]. apply Z.eqb_eq in Hdx.
    cbn [movedCopy cell_type_is] in Hk. apply type_is_eq in Hk. cbn [setMoved type] in Hk.
    unfold geometry in Hg. rewrite Hk in Hg.
    destruct (kingValid_castling board p a b turn ltac:(auto) Hg)
      as (_ & _ & _ & _ & (rk & Hrk & _) & _).
    rewrite get_cloneBoard by (destruct (pos_c a <? pos_c b); lia).
    rewrite Hrk. cbn [obind movedCopy].
    destruct (set_standard (cloneBoard board) (pos_r a) (if pos_c a <? pos_c b then 5 else 3)
                (Obj (setMoved rk)) Hclone Har ltac:(destruct (pos_c a <? pos_c b); lia)
                ltac:(right; eauto)) as (b1 & -> & Hb1).
    cbn [obind].
    apply set_standard; auto; [destruct (pos_c a <? pos_c b); lia | left; reflexivity]. }
  destruct Hcastle as (b1 & -> & Hb1). cbn [obind].
  destruct (set_standard b1 (pos_r b) (pos_c b)
              (promote (movedCopy (Obj p)) (mkMove a b) promoteTo) Hb1 Hbr Hbc
              (plainCell_moved p _ _)) as (b2 & -> & Hb2).
  cbn [obind]. apply set_standard; auto. left. reflexivity.
Qed.

(** Every move that [getAllMoves] generates, applied with any promotion
    type, leaves a board of the standard shape: eight plain rows of eight
    cells that hold a piece or [null]. *)
Theorem legal_move_standard (board : Board) (col : Color) (ms : list Move) (m : Move)
    (promoteTo : option PieceType) :
  standardBoard board ->
  getAllMoves board col = Ret ms -> m ∈ ms ->
  exists nb, applyMove board m promoteTo = Ret nb /\ standardBoard nb.
Proof.
  intros Hstd Hms Hm.
  destruct (getAllMoves_elem _ _ _ _ Hms Hm) as (Hv & Ha & Hb & _).
  destruct m as [[ar ac] [br bc]]. cbn [from to] in *.
  apply elem_of_allSquares in Ha as [Har Hac]. apply elem_of_allSquares in Hb as [Hbr Hbc].
  apply (applyMove_standard board (mkPos ar ac) (mkPos br bc) col promoteTo); assumption.
Qed.

Lemma getInitialBoard_standard : standardBoard getInitialBoard.
Proof.
  split; [reflexivity|].
  unfold getInitialBoard, backRow, rowOf, mk.
  repeat (apply Forall_cons; split;
          [repeat split;
           cbn [elems replicate];
           repeat (apply Forall_cons; split; [first [left; reflexivity | right; eauto]|]);
           apply Forall_nil; exact I|]).
  apply Forall_nil. exact I.
Qed.

Lemma legal_move_standard_witness :
  exists nb, applyMove getInitialBoard (mv 6 4 4 4) (Some Rook) = Ret nb /\ standardBoard nb.
Proof.
  apply (legal_move_standard getInitialBoard white initialWhiteMoves (mv 6 4 4 4) (Some Rook)).
  - exact getInitialBoard_standard.
  - vm_compute. reflexivity.
  - apply list_elem_of_In. vm_compute. tauto.
Defined.

(** ** The cuts of the search *)

Ltac num_order :=
  repeat match goal with
         | x : num |- _ => destruct x
         end;
  cbn [num_le num_max num_min num_gt negb] in *;
  repeat match goal with
         | H : _ /\ _ |- _ => destruct H
         | H : Fin _ = Fin _ |- _ => injection H as H
         | H : (_ <=? _) = true |- _ => apply Z.leb_le in H
         | H : (_ <=? _) = false |- _ => apply Z.leb_gt in H
         | H : ?x <> ?x |- _ => destruct (H eq_refl)
         end;
  try discriminate; try congruence.

Lemma bound_refl (alpha beta : num) (z : Z) :
  alpha <> NaN -> beta <> NaN -> bound alpha beta (Fin z) (Fin z).
Proof.
  intros Ha Hb. unfold bound. repeat split; intros; cbn [num_le]; apply Z.leb_le; lia.
Qed.

Section AlphaBeta.

Variable rec : Board -> num -> num -> outcome num.
Variable recF : Board -> outcome num.
Variable board : Board.

Lemma childrenExact_cons (m : Move) (moves : list Move) :
  childrenExact rec recF board (m :: moves) ->
  (exists nb v, applyMove board m None = Ret nb /\ recF nb = Ret (Fin v) /\
     forall al be, al <> NaN -> be <> NaN -> num_le be al = false ->
       exists r, rec nb al be = Ret (Fin r) /\ bound al be (Fin v) (Fin r)) /\
  childrenExact rec recF board moves.
Proof.
  intros H. split; [apply H; left|]. intros m' Hm'. apply H. right. assumption.
Qed.

(** The search without cuts only raises the running maximum. *)
Lemma fullMax_ge (moves : list Move) :
  childrenExact rec recF board moves ->
  forall acc, acc = NegInf \/ isFin acc ->
    exists V, fullMax recF board moves acc = Ret V /\ (V = NegInf \/ isFin V) /\
              num_le acc V = true /\ (moves <> [] -> isFin V).
Proof.
  induction moves as [|m moves IH]; intros Hch acc Hacc; cbn [fullMax].
  - exists acc. repeat split; auto; [|congruence].
    destruct Hacc as [-> | [z ->]]; [reflexivity | cbn [num_le]; apply Z.leb_le; lia].
  - apply childrenExact_cons in Hch as [(nb & v & Hnb & Hv & _) Hch].
    rewrite Hnb. cbn [obind]. rewrite Hv. cbn [obind].
    destruct (IH Hch (num_max acc (Fin v))) as (V & -> & HV & Hle & _).
    { right. destruct Hacc as [-> | [z ->]]; cbn [num_max num_le];
        [eexists; reflexivity | destruct (z <=? v); eexists; reflexivity]. }
    exists V. repeat split; auto.
    + destruct Hacc as [-> | [z ->]]; [destruct HV as [-> | [w ->]]; reflexivity|].
      destruct HV as [-> | [w ->]]; cbn [num_max num_le] in *;
        destruct (Z.leb_spec z v); cbn [num_le] in *; try discriminate;
        apply Z.leb_le in Hle; apply Z.leb_le; lia.
    + intros _. destruct HV as [-> | HV]; [|assumption].
      destruct Hacc as [-> | [z ->]]; cbn [num_max num_le] in Hle;
        [discriminate | destruct (z <=? v); discriminate].
Qed.

Lemma fullMin_le (moves : list Move) :
  childrenExact rec recF board moves ->
  forall acc, acc = PosInf \/ isFin acc ->
    exists V, fullMin recF board moves acc = Ret V /\ (V = PosInf \/ isFin V) /\
              num_le V acc = true /\ (moves <> [] -> isFin V).
Proof.
  induction moves as [|m moves IH]; intros Hch acc Hacc; cbn [fullMin].
  - exists acc. repeat split; auto; [|congruence].
    destruct Hacc as [-> | [z ->]]; [reflexivity | cbn [num_le]; apply Z.leb_le; lia].
  - apply childrenExact_cons in Hch as [(nb & v & Hnb & Hv & _) Hch].
    rewrite Hnb. cbn [obind]. rewrite Hv. cbn [obind].
    destruct (IH Hch (num_min acc (Fin v))) as (V & -> & HV & Hle & _).
    { right. destruct Hacc as [-> | [z ->]]; cbn [num_min num_le];
        [eexists; reflexivity | destruct (z <=? v); eexists; reflexivity]. }
    exists V. repeat split; auto.
    + destruct Hacc as [-> | [z ->]]; [destruct HV as [-> | [w ->]]; reflexivity|].
      destruct HV as [-> | [w ->]]; cbn [num_min num_le] in *;
        destruct (Z.leb_spec z v); cbn [num_le] in *; try discriminate;
        apply Z.leb_le in Hle; apply Z.leb_le; lia.
    + intros _. destruct HV as [-> | HV]; [|assumption].
      destruct Hacc as [-> | [z ->]]; cbn [num_min num_le] in Hle;
        [discriminate | destruct (z <=? v); discriminate].
Qed.

Ltac num_shape H :=
  match type of H with
  | _ = NegInf \/ isFin _ => destruct H as [-> | [? ->]]
  | _ = PosInf \/ isFin _ => destruct H as [-> | [? ->]]
  end.

Lemma num_max_Fin (x y : Z) : num_max (Fin x) (Fin y) = Fin (Z.max x y).
Proof. cbn [num_max num_le]. destruct (Z.leb_spec x y); f_equal; lia. Qed.

Lemma num_min_Fin (x y : Z) : num_min (Fin x) (Fin y) = Fin (Z.min x y).
Proof. cbn [num_min num_le]. destruct (Z.leb_spec x y); f_equal; lia. Qed.

Lemma if_max (x y : Z) : (if x <=? y then Fin y else Fin x) = Fin (Z.max x y).
Proof. destruct (Z.leb_spec x y); f_equal; lia. Qed.

Lemma if_min (x y : Z) : (if x <=? y then Fin x else Fin y) = Fin (Z.min x y).
Proof. destruct (Z.leb_spec x y); f_equal; lia. Qed.

Lemma Fin_eq_iff (x y : Z) : Fin x = Fin y <-> x = y.
Proof. split; congruence. Qed.

Lemma Fin_NegInf_iff (x : Z) : Fin x = NegInf <-> False.
Proof. split; [discriminate | tauto]. Qed.

Lemma NegInf_Fin_iff (x : Z) : NegInf = Fin x <-> False.
Proof. split; [discriminate | tauto]. Qed.

Lemma Fin_PosInf_iff (x : Z) : Fin x = PosInf <-> False.
Proof. split; [discriminate | tauto]. Qed.

Lemma PosInf_Fin_iff (x : Z) : PosInf = Fin x <-> False.
Proof. split; [discriminate | tauto]. Qed.

Lemma true_false_iff : true = false <-> False.
Proof. split; [discriminate | tauto]. Qed.

Lemma false_true_iff : false = true <-> False.
Proof. split; [discriminate | tauto]. Qed.

Lemma refl_iff {A : Type} (x : A) : x = x <-> True.
Proof. tauto. Qed.

(** Goals on the order of the numbers, once the shape of each number is
    known, are goals on integers. *)
Ltac num_solve :=
  unfold bound, isFin in *;
  repeat (progress (cbn [num_le num_max num_min] in *; rewrite ?if_max, ?if_min in * ));
  rewrite ?Z.leb_le, ?Z.leb_gt, ?Fin_eq_iff, ?Fin_NegInf_iff, ?NegInf_Fin_iff,
    ?Fin_PosInf_iff, ?PosInf_Fin_iff, ?true_false_iff, ?false_true_iff in *;
  rewrite ?(refl_iff true), ?(refl_iff false), ?(refl_iff NegInf), ?(refl_iff PosInf) in *;
  first [ lia
        | right; eexists; reflexivity
        | left; reflexivity
        | eexists; reflexivity
        | tauto
        | congruence ].

Lemma maxLoop_bound (alpha0 beta : num) (moves : list Move) :
  alpha0 <> NaN -> beta <> NaN ->
  childrenExact rec recF board moves ->
  forall m a accF,
    m = NegInf \/ isFin m -> accF = NegInf \/ isFin accF ->
    a = num_max alpha0 m -> num_le beta a = false ->
    num_le accF m = true -> (num_le m alpha0 = false -> accF = m) ->
    exists V R,
      fullMax recF board moves accF = Ret V /\
      maxLoop rec board moves m a beta = Ret R /\
      (V = NegInf \/ isFin V) /\ (R = NegInf \/ isFin R) /\
      (moves <> [] -> isFin V /\ isFin R) /\
      bound alpha0 beta V R.
Proof.
  intros Ha0 Hbe. induction moves as [|mv0 moves IH];
    intros Hch m a accF Hm Hacc Ea Hwin Hle Hex.
  - exists accF, m. cbn [fullMax maxLoop].
    split; [reflexivity|]. split; [reflexivity|]. split; [assumption|]. split; [assumption|].
    split; [congruence|]. subst a.
    num_shape Hm; num_shape Hacc; destruct alpha0, beta; try congruence; num_solve.
  - apply childrenExact_cons in Hch as [(nb & v & Hnb & Hv & Hrec) Hch].
    assert (Hna : a <> NaN)
      by (subst a; num_shape Hm; destruct alpha0; try congruence; num_solve).
    destruct (Hrec a beta Hna Hbe Hwin) as (r & Hr & Hbound).
    cbn [fullMax maxLoop]. rewrite Hnb. cbn [obind]. rewrite Hv, Hr. cbn [obind].
    destruct (num_le beta (num_max a (Fin r))) eqn:Hcut.
    + destruct (fullMax_ge moves Hch (num_max accF (Fin v))) as (V & HV & HVs & HVle & _).
      { right. num_shape Hacc; num_solve. }
      exists V, (num_max m (Fin r)). rewrite HV.
      split; [reflexivity|]. split; [reflexivity|]. split; [assumption|].
      assert (HR : isFin (num_max m (Fin r))) by (num_shape Hm; num_solve).
      split; [right; assumption|].
      assert (HVf : isFin V).
      { destruct HVs as [-> | HVs]; [|assumption]. num_shape Hacc; num_solve. }
      split; [auto|]. subst a.
      destruct HVf as [w ->].
      num_shape Hm; num_shape Hacc; destruct alpha0, beta; try congruence; num_solve.
    + destruct (IH Hch (num_max m (Fin r)) (num_max a (Fin r)) (num_max accF (Fin v)))
        as (V & R & HV & HR & HVs & HRs & Hfin & Hb).
      * right. num_shape Hm; num_solve.
      * right. num_shape Hacc; num_solve.
      * subst a. num_shape Hm; destruct alpha0; try congruence; num_solve.
      * assumption.
      * subst a. num_shape Hm; num_shape Hacc; destruct alpha0, beta; try congruence; num_solve.
      * subst a. num_shape Hm; num_shape Hacc; destruct alpha0, beta; try congruence; num_solve.
      * exists V, R. rewrite HV, HR. repeat split; auto.
        -- destruct moves as [|mv1 moves]; [|apply Hfin; discriminate].
           cbn [fullMax] in HV. injection HV as <-. num_shape Hacc; num_solve.
        -- destruct moves as [|mv1 moves]; [|apply Hfin; discriminate].
           cbn [maxLoop] in HR. injection HR as <-. num_shape Hm; num_solve.
        -- apply Hb.
        -- apply Hb.
        -- apply Hb.
Qed.

Lemma minLoop_bound (alpha beta0 : num) (moves : list Move) :
  alpha <> NaN -> beta0 <> NaN ->
  childrenExact rec recF board moves ->
  forall m b accF,
    m = PosInf \/ isFin m -> accF = PosInf \/ isFin accF ->
    b = num_min beta0 m -> num_le b alpha = false ->
    num_le m accF = true -> (num_le beta0 m = false -> accF = m) ->
    exists V R,
      fullMin recF board moves accF = Ret V /\
      minLoop rec board moves m alpha b = Ret R /\
      (V = PosInf \/ isFin V) /\ (R = PosInf \/ isFin R) /\
      (moves <> [] -> isFin V /\ isFin R) /\
      bound alpha beta0 V R.
Proof.
  intros Hal Hb0. induction moves as [|mv0 moves IH];
    intros Hch m b accF Hm Hacc Eb Hwin Hle Hex.
  - exists accF, m. cbn [fullMin minLoop].
    split; [reflexivity|]. split; [reflexivity|]. split; [assumption|]. split; [assumption|].
    split; [congruence|]. subst b.
    num_shape Hm; num_shape Hacc; destruct alpha, beta0; try congruence; num_solve.
  - apply childrenExact_cons in Hch as [(nb & v & Hnb & Hv & Hrec) Hch].
    assert (Hnb' : b <> NaN)
      by (subst b; num_shape Hm; destruct beta0; try congruence; num_solve).
    destruct (Hrec alpha b Hal Hnb' Hwin) as (r & Hr & Hbound).
    cbn [fullMin minLoop]. rewrite Hnb. cbn [obind]. rewrite Hv, Hr. cbn [obind].
    destruct (num_le (num_min b (Fin r)) alpha) eqn:Hcut.
    + destruct (fullMin_le moves Hch (num_min accF (Fin v))) as (V & HV & HVs & HVle & _).
      { right. num_shape Hacc; num_solve. }
      exists V, (num_min m (Fin r)). rewrite HV.
      split; [reflexivity|]. split; [reflexivity|]. split; [assumption|].
      assert (HR : isFin (num_min m (Fin r))) by (num_shape Hm; num_solve).
      split; [right; assumption|].
      assert (HVf : isFin V).
      { destruct HVs as [-> | HVs]; [|assumption]. num_shape Hacc; num_solve. }
      split; [auto|]. subst b.
      destruct HVf as [w ->].
      clear IH Hrec Hch Hnb Hv Hr HV.
      num_shape Hm; num_shape Hacc; destruct alpha, beta0; try congruence; num_solve.
    + destruct (IH Hch (num_min m (Fin r)) (num_min b (Fin r)) (num_min accF (Fin v)))
        as (V & R & HV & HR & HVs & HRs & Hfin & Hb).
      * right. num_shape Hm; num_solve.
      * right. num_shape Hacc; num_solve.
      * subst b. num_shape Hm; destruct beta0; try congruence; num_solve.
      * assumption.
      * subst b. clear IH Hrec Hch Hnb Hv Hr.
        num_shape Hm; num_shape Hacc; destruct alpha, beta0; try congruence; num_solve.
      * subst b. clear IH Hrec Hch Hnb Hv Hr.
        num_shape Hm; num_shape Hacc; destruct alpha, beta0; try congruence; num_solve.
      * exists V, R. rewrite HV, HR. repeat split; auto.
        -- destruct moves as [|mv1 moves]; [|apply Hfin; discriminate].
           cbn [fullMin] in HV. injection HV as <-. num_shape Hacc; num_solve.
        -- destruct moves as [|mv1 moves]; [|apply Hfin; discriminate].
           cbn [minLoop] in HR. injection HR as <-. num_shape Hm; num_solve.
        -- apply Hb.
        -- apply Hb.
        -- apply Hb.
Qed.

End AlphaBeta.

Lemma num_max_NegInf_r (x : num) : num_max x NegInf = x.
Proof. destruct x; reflexivity. Qed.

(** The search with cuts stays within the bounds of its window around
    the value of the search without cuts. *)
Lemma minimax_bound (depth : nat) :
  forall (board : Board) (isMaximizing : bool),
    readable board -> noBare board ->
    exists v, searchValue board depth isMaximizing = Ret (Fin v) /\
      forall al be, al <> NaN -> be <> NaN -> num_le be al = false ->
        exists r, minimax board depth al be isMaximizing = Ret (Fin r) /\
                  bound al be (Fin v) (Fin r).
Proof.
  induction depth as [|d IH]; intros board isMaximizing Hb Hnb.
  - destruct (evaluateBoard_fin board Hb Hnb) as [z Hz]. exists z.
    cbn [searchValue minimax]. split; [assumption|].
    intros al be Hal Hbe _. exists z. split; [assumption | apply bound_refl; assumption].
  - cbn [searchValue]. 
    destruct (getAllMoves_total board (if isMaximizing then black else white) Hb) as [moves Hms].
    rewrite Hms. cbn [obind].
    destruct moves as [|m0 moves].
    + destruct (isInCheck_total board (if isMaximizing then black else white) Hb) as [chk Hchk].
      rewrite Hchk. cbn [obind].
      exists (if chk then (if isMaximizing then -9999 else 9999) else 0).
      split; [destruct chk, isMaximizing; reflexivity|].
      intros al be Hal Hbe _. rewrite minimax_unfold. cbv zeta. rewrite Hms. cbn [obind].
      rewrite Hchk. cbn [obind].
      exists (if chk then (if isMaximizing then -9999 else 9999) else 0).
      split; [destruct chk, isMaximizing; reflexivity | apply bound_refl; assumption].
    + assert (Hch : forall isMax',
                childrenExact (fun b al be => minimax b d al be isMax')
                              (fun b => searchValue b d isMax') board (m0 :: moves)).
      { intros isMax' m Hm.
        destruct (getAllMoves_children board _ _ m Hb Hnb Hms Hm) as (nb & Happ & Hrb & Hnbb).
        destruct (IH nb isMax' Hrb Hnbb) as (v & Hv & Hwin).
        exists nb, v. auto. }
      destruct isMaximizing.
      * destruct (fullMax_ge _ _ board (m0 :: moves) (Hch false) NegInf ltac:(auto))
          as (V & HV & _ & _ & HVf).
        destruct (HVf ltac:(discriminate)) as [v ->].
        exists v. split; [assumption|].
        intros al be Hal Hbe Hwin. rewrite minimax_unfold. cbv zeta. rewrite Hms. cbn [obind].
        destruct (maxLoop_bound _ _ board al be (m0 :: moves) Hal Hbe (Hch false)
                    NegInf al NegInf ltac:(auto) ltac:(auto)
                    ltac:(symmetry; apply num_max_NegInf_r) Hwin
                    eq_refl ltac:(destruct al; try discriminate; congruence))
          as (V & R & HV' & HR & _ & _ & Hfin & Hbound).
        rewrite HV in HV'. injection HV' as <-.
        destruct (Hfin ltac:(discriminate)) as [_ [r ->]].
        exists r. split; assumption.
      * destruct (fullMin_le _ _ board (m0 :: moves) (Hch true) PosInf ltac:(auto))
          as (V & HV & _ & _ & HVf).
        destruct (HVf ltac:(discriminate)) as [v ->].
        exists v. split; [assumption|].
        intros al be Hal Hbe Hwin. rewrite minimax_unfold. cbv zeta. rewrite Hms. cbn [obind].
        destruct (minLoop_bound _ _ board al be (m0 :: moves) Hal Hbe (Hch true)
                    PosInf be PosInf ltac:(auto) ltac:(auto)
                    ltac:(destruct be; try reflexivity; congruence) Hwin
                    eq_refl ltac:(destruct be; try discriminate; congruence))
          as (V & R & HV' & HR & _ & _ & Hfin & Hbound).
        rewrite HV in HV'. injection HV' as <-.
        destruct (Hfin ltac:(discriminate)) as [_ [r ->]].
        exists r. split; assumption.
Qed.

(** The cuts do not change the value: called with the window from
    [-Infinity] to [Infinity], [minimax] returns the value of the search
    that tries every move, an integer. *)
Theorem minimax_prunes_soundly (board : Board) (depth : nat) (isMaximizing : bool) :
  readable board -> noBare board ->
  exists z, searchValue board depth isMaximizing = Ret (Fin z) /\
            minimax board depth NegInf PosInf isMaximizing = Ret (Fin z).
Proof.
  intros Hb Hnb.
  destruct (minimax_bound depth board isMaximizing Hb Hnb) as (v & Hv & Hwin).
  destruct (Hwin NegInf PosInf ltac:(discriminate) ltac:(discriminate) eq_refl)
    as (r & Hr & _ & _ & Heq).
  exists v. split; [assumption|].
  rewrite Hr. specialize (Heq eq_refl eq_refl). congruence.
Qed.

Lemma minimax_prunes_soundly_witness :
  exists z, searchValue castleBoard 2 true = Ret (Fin z) /\
            minimax castleBoard 2 NegInf PosInf true = Ret (Fin z).
Proof.
  apply minimax_prunes_soundly.
  - unfold readable. simpl. lia.
  - apply noBare_check. vm_compute. reflexivity.
Defined.

(** The loop of [getBestMove] keeps the first move of the greatest value
    seen so far, and that value is exact. *)
Lemma bestLoop_best (board : Board) (d : nat) (moves : list Move) :
  childrenExact (fun b al be => minimax b d al be false)
                (fun b => searchValue b d false) board moves ->
  forall bestMove maxVal alpha,
    (bestMove = None /\ maxVal = NegInf /\ alpha = NegInf /\ moves <> []) \/
    (exists mb x, bestMove = Some mb /\ maxVal = Fin x /\ alpha = Fin x /\
                  moveValue board d mb = Ret (Fin x)) ->
    exists mb x,
      bestLoop (fun b al be => minimax b d al be false) board moves bestMove maxVal alpha
      = Ret (Some mb) /\
      (mb ∈ moves \/ bestMove = Some mb) /\
      moveValue board d mb = Ret (Fin x) /\
      num_le maxVal (Fin x) = true /\
      forall m', m' ∈ moves -> exists v', moveValue board d m' = Ret (Fin v') /\ v' <= x.
Proof.
  induction moves as [|m moves IH]; intros Hch bestMove maxVal alpha Hstate.
  - destruct Hstate as [(_ & _ & _ & Hne) | (mb & x & -> & -> & -> & Hval)]; [congruence|].
    exists mb, x. cbn [bestLoop]. repeat split; auto.
    + cbn [num_le]. apply Z.leb_le. lia.
    + intros m' Hm'. inversion Hm'.
  - apply childrenExact_cons in Hch as [(nb & v & Hnb & Hv & Hwin) Hch].
    assert (Hmv : moveValue board d m = Ret (Fin v))
      by (unfold moveValue; rewrite Hnb; assumption).
    cbn [bestLoop]. rewrite Hnb. cbn [obind].
    destruct Hstate as [(-> & -> & -> & _) | (mb & x & -> & -> & -> & Hval)].
    + destruct (Hwin NegInf PosInf ltac:(discriminate) ltac:(discriminate) eq_refl)
        as (r & Hr & _ & _ & Heq).
      specialize (Heq eq_refl eq_refl). injection Heq as ->.
      rewrite Hr. cbn [obind num_gt num_le negb num_max].
      destruct (IH Hch (Some m) (Fin r) (Fin r)) as (mb & x & Hloop & Hin & Hval & Hle & Hall).
      { right. exists m, r. auto. }
      exists mb, x. rewrite Hloop. split; [reflexivity|].
      split; [destruct Hin as [Hin | Hin]; [left; right; assumption | injection Hin as <-; left; left]|].
      split; [assumption|]. split; [reflexivity|].
      cbn [num_le] in Hle. apply Z.leb_le in Hle.
      intros m' Hm'. apply elem_of_cons in Hm' as [-> | Hm'].
      * exists r. split; [assumption | lia].
      * apply Hall. assumption.
    + destruct (Hwin (Fin x) PosInf ltac:(discriminate) ltac:(discriminate) eq_refl)
        as (r & Hr & Hlow & _ & Heq).
      rewrite Hr. cbn [obind num_gt num_le negb]. rewrite num_max_Fin. cbn [num_le].
      cbn [num_le] in Hlow, Heq.
      destruct (Z.leb_spec r x) as [Hrx | Hrx]; cbn [negb].
      * specialize (Hlow eq_refl). apply Z.leb_le in Hlow.
        destruct (IH Hch (Some mb) (Fin x) (Fin (Z.max x r)))
          as (mb' & x' & Hloop & Hin & Hval' & Hle & Hall).
        { right. exists mb, x. replace (Z.max x r) with x by lia. auto. }
        exists mb', x'. rewrite Hloop. split; [reflexivity|].
        split; [destruct Hin as [Hin | Hin]; [left; right; assumption | right; assumption]|].
        split; [assumption|]. split; [assumption|].
        cbn [num_le] in Hle. apply Z.leb_le in Hle.
        intros m' Hm'. apply elem_of_cons in Hm' as [-> | Hm'].
        -- exists v. split; [assumption | lia].
        -- apply Hall. assumption.
      * specialize (Heq eq_refl eq_refl). injection Heq as ->.
        destruct (IH Hch (Some m) (Fin r) (Fin (Z.max x r)))
          as (mb' & x' & Hloop & Hin & Hval' & Hle & Hall).
        { right. exists m, r. replace (Z.max x r) with r by lia. auto. }
        exists mb', x'. rewrite Hloop. split; [reflexivity|].
        split; [destruct Hin as [Hin | Hin]; [left; right; assumption | injection Hin as <-; left; left]|].
        split; [assumption|].
        cbn [num_le] in Hle. apply Z.leb_le in Hle.
        split; [cbn [num_le]; apply Z.leb_le; lia|].
        intros m' Hm'. apply elem_of_cons in Hm' as [-> | Hm'].
        -- exists r. split; [assumption | lia].
        -- apply Hall. assumption.
Qed.

Section BestValue.

Variable shuffle : list Move -> list Move.
Hypothesis shuffle_perm : forall l, Permutation l (shuffle l).

(** [getBestMove] returns a best move: among the legal moves of black, one
    whose value, by the search without cuts at the depth below, is the
    greatest. *)
Theorem getBestMove_best (board : Board) (d : nat) (moves : list Move) :
  readable board -> noBare board ->
  getAllMoves board black = Ret moves -> moves <> [] ->
  exists m x,
    getBestMove shuffle board (S d) = Ret (Some m) /\ m ∈ moves /\
    moveValue board d m = Ret (Fin x) /\
    forall m', m' ∈ moves -> exists v', moveValue board d m' = Ret (Fin v') /\ v' <= x.
Proof.
  intros Hb Hnb Hms Hne.
  assert (Hsub : forall m, m ∈ shuffle moves <-> m ∈ moves).
  { intros m. rewrite !list_elem_of_In. split; apply Permutation_in;
      [symmetry|]; apply shuffle_perm. }
  assert (Hch : childrenExact (fun b al be => minimax b d al be false)
                              (fun b => searchValue b d false) board (shuffle moves)).
  { intros m Hm. apply Hsub in Hm.
    destruct (getAllMoves_children board _ _ m Hb Hnb Hms Hm) as (nb & Happ & Hrb & Hnbb).
    destruct (minimax_bound d nb false Hrb Hnbb) as (v & Hv & Hwin).
    exists nb, v. auto. }
  assert (Hne' : shuffle moves <> []).
  { intros E. destruct moves as [|m0 moves]; [congruence|].
    assert (Hin : m0 ∈ shuffle (m0 :: moves)) by (apply Hsub; left).
    rewrite E in Hin. inversion Hin. }
  destruct (bestLoop_best board d (shuffle moves) Hch None NegInf NegInf ltac:(auto))
    as (m & x & Hloop & Hin & Hval & _ & Hall).
  exists m, x. unfold getBestMove. rewrite Hms. cbn [obind].
  destruct moves as [|m0 moves]; [congruence|]. rewrite Hloop.
  split; [reflexivity|].
  split; [destruct Hin as [Hin | Hin]; [apply Hsub; assumption | discriminate]|].
  split; [assumption|].
  intros m' Hm'. apply Hall, Hsub. assumption.
Qed.

End BestValue.

Lemma getBestMove_best_witness :
  exists m x,
    getBestMove (@rev Move) castleBoard 2 = Ret (Some m) /\ m ∈ castleBlackMoves /\
    moveValue castleBoard 1 m = Ret (Fin x) /\
    forall m', m' ∈ castleBlackMoves ->
      exists v', moveValue castleBoard 1 m' = Ret (Fin v') /\ v' <= x.
Proof.
  apply (getBestMove_best (@rev Move) (@Permutation_rev Move) castleBoard 1 castleBlackMoves).
  - unfold readable. simpl. lia.
  - apply noBare_check. vm_compute. reflexivity.
  - vm_compute. reflexivity.
  - discriminate.
Defined.

(** ** The king that [isInCheck] looks at *)

Lemma zrange_cons (lo hi : Z) : lo <= hi -> zrange lo hi = lo :: zrange (lo + 1) hi.
Proof.
  intros H. unfold zrange.
  replace (Z.to_nat (hi - lo + 1)) with (S (Z.to_nat (hi - (lo + 1) + 1))) by lia.
  cbn [seq map]. f_equal; [lia|].
  rewrite <- seq_shift, map_map. apply map_ext. intros i. lia.
Qed.

Lemma zrange_nil (lo hi : Z) : hi < lo -> zrange lo hi = [].
Proof. intros H. unfold zrange. replace (Z.to_nat (hi - lo + 1)) with 0%nat by lia. reflexivity. Qed.

Lemma findKingInRow_none (board : Board) (col : Color) (r : Z) (cs : list Z) :
  readable board -> 0 <= r < 8 ->
  (forall c, c ∈ cs -> isKingAt board col r c = false) ->
  findKingInRow board col r cs = Ret None.
Proof.
  intros Hb Hr Hno.
  destruct (findKingInRow_spec board col r cs Hb Hr) as [[H _] | (c & _ & Hc & Hk)];
    [assumption|].
  rewrite (Hno c Hc) in Hk. discriminate.
Qed.

(** The scan of a row stops at the first king. *)
Lemma findKingInRow_first (board : Board) (col : Color) (r c hi : Z) :
  readable board -> 0 <= r < 8 ->
  isKingAt board col r c = true ->
  forall (n : nat) (lo : Z),
    Z.of_nat n = c - lo -> c <= hi ->
    (forall c', lo <= c' < c -> isKingAt board col r c' = false) ->
    findKingInRow board col r (zrange lo hi) = Ret (Some (mkPos r c)).
Proof.
  intros Hb Hr Hk. induction n as [|n IH]; intros lo Hn Hhi Hno;
    rewrite zrange_cons by lia; cbn [findKingInRow];
    destruct (get_readable board r lo Hb Hr) as [x Hx]; rewrite Hx; cbn [obind].
  - replace lo with c in * by lia.
    rewrite <- (isKingAt_get board col r c x Hx), Hk. reflexivity.
  - rewrite <- (isKingAt_get board col r lo x Hx), (Hno lo) by lia.
    apply IH; [lia | lia |]. intros c' Hc'. apply Hno. lia.
Qed.

Lemma findKing_none (board : Board) (col : Color) (rs : list Z) :
  readable board -> (forall r, r ∈ rs -> 0 <= r < 8) ->
  (forall r c, r ∈ rs -> 0 <= c < 8 -> isKingAt board col r c = false) ->
  forall k0, findKing board col k0 rs = Ret k0.
Proof.
  intros Hb. induction rs as [|r rs IH]; intros Hrs Hno k0; cbn [findKing]; [reflexivity|].
  rewrite (findKingInRow_none board col r (zrange 0 7) Hb (Hrs r ltac:(left))).
  - cbn [obind]. apply IH.
    + intros r' Hr'. apply Hrs. right. assumption.
    + intros r' c Hr' Hc. apply Hno; [right|]; assumption.
  - intros c Hc. apply elem_of_zrange in Hc. apply Hno; [left | lia].
Qed.

(** The [break] leaves the inner loop only: the scan keeps the first king
    of the last row that holds one. *)
Lemma findKing_last (board : Board) (col : Color) (r c hi : Z) :
  readable board -> 0 <= r -> hi < 8 -> 0 <= c < 8 ->
  isKingAt board col r c = true ->
  (forall c', 0 <= c' < c -> isKingAt board col r c' = false) ->
  (forall r' c', r < r' <= hi -> 0 <= c' < 8 -> isKingAt board col r' c' = false) ->
  forall (n : nat) (lo : Z) k0,
    Z.of_nat n = r - lo -> 0 <= lo -> r <= hi ->
    findKing board col k0 (zrange lo hi) = Ret (Some (mkPos r c)).
Proof.
  intros Hb Hr0 Hhi Hc Hk Hfirst Hlater. induction n as [|n IH]; intros lo k0 Hn Hlo Hrhi;
    rewrite zrange_cons by lia; cbn [findKing].
  - replace lo with r in * by lia.
    rewrite (findKingInRow_first board col r c 7 Hb ltac:(lia) Hk (Z.to_nat c) 0) by (lia || auto).
    cbn [obind]. apply findKing_none; [assumption | |].
    + intros r' Hr'. apply elem_of_zrange in Hr'. lia.
    + intros r' c' Hr' Hc'. apply elem_of_zrange in Hr'. apply Hlater; lia.
  - destruct (findKingInRow_spec board col lo (zrange 0 7) Hb ltac:(lia))
      as [[-> _] | (c0 & -> & _)]; cbn [obind]; apply IH; lia.
Qed.

(** With several kings of a color on the board, [isInCheck] answers for
    one of them: the first of the last row that holds one. *)
Theorem isInCheck_last_king (board : Board) (col : Color) (r c : Z) :
  readable board -> 0 <= r < 8 -> 0 <= c < 8 ->
  isKingAt board col r c = true ->
  (forall c', 0 <= c' < c -> isKingAt board col r c' = false) ->
  (forall r' c', r < r' < 8 -> 0 <= c' < 8 -> isKingAt board col r' c' = false) ->
  isInCheck board col = isSquareUnderAttack board (mkPos r c) (opponentOf col).
Proof.
  intros Hb Hr Hc Hk Hfirst Hlater. unfold isInCheck.
  rewrite (findKing_last board col r c 7 Hb ltac:(lia) ltac:(lia) Hc Hk Hfirst
             ltac:(intros; apply Hlater; lia) (Z.to_nat r) 0 None) by lia.
  reflexivity.
Qed.

Lemma isInCheck_last_king_witness :
  isInCheck twoKingsBoard white = isSquareUnderAttack twoKingsBoard (mkPos 7 0) black.
Proof.
  apply isInCheck_last_king.
  - unfold readable. simpl. lia.
  - lia.
  - lia.
  - reflexivity.
  - intros c' Hc'. lia.
  - intros r' c' Hr' Hc'. lia.
Defined.

(** A color with one king is in check exactly when the validator, with the
    safety check off, lets a piece of the opponent capture that king. *)
Theorem isInCheck_iff_capturable (board : Board) (col : Color) (kr kc : Z) :
  readable board -> 0 <= kr < 8 -> 0 <= kc < 8 ->
  isKingAt board col kr kc = true -> atMostOneKing board col ->
  isInCheck board col = Ret true <->
  exists s, 0 <= pos_r s < 8 /\ 0 <= pos_c s < 8 /\
            isValidMove board s (mkPos kr kc) (opponentOf col) false = Ret true.
Proof.
  intros Hb Hr Hc Hk Huniq.
  assert (Hchk : isInCheck board col
                 = isSquareUnderAttack board (mkPos kr kc) (opponentOf col)).
  { unfold isInCheck.
    rewrite (findKing_last board col kr kc 7 Hb ltac:(lia) ltac:(lia) Hc Hk) with (n := Z.to_nat kr);
      [reflexivity | | | lia | lia | lia].
    - intros c' Hc'. destruct (isKingAt board col kr c') eqn:E; [|reflexivity].
      destruct (Huniq kr c' kr kc Hr ltac:(lia) Hr Hc E Hk). lia.
    - intros r' c' Hr' Hc'. destruct (isKingAt board col r' c') eqn:E; [|reflexivity].
      destruct (Huniq r' c' kr kc ltac:(lia) Hc' Hr Hc E Hk). lia. }
  rewrite Hchk.
  unfold isKingAt in Hk. destruct (get board kr kc) as [x| |] eqn:Hx; try discriminate.
  apply is_piece_true in Hk as (t & -> & Hcol & _).
  assert (Htcol : color t <> opponentOf col) by (rewrite Hcol; apply opponentOf_neq).
  split.
  - intros H. apply isSquareUnderAttack_elim in H as (s & p & Hsr & Hsc & Hp & Hpc & Hbears);
      try assumption.
    exists s. split; [assumption|]. split; [assumption|].
    apply (isValidMove_bears board s (mkPos kr kc) (opponentOf col) p t); assumption.
  - intros (s & Hsr & Hsc & Hv).
    destruct (isValidMove_origin _ _ _ _ _ Hv) as (p & Hp & Hpc).
    apply (isSquareUnderAttack_intro board (mkPos kr kc) s (opponentOf col) p); try assumption.
    apply (isValidMove_bears board s (mkPos kr kc) (opponentOf col) p t); assumption.
Qed.

Lemma isInCheck_iff_capturable_witness :
  isInCheck matedBoard black = Ret true <->
  exists s, 0 <= pos_r s < 8 /\ 0 <= pos_c s < 8 /\
            isValidMove matedBoard s (mkPos 0 0) white false = Ret true.
Proof.
  apply (isInCheck_iff_capturable matedBoard black 0 0).
  - unfold readable. simpl. lia.
  - lia.
  - lia.
  - reflexivity.
  - apply atMostOneKing_count. vm_compute. lia.
Defined.

(** * Properties of the game state *)

Section AppProperties.

Variable sortCaptured : list (option PieceType) -> list (option PieceType).

Lemma replayLoop_app (st : Replay) (l1 l2 : list MoveRecord) :
  replayLoop sortCaptured st (l1 ++ l2)
  = let* st' := replayLoop sortCaptured st l1 in replayLoop sortCaptured st' l2.
Proof.
  revert st. induction l1 as [|r l1 IH]; intros st; cbn [app replayLoop obind]; [reflexivity|].
  destruct (replayStep sortCaptured st r) as [st'| |]; cbn [obind]; [apply IH | reflexivity..].
Qed.

Lemma notNull_truthy (x : cell) : notNull x && truthy x = truthy x.
Proof. destruct x; reflexivity. Qed.

Lemma replayStep_turn (st st' : Replay) (record : MoveRecord) :
  replayStep sortCaptured st record = Ret st' -> replayTurn st' = opponentOf (replayTurn st).
Proof.
  unfold replayStep. intros H.
  apply obind_Ret in H as (target & _ & H). apply obind_Ret in H as (nb & _ & H).
  injection H as <-. reflexivity.
Qed.

Lemma opponentOf_involutive (col : Color) : opponentOf (opponentOf col) = col.
Proof. destruct col; reflexivity. Qed.

Lemma replayLoop_turn (records : list MoveRecord) :
  forall st r, replayLoop sortCaptured st records = Ret r ->
    replayTurn r = if Nat.even (length records) then replayTurn st
                   else opponentOf (replayTurn st).
Proof.
  induction records as [|record records IH]; intros st r H.
  - injection H as <-. reflexivity.
  - cbn [replayLoop] in H. apply obind_Ret in H as (st' & Hstep & H).
    rewrite (IH _ _ H), (replayStep_turn _ _ _ Hstep).
    cbn [length]. rewrite Nat.even_succ, <- Nat.negb_even.
    destruct (Nat.even (length records)); cbn [negb];
      [reflexivity | apply opponentOf_involutive].
Qed.

(** A move keeps the state in step with its history. *)
Lemma handleMove_replays (a b : Position) (isAi : bool) (promoteTo : option PieceType)
    (s s' : GameState) :
  replays sortCaptured s ->
  handleMove sortCaptured a b isAi promoteTo s = Ret s' ->
  replays sortCaptured s' /\ timers s' = timers s.
Proof.
  intros (r & Hr & Hboard & Hturn & Hlast & HcapW & HcapB) H. unfold handleMove in H.
  destruct (isAi && negb (isAiThinking s)).
  { injection H as <-. split; [|reflexivity]. exists r. auto 10. }
  apply obind_Ret in H as (piece & Hpiece & H).
  apply obind_Ret in H as (target & Htarget & H).
  apply obind_Ret in H as (nb & Hnb & H).
  apply obind_Ret in H as (san & Hsan & H).
  injection H as <-. split; [|reflexivity].
  unfold replays. cbn [history st_board st_turn lastMove capturedByWhite capturedByBlack].
  rewrite replayLoop_app, Hr. cbn [obind replayLoop].
  unfold replayStep. cbn [rec_from rec_to rec_promotion].
  rewrite Hboard, Htarget. cbn [obind]. rewrite Hnb. cbn [obind].
  eexists. split; [reflexivity|].
  cbn [replayBoard replayTurn replayLastMove replayCapturedWhite replayCapturedBlack].
  rewrite notNull_truthy, Hturn, HcapW, HcapB. auto 10.
Qed.

Lemma undoMove_replays (s s' : GameState) :
  undoMove sortCaptured s = Ret s' ->
  replays sortCaptured s ->
  replays sortCaptured s' /\ timers s' = timers s.
Proof.
  unfold undoMove. intros H Hs.
  destruct (isAiThinking s || (length (history s) =? 0)%nat).
  { injection H as <-. auto. }
  apply obind_Ret in H as (r & Hr & H). injection H as <-.
  split; [|reflexivity]. exists r. cbn. auto 10.
Qed.

(** In every state of a game the board, the turn, the last move and the
    captured pieces are those that the replay of the history gives; it is
    the turn of white exactly when the history has an even number of
    moves; and no clock is below zero. *)
Theorem reachable_replays (s : GameState) :
  reachable sortCaptured s ->
  replays sortCaptured s /\
  (st_turn s = white <-> Nat.even (length (history s)) = true) /\
  forall col, 0 <= timers s col.
Proof.
  intros H.
  assert (Hinv : replays sortCaptured s /\ forall col, 0 <= timers s col).
  { induction H as [mode | mode s | a b isAi promoteTo s s' _ [IH1 IH2] Hmove
                   | s s' _ [IH1 IH2] Hundo | s _ [IH1 IH2] | s s' _ [IH1 IH2] Hsame].
    - split; [|intros col; cbn; lia]. exists replayStart. cbn. auto 10.
    - split; [|intros col; cbn; lia]. exists replayStart. cbn. auto 10.
    - destruct (handleMove_replays _ _ _ _ _ _ IH1 Hmove) as [Hr Ht].
      split; [assumption|]. rewrite Ht. assumption.
    - destruct (undoMove_replays _ _ Hundo IH1) as [Hr Ht].
      split; [assumption|]. rewrite Ht. assumption.
    - unfold tick. destruct (Z.leb_spec (timers s (st_turn s)) 0) as [Hle | Hgt].
      + split; [|exact IH2]. destruct IH1 as (r & Hr). exists r. exact Hr.
      + split; [destruct IH1 as (r & Hr); exists r; exact Hr|].
        intros col. cbn [timers]. specialize (IH2 col).
        destruct (Color_eqb col (st_turn s)) eqn:E; [|assumption].
        assert (col = st_turn s) by (destruct col, (st_turn s); simpl in E; congruence).
        subst col. lia.
    - destruct Hsame as (Eb & Et & Eh & El & Ew & Ek & Etm).
      split; [|rewrite Etm; assumption].
      destruct IH1 as (r & Hr & H1 & H2 & H3 & H4 & H5).
      exists r. rewrite Eh, Eb, Et, El, Ew, Ek. auto 10. }
  destruct Hinv as [Hrep Htimers]. split; [assumption|]. split; [|assumption].
  destruct Hrep as (r & Hr & _ & Hturn & _).
  rewrite <- Hturn, (replayLoop_turn _ _ _ Hr). cbn [replayStart replayTurn].
  destruct (Nat.even (length (history s))); cbn [opponentOf]; split; congruence.
Qed.

(** Undoing the move just made gives back the board, the turn, the
    history, the last move and the captured pieces of before, in the game
    of two players and after a move of white. *)
Theorem undo_restores (a b : Position) (promoteTo : option PieceType) (s s' : GameState) :
  replays sortCaptured s ->
  gameMode s = Human \/ st_turn s = white ->
  handleMove sortCaptured a b false promoteTo s = Ret s' ->
  exists s'', undoMove sortCaptured s' = Ret s'' /\
    st_board s'' = st_board s /\ st_turn s'' = st_turn s /\ history s'' = history s /\
    lastMove s'' = lastMove s /\
    capturedByWhite s'' = capturedByWhite s /\ capturedByBlack s'' = capturedByBlack s.
Proof.
  intros (r & Hr & Hboard & Hturn & Hlast & HcapW & HcapB) Hmode H.
  unfold handleMove in H. cbn [andb] in H.
  apply obind_Ret in H as (piece & Hpiece & H).
  apply obind_Ret in H as (target & Htarget & H).
  apply obind_Ret in H as (nb & Hnb & H).
  apply obind_Ret in H as (san & Hsan & H).
  injection H as <-. unfold undoMove. cbn [isAiThinking history gameMode orb].
  rewrite length_app. cbn [length].
  replace (length (history s) + 1 =? 0)%nat with false by (symmetry; apply Nat.eqb_neq; lia).
  assert (Hsteps : undoSteps
            {| st_board := nb; st_turn := opponentOf (st_turn s); selected := None;
               validMoves := []; lastMove := Some (mkMove a b);
               lastCapture := if notNull target then Some b else None;
               lastCapturedPiece := if notNull target then target else Null;
               history := history s ++
                 [mkRecord a b (st_turn s) (if truthy piece then cell_type piece else Some Pawn)
                           promoteTo san];
               timers := timers s; gameOver := gameOver s; winner := winner s;
               statusMessage :=
                 match gameMode s with
                 | AI => "Waiting for AI..."%string
                 | Human => turnMessage (opponentOf (st_turn s))
                 end;
               isAiThinking := false; promotionPending := None;
               capturedByWhite :=
                 if notNull target && truthy target && Color_eqb (st_turn s) white
                 then sortCaptured (capturedByWhite s ++ [cell_type target])
                 else capturedByWhite s;
               capturedByBlack :=
                 if notNull target && truthy target && negb (Color_eqb (st_turn s) white)
                 then sortCaptured (capturedByBlack s ++ [cell_type target])
                 else capturedByBlack s;
               gameMode := gameMode s |} = 1%nat).
  { unfold undoSteps. cbn [gameMode history]. rewrite last_snoc. cbn [rec_color].
    destruct Hmode as [-> | ->]; [reflexivity|]. destruct (gameMode s); reflexivity. }
  rewrite Hsteps.
  replace (length (history s) + 1 - 1)%nat with (length (history s)) by lia.
  rewrite take_app_length, Hr. cbn [obind].
  eexists. split; [reflexivity|]. cbn. auto 10.
Qed.

End AppProperties.

Lemma initialState_replays (sortCaptured : list (option PieceType) -> list (option PieceType))
    (mode : GameMode) :
  replays sortCaptured (initialState mode).
Proof. exists replayStart. cbn. auto 10. Qed.

Lemma reachable_replays_witness :
  exists s', handleMove (fun l => l) (mkPos 6 4) (mkPos 4 4) false None (initialState Human)
             = Ret s' /\
             replays (fun l => l) s' /\
             (st_turn s' = white <-> Nat.even (length (history s')) = true) /\
             forall col, 0 <= timers s' col.
Proof.
  destruct (handleMove (fun l => l) (mkPos 6 4) (mkPos 4 4) false None (initialState Human))
    as [s'| |] eqn:Hm; [|vm_compute in Hm; discriminate..].
  exists s'. split; [reflexivity|].
  apply reachable_replays.
  exact (reach_move _ _ _ _ _ _ _ (reach_init _ Human) Hm).
Defined.

Lemma undo_restores_witness :
  exists s' s'',
    handleMove (fun l => l) (mkPos 6 4) (mkPos 4 4) false None (initialState Human) = Ret s' /\
    undoMove (fun l => l) s' = Ret s'' /\
    st_board s'' = getInitialBoard /\ st_turn s'' = white /\ history s'' = [].
Proof.
  destruct (handleMove (fun l => l) (mkPos 6 4) (mkPos 4 4) false None (initialState Human))
    as [s'| |] eqn:Hm; [|vm_compute in Hm; discriminate..].
  destruct (undo_restores (fun l => l) (mkPos 6 4) (mkPos 4 4) None (initialState Human) s'
              (initialState_replays _ Human) ltac:(left; reflexivity) Hm)
    as (s'' & Hu & H1 & H2 & H3 & _).
  exists s', s''. auto.
Defined.

(** * The game in progress *)

Lemma standardBoard_noBare (board : Board) : standardBoard board -> noBare board.
Proof.
  intros Hstd r c Hr Hc Hget.
  destruct (standardBoard_get board r c Hstd Hr Hc) as (x & Hx & Hplain).
  rewrite Hx in Hget. injection Hget as ->. destruct Hplain as [? | [p ?]]; discriminate.
Qed.

Lemma getValidMoves_total (board : Board) (a : Position) :
  standardBoard board -> 0 <= pos_r a < 8 -> 0 <= pos_c a < 8 ->
  exists moves, getValidMoves board a = Ret moves.
Proof.
  intros Hstd Hr Hc. unfold getValidMoves.
  destruct (standardBoard_get board _ _ Hstd Hr Hc) as (x & -> & Hplain). cbn [obind].
  destruct Hplain as [-> | [p ->]]; [eauto|].
  apply filterM_total. intros [r c] Hb. apply elem_of_allSquares in Hb as [Hr' Hc'].
  apply isValidMove_total; [apply standardBoard_readable | |]; assumption.
Qed.

Lemma getSan_total (prevBoard nextBoard : Board) (a b : Position)
    (promoteTo : option PieceType) (piece : Piece) :
  readable prevBoard -> readable nextBoard ->
  0 <= pos_r b < 8 ->
  get prevBoard (pos_r a) (pos_c a) = Ret (Obj piece) ->
  exists san, getSan prevBoard nextBoard (mkMove a b) promoteTo = Ret san.
Proof.
  intros Hp Hn Hbr Hpiece. unfold getSan. cbn [from to]. rewrite Hpiece. cbn [obind].
  destruct (checkSuffix_total nextBoard (opponentOf (color piece)) Hn) as (suffix & Hs & _).
  destruct (type_is piece King && _).
  - rewrite Hs. cbn [obind]. eauto.
  - destruct (get_readable prevBoard (pos_r b) (pos_c b) Hp Hbr) as [target ->]. cbn [obind].
    destruct (type_is piece Pawn).
    + cbn [obind]. rewrite Hs. cbn [obind]. eauto.
    + assert (Hos : exists os, others prevBoard piece (mkMove a b) = Ret os).
      { unfold others. apply filterM_total. intros [r c] Hsq.
        apply elem_of_allSquares in Hsq as [Hr Hc]. cbn [pos_r pos_c from to].
        destruct ((r =? pos_r a) && (c =? pos_c a)); [eauto|].
        destruct (get_readable prevBoard r c Hp Hr) as [x ->]. cbn [obind].
        destruct (is_piece x (color piece) (type piece)); [|eauto].
        apply isValidMove_total; assumption. }
      destruct Hos as [os ->]. cbn [obind]. rewrite Hs. cbn [obind]. eauto.
Qed.

Section SafeGame.

Variable sortCaptured : list (option PieceType) -> list (option PieceType).
Variable shuffle : list Move -> list Move.
Hypothesis shuffle_perm : forall l, Permutation l (shuffle l).

Lemma handleMove_wellFormed (a b : Position) (isAi : bool) (promoteTo : option PieceType)
    (s : GameState) :
  wellFormed sortCaptured s ->
  0 <= pos_r a < 8 -> 0 <= pos_c a < 8 -> 0 <= pos_r b < 8 -> 0 <= pos_c b < 8 ->
  isValidMove (st_board s) a b (st_turn s) true = Ret true ->
  exists s', handleMove sortCaptured a b isAi promoteTo s = Ret s' /\
             wellFormed sortCaptured s'.
Proof.
  intros Hwf Har Hac Hbr Hbc Hv.
  destruct (handleMove sortCaptured a b isAi promoteTo s) as [s'| |] eqn:Hm.
  - exists s'. split; [reflexivity|]. pose proof Hwf as Hwf0.
    destruct Hwf as (Hstd & Hrep & Hleg & Hsel & Hpend & Hthink).
    pose proof (handleMove_replays sortCaptured _ _ _ _ _ _ Hrep Hm) as [Hrep' _].
    unfold handleMove in Hm.
    destruct (isAi && negb (isAiThinking s)).
    { injection Hm as <-. exact Hwf0. }
    apply obind_Ret in Hm as (piece & Hpiece & Hm).
    apply obind_Ret in Hm as (target & Htarget & Hm).
    apply obind_Ret in Hm as (nb & Hnb & Hm).
    apply obind_Ret in Hm as (san & Hsan & Hm).
    destruct (applyMove_standard (st_board s) a b (st_turn s) promoteTo Hstd Har Hac Hbr Hbc Hv)
      as (nb' & Hnb' & Hstd').
    rewrite Hnb in Hnb'. injection Hnb' as <-.
    injection Hm as <-.
    split; [exact Hstd'|]. split; [exact Hrep'|].
    split; [|split; [discriminate | split; discriminate]].
    cbn [history]. intros n record Hn.
    destruct (Nat.lt_ge_cases n (length (history s))) as [Hlt | Hge].
    + rewrite lookup_app_l in Hn by assumption.
      rewrite take_app_le by lia. apply Hleg. assumption.
    + pose proof (lookup_lt_Some _ _ _ Hn) as Hlen. rewrite length_app in Hlen.
      cbn [length] in Hlen. assert (n = length (history s)) by lia. subst n.
      rewrite lookup_app_r, Nat.sub_diag in Hn by lia. injection Hn as <-.
      rewrite take_app_length.
      destruct Hrep as (r & Hr & Hboard & Hturn & _).
      exists r. cbn [rec_color rec_from rec_to]. rewrite Hboard, Hturn. auto.
  - exfalso. unfold handleMove in Hm.
    destruct (isAi && negb (isAiThinking s)); [discriminate|].
    destruct Hwf as (Hstd & _).
    destruct (isValidMove_origin _ _ _ _ _ Hv) as (p & Hp & _).
    rewrite Hp in Hm. cbn [obind] in Hm.
    destruct (get_readable (st_board s) (pos_r b) (pos_c b) (standardBoard_readable _ Hstd) Hbr)
      as [target Ht].
    rewrite Ht in Hm. cbn [obind] in Hm.
    destruct (applyMove_standard (st_board s) a b (st_turn s) promoteTo Hstd Har Hac Hbr Hbc Hv)
      as (nb & Hnb & Hstd').
    rewrite Hnb in Hm. cbn [obind] in Hm.
    destruct (getSan_total (st_board s) nb a b promoteTo p (standardBoard_readable _ Hstd)
                (standardBoard_readable _ Hstd') Hbr Hp) as [san Hsan].
    rewrite Hsan in Hm. discriminate.
  - exfalso. unfold handleMove in Hm.
    destruct (isAi && negb (isAiThinking s)); [discriminate|].
    destruct Hwf as (Hstd & _).
    destruct (isValidMove_origin _ _ _ _ _ Hv) as (p & Hp & _).
    rewrite Hp in Hm. cbn [obind] in Hm.
    destruct (get_readable (st_board s) (pos_r b) (pos_c b) (standardBoard_readable _ Hstd) Hbr)
      as [target Ht].
    rewrite Ht in Hm. cbn [obind] in Hm.
    destruct (applyMove_standard (st_board s) a b (st_turn s) promoteTo Hstd Har Hac Hbr Hbc Hv)
      as (nb & Hnb & Hstd').
    rewrite Hnb in Hm. cbn [obind] in Hm.
    destruct (getSan_total (st_board s) nb a b promoteTo p (standardBoard_readable _ Hstd)
                (standardBoard_readable _ Hstd') Hbr Hp) as [san Hsan].
    rewrite Hsan in Hm. discriminate.
Qed.

Lemma undoMove_wellFormed (s : GameState) :
  wellFormed sortCaptured s ->
  exists s', undoMove sortCaptured s = Ret s' /\ wellFormed sortCaptured s'.
Proof.
  intros Hwf. unfold undoMove.
  destruct (isAiThinking s) eqn:Hth; cbn [orb]; [eauto|].
  destruct (Nat.eqb_spec (length (history s)) 0) as [Hlen | Hlen]; [eauto|].
  destruct Hwf as (Hstd & Hrep & Hleg & Hsel & Hpend & Hthink).
  set (k := (length (history s) - undoSteps s)%nat).
  assert (Hk : (k < length (history s))%nat).
  { subst k. unfold undoSteps. destruct (gameMode s); [|lia].
    destruct (last (history s)) as [record|]; [|lia].
    destruct (rec_color record); [lia|].
    destruct (Nat.ltb_spec (length (history s)) 2); lia. }
  destruct (lookup_lt_is_Some_2 _ _ Hk) as [record Hrecord].
  destruct (Hleg k record Hrecord) as (r & Hr & Hstd' & _).
  rewrite Hr. cbn [obind]. eexists. split; [reflexivity|].
  split; [exact Hstd'|]. split; [exists r; cbn; auto 10|].
  split; [|split; [discriminate | split; [discriminate | cbn; congruence]]].
  cbn [history]. intros n record' Hn.
  apply lookup_take_Some in Hn as [Hn Hnk].
  rewrite take_take. replace (n `min` k)%nat with n by lia.
  apply Hleg. assumption.
Qed.

Lemma wellFormed_sameGame (s s' : GameState) :
  wellFormed sortCaptured s -> sameGame s s' ->
  (forall a, selected s' = Some a ->
     0 <= pos_r a < 8 /\ 0 <= pos_c a < 8 /\
     exists p, get (st_board s) (pos_r a) (pos_c a) = Ret (Obj p) /\ color p = st_turn s /\
               getValidMoves (st_board s) a = Ret (validMoves s')) ->
  (forall m, promotionPending s' = Some m ->
     selected s' = Some (from m) /\ to m ∈ validMoves s') ->
  (isAiThinking s' = true -> st_turn s = black) ->
  wellFormed sortCaptured s'.
Proof.
  intros (Hstd & (r & Hr & H1 & H2 & H3 & H4 & H5) & Hleg & _) (Eb & Et & Eh & El & Ew & Ek & _)
    Hsel Hpend Hthink.
  unfold wellFormed, replays. rewrite Eb, Et, Eh, El, Ew, Ek.
  split; [assumption|]. split; [exists r; auto 10|]. auto.
Qed.

Lemma isTarget_elem (moves : list Position) (r c : Z) :
  isTarget moves r c = true -> mkPos r c ∈ moves.
Proof.
  unfold isTarget. intros H. apply existsb_exists in H as ([r' c'] & Hin & H).
  cbn [pos_r pos_c] in H. apply andb_true_iff in H as [E1 E2].
  apply Z.eqb_eq in E1, E2. subst. apply list_elem_of_In. assumption.
Qed.

(** A valid move of the selected piece is accepted by the validator for
    the side to move. *)
Lemma selected_move_valid (s : GameState) (a b : Position) :
  wellFormed sortCaptured s -> selected s = Some a -> b ∈ validMoves s ->
  0 <= pos_r a < 8 /\ 0 <= pos_c a < 8 /\ 0 <= pos_r b < 8 /\ 0 <= pos_c b < 8 /\
  isValidMove (st_board s) a b (st_turn s) true = Ret true.
Proof.
  intros (_ & _ & _ & Hsel & _) Ha Hb.
  destruct (Hsel a Ha) as (Har & Hac & p & Hp & Hcol & Hmoves).
  unfold getValidMoves in Hmoves. rewrite Hp in Hmoves. cbn [obind] in Hmoves.
  destruct (filterM_elem _ _ _ _ Hmoves Hb) as [Hsq Hv].
  destruct b as [r c]. apply elem_of_allSquares in Hsq as [Hr Hc].
  rewrite Hcol in Hv. cbn [pos_r pos_c]. auto 10.
Qed.

Lemma select_wellFormed (s : GameState) (r c : Z) (piece : cell) :
  wellFormed sortCaptured s -> 0 <= r < 8 -> 0 <= c < 8 ->
  promotionPending s = None -> isAiThinking s = false ->
  get (st_board s) r c = Ret piece -> cell_color_is piece (st_turn s) = true ->
  exists s', (let* moves := getValidMoves (st_board s) (mkPos r c) in
              Ret (withSelection (Some (mkPos r c)) moves s)) = Ret s' /\
             wellFormed sortCaptured s'.
Proof.
  intros Hwf Hr Hc Hpend Hth Hpiece Hcol.
  pose proof Hwf as (Hstd & _).
  destruct (getValidMoves_total (st_board s) (mkPos r c) Hstd Hr Hc) as [moves Hmoves].
  rewrite Hmoves. cbn [obind]. eexists. split; [reflexivity|].
  apply (wellFormed_sameGame s); [assumption | repeat split | | |].
  - unfold withSelection. cbn [selected validMoves]. intros a Ha. injection Ha as <-. cbn [pos_r pos_c].
    apply cell_color_is_Obj in Hcol as (p & -> & Hp). split; [assumption|]. split; [assumption|].
    exists p. auto.
  - unfold withSelection. cbn [promotionPending]. rewrite Hpend. discriminate.
  - unfold withSelection. cbn [isAiThinking]. rewrite Hth. discriminate.
Qed.

Lemma deselect_wellFormed (s : GameState) :
  wellFormed sortCaptured s -> promotionPending s = None -> isAiThinking s = false ->
  wellFormed sortCaptured (withSelection None [] s).
Proof.
  intros Hwf Hpend Hth. apply (wellFormed_sameGame s); [assumption | repeat split | | |].
  - unfold withSelection. cbn [selected]. discriminate.
  - unfold withSelection. cbn [promotionPending]. rewrite Hpend. discriminate.
  - unfold withSelection. cbn [isAiThinking]. rewrite Hth. discriminate.
Qed.

Lemma handleSquareClick_wellFormed (r c : Z) (s : GameState) :
  wellFormed sortCaptured s -> 0 <= r < 8 -> 0 <= c < 8 ->
  exists s', handleSquareClick sortCaptured r c s = Ret s' /\ wellFormed sortCaptured s'.
Proof.
  intros Hwf Hr Hc. unfold handleSquareClick.
  destruct (gameOver s); cbn [orb]; [eauto|].
  destruct (promotionPending s) as [pending|] eqn:Hpend; cbn [isSome]; [eauto|].
  destruct (isAiThinking s) eqn:Hth; [eauto|].
  destruct (GameMode_eqb (gameMode s) AI && Color_eqb (st_turn s) black); [eauto|].
  pose proof Hwf as (Hstd & _).
  destruct (get_readable (st_board s) r c (standardBoard_readable _ Hstd) Hr) as [piece Hpiece].
  rewrite Hpiece. cbn [obind].
  destruct (selected s) as [sel|] eqn:Hsel.
  - destruct ((pos_r sel =? r) && (pos_c sel =? c)).
    { eexists. split; [reflexivity|]. apply deselect_wellFormed; assumption. }
    destruct (cell_color_is piece (st_turn s)) eqn:Hcol.
    { apply (select_wellFormed s r c piece); assumption. }
    destruct (isTarget (validMoves s) r c) eqn:Htarget.
    + apply isTarget_elem in Htarget.
      destruct (selected_move_valid s sel (mkPos r c) Hwf Hsel Htarget)
        as (Har & Hac & _ & _ & Hv).
      destruct (get_readable (st_board s) (pos_r sel) (pos_c sel)
                  (standardBoard_readable _ Hstd) Har) as [sourcePiece ->].
      cbn [obind].
      destruct (cell_type_is sourcePiece Pawn && ((r =? 0) || (r =? 7))).
      * eexists. split; [reflexivity|].
        apply (wellFormed_sameGame s); [assumption | repeat split | | |].
        -- unfold withPromotion. cbn [selected validMoves]. destruct Hwf as (_ & _ & _ & Hs & _). exact Hs.
        -- unfold withPromotion. cbn [promotionPending selected validMoves]. intros m Hm. injection Hm as <-.
           cbn [from to]. auto.
        -- unfold withPromotion. cbn [isAiThinking]. rewrite Hth. discriminate.
      * apply handleMove_wellFormed; assumption.
    + eexists. split; [reflexivity|]. apply deselect_wellFormed; assumption.
  - destruct (cell_color_is piece (st_turn s)) eqn:Hcol; [|eauto].
    apply (select_wellFormed s r c piece); assumption.
Qed.

Lemma confirmPromotion_wellFormed (t : PieceType) (s : GameState) :
  wellFormed sortCaptured s ->
  exists s', confirmPromotion sortCaptured t s = Ret s' /\ wellFormed sortCaptured s'.
Proof.
  intros Hwf. unfold confirmPromotion.
  destruct (promotionPending s) as [pending|] eqn:Hpend; [|eauto].
  pose proof Hwf as (_ & _ & _ & _ & Hp & _).
  destruct (Hp pending Hpend) as [Hsel Hto].
  destruct (selected_move_valid s _ _ Hwf Hsel Hto) as (Har & Hac & Hbr & Hbc & Hv).
  apply handleMove_wellFormed; assumption.
Qed.

Lemma withStatus_wellFormed (over : bool) (w : option Winner) (msg : string) (thinking : bool)
    (s : GameState) :
  wellFormed sortCaptured s -> (thinking = true -> st_turn s = black) ->
  wellFormed sortCaptured (withStatus over w msg thinking s).
Proof.
  intros Hwf Hth. apply (wellFormed_sameGame s); [assumption | repeat split | | |].
  - destruct Hwf as (_ & _ & _ & Hs & _). exact Hs.
  - destruct Hwf as (_ & _ & _ & _ & Hp & _). exact Hp.
  - exact Hth.
Qed.

Lemma aiStart_wellFormed (s : GameState) :
  wellFormed sortCaptured s -> wellFormed sortCaptured (aiStart s).
Proof.
  intros Hwf. unfold aiStart.
  destruct (GameMode_eqb (gameMode s) AI && negb (gameOver s) && Color_eqb (st_turn s) black
            && negb (isAiThinking s) && negb (isSome (promotionPending s))) eqn:Hcond;
    [|assumption].
  apply withStatus_wellFormed; [assumption|]. intros _.
  rewrite !andb_true_iff in Hcond. destruct Hcond as [[[[_ _] Hb] _] _].
  destruct (st_turn s); [discriminate | reflexivity].
Qed.

(** The engine returns, and what it returns is a move that the generator
    lists for black. *)
Lemma getBestMove_returns (board : Board) (difficulty : nat) :
  readable board -> noBare board -> (1 <= difficulty)%nat ->
  exists res, getBestMove shuffle board difficulty = Ret res /\
    forall m, res = Some m ->
      exists moves, getAllMoves board black = Ret moves /\ m ∈ moves.
Proof.
  intros Hb Hnb Hd. destruct difficulty as [|d]; [lia|].
  destruct (getAllMoves_total board black Hb) as [moves Hms].
  unfold getBestMove. rewrite Hms. cbn [obind].
  destruct moves as [|m0 moves]; [exists None; split; [reflexivity | discriminate]|].
  assert (Hsub : forall m, m ∈ shuffle (m0 :: moves) <-> m ∈ m0 :: moves).
  { intros m. rewrite !list_elem_of_In. split; apply Permutation_in;
      [symmetry|]; apply shuffle_perm. }
  assert (Hch : childrenExact (fun b al be => minimax b d al be false)
                              (fun b => searchValue b d false) board (shuffle (m0 :: moves))).
  { intros m Hm. apply Hsub in Hm.
    destruct (getAllMoves_children board _ _ m Hb Hnb Hms Hm) as (nb & Happ & Hrb & Hnbb).
    destruct (minimax_bound d nb false Hrb Hnbb) as (v & Hv & Hwin).
    exists nb, v. auto. }
  assert (Hne : shuffle (m0 :: moves) <> []).
  { intros E. assert (Hin : m0 ∈ shuffle (m0 :: moves)) by (apply Hsub; left).
    rewrite E in Hin. inversion Hin. }
  destruct (bestLoop_best board d (shuffle (m0 :: moves)) Hch None NegInf NegInf ltac:(auto))
    as (m & x & Hloop & Hin & _).
  rewrite Hloop. exists (Some m). split; [reflexivity|].
  intros m' E. injection E as <-. exists (m0 :: moves). split; [reflexivity|].
  destruct Hin as [Hin | Hin]; [apply Hsub; assumption | discriminate].
Qed.

Lemma aiReply_wellFormed (difficulty : nat) (s : GameState) :
  wellFormed sortCaptured s -> (1 <= difficulty)%nat ->
  exists s', aiReply sortCaptured shuffle difficulty s = Ret s' /\ wellFormed sortCaptured s'.
Proof.
  intros Hwf Hd. unfold aiReply. pose proof Hwf as (Hstd & _).
  destruct (getBestMove_returns (st_board s) difficulty (standardBoard_readable _ Hstd)
              (standardBoard_noBare _ Hstd) Hd) as (res & -> & Hres).
  destruct res as [m|].
  - destruct (Hres m eq_refl) as (moves & Hms & Hm).
    destruct (isAiThinking s) eqn:Hth.
    + destruct (getAllMoves_elem _ _ _ _ Hms Hm) as (Hv & Ha & Hb & _).
      destruct m as [[ar ac] [br bc]]. cbn [from to] in *.
      apply elem_of_allSquares in Ha as [Har Hac]. apply elem_of_allSquares in Hb as [Hbr Hbc].
      assert (Hturn : st_turn s = black) by (apply Hwf; assumption).
      apply handleMove_wellFormed; try assumption. rewrite Hturn. assumption.
    + unfold handleMove. rewrite Hth. cbn [andb negb]. eauto.
  - destruct (isInCheck_total (st_board s) black (standardBoard_readable _ Hstd)) as [chk ->].
    eexists. split; [reflexivity|]. apply withStatus_wellFormed; [assumption | discriminate].
Qed.

Lemma detectEnd_wellFormed (s : GameState) :
  wellFormed sortCaptured s ->
  exists s', detectEnd s = Ret s' /\ wellFormed sortCaptured s'.
Proof.
  intros Hwf. unfold detectEnd. pose proof Hwf as (Hstd & _).
  destruct (negb (gameOver s) && _); [|eauto].
  destruct (getAllMoves_total (st_board s) (st_turn s) (standardBoard_readable _ Hstd))
    as [moves ->].
  cbn [obind]. destruct moves; [|eauto].
  destruct (isInCheck_total (st_board s) (st_turn s) (standardBoard_readable _ Hstd))
    as [chk ->].
  cbn [obind]. eexists. split; [reflexivity|].
  apply withStatus_wellFormed; [assumption|]. apply Hwf.
Qed.

Lemma tick_wellFormed (s : GameState) :
  wellFormed sortCaptured s -> wellFormed sortCaptured (tick s).
Proof.
  intros (Hstd & (r & Hr) & Hleg & Hsel & Hpend & Hth). unfold tick.
  destruct (timers s (st_turn s) <=? 0);
    (split; [exact Hstd|]; split; [exists r; exact Hr|]; split; [exact Hleg|];
     split; [exact Hsel|]; split; [exact Hpend | exact Hth]).
Qed.

Lemma resetGame_wellFormed (mode : option GameMode) (s : GameState) :
  wellFormed sortCaptured (resetGame mode s).
Proof.
  split; [exact getInitialBoard_standard|]. split; [exists replayStart; cbn; auto 10|].
  split; [intros n record Hn; inversion Hn|].
  split; [discriminate|]. split; discriminate.
Qed.

Lemma initialState_wellFormed (mode : GameMode) :
  wellFormed sortCaptured (initialState mode).
Proof.
  split; [exact getInitialBoard_standard|]. split; [apply initialState_replays|].
  split; [intros n record Hn; inversion Hn|].
  split; [discriminate|]. split; discriminate.
Qed.

Lemma failsafe_wellFormed (s : GameState) :
  wellFormed sortCaptured s -> wellFormed sortCaptured (failsafe s).
Proof.
  intros Hwf. unfold failsafe.
  destruct (GameMode_eqb (gameMode s) Human && isAiThinking s); [|assumption].
  apply withStatus_wellFormed; [assumption | discriminate].
Qed.

Lemma dispatch_wellFormed (e : Event) (s : GameState) :
  wellFormed sortCaptured s -> produced e ->
  exists s', dispatch sortCaptured shuffle e s = Ret s' /\ wellFormed sortCaptured s'.
Proof.
  intros Hwf He. destruct e as [r c | t | | difficulty | | | | | mode]; cbn [dispatch].
  - destruct He. apply handleSquareClick_wellFormed; assumption.
  - apply confirmPromotion_wellFormed; assumption.
  - eexists. split; [reflexivity|]. apply aiStart_wellFormed; assumption.
  - apply aiReply_wellFormed; assumption.
  - apply detectEnd_wellFormed; assumption.
  - apply undoMove_wellFormed; assumption.
  - eexists. split; [reflexivity|]. apply tick_wellFormed; assumption.
  - eexists. split; [reflexivity|]. apply failsafe_wellFormed; assumption.
  - eexists. split; [reflexivity|]. apply resetGame_wellFormed.
Qed.

Lemma run_wellFormed (events : list Event) (s0 : GameState) :
  wellFormed sortCaptured s0 -> Forall produced events ->
  exists s, run sortCaptured shuffle events s0 = Ret s /\ wellFormed sortCaptured s.
Proof.
  intros Hwf Hev. revert s0 Hwf.
  induction Hev as [|e events He Hev IH]; intros s0 Hwf; cbn [run]; [eauto|].
  destruct (dispatch_wellFormed e s0 Hwf He) as (s1 & -> & Hwf1). cbn [obind].
  apply IH. assumption.
Qed.


(** Only legal moves are played: whatever the events of the interface,
    every move of the history of the game was accepted by the validator,
    king safety included, for the side that played it, on the board that
    the moves before it replay to. *)
Theorem game_moves_legal (mode : GameMode) (events : list Event) :
  Forall produced events ->
  exists s, run sortCaptured shuffle events (initialState mode) = Ret s /\
    forall n record, history s !! n = Some record ->
      exists r, replayLoop sortCaptured replayStart (take n (history s)) = Ret r /\
                rec_color record = replayTurn r /\
                isValidMove (replayBoard r) (rec_from record) (rec_to record)
                            (rec_color record) true = Ret true.
Proof.
  intros Hev.
  destruct (run_wellFormed events _ (initialState_wellFormed mode) Hev)
    as (s & Hrun & _ & _ & Hleg & _).
  exists s. split; [assumption|]. intros n record Hn.
  destruct (Hleg n record Hn) as (r & Hr & _ & Hcol & Hv).
  exists r. rewrite Hcol. auto.
Qed.

(** The squares offered to the player are the legal moves of the selected
    piece: whatever the events of the interface, a selected square holds a
    piece of the side to move, the valid moves of the state are what
    getValidMoves returns for it on the board of the state, and a pending
    promotion is a move from the selected square to one of them. *)
Theorem game_selection_valid (mode : GameMode) (events : list Event) :
  Forall produced events ->
  exists s, run sortCaptured shuffle events (initialState mode) = Ret s /\
    (forall a, selected s = Some a ->
       exists p, get (st_board s) (pos_r a) (pos_c a) = Ret (Obj p) /\
                 color p = st_turn s /\
                 getValidMoves (st_board s) a = Ret (validMoves s)) /\
    (forall m, promotionPending s = Some m ->
       selected s = Some (from m) /\ to m ∈ validMoves s).
Proof.
  intros Hev.
  destruct (run_wellFormed events _ (initialState_wellFormed mode) Hev)
    as (s & Hrun & _ & _ & _ & Hsel & Hpend & _).
  exists s. split; [assumption|]. split; [|assumption].
  intros a Ha. destruct (Hsel a Ha) as (_ & _ & H). exact H.
Qed.

End SafeGame.


Lemma game_moves_legal_witness :
  exists s, run (fun l => l) (@rev Move)
              [Click 6 4; Click 4 4; AiStart; AiReply 1; Click 6 3; Click 5 3]
              (initialState AI) = Ret s /\
    forall n record, history s !! n = Some record ->
      exists r, replayLoop (fun l => l) replayStart (take n (history s)) = Ret r /\
                rec_color record = replayTurn r /\
                isValidMove (replayBoard r) (rec_from record) (rec_to record)
                            (rec_color record) true = Ret true.
Proof.
  apply (game_moves_legal (fun l => l) (@rev Move) (@Permutation_rev Move)).
  repeat (apply Forall_cons; split; [cbn; lia || exact I|]). apply Forall_nil. exact I.
Defined.

Lemma game_selection_valid_witness :
  exists s, run (fun l => l) (@rev Move) [Click 6 4; Click 7 1] (initialState Human) = Ret s /\
    (forall a, selected s = Some a ->
       exists p, get (st_board s) (pos_r a) (pos_c a) = Ret (Obj p) /\
                 color p = st_turn s /\
                 getValidMoves (st_board s) a = Ret (validMoves s)) /\
    (forall m, promotionPending s = Some m ->
       selected s = Some (from m) /\ to m ∈ validMoves s).
Proof.
  apply (game_selection_valid (fun l => l) (@rev Move) (@Permutation_rev Move)).
  repeat (apply Forall_cons; split; [cbn; lia || exact I|]). apply Forall_nil. exact I.
Defined.

(** ** Undo against the engine *)

Section UndoTurn.

Variable sortCaptured : list (option PieceType) -> list (option PieceType).
Variable shuffle : list Move -> list Move.
Hypothesis shuffle_perm : forall l, Permutation l (shuffle l).

Lemma even_pred_pred (k : nat) : Nat.even k = false -> Nat.even (S k - 2) = true.
Proof.
  destruct k as [|j]; [discriminate|]. intros H.
  replace (S (S j) - 2)%nat with j by lia.
  rewrite Nat.even_succ in H. rewrite <- Nat.negb_odd, H. reflexivity.
Qed.

Lemma undoMove_turn (s s' : GameState) :
  wellFormed sortCaptured s -> gameMode s = AI -> isAiThinking s = false ->
  undoMove sortCaptured s = Ret s' -> st_turn s' = white.
Proof.
  intros (_ & (r & Hr & _ & Hturn & _) & Hleg & _) Hmode Hth H.
  unfold undoMove in H. rewrite Hth in H. cbn [orb] in H.
  destruct (history s) as [|record0 records0] eqn:Hhist.
  { cbn in H. injection H as <-. injection Hr as <-. symmetry. exact Hturn. }
  rewrite <- Hhist in *.
  assert (Hlen : length (history s) = S (length records0)) by (rewrite Hhist; reflexivity).
  replace (length (history s) =? 0)%nat with false in H by (rewrite Hlen; reflexivity).
  apply obind_Ret in H as (r' & Hr' & H). injection H as <-. cbn [st_turn].
  rewrite (replayLoop_turn sortCaptured _ _ _ Hr'). cbn [replayStart replayTurn].
  assert (Hlast : exists record, last (history s) = Some record /\
                    rec_color record = if Nat.even (length records0) then white else black).
  { destruct (last (history s)) as [record|] eqn:Hl.
    - exists record. split; [reflexivity|]. rewrite last_lookup, Hlen in Hl. cbn [pred] in Hl.
      destruct (Hleg _ _ Hl) as (r0 & Hr0 & _ & Hcol & _).
      rewrite Hcol, (replayLoop_turn sortCaptured _ _ _ Hr0), length_take.
      cbn [replayStart replayTurn]. rewrite Hlen.
      replace (length records0 `min` S (length records0))%nat with (length records0) by lia.
      destruct (Nat.even (length records0)); reflexivity.
    - rewrite last_lookup, Hlen in Hl. cbn [pred] in Hl.
      apply lookup_ge_None in Hl. lia. }
  destruct Hlast as (record & Hl & Hcol).
  rewrite length_take. unfold undoSteps. rewrite Hmode, Hl, Hcol, Hlen.
  destruct (Nat.even (length records0)) eqn:Hev.
  - replace ((S (length records0) - 1) `min` S (length records0))%nat
      with (length records0) by lia.
    rewrite Hev. reflexivity.
  - destruct records0 as [|record1 records1]; [discriminate|].
    cbn [length]. replace (S (S (length records1)) <? 2)%nat with false
      by (symmetry; apply Nat.ltb_ge; lia).
    replace ((S (S (length records1)) - 2) `min` S (S (length records1)))%nat
      with (S (length (record1 :: records1)) - 2)%nat by (cbn [length]; lia).
    rewrite (even_pred_pred _ Hev). reflexivity.
Qed.

(** Against the engine, undo gives the move back to the player: in a game
    against the engine that the events of the interface lead to, with the
    engine not thinking, [undoMove] returns a state where white is to
    move. *)
Theorem undo_returns_to_player (mode : GameMode) (events : list Event) (s : GameState) :
  Forall produced events ->
  run sortCaptured shuffle events (initialState mode) = Ret s ->
  gameMode s = AI -> isAiThinking s = false ->
  exists s', undoMove sortCaptured s = Ret s' /\ st_turn s' = white.
Proof.
  intros Hev Hrun Hmode Hth.
  destruct (run_wellFormed sortCaptured shuffle shuffle_perm events _
              (initialState_wellFormed sortCaptured mode) Hev) as (s0 & Hrun0 & Hwf).
  rewrite Hrun in Hrun0. injection Hrun0 as <-.
  destruct (undoMove_wellFormed sortCaptured s Hwf) as (s' & Hs' & _).
  exists s'. split; [assumption|]. apply (undoMove_turn s s'); assumption.
Qed.

End UndoTurn.

(** ** The evaluation after a move *)

Lemma evaluateLoop_material (board : Board) (sqs : list Position) :
  standardBoard board ->
  (forall s, s ∈ sqs -> 0 <= pos_r s < 8 /\ 0 <= pos_c s < 8) ->
  forall z, evaluateLoop board (Fin z) sqs = Ret (Fin (z + material board sqs)).
Proof.
  intros Hstd. induction sqs as [|s sqs IH]; intros Hin z; cbn [evaluateLoop material foldr].
  - rewrite Z.add_0_r. reflexivity.
  - destruct (Hin s ltac:(left)) as [Hr Hc].
    destruct (standardBoard_get board _ _ Hstd Hr Hc) as (x & Hx & Hplain).
    unfold cellAt at 1. rewrite Hx. cbn [obind].
    fold (material board sqs).
    destruct Hplain as [-> | [p ->]]; cbn [truthy cellScore cellValue num_add].
    + rewrite IH by (intros s' Hs'; apply Hin; right; assumption). f_equal; f_equal; lia.
    + rewrite IH by (intros s' Hs'; apply Hin; right; assumption). f_equal; f_equal; lia.
Qed.

Lemma evaluateBoard_material (board : Board) :
  standardBoard board -> evaluateBoard board = Ret (Fin (material board allSquares)).
Proof.
  intros Hstd. unfold evaluateBoard. rewrite evaluateLoop_material; [reflexivity | assumption |].
  intros [r c] Hs. apply elem_of_allSquares in Hs. exact Hs.
Qed.

Lemma cellAt_set (board nb : Board) (r c : Z) (v : cell) (s : Position) :
  set board r c v = Ret nb ->
  cellAt nb s = if (r =? pos_r s) && (c =? pos_c s) then v else cellAt board s.
Proof.
  intros H. unfold cellAt. rewrite (get_set _ _ _ _ (pos_r s) (pos_c s) _ H).
  destruct ((r =? pos_r s) && (c =? pos_c s)); reflexivity.
Qed.

Lemma material_set_notin (board nb : Board) (r c : Z) (v : cell) (sqs : list Position) :
  set board r c v = Ret nb -> mkPos r c ∉ sqs -> material nb sqs = material board sqs.
Proof.
  intros H. induction sqs as [|s sqs IH]; intros Hnot; cbn [material foldr]; [reflexivity|].
  fold (material nb sqs). fold (material board sqs).
  rewrite IH by (intros Hin; apply Hnot; right; assumption).
  rewrite (cellAt_set _ _ _ _ _ s H).
  destruct (Z.eqb_spec r (pos_r s)) as [Er | Er]; [|reflexivity].
  destruct (Z.eqb_spec c (pos_c s)) as [Ec | Ec]; [|reflexivity].
  exfalso. apply Hnot. destruct s as [sr sc]. cbn [pos_r pos_c] in *. subst. left.
Qed.

Lemma material_set_in (board nb : Board) (r c : Z) (v : cell) (sqs : list Position) :
  set board r c v = Ret nb -> NoDup sqs -> mkPos r c ∈ sqs ->
  material nb sqs = material board sqs - cellValue (cellAt board (mkPos r c)) + cellValue v.
Proof.
  intros H. induction sqs as [|s sqs IH]; intros Hnd Hin; [inversion Hin|].
  apply NoDup_cons in Hnd as [Hs Hnd]. cbn [material foldr].
  fold (material nb sqs). fold (material board sqs).
  rewrite (cellAt_set _ _ _ _ _ s H).
  assert (Hcases : s = mkPos r c \/
            (mkPos r c ∈ sqs /\ (r =? pos_r s) && (c =? pos_c s) = false)).
  { destruct (Z.eqb_spec r (pos_r s)) as [Er | Er];
      [destruct (Z.eqb_spec c (pos_c s)) as [Ec | Ec]|].
    - left. destruct s as [sr sc]. cbn [pos_r pos_c] in *. subst. reflexivity.
    - right. split; [|reflexivity]. apply elem_of_cons in Hin as [E | Hin]; [|assumption].
      subst s. cbn [pos_c] in Ec. congruence.
    - right. split; [|reflexivity]. apply elem_of_cons in Hin as [E | Hin]; [|assumption].
      subst s. cbn [pos_r] in Er. congruence. }
  destruct Hcases as [-> | [Hin' ->]].
  - cbn [pos_r pos_c]. rewrite !Z.eqb_refl. cbn [andb].
    rewrite (material_set_notin _ _ _ _ _ _ H Hs). lia.
  - rewrite (IH Hnd Hin'). lia.
Qed.

(** One write on a board of the standard shape, and what it does to the
    material. *)
Lemma set_material (board : Board) (r c : Z) (v : cell) :
  standardBoard board -> 0 <= r < 8 -> 0 <= c < 8 -> plainCell v ->
  exists nb, set board r c v = Ret nb /\ standardBoard nb /\
    material nb allSquares
    = material board allSquares - cellValue (cellAt board (mkPos r c)) + cellValue v /\
    forall s, cellAt nb s = if (r =? pos_r s) && (c =? pos_c s) then v else cellAt board s.
Proof.
  intros Hstd Hr Hc Hv.
  destruct (set_standard board r c v Hstd Hr Hc Hv) as (nb & Hset & Hnb).
  exists nb. split; [assumption|]. split; [assumption|]. split.
  - apply material_set_in; [assumption | apply allSquares_NoDup |].
    apply elem_of_allSquares. auto.
  - intros s. apply cellAt_set. assumption.
Qed.

Lemma material_cloneBoard (board : Board) (sqs : list Position) :
  (forall s, s ∈ sqs -> 0 <= pos_c s) ->
  material (cloneBoard board) sqs = material board sqs.
Proof.
  induction sqs as [|s sqs IH]; intros Hin; cbn [material foldr]; [reflexivity|].
  fold (material (cloneBoard board) sqs). fold (material board sqs).
  rewrite IH by (intros s' Hs'; apply Hin; right; assumption).
  unfold cellAt. rewrite get_cloneBoard by (apply Hin; left). reflexivity.
Qed.

Lemma cellAt_cloneBoard (board : Board) (s : Position) :
  0 <= pos_c s -> cellAt (cloneBoard board) s = cellAt board s.
Proof. intros Hc. unfold cellAt. rewrite get_cloneBoard by assumption. reflexivity. Qed.

Lemma cellValue_setMoved (p : Piece) : cellValue (Obj (setMoved p)) = cellValue (Obj p).
Proof. reflexivity. Qed.

Lemma cellValue_promote_moved (p : Piece) (m : Move) (promoteTo : option PieceType) :
  cellValue (promote (Obj (setMoved p)) m promoteTo) = cellValue (promote (Obj p) m promoteTo).
Proof.
  cbn [promote]. unfold type_is. cbn [setMoved type].
  destruct (PieceType_eqb (type p) Pawn && _); reflexivity.
Qed.

Lemma cellValue_falsy (x : cell) : truthy x = false -> cellValue x = 0.
Proof. destruct x; [reflexivity.. | discriminate | discriminate]. Qed.

Lemma plainCell_promote (p : Piece) (m : Move) (promoteTo : option PieceType) :
  plainCell (promote (Obj p) m promoteTo).
Proof. cbn [promote]. destruct (type_is p Pawn && _); right; eauto. Qed.

(** An accepted move leaves its origin. *)
Lemma isValidMove_leaves (board : Board) (a b : Position) (turn : Color) (cs : bool) :
  isValidMove board a b turn cs = Ret true -> a <> b.
Proof.
  unfold isValidMove. intros H <-.
  apply obind_Ret in H as (x & Hx & H). rewrite Hx in H. cbn [obind] in H.
  destruct x as [| |p|]; try discriminate.
  destruct (negb (color_is p turn)); [discriminate|].
  destruct (color p); cbn [Color_eqb] in H; discriminate.
Qed.

Ltac decide_tests :=
  repeat match goal with
         | |- context [Z.eqb ?x ?y] => destruct (Z.eqb_spec x y); try lia
         end;
  cbn [andb].

(** A legal move changes the evaluation by the value of what it takes:
    on a board of the standard shape, when the validator accepts a move
    (a castling being one of a king in column 4), the score of the board
    after the move is the score before it, less the value of the cell of
    the destination, plus what a promotion adds to the pawn.  A castling
    changes nothing. *)
Theorem move_material (board : Board) (a b : Position) (turn : Color)
    (promoteTo : option PieceType) (p : Piece) (target : cell) :
  standardBoard board ->
  0 <= pos_r a < 8 -> 0 <= pos_c a < 8 -> 0 <= pos_r b < 8 -> 0 <= pos_c b < 8 ->
  get board (pos_r a) (pos_c a) = Ret (Obj p) ->
  get board (pos_r b) (pos_c b) = Ret target ->
  isValidMove board a b turn true = Ret true ->
  (type p = King -> Z.abs (pos_c b - pos_c a) = 2 -> pos_c a = 4) ->
  exists nb v,
    applyMove board (mkMove a b) promoteTo = Ret nb /\
    evaluateBoard board = Ret (Fin v) /\
    evaluateBoard nb
    = Ret (Fin (v - cellValue target
                + (cellValue (promote (Obj p) (mkMove a b) promoteTo) - cellValue (Obj p)))).
Proof.
  intros Hstd Har Hac Hbr Hbc Hp Ht Hv Hhome.
  pose proof (isValidMove_leaves _ _ _ _ _ Hv) as Hne.
  assert (Hne' : pos_r a <> pos_r b \/ pos_c a <> pos_c b).
  { destruct a as [ar ac], b as [br bc]. cbn [pos_r pos_c].
    destruct (Z.eq_dec ar br) as [-> | ?]; [|left; assumption].
    destruct (Z.eq_dec ac bc) as [-> | ?]; [|right; assumption].
    exfalso. apply Hne. reflexivity. }
  pose proof (cloneBoard_standard board Hstd) as Hcl.
  assert (Hmc : material (cloneBoard board) allSquares = material board allSquares).
  { apply material_cloneBoard. intros [r c] Hs. apply elem_of_allSquares in Hs.
    cbn [pos_c]. lia. }
  assert (Hca : cellAt board a = Obj p) by (unfold cellAt; rewrite Hp; reflexivity).
  assert (Hcb : cellAt board b = target) by (unfold cellAt; rewrite Ht; reflexivity).
  unfold applyMove. cbn [from to]. rewrite get_cloneBoard, Hp by lia. cbn [obind movedCopy].
  destruct (cell_type_is (Obj (setMoved p)) King && (Z.abs (pos_c b - pos_c a) =? 2))
    eqn:Hcastle.
  - apply andb_true_iff in Hcastle as [Hking Hdx].
    cbn [cell_type_is] in Hking. apply type_is_eq in Hking. cbn [setMoved type] in Hking.
    apply Z.eqb_eq in Hdx. specialize (Hhome Hking Hdx).
    destruct (isValidMove_geometry _ _ _ _ _ _ Hp Hv) as (target' & Hg).
    unfold geometry in Hg. rewrite Hking in Hg.
    destruct (kingValid_castling _ _ _ _ _ (or_introl Hdx) Hg)
      as (Hrow & _ & _ & _ & (rk & Hrk & _) & Hclear & _).
    pose proof (isPathClear_row _ _ _ Hclear) as Hempty.
    destruct a as [ar ac], b as [br bc]. cbn [pos_r pos_c] in *. subst ac br.
    destruct (Z.ltb_spec 4 bc) as [Hside | Hside].
    + assert (bc = 6) by lia. subst bc.
      rewrite get_cloneBoard, Hrk by lia. cbn [obind movedCopy].
      destruct (Hempty 5 ltac:(lia)) as (x5 & Hx5 & Hf5).
      destruct (set_material _ ar 5 (Obj (setMoved rk)) Hcl Har ltac:(lia) ltac:(right; eauto))
        as (b0 & -> & Hb0 & Hm0 & Hc0). cbn [obind].
      destruct (set_material _ ar 7 Null Hb0 Har ltac:(lia) ltac:(left; reflexivity))
        as (b1 & -> & Hb1 & Hm1 & Hc1). cbn [obind].
      destruct (set_material _ ar 6 (promote (Obj (setMoved p)) (mkMove (mkPos ar 4) (mkPos ar 6))
                                       promoteTo) Hb1 Har ltac:(lia)
                  (plainCell_promote _ _ _)) as (b2 & -> & Hb2 & Hm2 & Hc2). cbn [obind].
      destruct (set_material _ ar 4 Null Hb2 Har ltac:(lia) ltac:(left; reflexivity))
        as (nb & -> & Hnb & Hm3 & Hc3).
      exists nb, (material board allSquares).
      split; [reflexivity|]. split; [apply evaluateBoard_material; assumption|].
      rewrite (evaluateBoard_material nb Hnb). f_equal. f_equal.
      rewrite Hm3, Hm2, Hm1, Hm0, Hmc, !Hc2, !Hc1, !Hc0. cbn [pos_r pos_c].
      decide_tests.
      rewrite !cellAt_cloneBoard by (cbn [pos_c]; lia). rewrite Hca, Hcb.
      assert (E5 : cellAt board (mkPos ar 5) = x5)
        by (unfold cellAt; cbn [pos_r pos_c]; rewrite Hx5; reflexivity).
      assert (E7 : cellAt board (mkPos ar 7) = Obj rk)
        by (unfold cellAt; cbn [pos_r pos_c]; rewrite Hrk; reflexivity).
      rewrite E5, E7, (cellValue_falsy x5 Hf5), cellValue_promote_moved, ?cellValue_setMoved.
      change (cellValue Null) with 0. lia.
    + assert (bc = 2) by lia. subst bc.
      rewrite get_cloneBoard, Hrk by lia. cbn [obind movedCopy].
      destruct (Hempty 3 ltac:(lia)) as (x3 & Hx3 & Hf3).
      destruct (set_material _ ar 3 (Obj (setMoved rk)) Hcl Har ltac:(lia) ltac:(right; eauto))
        as (b0 & -> & Hb0 & Hm0 & Hc0). cbn [obind].
      destruct (set_material _ ar 0 Null Hb0 Har ltac:(lia) ltac:(left; reflexivity))
        as (b1 & -> & Hb1 & Hm1 & Hc1). cbn [obind].
      destruct (set_material _ ar 2 (promote (Obj (setMoved p)) (mkMove (mkPos ar 4) (mkPos ar 2))
                                       promoteTo) Hb1 Har ltac:(lia)
                  (plainCell_promote _ _ _)) as (b2 & -> & Hb2 & Hm2 & Hc2). cbn [obind].
      destruct (set_material _ ar 4 Null Hb2 Har ltac:(lia) ltac:(left; reflexivity))
        as (nb & -> & Hnb & Hm3 & Hc3).
      exists nb, (material board allSquares).
      split; [reflexivity|]. split; [apply evaluateBoard_material; assumption|].
      rewrite (evaluateBoard_material nb Hnb). f_equal. f_equal.
      rewrite Hm3, Hm2, Hm1, Hm0, Hmc, !Hc2, !Hc1, !Hc0. cbn [pos_r pos_c].
      decide_tests.
      rewrite !cellAt_cloneBoard by (cbn [pos_c]; lia). rewrite Hca, Hcb.
      assert (E3 : cellAt board (mkPos ar 3) = x3)
        by (unfold cellAt; cbn [pos_r pos_c]; rewrite Hx3; reflexivity).
      assert (E0 : cellAt board (mkPos ar 0) = Obj rk)
        by (unfold cellAt; cbn [pos_r pos_c]; rewrite Hrk; reflexivity).
      rewrite E3, E0, (cellValue_falsy x3 Hf3), cellValue_promote_moved, ?cellValue_setMoved.
      change (cellValue Null) with 0. lia.
  - cbn [obind].
    destruct (set_material _ (pos_r b) (pos_c b) (promote (Obj (setMoved p)) (mkMove a b) promoteTo)
                Hcl Hbr Hbc (plainCell_promote _ _ _)) as (b2 & -> & Hb2 & Hm2 & Hc2).
    cbn [obind].
    destruct (set_material _ (pos_r a) (pos_c a) Null Hb2 Har Hac ltac:(left; reflexivity))
      as (nb & -> & Hnb & Hm3 & Hc3).
    exists nb, (material board allSquares).
    split; [reflexivity|]. split; [apply evaluateBoard_material; assumption|].
    rewrite (evaluateBoard_material nb Hnb). f_equal. f_equal.
    rewrite Hm3, Hm2, Hmc, !Hc2. cbn [pos_r pos_c].
    replace (mkPos (pos_r a) (pos_c a)) with a by (destruct a; reflexivity).
    replace (mkPos (pos_r b) (pos_c b)) with b by (destruct b; reflexivity).
    rewrite !cellAt_cloneBoard by lia. rewrite Hca, Hcb, cellValue_promote_moved.
    change (cellValue Null) with 0.
    decide_tests; lia.
Qed.

Lemma exchangeBoard_standard : standardBoard exchangeBoard.
Proof.
  split; [reflexivity|].
  unfold exchangeBoard.
  repeat (apply Forall_cons; split;
          [repeat split;
           cbn [elems];
           repeat (apply Forall_cons; split; [first [left; reflexivity | right; eauto]|]);
           apply Forall_nil; exact I|]).
  apply Forall_nil. exact I.
Qed.

Lemma move_material_witness :
  exists nb v,
    applyMove exchangeBoard (mv 4 4 3 3) None = Ret nb /\
    evaluateBoard exchangeBoard = Ret (Fin v) /\
    evaluateBoard nb = Ret (Fin (v - 10 + 0)).
Proof.
  apply (move_material exchangeBoard (mkPos 4 4) (mkPos 3 3) white None
           (mkPiece Pawn white (Some true)) (Obj (mkPiece Pawn black (Some true)))).
  - exact exchangeBoard_standard.
  - simpl. lia.
  - simpl. lia.
  - simpl. lia.
  - simpl. lia.
  - reflexivity.
  - reflexivity.
  - vm_compute. reflexivity.
  - discriminate.
Defined.

(** ** The flag [hasMoved] *)

Lemma moved_promote (x : cell) (m : Move) (promoteTo : option PieceType) (p : Piece) :
  promote (movedCopy x) m promoteTo = Obj p -> moved p = true.
Proof.
  destruct x as [| |q|]; cbn [movedCopy promote]; try discriminate.
  destruct (type_is (setMoved q) Pawn && _); intros E; injection E as <-; reflexivity.
Qed.

Lemma moved_movedCopy (x : cell) (p : Piece) : movedCopy x = Obj p -> moved p = true.
Proof.
  destruct x as [| |q|]; cbn [movedCopy]; try discriminate.
  intros E. injection E as <-. reflexivity.
Qed.

(** Every cell that [applyMove] writes holds [null] or a piece marked as
    moved. *)
Lemma applyMove_unmovedAtHome (board nb : Board) (m : Move) (promoteTo : option PieceType) :
  unmovedAtHome board -> applyMove board m promoteTo = Ret nb -> unmovedAtHome nb.
Proof.
  intros Hhome Happ r c p Hr Hc Hget Hmv.
  destruct (applyMove_get board nb m promoteTo r c Happ) as (x & Hx & Hcell).
  rewrite Hget in Hcell.
  destruct ((pos_r (from m) =? r) && (pos_c (from m) =? c)); [discriminate|].
  destruct ((pos_r (to m) =? r) && (pos_c (to m) =? c)).
  { injection Hcell as Hcell. symmetry in Hcell. apply moved_promote in Hcell. congruence. }
  destruct (isCastling board m && (pos_r (from m) =? r) && _); [discriminate|].
  destruct (isCastling board m && (pos_r (from m) =? r) && _).
  { destruct (get (cloneBoard board) (pos_r (from m))
               (if pos_c (from m) <? pos_c (to m) then 7 else 0)) as [y| |];
      cbn [obind] in Hcell; try discriminate.
    injection Hcell as Hcell. symmetry in Hcell. apply moved_movedCopy in Hcell. congruence. }
  rewrite get_cloneBoard in Hcell by lia. apply Hhome; auto.
Qed.

Lemma getInitialBoard_unmovedAtHome : unmovedAtHome getInitialBoard.
Proof. intros r c p _ _ H _. exact H. Qed.

Section Flags.

Variable sortCaptured : list (option PieceType) -> list (option PieceType).
Variable shuffle : list Move -> list Move.
Hypothesis shuffle_perm : forall l, Permutation l (shuffle l).

Lemma replayLoop_unmovedAtHome (records : list MoveRecord) :
  forall st r, unmovedAtHome (replayBoard st) ->
    replayLoop sortCaptured st records = Ret r -> unmovedAtHome (replayBoard r).
Proof.
  induction records as [|record records IH]; intros st r Hhome H; cbn [replayLoop] in H.
  - injection H as <-. assumption.
  - apply obind_Ret in H as (st' & Hstep & H). apply (IH st' r); [|assumption].
    unfold replayStep in Hstep.
    apply obind_Ret in Hstep as (target & _ & Hstep).
    apply obind_Ret in Hstep as (nb & Happ & Hstep). injection Hstep as <-.
    cbn [replayBoard]. exact (applyMove_unmovedAtHome _ _ _ _ Hhome Happ).
Qed.

(** The flag [hasMoved] tells the truth: whatever the events of the
    interface, a piece of the board whose flag is not set is the piece that
    [getInitialBoard] puts on that square.  An unmoved king stands in
    column 4 of its first row, an unmoved rook in column 0 or 7. *)
Theorem game_unmoved_at_home (mode : GameMode) (events : list Event) :
  Forall produced events ->
  exists s, run sortCaptured shuffle events (initialState mode) = Ret s /\
    forall r c p, 0 <= r < 8 -> 0 <= c < 8 ->
      get (st_board s) r c = Ret (Obj p) -> moved p = false ->
      get getInitialBoard r c = Ret (Obj p).
Proof.
  intros Hev.
  destruct (run_wellFormed sortCaptured shuffle shuffle_perm events _
              (initialState_wellFormed sortCaptured mode) Hev)
    as (s & Hrun & _ & (r0 & Hr0 & Hboard & _) & _).
  exists s. split; [assumption|]. rewrite <- Hboard.
  apply (replayLoop_unmovedAtHome (history s) replayStart r0);
    [exact getInitialBoard_unmovedAtHome | assumption].
Qed.

End Flags.

Lemma game_unmoved_at_home_witness :
  exists s, run (fun l => l) (@rev Move)
              [Click 7 6; Click 5 5; AiStart; AiReply 1; Click 5 5; Click 7 6]
              (initialState AI) = Ret s /\
    forall r c p, 0 <= r < 8 -> 0 <= c < 8 ->
      get (st_board s) r c = Ret (Obj p) -> moved p = false ->
      get getInitialBoard r c = Ret (Obj p).
Proof.
  apply (game_unmoved_at_home (fun l => l) (@rev Move) (@Permutation_rev Move)).
  repeat (apply Forall_cons; split; [cbn; lia || exact I|]). apply Forall_nil. exact I.
Defined.

Lemma undo_returns_to_player_witness :
  exists s', undoMove (fun l => l) openingState = Ret s' /\ st_turn s' = white.
Proof.
  apply (undo_returns_to_player (fun l => l) (@rev Move) (@Permutation_rev Move) AI
           [Click 6 4; Click 4 4]).
  - repeat (apply Forall_cons; split; [cbn; lia|]). apply Forall_nil. exact I.
  - vm_compute. reflexivity.
  - vm_compute. reflexivity.
  - vm_compute. reflexivity.
Defined.

(** ** The notation and the sound of a move *)

Lemma str_includes_char (c : Ascii.ascii) (s : string) :
  str_includes (String c EmptyString) s = has c s.
Proof.
  induction s as [|c' s IH]; [reflexivity|].
  cbn [str_includes has String.prefix]. rewrite IH.
  destruct (Ascii.ascii_dec c c'); [|reflexivity]. destruct s; reflexivity.
Qed.

Lemma has_app (c : Ascii.ascii) (s1 s2 : string) :
  has c (s1 +:+ s2) = has c s1 || has c s2.
Proof.
  induction s1 as [|c' s1 IH]; [reflexivity|].
  change (String c' s1 +:+ s2) with (String c' (s1 +:+ s2)).
  cbn [has]. rewrite IH, orb_assoc. reflexivity.
Qed.

Lemma str_includes_castle (s : string) :
  has Marks.castles s = false -> str_includes "O-O" s = false.
Proof.
  induction s as [|c' s IH]; [reflexivity|].
  cbn [has str_includes String.prefix]. intros H. apply orb_false_iff in H as [Hc Hs].
  rewrite (IH Hs). unfold Marks.castles in Hc.
  destruct (Ascii.ascii_dec _ c'); [discriminate | reflexivity].
Qed.

Lemma plain_app (s1 s2 : string) : plain s1 -> plain s2 -> plain (s1 +:+ s2).
Proof.
  intros (H1 & H2 & H3 & H4 & H5) (K1 & K2 & K3 & K4 & K5).
  unfold plain. rewrite !has_app, H1, H2, H3, H4, H5, K1, K2, K3, K4, K5. auto.
Qed.

Lemma plain_fileName (c : Z) : 0 <= c < 8 -> plain (fileName c).
Proof.
  intros Hc.
  assert (E : c = 0 \/ c = 1 \/ c = 2 \/ c = 3 \/ c = 4 \/ c = 5 \/ c = 6 \/ c = 7) by lia.
  destruct E as [-> | [-> | [-> | [-> | [-> | [-> | [-> | ->]]]]]]];
    vm_compute; auto.
Qed.

Lemma plain_rank (r : Z) : 0 <= r < 8 -> plain (showZ (8 - r)).
Proof.
  intros Hr.
  assert (E : r = 0 \/ r = 1 \/ r = 2 \/ r = 3 \/ r = 4 \/ r = 5 \/ r = 6 \/ r = 7) by lia.
  destruct E as [-> | [-> | [-> | [-> | [-> | [-> | [-> | ->]]]]]]];
    vm_compute; auto.
Qed.

Lemma plain_upper (t : PieceType) : plain (upper t).
Proof. destruct t; vm_compute; auto. Qed.

Lemma plain_empty : plain "".
Proof. vm_compute. auto. Qed.

Lemma plain_disambiguation (os : list Position) (m : Move) :
  0 <= pos_r (from m) < 8 -> 0 <= pos_c (from m) < 8 -> plain (disambiguation os m).
Proof.
  intros Hr Hc. unfold disambiguation. destruct os as [|o os]; [apply plain_empty|].
  destruct (negb _); [apply plain_fileName; assumption|].
  destruct (negb _); [apply plain_rank; assumption|].
  apply plain_app; [apply plain_fileName | apply plain_rank]; assumption.
Qed.

Lemma checkSuffix_inv (nextBoard : Board) (opponent : Color) (suffix : string) :
  checkSuffix nextBoard opponent = Ret suffix ->
  exists chk, isInCheck nextBoard opponent = Ret chk /\
    (chk = false /\ suffix = "" \/ chk = true /\ (suffix = "#" \/ suffix = "+"))%string.
Proof.
  unfold checkSuffix. intros H. apply obind_Ret in H as (chk & Hchk & H).
  exists chk. split; [assumption|]. destruct chk.
  - apply obind_Ret in H as (moves & _ & H). injection H as <-.
    right. split; [reflexivity|]. destruct moves; auto.
  - injection H as <-. left. auto.
Qed.

(** The sound of a notation made of a body and of the check suffix. *)
Lemma sanSound_body (body suffix : string) (chk : bool) :
  has Marks.mate body = false -> has Marks.check body = false -> has Marks.castles body = false ->
  (chk = false /\ suffix = "" \/ chk = true /\ (suffix = "#" \/ suffix = "+"))%string ->
  sanSound (body +:+ suffix)
  = if chk then SoundNotify
    else if has Marks.promotion body then SoundPromote
    else if has Marks.takes body then SoundCapture
    else SoundMove.
Proof.
  intros H1 H2 H5 Hs. unfold sanSound.
  unfold Marks.mate, Marks.check, Marks.promotion, Marks.takes, Marks.castles in *.
  rewrite !str_includes_char, !has_app, H1, H2.
  destruct Hs as [[-> ->] | [-> [-> | ->]]]; cbn [has orb];
    [|rewrite ?orb_true_r; reflexivity..].
  rewrite !orb_false_r.
  rewrite str_includes_castle by (unfold Marks.castles; rewrite has_app, H5; reflexivity).
  reflexivity.
Qed.

(** The sound that follows a move tells what the move did: the alert when
    it gives check, else the sound of a castling for a king that moves two
    columns, else the sound of a promotion for a pawn moved with a
    promotion type, else the sound of a capture when the destination was
    not [null], else the plain sound. *)
Theorem move_sound (prevBoard nextBoard : Board) (a b : Position)
    (promoteTo : option PieceType) (piece : Piece) (target : cell) (san : string) :
  0 <= pos_r a < 8 -> 0 <= pos_c a < 8 -> 0 <= pos_r b < 8 -> 0 <= pos_c b < 8 ->
  get prevBoard (pos_r a) (pos_c a) = Ret (Obj piece) ->
  get prevBoard (pos_r b) (pos_c b) = Ret target ->
  getSan prevBoard nextBoard (mkMove a b) promoteTo = Ret san ->
  exists chk, isInCheck nextBoard (opponentOf (color piece)) = Ret chk /\
    sanSound san
    = if chk then SoundNotify
      else if type_is piece King && (Z.abs (pos_c b - pos_c a) =? 2) then SoundCastle
      else if type_is piece Pawn && isSome promoteTo then SoundPromote
      else if notNull target then SoundCapture
      else SoundMove.
Proof.
  intros Har Hac Hbr Hbc Hp Ht H. unfold getSan in H. cbn [from to] in H.
  rewrite Hp in H. cbn [obind] in H.
  pose proof (plain_fileName _ Hac) as Pfa. pose proof (plain_fileName _ Hbc) as Pfb.
  pose proof (plain_rank _ Hbr) as Prb.
  destruct (type_is piece King && (Z.abs (pos_c b - pos_c a) =? 2)).
  - apply obind_Ret in H as (suffix & Hsuf & H). injection H as <-.
    destruct (checkSuffix_inv _ _ _ Hsuf) as (chk & Hchk & Hcases).
    exists chk. split; [assumption|].
    destruct (pos_c a <? pos_c b);
      destruct Hcases as [[-> ->] | [-> [-> | ->]]]; reflexivity.
  - rewrite Ht in H. cbn [obind] in H.
    apply obind_Ret in H as (body & Hbody & H).
    apply obind_Ret in H as (suffix & Hsuf & H). injection H as <-.
    destruct (checkSuffix_inv _ _ _ Hsuf) as (chk & Hchk & Hcases).
    exists chk. split; [assumption|].
    assert (Hflags : has Marks.mate body = false /\ has Marks.check body = false /\ has Marks.castles body = false /\
                     has Marks.promotion body = type_is piece Pawn && isSome promoteTo /\
                     has Marks.takes body = notNull target).
    { destruct Pfa as (A1 & A2 & A3 & A4 & A5). destruct Pfb as (D1 & D2 & D3 & D4 & D5).
      destruct Prb as (R1 & R2 & R3 & R4 & R5).
      destruct (type_is piece Pawn).
      - injection Hbody as <-. cbn [andb].
        destruct promoteTo as [t|]; cbn [isSome].
        + destruct (plain_upper t) as (U1 & U2 & U3 & U4 & U5).
          destruct target; cbn [notNull];
            rewrite !has_app, ?A1, ?A2, ?A3, ?A4, ?A5, ?D1, ?D2, ?D3, ?D4, ?D5, ?R1, ?R2, ?R3, ?R4, ?R5,
              ?U1, ?U2, ?U3, ?U4, ?U5; repeat split; reflexivity.
        + destruct target; cbn [notNull];
            rewrite ?has_app, ?A1, ?A2, ?A3, ?A4, ?A5, ?D1, ?D2, ?D3, ?D4, ?D5, ?R1, ?R2, ?R3, ?R4, ?R5;
            repeat split; reflexivity.
      - apply obind_Ret in Hbody as (os & _ & Hbody). injection Hbody as <-. cbn [andb].
        destruct (plain_upper (type piece)) as (U1 & U2 & U3 & U4 & U5).
        destruct (plain_disambiguation os (mkMove a b) Har Hac) as (E1 & E2 & E3 & E4 & E5).
        destruct target; cbn [notNull];
          rewrite !has_app, ?D1, ?D2, ?D3, ?D4, ?D5, ?R1, ?R2, ?R3, ?R4, ?R5, ?U1, ?U2, ?U3, ?U4, ?U5,
            ?E1, ?E2, ?E3, ?E4, ?E5; repeat split; reflexivity. }
    destruct Hflags as (F1 & F2 & F5 & F3 & F4).
    rewrite (sanSound_body body suffix chk F1 F2 F5 Hcases), F3, F4. reflexivity.
Qed.

Lemma move_sound_witness :
  exists chk, isInCheck exchangedBoard black = Ret chk /\
    sanSound "exd5" = if chk then SoundNotify else SoundCapture.
Proof.
  apply (move_sound exchangeBoard exchangedBoard (mkPos 4 4) (mkPos 3 3) None
           (mkPiece Pawn white (Some true)) (Obj (mkPiece Pawn black (Some true))) "exd5").
  - simpl. lia.
  - simpl. lia.
  - simpl. lia.
  - simpl. lia.
  - reflexivity.
  - reflexivity.
  - vm_compute. reflexivity.
Defined.
